(** * vite-plugin-es-toolkit: the import rewriting transform

    A shallow embedding of [src/index.ts].  JavaScript strings are
    sequences of UTF-16 code units; the regular expressions of the
    plugin carry neither the [u] nor the [i] flag, so every operation
    of the source works code unit by code unit.  A string is therefore
    a list of code units, each one a number. *)

From Stdlib Require Import NArith Ascii String.
From stdpp Require Import base option list.

Local Open Scope list_scope.

(** ** Strings *)

Module JsString.

Local Open Scope N_scope.

Definition char := N.
Definition str := list char.

(** Source literals are written as Rocq strings and turned into
    code units. *)
Definition lit (s : string) : str :=
  map N_of_ascii (list_ascii_of_string s).

Definition char_eqb (a b : char) : bool := N.eqb a b.

Fixpoint str_eqb (a b : str) : bool :=
  match a, b with
  | [], [] => true
  | x :: a', y :: b' => char_eqb x y && str_eqb a' b'
  | _, _ => false
  end.

(** [\w] without the [u] and [i] flags: [A-Za-z0-9_]. *)
Definition is_word (c : char) : bool :=
  ((48 <=? c) && (c <=? 57))
  || ((65 <=? c) && (c <=? 90))
  || ((97 <=? c) && (c <=? 122))
  || (c =? 95).

(** [\s], which is also the set [trim] strips: WhiteSpace and
    LineTerminator of ECMAScript. *)
Definition is_space (c : char) : bool :=
  ((9 <=? c) && (c <=? 13))
  || (c =? 32) || (c =? 160) || (c =? 5760)
  || ((8192 <=? c) && (c <=? 8202))
  || (c =? 8232) || (c =? 8233) || (c =? 8239) || (c =? 8287)
  || (c =? 12288) || (c =? 65279).

(** [s.startsWith(p)] *)
Fixpoint starts_with (p s : str) : bool :=
  match p, s with
  | [], _ => true
  | _ :: _, [] => false
  | x :: p', y :: s' => char_eqb x y && starts_with p' s'
  end.

(** [s.includes(p)] *)
Fixpoint includes (s p : str) : bool :=
  starts_with p s
  || match s with
     | [] => false
     | _ :: s' => includes s' p
     end.

(** [s.split(sep)] for a separator that is not empty (the source
    splits on [','], [' as '] and ['.']).  The text is read from
    left to right; where the separator starts, the segment read so
    far is closed and the [skip] counter steps over the rest of the
    separator. *)
Fixpoint split_from (sep : str) (skip : nat) (cur : str) (s : str)
  : list str :=
  match s with
  | [] => [cur]
  | c :: s' =>
      match skip with
      | S n => split_from sep n cur s'
      | O =>
          if starts_with sep s
          then cur :: split_from sep (pred (length sep)) [] s'
          else split_from sep 0 (cur ++ [c]) s'
      end
  end.

Definition split (s sep : str) : list str := split_from sep 0 [] s.

Fixpoint trim_start (s : str) : str :=
  match s with
  | c :: s' => if is_space c then trim_start s' else s
  | [] => []
  end.

Definition trim_end (s : str) : str := reverse (trim_start (reverse s)).

(** [s.trim()] *)
Definition trim (s : str) : str := trim_end (trim_start s).

(** [l.join(sep)] *)
Fixpoint join (sep : str) (l : list str) : str :=
  match l with
  | [] => []
  | [x] => x
  | x :: l' => x ++ sep ++ join sep l'
  end.

(** A value that may be [undefined]: truthiness of a string. *)
Definition truthy (o : option str) : bool :=
  match o with
  | Some (_ :: _) => true
  | _ => false
  end.

End JsString.

Import JsString.

(** ** Regular expressions

    The four patterns of the source use literals, character classes,
    greedy [+] and [*] over one character class, one optional group,
    capturing groups and [\b].  The matcher is the backtracking
    matcher of ECMAScript, written as the standard does with
    continuations: a pattern is run against a state and a continuation
    that matches what follows it, and a failure of the continuation
    makes the pattern try its next alternative. *)

Module Regex.

Inductive regex : Type :=
| Chr (c : char)                  (* one literal code unit *)
| Class (p : char -> bool)        (* a character class *)
| Cat (r1 r2 : regex)             (* r1 followed by r2 *)
| Plus (p : char -> bool)         (* [class]+, greedy *)
| Star (p : char -> bool)         (* [class]*, greedy *)
| Opt (r : regex)                 (* r?, greedy *)
| Group (i : nat) (r : regex)     (* capturing group number i *)
| WordBoundary                    (* \b *)
| Empty.

(** A literal run of code units. *)
Fixpoint text (s : str) : regex :=
  match s with
  | [] => Empty
  | c :: s' => Cat (Chr c) (text s')
  end.

(** Several patterns in a row. *)
Fixpoint cat (rs : list regex) : regex :=
  match rs with
  | [] => Empty
  | r :: rs' => Cat r (cat rs')
  end.

(** The state of a match attempt: the index reached, the code unit
    just before it (for [\b]), the text still to read and the
    captures, group [i] at index [i] ([None] is [undefined]). *)
Record mstate : Type := MState {
  pos : nat;
  prev : option char;
  rest : str;
  caps : list (option str)
}.

Definition cont := mstate -> option mstate.

Definition advance (c : char) (rest' : str) (st : mstate) : mstate :=
  MState (S (pos st)) (Some c) rest' (caps st).

Definition is_word_at (o : option char) : bool :=
  match o with
  | Some c => is_word c
  | None => false
  end.

(** Group [i] closes in [st'] after opening in [st]. *)
Definition capture (i : nat) (st st' : mstate) : mstate :=
  MState (pos st') (prev st') (rest st')
         (<[i := Some (take (pos st' - pos st) (rest st))]> (caps st')).

(** Greedy repetition of a class: read one more code unit first,
    fall back to stopping here. *)
Fixpoint star_k (p : char -> bool) (k : cont) (n : nat) (pv : option char)
    (cs : list (option str)) (s : str) : option mstate :=
  match s with
  | c :: s' =>
      if p c then
        match star_k p k (S n) (Some c) cs s' with
        | Some r => Some r
        | None => k (MState n pv s cs)
        end
      else k (MState n pv s cs)
  | [] => k (MState n pv s cs)
  end.

Fixpoint rmatch (r : regex) (k : cont) (st : mstate) : option mstate :=
  match r with
  | Chr c =>
      match rest st with
      | x :: s' => if char_eqb x c then k (advance x s' st) else None
      | [] => None
      end
  | Class p =>
      match rest st with
      | x :: s' => if p x then k (advance x s' st) else None
      | [] => None
      end
  | Cat r1 r2 => rmatch r1 (rmatch r2 k) st
  | Plus p =>
      match rest st with
      | x :: s' =>
          if p x then star_k p k (S (pos st)) (Some x) (caps st) s'
          else None
      | [] => None
      end
  | Star p => star_k p k (pos st) (prev st) (caps st) (rest st)
  | Opt r' =>
      match rmatch r' k st with
      | Some res => Some res
      | None => k st
      end
  | Group i r' => rmatch r' (fun st' => k (capture i st st')) st
  | WordBoundary =>
      if xorb (is_word_at (prev st)) (is_word_at (head (rest st)))
      then k st else None
  | Empty => k st
  end.

(** A pattern and the number of its capturing groups.  The regular
    expression objects of the source all carry the [g] flag; their
    [lastIndex] is kept apart, in the store of the plugin. *)
Record pattern : Type := Pattern {
  body : regex;
  ngroups : nat
}.

(** One successful match: where it starts, where it ends and what
    the groups captured ([caps] has index 0 unused). *)
Record found : Type := Found {
  m_start : nat;
  m_end : nat;
  m_text : str;
  m_caps : list (option str)
}.

(** Try the pattern at the start of [s], which sits at index [n]. *)
Definition match_at (r : pattern) (n : nat) (pv : option char) (s : str)
  : option found :=
  match rmatch (body r) Some (MState n pv s (replicate (S (ngroups r)) None)) with
  | Some st => Some (Found n (pos st) (take (pos st - n) s) (caps st))
  | None => None
  end.

(** The leftmost match at or after index [n]: the loop of
    RegExpBuiltinExec that moves one index forward after each
    failure, up to and including the end of the text. *)
Fixpoint search (r : pattern) (n : nat) (pv : option char) (s : str)
  : option found :=
  match match_at r n pv s with
  | Some m => Some m
  | None =>
      match s with
      | [] => None
      | c :: s' => search r (S n) (Some c) s'
      end
  end.

(** [r.exec(s)] for a global pattern whose [lastIndex] is [li]: the
    result and the new [lastIndex]. *)
Definition exec (r : pattern) (s : str) (li : nat) : option found * nat :=
  if (length s <? li) then (None, 0)
  else
    match search r li (last (take li s)) (drop li s) with
    | Some m => (Some m, m_end m)
    | None => (None, 0)
    end.

(** The loop shared by [String.prototype.replace] and
    [String.prototype.match] for a global pattern: call [exec] until
    it fails, stepping over an empty match.  [fuel] bounds the number
    of calls; [None] means the bound was reached. *)
Fixpoint exec_all (fuel : nat) (r : pattern) (s : str) (li : nat)
  : option (list found * nat) :=
  match fuel with
  | O => None
  | S fuel' =>
      match exec r s li with
      | (None, li') => Some ([], li')
      | (Some m, li') =>
          let li'' := if (m_end m =? m_start m) then S li' else li' in
          match exec_all fuel' r s li'' with
          | Some (ms, lf) => Some (m :: ms, lf)
          | None => None
          end
      end
  end.

(** Every call but the last moves [lastIndex] forward, and a call
    with [lastIndex] past the end fails: this many calls suffice. *)
Definition enough (s : str) : nat := S (S (length s)).

End Regex.

Import Regex.

(** ** Effects

    A callback of the source can write a warning to the console and
    can throw.  [W A] is a computation with these two effects: the
    warnings written, in order, and how the computation ended.  The
    third way to end belongs to the model only: the bound of the
    matching loop was reached ([transform_returns] shows it never
    is). *)

Module Effects.

Inductive outcome (A : Type) : Type :=
| Value (a : A)
| Thrown (msg : str)
| OutOfFuel.
Arguments Value {A} a.
Arguments Thrown {A} msg.
Arguments OutOfFuel {A}.

Definition W (A : Type) : Type := (list str * outcome A)%type.

Definition ret {A} (a : A) : W A := ([], Value a).

Definition bind {A B} (m : W A) (f : A -> W B) : W B :=
  match m with
  | (w, Value a) => let '(w', o) := f a in (w ++ w', o)
  | (w, Thrown e) => (w, Thrown e)
  | (w, OutOfFuel) => (w, OutOfFuel)
  end.

(** [console.warn(msg)] *)
Definition warn (msg : str) : W unit := ([msg], Value tt).

(** [throw new Error(msg)] *)
Definition throw {A} (msg : str) : W A := ([], Thrown msg).

Definition out_of_fuel {A} : W A := ([], OutOfFuel).

(** [l.map(f)] for a callback with effects. *)
Fixpoint mapW {A B} (f : A -> W B) (l : list A) : W (list B) :=
  match l with
  | [] => ret []
  | x :: l' =>
      bind (f x) (fun y => bind (mapW f l') (fun ys => ret (y :: ys)))
  end.

Definition warnings {A} (m : W A) : list str := fst m.
Definition result {A} (m : W A) : outcome A := snd m.

End Effects.

Import Effects.

Notation "'let*' x ':=' m 'in' k" := (bind m (fun x => k))
  (at level 10, x name, m at level 100, k at level 200).
Notation "'do' m 'then' k" := (bind m (fun _ => k))
  (at level 10, m at level 100, k at level 200).

(** ** String methods that take a regular expression *)

Module RegexMethods.

(** The replacement callback gets the matched text and the
    captures. *)
Definition callback := str -> list (option str) -> W str.

(** A capture as the callbacks of the source use it: a string. *)
Definition cap (i : nat) (cs : list (option str)) : str :=
  default [] (mjoin (cs !! i)).

(** The second half of RegExp.prototype[Symbol.replace]: the
    callback runs on each match in turn, and its results are put
    between the pieces of [s] that no match covers.  [next] is
    nextSourcePosition. *)
Fixpoint splice (s : str) (next : nat) (ms : list found) (f : callback)
  : W str :=
  match ms with
  | [] => ret (drop next s)
  | m :: ms' =>
      let* rep := f (m_text m) (m_caps m) in
      if (next <=? m_start m) then
        let* tail := splice s (m_end m) ms' f in
        ret (take (m_start m - next) (drop next s) ++ rep ++ tail)
      else splice s next ms' f
  end.

(** [s.replace(r, f)] for a global pattern [r] whose [lastIndex] is
    [li]: the new text and the [lastIndex] left in [r].  The method
    first sets [lastIndex] to 0. *)
Definition replace (r : pattern) (li : nat) (s : str) (f : callback)
  : W str * nat :=
  let li0 := 0 in
  match exec_all (enough s) r s li0 with
  | Some (ms, lf) => (splice s 0 ms f, lf)
  | None => (out_of_fuel, li0)
  end.

(** [s.match(r)] for a global pattern made on the spot (its
    [lastIndex] is 0): the matched texts, or [null] when there is
    none. *)
Definition match_all (s : str) (r : pattern) : W (option (list str)) :=
  match exec_all (enough s) r s 0 with
  | Some ([], _) => ret None
  | Some (ms, _) => ret (Some (map m_text ms))
  | None => out_of_fuel
  end.

End RegexMethods.

Import RegexMethods.

(** ** The plugin *)

Module Plugin.

(** The class of the two quote characters, written [Q] in the
    patterns quoted below: the single quote (39) and the double
    quote (34). *)
Definition is_quote (c : char) : bool := ((c =? 39) || (c =? 34))%N.

(** [[\w( as \w)\s,]]: inside a class the parentheses, the space and
    the letters stand for themselves. *)
Definition is_named_list_char (c : char) : bool :=
  (is_word c || (c =? 40) || (c =? 32) || (c =? 97) || (c =? 115)
   || (c =? 32) || is_word c || (c =? 41) || is_space c || (c =? 44))%N.

(** [/import\s+(\w+)\s+from\s+QlodashQ/gm] *)
Definition defaultImportRegex : pattern :=
  Pattern
    (cat [text (lit "import"); Plus is_space; Group 1 (Plus is_word);
          Plus is_space; text (lit "from"); Plus is_space;
          Class is_quote; text (lit "lodash"); Class is_quote])
    1.

(** [/import\s+\{\s*([\w( as \w)\s,]+)\s*\}\s+from\s+QlodashQ/gm] *)
Definition namedImportsRegex : pattern :=
  Pattern
    (cat [text (lit "import"); Plus is_space; Chr 123%N; Star is_space;
          Group 1 (Plus is_named_list_char); Star is_space; Chr 125%N;
          Plus is_space; text (lit "from"); Plus is_space;
          Class is_quote; text (lit "lodash"); Class is_quote])
    1.

(** [/import\s+(\w+)\s+from\s+Qlodash\/(\w+)(\.js)?Q/gm] *)
Definition defaultSingleImportRegex : pattern :=
  Pattern
    (cat [text (lit "import"); Plus is_space; Group 1 (Plus is_word);
          Plus is_space; text (lit "from"); Plus is_space;
          Class is_quote; text (lit "lodash/"); Group 2 (Plus is_word);
          Opt (Group 3 (text (lit ".js"))); Class is_quote])
    3.

(** [new RegExp(`\\b${defaultImportName}\\.\\w+`, 'g')]; the name is
    a run of word characters, so it stands for itself in the
    pattern. *)
Definition usageRegex (defaultImportName : str) : pattern :=
  Pattern
    (cat [WordBoundary; text defaultImportName; Chr 46%N; Plus is_word])
    0.

Record NamedImport : Type := mkNamedImport {
  actualName : str;
  customName : str
}.

(** What [transform] returns when it returns an object.  The field
    [map] of the source is [map_] here ([map] is taken by lists);
    [None] is [null]. *)
Record TransformResult : Type := mkResult {
  code : str;
  map_ : option str
}.

(** The three regular expression objects live at module level and
    are shared by every call: the store holds their [lastIndex]. *)
Record store : Type := mkStore {
  defaultImportRegex_lastIndex : nat;
  namedImportsRegex_lastIndex : nat;
  defaultSingleImportRegex_lastIndex : nat
}.

(** A computation on the store. *)
Definition JS (A : Type) : Type := store -> (W A * store)%type.

Definition bindJS {A B} (m : JS A) (f : A -> JS B) : JS B :=
  fun st =>
    match m st with
    | ((w, Value a), st') =>
        let '((w', o), st'') := f a st' in ((w ++ w', o), st'')
    | ((w, Thrown e), st') => ((w, Thrown e), st')
    | ((w, OutOfFuel), st') => ((w, OutOfFuel), st')
    end.

Definition nonempty {A} (l : list A) : bool :=
  match l with
  | [] => false
  | _ :: _ => true
  end.

Section WithSupportedFunctions.

(** [Object.keys(esToolkitCompat)] *)
Variable supportedFunctions : list str.

Definition isSupportedFunction (name : str) : bool :=
  existsb (str_eqb name) supportedFunctions.

Definition isUnsupportedFunction (name : str) : bool :=
  negb (isSupportedFunction name).

Definition warnUnsupportedFunction (names : list str) : W unit :=
  warn (lit "Unsupported lodash function"
        ++ (if (1 <? length names) then lit "s" else [])
        ++ lit ": " ++ join (lit ", ") names).

Definition parseNamedImport (namedImportName : str) : W NamedImport :=
  let parts := split namedImportName (lit " as ") in
  let actual := parts !! 0 in
  let custom := parts !! 1 in
  if negb (truthy actual) then throw (lit "Invalid named import")
  else
    ret (mkNamedImport
           (default [] actual)
           (if truthy custom then default [] custom
            else default [] actual)).

Definition renderNamedImport (ni : NamedImport) : str :=
  if str_eqb (actualName ni) (customName ni) then actualName ni
  else actualName ni ++ lit " as " ++ customName ni.

Definition renderNamedImports (namedImports : list NamedImport) : str :=
  join (lit ", ") (map renderNamedImport namedImports).

(** [globalImportUsages.map((usage) => usage.split('.')[1] || '')] *)
Definition usedFunctions (globalImportUsages : list str) : list str :=
  map (fun usage => default [] (split usage (lit ".") !! 1))
      globalImportUsages.

(** Split by comma, trim whitespace, remove empty strings. *)
Definition namedImportNames (rawNamedImportNames : str) : list str :=
  List.filter nonempty
    (map trim (split rawNamedImportNames (lit ","))).

(** The callback of the first pass.  [src] is the text the
    callback scans for usages: the variable
    [srcWithReplacedImports], which still holds the text the
    transform was given while the first [replace] runs. *)
Definition defaultImportCallback (src : str) (match_ : str)
    (defaultImportName : str) : W str :=
  let* globalImportUsages :=
    match_all src (usageRegex defaultImportName) in
  match globalImportUsages with
  | None => ret match_
  | Some usages =>
      let unsupportedFunctions :=
        List.filter isUnsupportedFunction (usedFunctions usages) in
      if nonempty unsupportedFunctions then
        do warnUnsupportedFunction unsupportedFunctions then
        ret match_
      else
        ret (lit "import { * as " ++ defaultImportName
             ++ lit " } from 'es-toolkit/compat'")
  end.

(** The callback of the second pass. *)
Definition namedImportsCallback (match_ : str)
    (rawNamedImportNames : str) : W str :=
  let* parsedNamedImportNames :=
    mapW parseNamedImport (namedImportNames rawNamedImportNames) in
  let currentSupportedFunctions :=
    List.filter (fun ni => isSupportedFunction (actualName ni))
                parsedNamedImportNames in
  let unsupportedFunctions :=
    List.filter (fun ni => isUnsupportedFunction (actualName ni))
                parsedNamedImportNames in
  if nonempty unsupportedFunctions then
    do warnUnsupportedFunction (map actualName unsupportedFunctions) then
    if negb (nonempty currentSupportedFunctions) then ret match_
    else
      ret (lit "import { " ++ renderNamedImports currentSupportedFunctions
           ++ lit " } from 'es-toolkit/compat';import { "
           ++ renderNamedImports unsupportedFunctions
           ++ lit " } from 'lodash'")
  else
    ret (lit "import { " ++ renderNamedImports currentSupportedFunctions
         ++ lit " } from 'es-toolkit/compat'").

(** The callback of the third pass. *)
Definition defaultSingleImportCallback (match_ : str)
    (customNamedImportName actualNamedImportName : str) : W str :=
  if isUnsupportedFunction actualNamedImportName then
    do warnUnsupportedFunction [actualNamedImportName] then
    ret match_
  else if str_eqb actualNamedImportName customNamedImportName then
    ret (lit "import { " ++ actualNamedImportName
         ++ lit " } from 'es-toolkit/compat'")
  else
    ret (lit "import { " ++ actualNamedImportName ++ lit " as "
         ++ customNamedImportName ++ lit " } from 'es-toolkit/compat'").

(** The three passes, each a [replace] through one of the shared
    regular expression objects. *)
Definition defaultImportPass (src : str) : JS str :=
  fun st =>
    let '(r, li) :=
      replace defaultImportRegex (defaultImportRegex_lastIndex st) src
        (fun m cs => defaultImportCallback src m (cap 1 cs)) in
    (r, mkStore li (namedImportsRegex_lastIndex st)
                (defaultSingleImportRegex_lastIndex st)).

Definition namedImportsPass (src : str) : JS str :=
  fun st =>
    let '(r, li) :=
      replace namedImportsRegex (namedImportsRegex_lastIndex st) src
        (fun m cs => namedImportsCallback m (cap 1 cs)) in
    (r, mkStore (defaultImportRegex_lastIndex st) li
                (defaultSingleImportRegex_lastIndex st)).

Definition defaultSingleImportPass (src : str) : JS str :=
  fun st =>
    let '(r, li) :=
      replace defaultSingleImportRegex
        (defaultSingleImportRegex_lastIndex st) src
        (fun m cs => defaultSingleImportCallback m (cap 1 cs) (cap 2 cs)) in
    (r, mkStore (defaultImportRegex_lastIndex st)
                (namedImportsRegex_lastIndex st) li).

(** [transform(src, id)]: [None] is [undefined].  The function of
    the source declares [src] only; the host calls it with the
    file identifier as well. *)
Definition transform (src id : str) : JS (option TransformResult) :=
  if includes src (lit "lodash") then
    bindJS (defaultImportPass src) (fun src1 =>
    bindJS (namedImportsPass src1) (fun src2 =>
    bindJS (defaultSingleImportPass src2) (fun src3 =>
    fun st => (ret (Some (mkResult src3 None)), st))))
  else
    fun st => (ret None, st).

End WithSupportedFunctions.

Definition store0 : store := mkStore 0 0 0.

End Plugin.

Import Plugin.


(** ** Vocabulary of the statements *)

Module Shapes.

(** A run of word characters that is not empty: what [\w+] reads,
    an identifier of the import statements. *)
Definition word_run (s : str) : Prop :=
  s ≠ [] ∧ Forall (fun c => is_word c = true) s.

(** What [\s+] reads. *)
Definition space_run (s : str) : Prop :=
  s ≠ [] ∧ Forall (fun c => is_space c = true) s.

(** [p] occurs in [s]. *)
Definition substring (p s : str) : Prop :=
  ∃ pre post, s = pre ++ p ++ post.

(** The state reached from [st] by reading [w]. *)
Definition read (w : str) (st : mstate) : mstate :=
  MState (pos st + length w) (from_option Some (prev st) (last w))
         (drop (length w) (rest st)) (caps st).

(** [st] stands before the text [w]. *)
Definition before (w : str) (st : mstate) : Prop :=
  ∃ tl, rest st = w ++ tl.

(** The declarative reading of a pattern: the matcher can go from
    [st] to [st'] through [r]. *)
Fixpoint accepts (r : regex) (st st' : mstate) : Prop :=
  match r with
  | Chr c => before [c] st ∧ st' = read [c] st
  | Class p => ∃ x, p x = true ∧ before [x] st ∧ st' = read [x] st
  | Cat r1 r2 => ∃ mid, accepts r1 st mid ∧ accepts r2 mid st'
  | Plus p =>
      ∃ w, w ≠ [] ∧ Forall (fun c => p c = true) w
           ∧ before w st ∧ st' = read w st
  | Star p =>
      ∃ w, Forall (fun c => p c = true) w ∧ before w st ∧ st' = read w st
  | Opt r' => accepts r' st st' ∨ st' = st
  | Group i r' => ∃ st1, accepts r' st st1 ∧ st' = capture i st st1
  | WordBoundary =>
      xorb (is_word_at (prev st)) (is_word_at (head (rest st))) = true
      ∧ st' = st
  | Empty => st' = st
  end.

(** [st'] is [st] after reading [w]; the captures may differ. *)
Definition reads (w : str) (st st' : mstate) : Prop :=
  rest st = w ++ rest st'
  ∧ pos st' = pos st + length w
  ∧ prev st' = from_option Some (prev st) (last w).

(** The computation returns a value: it neither throws nor runs out
    of fuel. *)
Definition returns {A} (m : W A) : Prop := ∃ w a, m = (w, Value a).

Definition spaces (s : str) : Prop :=
  Forall (fun c => is_space c = true) s.

(** [import <name> from 'lodash'], with either quote character. *)
Definition default_import_text (name t : str) : Prop :=
  ∃ ws1 ws2 ws3 q1 q2,
    t = lit "import" ++ ws1 ++ name ++ ws2 ++ lit "from" ++ ws3
        ++ [q1] ++ lit "lodash" ++ [q2]
    ∧ space_run ws1 ∧ space_run ws2 ∧ space_run ws3
    ∧ is_quote q1 = true ∧ is_quote q2 = true.

(** [import { <raw> } from 'lodash'] *)
Definition named_list_text (raw t : str) : Prop :=
  ∃ ws1 ws2 ws3 ws4 ws5 q1 q2,
    t = lit "import" ++ ws1 ++ lit "{" ++ ws2 ++ raw ++ ws3 ++ lit "}"
        ++ ws4 ++ lit "from" ++ ws5 ++ [q1] ++ lit "lodash" ++ [q2]
    ∧ space_run ws1 ∧ spaces ws2 ∧ spaces ws3
    ∧ space_run ws4 ∧ space_run ws5
    ∧ is_quote q1 = true ∧ is_quote q2 = true.

(** [import <name> from 'lodash/<symbol>'], with [.js] or without. *)
Definition single_import_text (name symbol t : str) : Prop :=
  ∃ ws1 ws2 ws3 q1 ext q2,
    t = lit "import" ++ ws1 ++ name ++ ws2 ++ lit "from" ++ ws3
        ++ [q1] ++ lit "lodash/" ++ symbol ++ ext ++ [q2]
    ∧ space_run ws1 ∧ space_run ws2 ∧ space_run ws3
    ∧ (ext = [] ∨ ext = lit ".js")
    ∧ is_quote q1 = true ∧ is_quote q2 = true.

(** The state in which a match attempt starts at index [n] of [s]. *)
Definition start_state (r : pattern) (s : str) (n : nat) : mstate :=
  MState n (last (take n s)) (drop n s) (replicate (S (ngroups r)) None).

(** [m] is a match of [r] in [s]: the pattern accepts the text of
    [m] where it lies in [s], with the captures of [m]. *)
Definition is_match (r : pattern) (s : str) (m : found) : Prop :=
  ∃ st',
    accepts (body r) (start_state r s (m_start m)) st'
    ∧ m_start m ≤ length s
    ∧ pos st' = m_end m
    ∧ caps st' = m_caps m
    ∧ m_text m = take (m_end m - m_start m) (drop (m_start m) s).

(** The text [tl] does not go on with a character of the class [p]:
    a greedy run of [p] ends before it. *)
Definition stops (p : char -> bool) (tl : str) : Prop :=
  match tl with
  | [] => True
  | c :: _ => p c = false
  end.

(** The pieces of a text between its matches, woven with the texts
    put where the matches were:
    [weave [g0; g1; g2] [p1; p2] = g0 ++ p1 ++ g1 ++ p2 ++ g2]. *)
Fixpoint weave (gaps parts : list str) : str :=
  match gaps, parts with
  | g :: gaps', p :: parts' => g ++ p ++ weave gaps' parts'
  | g :: _, [] => g
  | [], _ => []
  end.

(** The matches [ms] lie in [s] one after the other, from index
    [next] on. *)
Fixpoint ordered (s : str) (next : nat) (ms : list found) : Prop :=
  match ms with
  | [] => True
  | m :: ms' =>
      next ≤ m_start m ∧ m_start m ≤ m_end m ∧ m_end m ≤ length s
      ∧ m_text m = take (m_end m - m_start m) (drop (m_start m) s)
      ∧ ordered s (m_end m) ms'
  end.

(** [res] is the text [s] with every match of [r] replaced by what
    the callback [f] gives for it, and nothing else changed; the
    warnings of [res] are those of the callbacks, in the order of the
    matches. *)
Definition rewrites_matches (r : pattern) (f : callback) (s : str)
    (res : W str) : Prop :=
  ∃ ms gaps reps,
    exec_all (enough s) r s 0 = Some (ms, 0)
    ∧ length gaps = S (length ms)
    ∧ s = weave gaps (map m_text ms)
    ∧ Forall2 (fun m rep => result (f (m_text m) (m_caps m)) = Value rep)
              ms reps
    ∧ res = (concat (map (fun m => warnings (f (m_text m) (m_caps m))) ms),
             Value (weave gaps reps)).

(** The clause of one name between the braces of an import, as the
    specification words it: the symbol alone when the bound name is
    the symbol, the rename notation [<symbol> as <Name>] when the
    bound name differs. *)
Definition import_clause (ni : NamedImport) : str :=
  if decide (customName ni = actualName ni) then actualName ni
  else actualName ni ++ lit " as " ++ customName ni.

(** The namespace import of [name] from the replacement library, as
    the specification asks for it and ECMAScript writes it: a star,
    [as] and the name, with no braces. *)
Definition namespace_import (name : str) : str :=
  lit "import * as " ++ name ++ lit " from 'es-toolkit/compat'".

(** The head of an import as the three patterns read it: [import],
    white space and a brace, or [import], white space, a name, white
    space, [from], white space and a quote character. *)
Definition import_head (Z : str) : Prop :=
  (∃ ws1 more, space_run ws1 ∧ Z = lit "import" ++ ws1 ++ 123%N :: more)
  ∨ (∃ ws1 name ws2 ws3 q more,
       space_run ws1 ∧ word_run name ∧ space_run ws2 ∧ space_run ws3
       ∧ is_quote q = true
       ∧ Z = lit "import" ++ ws1 ++ name ++ ws2 ++ lit "from" ++ ws3
             ++ q :: more).

(** No match of [r] starts at the head of [Z]. *)
Definition fails_at (r : pattern) (Z : str) : Prop :=
  ∀ n pv, match_at r n pv Z = None.

(** No match of [r] starts at a character of [W], when [T] follows
    [W]. *)
Definition fails_within (r : pattern) (W T : str) : Prop :=
  ∀ u c v, W = u ++ c :: v → fails_at r (c :: v ++ T).

End Shapes.

Import Shapes.

(** * Facts about the string operations *)

Section StringFacts.

Lemma char_eqb_eq (a b : char) : char_eqb a b = true ↔ a = b.
Proof. apply N.eqb_eq. Qed.

Lemma char_eqb_refl (a : char) : char_eqb a a = true.
Proof. apply N.eqb_refl. Qed.

Lemma char_eqb_neq (a b : char) : a ≠ b → char_eqb a b = false.
Proof. intros H. apply N.eqb_neq, H. Qed.

Lemma str_eqb_eq (a b : str) : str_eqb a b = true ↔ a = b.
Proof.
  revert b. induction a as [|x a IH]; intros [|y b]; simpl; try easy.
  rewrite andb_true_iff, char_eqb_eq, IH. split.
  - intros [-> ->]. reflexivity.
  - intros [= -> ->]. easy.
Qed.

Lemma str_eqb_refl (a : str) : str_eqb a a = true.
Proof. apply str_eqb_eq. reflexivity. Qed.

Lemma str_eqb_neq (a b : str) : a ≠ b → str_eqb a b = false.
Proof.
  intros H. destruct (str_eqb a b) eqn:E; [|reflexivity].
  apply str_eqb_eq in E. contradiction.
Qed.

Lemma starts_with_spec (p s : str) :
  starts_with p s = true ↔ ∃ tl, s = p ++ tl.
Proof.
  revert s. induction p as [|x p IH]; intros s; simpl.
  - split; [intros _; exists s; reflexivity | reflexivity].
  - destruct s as [|y s].
    + split; [discriminate | intros [tl [=]]].
    + rewrite andb_true_iff, char_eqb_eq, IH. split.
      * intros [-> [tl ->]]. exists tl. reflexivity.
      * intros [tl [= -> ->]]. split; [reflexivity | exists tl; reflexivity].
Qed.

Lemma starts_with_app (p tl : str) : starts_with p (p ++ tl) = true.
Proof. apply starts_with_spec. exists tl. reflexivity. Qed.

Lemma starts_with_head_neq (c0 c : char) (p s : str) :
  c ≠ c0 → starts_with (c0 :: p) (c :: s) = false.
Proof.
  intros H. simpl. rewrite char_eqb_neq; [reflexivity | congruence].
Qed.

Lemma includes_spec (s p : str) : includes s p = true ↔ substring p s.
Proof.
  unfold substring. induction s as [|c s IH].
  - simpl. rewrite orb_false_r, starts_with_spec. split.
    + intros [tl E]. exists [], tl. exact E.
    + intros (pre & post & E).
      destruct pre; [|discriminate]. exists post. exact E.
  - change (includes (c :: s) p)
      with (starts_with p (c :: s) || includes s p).
    rewrite orb_true_iff, starts_with_spec, IH. split.
    + intros [[tl E] | (pre & post & E)].
      * exists [], tl. exact E.
      * exists (c :: pre), post. rewrite E. reflexivity.
    + intros (pre & post & E). destruct pre as [|x pre].
      * left. exists post. exact E.
      * right. injection E as -> ->. exists pre, post. reflexivity.
Qed.

Lemma includes_false (s p : str) : includes s p = false ↔ ¬ substring p s.
Proof.
  rewrite <- includes_spec. destruct (includes s p); split; try easy.
Qed.

(** *** [split] *)

Lemma split_from_cons (sep cur : str) (c : char) (s : str) :
  split_from sep 0 cur (c :: s)
  = if starts_with sep (c :: s)
    then cur :: split_from sep (pred (length sep)) [] s
    else split_from sep 0 (cur ++ [c]) s.
Proof. reflexivity. Qed.

Lemma split_from_head (sep : str) (k : nat) (cur s : str) :
  ∃ x l, split_from sep k cur s = (cur ++ x) :: l.
Proof.
  revert k cur. induction s as [|c s IH]; intros k cur; simpl.
  - exists [], []. rewrite app_nil_r. reflexivity.
  - destruct k as [|k]; [|apply IH].
    destruct (starts_with sep (c :: s)).
    + exists [], (split_from sep (pred (length sep)) [] s).
      rewrite app_nil_r. reflexivity.
    + destruct (IH 0 (cur ++ [c])) as (x & l & E).
      exists (c :: x), l. rewrite E, <- app_assoc. reflexivity.
Qed.

Lemma split_from_no_sep (sep cur s : str) :
  includes s sep = false → split_from sep 0 cur s = [cur ++ s].
Proof.
  revert cur. induction s as [|c s IH]; intros cur H.
  - simpl. rewrite app_nil_r. reflexivity.
  - change (includes (c :: s) sep)
      with (starts_with sep (c :: s) || includes s sep) in H.
    apply orb_false_iff in H as [H1 H2].
    simpl split_from. rewrite H1, IH, <- app_assoc by exact H2.
    reflexivity.
Qed.

Lemma split_no_sep (s sep : str) :
  includes s sep = false → split s sep = [s].
Proof. intros H. unfold split. rewrite split_from_no_sep; auto. Qed.

Lemma split_from_skip (sep w cur s : str) :
  split_from sep (length w) cur (w ++ s) = split_from sep 0 cur s.
Proof. induction w as [|c w IH]; simpl; [reflexivity | exact IH]. Qed.

(** A segment that has no first character of the separator in it
    ends where the separator starts. *)
Lemma split_from_segment (c0 : char) (sep' w cur tl : str) :
  Forall (fun c => c ≠ c0) w →
  split_from (c0 :: sep') 0 cur (w ++ (c0 :: sep') ++ tl)
  = (cur ++ w) :: split_from (c0 :: sep') 0 [] tl.
Proof.
  intros Hw. revert cur. induction Hw as [|c w Hc Hw IH]; intros cur.
  - rewrite app_nil_r. simpl app at 1.
    change (split_from (c0 :: sep') 0 cur (c0 :: sep' ++ tl))
      with (if starts_with (c0 :: sep') (c0 :: sep' ++ tl)
            then cur :: split_from (c0 :: sep') (length sep') [] (sep' ++ tl)
            else split_from (c0 :: sep') 0 (cur ++ [c0]) (sep' ++ tl)).
    pose proof (starts_with_app (c0 :: sep') tl) as E.
    rewrite <- app_comm_cons in E. rewrite E, split_from_skip.
    reflexivity.
  - change (split_from (c0 :: sep') 0 cur ((c :: w) ++ (c0 :: sep') ++ tl))
      with (if starts_with (c0 :: sep') (c :: w ++ (c0 :: sep') ++ tl)
            then cur :: split_from (c0 :: sep') (length sep') []
                                   (w ++ (c0 :: sep') ++ tl)
            else split_from (c0 :: sep') 0 (cur ++ [c])
                            (w ++ (c0 :: sep') ++ tl)).
    rewrite starts_with_head_neq by exact Hc.
    rewrite IH, <- app_assoc. reflexivity.
Qed.

(** The last segment. *)
Lemma split_from_last (c0 : char) (sep' w cur : str) :
  Forall (fun c => c ≠ c0) w →
  split_from (c0 :: sep') 0 cur w = [cur ++ w].
Proof.
  intros Hw. apply split_from_no_sep.
  induction Hw as [|c w Hc Hw IH]; [reflexivity|].
  change (includes (c :: w) (c0 :: sep'))
    with (starts_with (c0 :: sep') (c :: w) || includes w (c0 :: sep')).
  rewrite starts_with_head_neq, IH by exact Hc. reflexivity.
Qed.

(** *** [trim] *)

Lemma trim_start_head (s : str) (c : char) (tl : str) :
  trim_start s = c :: tl → is_space c = false.
Proof.
  induction s as [|x s IH]; simpl; [discriminate|].
  destruct (is_space x) eqn:E; [exact IH|].
  intros [= -> ->]. exact E.
Qed.

Lemma trim_start_suffix (s : str) : ∃ pre, s = pre ++ trim_start s.
Proof.
  induction s as [|x s [pre IH]]; simpl.
  - exists []. reflexivity.
  - destruct (is_space x).
    + exists (x :: pre). simpl. rewrite <- IH. reflexivity.
    + exists []. reflexivity.
Qed.

Lemma trim_end_prefix (s : str) : ∃ post, s = trim_end s ++ post.
Proof.
  unfold trim_end. destruct (trim_start_suffix (reverse s)) as [pre E].
  exists (reverse pre).
  rewrite <- reverse_app, <- E, reverse_involutive. reflexivity.
Qed.

Lemma trim_head (s : str) (c : char) (tl : str) :
  trim s = c :: tl → is_space c = false.
Proof.
  unfold trim. intros E.
  destruct (trim_end_prefix (trim_start s)) as [post E'].
  rewrite E in E'. simpl in E'. apply trim_start_head in E'. exact E'.
Qed.

Lemma trim_start_id (c : char) (s : str) :
  is_space c = false → trim_start (c :: s) = c :: s.
Proof. intros H. simpl. rewrite H. reflexivity. Qed.


Lemma is_word_not_space (c : char) : is_word c = true → is_space c = false.
Proof.
  unfold is_word, is_space. intros H.
  repeat (apply orb_true_iff in H as [H|H]).
  all: repeat match goal with
       | H : (_ && _) = true |- _ => apply andb_true_iff in H as [? ?]
       | H : (_ <=? _)%N = true |- _ => apply N.leb_le in H
       | H : (_ =? _)%N = true |- _ => apply N.eqb_eq in H
       end.
  all: repeat (apply orb_false_iff; split).
  all: try apply andb_false_iff.
  all: rewrite ?N.leb_gt, ?N.eqb_neq; lia.
Qed.

End StringFacts.

(** * The named-import parser and renderer *)

Section NamedImports.

Lemma sep_as : lit " as " = [32; 97; 115; 32]%N.
Proof. reflexivity. Qed.

Lemma is_word_not_blank (c : char) : is_word c = true → c ≠ 32%N.
Proof. intros H ->. discriminate H. Qed.

Lemma word_run_no_blank (w : str) :
  Forall (fun c => is_word c = true) w → Forall (fun c => c ≠ 32%N) w.
Proof. intros H. eapply Forall_impl; [exact H | exact is_word_not_blank]. Qed.

(** What the parser does with the parts of the split. *)
Lemma parseNamedImport_parts (s lhs : str) (others : list str) :
  split s (lit " as ") = lhs :: others →
  parseNamedImport s
  = if nonempty lhs then
      ret (mkNamedImport lhs
             match others with
             | rhs :: _ => if nonempty rhs then rhs else lhs
             | [] => lhs
             end)
    else throw (lit "Invalid named import").
Proof.
  intros E. unfold parseNamedImport. rewrite E. simpl.
  destruct lhs as [|c lhs]; [reflexivity|].
  destruct others as [|[|d rhs] others]; reflexivity.
Qed.

Lemma split_rename (X Y : str) :
  Forall (fun c => is_word c = true) X →
  Forall (fun c => is_word c = true) Y →
  split (X ++ lit " as " ++ Y) (lit " as ") = [X; Y].
Proof.
  intros HX HY. unfold split. rewrite sep_as.
  rewrite split_from_segment by (apply word_run_no_blank, HX).
  rewrite split_from_last by (apply word_run_no_blank, HY).
  reflexivity.
Qed.

Lemma parse_plain (t : str) :
  t ≠ [] → ¬ substring (lit " as ") t →
  parseNamedImport t = ret (mkNamedImport t t).
Proof.
  intros Hne Hsub. apply includes_false in Hsub.
  rewrite (parseNamedImport_parts t t []) by (apply split_no_sep, Hsub).
  destruct t; [contradiction | reflexivity].
Qed.

Lemma parse_rename (X Y : str) :
  word_run X → word_run Y →
  parseNamedImport (X ++ lit " as " ++ Y) = ret (mkNamedImport X Y).
Proof.
  intros [HX1 HX2] [HY1 HY2].
  rewrite (parseNamedImport_parts _ X [Y]) by (apply split_rename; assumption).
  destruct X; [contradiction|]. destruct Y; [contradiction|]. reflexivity.
Qed.

Lemma render_same (X : str) : renderNamedImport (mkNamedImport X X) = X.
Proof. unfold renderNamedImport. simpl. rewrite str_eqb_refl. reflexivity. Qed.

Lemma render_rename (X Y : str) :
  X ≠ Y → renderNamedImport (mkNamedImport X Y) = X ++ lit " as " ++ Y.
Proof.
  intros H. unfold renderNamedImport. simpl.
  rewrite str_eqb_neq by exact H. reflexivity.
Qed.

(** A token that is not empty and does not begin with white space
    has a left side: the parser returns. *)
Lemma parse_returns (c : char) (tl : str) :
  is_space c = false →
  ∃ ni, parseNamedImport (c :: tl) = ret ni.
Proof.
  intros Hc.
  assert (starts_with (lit " as ") (c :: tl) = false) as Hs.
  { rewrite sep_as. apply starts_with_head_neq. intros ->. discriminate Hc. }
  destruct (split_from_head (lit " as ") 0 ([] ++ [c]) tl) as (x & l & E).
  assert (split (c :: tl) (lit " as ") = (c :: x) :: l) as E'.
  { unfold split. rewrite split_from_cons, Hs. exact E. }
  rewrite (parseNamedImport_parts _ _ _ E'). simpl. eauto.
Qed.

End NamedImports.

Ltac word_run_tac :=
  split; [discriminate | vm_compute; repeat constructor].

(** C6, as amended.  Rendering the parse of a token without a rename
    clause gives the token back; rendering the parse of [X as Y] gives
    [X as Y] back when [X] and [Y] differ, and gives [X] alone when the
    token renames [X] to itself. *)
Theorem named_import_roundtrip :
  (∀ t : str,
      t ≠ [] → ¬ substring (lit " as ") t →
      ∃ ni, parseNamedImport t = ret ni ∧ renderNamedImport ni = t)
  ∧ (∀ X Y : str,
        word_run X → word_run Y → X ≠ Y →
        ∃ ni, parseNamedImport (X ++ lit " as " ++ Y) = ret ni
              ∧ renderNamedImport ni = X ++ lit " as " ++ Y)
  ∧ (∀ X : str,
        word_run X →
        ∃ ni, parseNamedImport (X ++ lit " as " ++ X) = ret ni
              ∧ renderNamedImport ni = X).
Proof.
  split; [|split].
  - intros t Hne Hsub. eexists. split; [apply parse_plain; assumption|].
    apply render_same.
  - intros X Y HX HY Hne. eexists. split; [apply parse_rename; assumption|].
    apply render_rename, Hne.
  - intros X HX. eexists. split; [apply parse_rename; assumption|].
    apply render_same.
Qed.

Lemma named_import_roundtrip_witness :
  (∃ ni, parseNamedImport (lit "isEqual") = ret ni
         ∧ renderNamedImport ni = lit "isEqual")
  ∧ (∃ ni, parseNamedImport (lit "isEqual" ++ lit " as " ++ lit "eq") = ret ni
           ∧ renderNamedImport ni = lit "isEqual" ++ lit " as " ++ lit "eq")
  ∧ (∃ ni, parseNamedImport (lit "eq" ++ lit " as " ++ lit "eq") = ret ni
           ∧ renderNamedImport ni = lit "eq").
Proof.
  destruct named_import_roundtrip as (H1 & H2 & H3).
  split; [|split].
  - apply H1; [discriminate|].
    apply includes_false. vm_compute. reflexivity.
  - apply H2; [word_run_tac | word_run_tac | discriminate].
  - apply H3. word_run_tac.
Defined.

(** The round trip of C6 as the claim states it for tokens with a
    rename clause fails: [a as a] is rendered as [a]. *)
Lemma named_import_roundtrip_counterexample :
  ¬ (∀ X Y : str,
        word_run X → word_run Y →
        ∃ ni, parseNamedImport (X ++ lit " as " ++ Y) = ret ni
              ∧ renderNamedImport ni = X ++ lit " as " ++ Y).
Proof.
  intros H.
  destruct (H (lit "a") (lit "a")) as (ni & Hp & Hr); [word_run_tac ..|].
  vm_compute in Hp. injection Hp as <-. vm_compute in Hr. discriminate Hr.
Qed.

(** C7, as amended.  The parser splits the token on [" as "]; the
    left side becomes [actualName]; the right side becomes [customName]
    when it is present and not empty, otherwise [customName] is
    [actualName]; and the parser throws [Invalid named import] exactly
    when the left side is empty. *)
Theorem parseNamedImport_spec (s : str) :
  ∃ (lhs : str) (others : list str),
    split s (lit " as ") = lhs :: others
    ∧ (lhs = [] ↔ parseNamedImport s = throw (lit "Invalid named import"))
    ∧ (lhs ≠ [] →
       parseNamedImport s
       = ret (mkNamedImport lhs
                match others with
                | rhs :: _ => if nonempty rhs then rhs else lhs
                | [] => lhs
                end)).
Proof.
  destruct (split_from_head (lit " as ") 0 [] s) as (lhs & others & E).
  exists lhs, others. simpl in E. fold (split s (lit " as ")) in E.
  split; [exact E|].
  rewrite (parseNamedImport_parts _ _ _ E).
  destruct lhs; simpl; repeat split; try easy.
Qed.

(** The claim C7 as stated makes every right side the [customName]; an
    empty right side is not: [parseNamedImport "a as "] has the parts
    ["a"] and [""], and its [customName] is ["a"]. *)
Lemma parseNamedImport_spec_counterexample :
  ¬ (∀ (s lhs rhs : str) (others : list str),
        split s (lit " as ") = lhs :: rhs :: others →
        lhs ≠ [] →
        parseNamedImport s = ret (mkNamedImport lhs rhs)).
Proof.
  intros H.
  specialize (H (lit "a as ") (lit "a") [] [] eq_refl).
  vm_compute in H. discriminate H. discriminate.
Qed.

(** * The matcher finds only what the pattern accepts *)

Section MatcherSound.

Lemma read_before (w tl : str) (st : mstate) :
  rest st = w ++ tl →
  read w st
  = MState (pos st + length w) (from_option Some (prev st) (last w))
           tl (caps st).
Proof.
  intros E. unfold read. rewrite E, drop_app_length. reflexivity.
Qed.

Lemma read_nil (st : mstate) : read [] st = st.
Proof.
  destruct st as [n pv s cs]. unfold read. simpl.
  rewrite Nat.add_0_r. reflexivity.
Qed.

Lemma last_step (pv : option char) (c : char) (w : str) :
  from_option Some pv (last (c :: w)) = from_option Some (Some c) (last w).
Proof. rewrite last_cons. destruct (last w); reflexivity. Qed.

Lemma star_k_sound (p : char -> bool) (k : cont) (s : str) :
  ∀ n pv cs res,
    star_k p k n pv cs s = Some res →
    ∃ w tl,
      s = w ++ tl ∧ Forall (fun c => p c = true) w
      ∧ k (MState (n + length w) (from_option Some pv (last w)) tl cs)
        = Some res.
Proof.
  induction s as [|c s IH]; intros n pv cs res H; simpl in H.
  - exists [], []. simpl. rewrite Nat.add_0_r. auto.
  - destruct (p c) eqn:Hp.
    + destruct (star_k p k (S n) (Some c) cs s) as [r|] eqn:E.
      * injection H as ->. apply IH in E as (w & tl & -> & Hw & Hk).
        exists (c :: w), tl. rewrite last_step.
        replace (n + length (c :: w)) with (S n + length w) by (simpl; lia).
        auto.
      * exists [], (c :: s). simpl. rewrite Nat.add_0_r. auto.
    + exists [], (c :: s). simpl. rewrite Nat.add_0_r. auto.
Qed.

Lemma rmatch_sound (r : regex) :
  ∀ (k : cont) (st res : mstate),
    rmatch r k st = Some res →
    ∃ st', accepts r st st' ∧ k st' = Some res.
Proof.
  induction r as [c|p|r1 IH1 r2 IH2|p|p|r IH|i r IH| |];
    intros k st res H; simpl in H.
  - destruct (rest st) as [|x s'] eqn:E; [discriminate|].
    destruct (char_eqb x c) eqn:Ec; [|discriminate].
    apply char_eqb_eq in Ec as ->.
    exists (advance c s' st). split; [|exact H].
    simpl. split; [exists s'; exact E|].
    rewrite (read_before [c] s') by exact E.
    unfold advance. simpl. rewrite Nat.add_1_r. reflexivity.
  - destruct (rest st) as [|x s'] eqn:E; [discriminate|].
    destruct (p x) eqn:Ep; [|discriminate].
    exists (advance x s' st). split; [|exact H].
    simpl. exists x. split; [exact Ep|]. split; [exists s'; exact E|].
    rewrite (read_before [x] s') by exact E.
    unfold advance. simpl. rewrite Nat.add_1_r. reflexivity.
  - apply IH1 in H as (mid & H1 & H). apply IH2 in H as (st' & H2 & H).
    exists st'. split; [|exact H]. simpl. eauto.
  - destruct (rest st) as [|x s'] eqn:E; [discriminate|].
    destruct (p x) eqn:Ep; [|discriminate].
    apply star_k_sound in H as (w & tl & -> & Hw & Hk).
    eexists. split; [|exact Hk]. simpl.
    exists (x :: w). split; [discriminate|].
    split; [constructor; assumption|]. split; [exists tl; exact E|].
    rewrite (read_before (x :: w) tl) by exact E.
    rewrite last_step. f_equal. simpl. lia.
  - apply star_k_sound in H as (w & tl & E & Hw & Hk).
    eexists. split; [|exact Hk]. simpl.
    exists w. split; [exact Hw|]. split; [exists tl; exact E|].
    rewrite (read_before w tl) by exact E. reflexivity.
  - destruct (rmatch r k st) as [res'|] eqn:E.
    + injection H as ->. apply IH in E as (st' & Ha & Hk).
      exists st'. simpl. auto.
    + exists st. simpl. auto.
  - apply IH in H as (st1 & Ha & Hk).
    exists (capture i st st1). simpl. eauto.
  - destruct (xorb _ _) eqn:E; [|discriminate].
    exists st. simpl. auto.
  - exists st. simpl. auto.
Qed.

(** What a pattern accepts is a piece of the text at the front of
    the state. *)
Lemma accepts_reads (r : regex) :
  ∀ st st',
    accepts r st st' →
    ∃ w, rest st = w ++ rest st' ∧ pos st' = pos st + length w.
Proof.
  assert (∀ w st, before w st →
            rest st = w ++ rest (read w st)
            ∧ pos (read w st) = pos st + length w) as Hread.
  { intros w st [tl E]. rewrite (read_before w tl) by exact E. auto. }
  induction r as [c|p|r1 IH1 r2 IH2|p|p|r IH|i r IH| |];
    intros st st' H; simpl in H.
  - destruct H as [Hb ->]. exists [c]. apply Hread, Hb.
  - destruct H as (x & _ & Hb & ->). exists [x]. apply Hread, Hb.
  - destruct H as (mid & H1 & H2).
    apply IH1 in H1 as (w1 & E1 & P1). apply IH2 in H2 as (w2 & E2 & P2).
    exists (w1 ++ w2). rewrite E1, E2, P2, P1, length_app, <- app_assoc.
    split; [reflexivity | lia].
  - destruct H as (w & _ & _ & Hb & ->). exists w. apply Hread, Hb.
  - destruct H as (w & _ & Hb & ->). exists w. apply Hread, Hb.
  - destruct H as [H | ->]; [apply IH, H|].
    exists []. simpl. split; [reflexivity | lia].
  - destruct H as (st1 & H & ->). apply IH in H as (w & E & P).
    exists w. simpl. auto.
  - destruct H as [_ ->]. exists []. simpl. split; [reflexivity | lia].
  - subst st'. exists []. simpl. split; [reflexivity | lia].
Qed.

Lemma match_at_sound (r : pattern) (n : nat) (pv : option char)
    (s : str) (m : found) :
  match_at r n pv s = Some m →
  ∃ st',
    accepts (body r) (MState n pv s (replicate (S (ngroups r)) None)) st'
    ∧ m_start m = n ∧ pos st' = m_end m ∧ caps st' = m_caps m
    ∧ m_text m = take (m_end m - n) s
    ∧ n ≤ m_end m ≤ n + length s.
Proof.
  unfold match_at. intros H.
  destruct (rmatch _ _ _) as [st|] eqn:E; [|discriminate].
  injection H as <-. apply rmatch_sound in E as (st' & Ha & [= ->]).
  exists st. simpl. repeat split; try assumption.
  all: apply accepts_reads in Ha as (w & Hw & Hp); simpl in *.
  - lia.
  - rewrite Hw, length_app. lia.
Qed.

Lemma search_sound (r : pattern) (s : str) :
  ∀ n pv m,
    search r n pv s = Some m →
    ∃ skipped s',
      s = skipped ++ s'
      ∧ match_at r (n + length skipped)
          (from_option Some pv (last skipped)) s' = Some m.
Proof.
  induction s as [|c s IH]; intros n pv m H; simpl in H.
  - destruct (match_at r n pv []) eqn:E; [|discriminate].
    injection H as ->. exists [], []. simpl. rewrite Nat.add_0_r. auto.
  - destruct (match_at r n pv (c :: s)) eqn:E.
    + injection H as ->. exists [], (c :: s). simpl.
      rewrite Nat.add_0_r. auto.
    + apply IH in H as (skipped & s' & -> & H).
      exists (c :: skipped), s'. rewrite last_step.
      replace (n + length (c :: skipped)) with (S n + length skipped)
        by (simpl; lia).
      auto.
Qed.

Lemma exec_sound (r : pattern) (s : str) (li li' : nat) (m : found) :
  exec r s li = (Some m, li') →
  is_match r s m
  ∧ li ≤ m_start m ∧ m_start m ≤ m_end m ∧ m_end m ≤ length s
  ∧ li' = m_end m.
Proof.
  unfold exec. destruct (length s <? li) eqn:El; [discriminate|].
  apply Nat.ltb_ge in El.
  destruct (search _ _ _ _) as [m'|] eqn:E; [|discriminate].
  intros [= -> <-].
  apply search_sound in E as (skipped & s' & Hs & E).
  apply match_at_sound in E as (st' & Ha & Hst & Hp & Hc & Ht & Hle).
  assert (s = (take li s ++ skipped) ++ s') as Hsplit.
  { rewrite <- app_assoc, <- Hs, take_drop. reflexivity. }
  assert (length (take li s ++ skipped) = m_start m) as Hlen.
  { rewrite length_app, length_take_le by exact El. lia. }
  assert (length s = m_start m + length s') as Hlen'.
  { rewrite Hsplit at 1. rewrite length_app. lia. }
  assert (drop (m_start m) s = s') as Hdrop.
  { rewrite Hsplit, <- Hlen, drop_app_length. reflexivity. }
  assert (last (take (m_start m) s)
          = from_option Some (last (take li s)) (last skipped)) as Hlast.
  { rewrite <- Hlen. rewrite Hsplit at 2.
    rewrite take_app_length, last_app. reflexivity. }
  repeat split; try lia.
  exists st'. repeat split; try assumption; try lia.
  - unfold start_state. rewrite Hdrop, Hlast, Hst. exact Ha.
  - rewrite Hdrop, Ht, Hst. reflexivity.
Qed.

Lemma exec_fail_index (r : pattern) (s : str) (li li' : nat) :
  exec r s li = (None, li') → li' = 0.
Proof.
  unfold exec. destruct (length s <? li); [intros [= <-]; reflexivity|].
  destruct (search _ _ _ _); [discriminate | intros [= <-]; reflexivity].
Qed.

(** The matches collected by the loop are matches of the pattern,
    and the loop leaves [lastIndex] at 0. *)
Lemma exec_all_sound (r : pattern) (s : str) (fuel : nat) :
  ∀ li ms lf,
    exec_all fuel r s li = Some (ms, lf) →
    Forall (is_match r s) ms ∧ lf = 0.
Proof.
  induction fuel as [|fuel IH]; intros li ms lf H; simpl in H;
    [discriminate|].
  destruct (exec r s li) as [[m|] li'] eqn:E.
  - destruct (exec_all fuel r s _) as [[ms' lf']|] eqn:E'; [|discriminate].
    injection H as <- <-. apply IH in E' as [Hms ->].
    apply exec_sound in E as (Hm & _). auto.
  - injection H as <- <-. apply exec_fail_index in E. auto.
Qed.

(** The bound on the number of calls is never reached. *)
Lemma exec_all_fuel (r : pattern) (s : str) (fuel : nat) :
  ∀ li,
    1 ≤ fuel → S (S (length s)) ≤ fuel + li →
    ∃ ms lf, exec_all fuel r s li = Some (ms, lf).
Proof.
  induction fuel as [|fuel IH]; intros li H1 H2; [lia|]. simpl.
  destruct (exec r s li) as [[m|] li'] eqn:E; [|eauto].
  apply exec_sound in E as (_ & Hs & He & Hl & ->).
  set (li'' := if m_end m =? m_start m then S (m_end m) else m_end m).
  assert (li < li'' ∧ li'' ≤ S (length s)) as [Hlt Hle].
  { unfold li''. destruct (m_end m =? m_start m) eqn:Em.
    - apply Nat.eqb_eq in Em. lia.
    - apply Nat.eqb_neq in Em. lia. }
  destruct (IH li'') as (ms & lf & ->); [lia | lia |]. eauto.
Qed.

Lemma exec_all_enough (r : pattern) (s : str) :
  ∃ ms, exec_all (enough s) r s 0 = Some (ms, 0)
        ∧ Forall (is_match r s) ms.
Proof.
  destruct (exec_all_fuel r s (enough s) 0) as (ms & lf & E);
    [unfold enough; lia ..|].
  destruct (exec_all_sound _ _ _ _ _ _ E) as [Hms ->]. eauto.
Qed.

End MatcherSound.

(** * The transform returns *)

Section Totality.

Variable supportedFunctions : list str.

Lemma bind_ret {A B} (a : A) (f : A -> W B) : bind (ret a) f = f a.
Proof. unfold bind, ret. destruct (f a). reflexivity. Qed.

Lemma ret_returns {A} (a : A) : returns (ret a).
Proof. exists [], a. reflexivity. Qed.

Lemma bind_returns {A B} (m : W A) (f : A -> W B) :
  returns m → (∀ a, returns (f a)) → returns (bind m f).
Proof.
  intros (w & a & ->) Hf. destruct (Hf a) as (w' & b & E).
  exists (w ++ w'), b. simpl. rewrite E. reflexivity.
Qed.

Lemma mapW_returns {A B} (f : A -> W B) (l : list A) :
  Forall (fun x => ∃ y, f x = ret y) l → ∃ ys, mapW f l = ret ys.
Proof.
  induction 1 as [|x l [y Hy] _ [ys IH]]; simpl.
  - eauto.
  - rewrite Hy, IH. simpl. eauto.
Qed.

Lemma splice_returns (s : str) (f : callback) (ms : list found) :
  (∀ t cs, returns (f t cs)) → ∀ next, returns (splice s next ms f).
Proof.
  intros Hf. induction ms as [|m ms IH]; intros next; simpl.
  - apply ret_returns.
  - apply bind_returns; [apply Hf|]. intros rep.
    destruct (next <=? m_start m); [|apply IH].
    apply bind_returns; [apply IH|]. intros tail. apply ret_returns.
Qed.

Lemma replace_returns (r : pattern) (li : nat) (s : str) (f : callback) :
  (∀ t cs, returns (f t cs)) →
  ∃ w v, replace r li s f = ((w, Value v), 0).
Proof.
  intros Hf. unfold replace.
  destruct (exec_all_enough r s) as (ms & -> & _).
  destruct (splice_returns s f ms Hf 0) as (w & v & ->). eauto.
Qed.

Lemma match_all_returns (s : str) (r : pattern) :
  ∃ o, match_all s r = ret o.
Proof.
  unfold match_all. destruct (exec_all_enough r s) as (ms & -> & _).
  destruct ms; eauto.
Qed.

Lemma warn_returns (names : list str) :
  returns (warnUnsupportedFunction names).
Proof. eexists _, tt. reflexivity. Qed.

(** The tokens handed to the parser are trimmed and not empty. *)
Lemma namedImportNames_tokens (raw t : str) :
  t ∈ namedImportNames raw →
  ∃ c tl, t = c :: tl ∧ is_space c = false.
Proof.
  unfold namedImportNames. rewrite list_elem_of_In, filter_In, in_map_iff.
  intros [(x & <- & _) Hne].
  destruct (trim x) as [|c tl] eqn:E; [discriminate|].
  exists c, tl. split; [reflexivity|]. eapply trim_head, E.
Qed.

Lemma namedImportNames_parse (raw : str) :
  ∃ parsed, mapW parseNamedImport (namedImportNames raw) = ret parsed.
Proof.
  apply mapW_returns, Forall_forall. intros t Ht.
  apply namedImportNames_tokens in Ht as (c & tl & -> & Hc).
  apply parse_returns, Hc.
Qed.

Lemma defaultImportCallback_returns (src m name : str) :
  returns (defaultImportCallback supportedFunctions src m name).
Proof.
  unfold defaultImportCallback.
  destruct (match_all_returns src (usageRegex name)) as [o ->].
  apply bind_returns; [apply ret_returns|]. intros [usages|].
  - destruct (nonempty _); [|apply ret_returns].
    apply bind_returns; [apply warn_returns|]. intros _. apply ret_returns.
  - apply ret_returns.
Qed.

Lemma namedImportsCallback_returns (m raw : str) :
  returns (namedImportsCallback supportedFunctions m raw).
Proof.
  unfold namedImportsCallback.
  destruct (namedImportNames_parse raw) as [parsed ->].
  apply bind_returns; [apply ret_returns|]. intros ps.
  destruct (nonempty _); [|apply ret_returns].
  apply bind_returns; [apply warn_returns|]. intros _.
  destruct (negb _); apply ret_returns.
Qed.

Lemma defaultSingleImportCallback_returns (m custom actual : str) :
  returns (defaultSingleImportCallback supportedFunctions m custom actual).
Proof.
  unfold defaultSingleImportCallback.
  destruct (isUnsupportedFunction _ _).
  - apply bind_returns; [apply warn_returns|]. intros _. apply ret_returns.
  - destruct (str_eqb _ _); apply ret_returns.
Qed.

Lemma defaultImportPass_returns (src : str) (st : store) :
  ∃ w v,
    defaultImportPass supportedFunctions src st
    = ((w, Value v),
       mkStore 0 (namedImportsRegex_lastIndex st)
               (defaultSingleImportRegex_lastIndex st)).
Proof.
  unfold defaultImportPass.
  edestruct replace_returns as (w & v & ->); [|eauto].
  intros t cs. apply defaultImportCallback_returns.
Qed.

Lemma namedImportsPass_returns (src : str) (st : store) :
  ∃ w v,
    namedImportsPass supportedFunctions src st
    = ((w, Value v),
       mkStore (defaultImportRegex_lastIndex st) 0
               (defaultSingleImportRegex_lastIndex st)).
Proof.
  unfold namedImportsPass.
  edestruct replace_returns as (w & v & ->); [|eauto].
  intros t cs. apply namedImportsCallback_returns.
Qed.

Lemma defaultSingleImportPass_returns (src : str) (st : store) :
  ∃ w v,
    defaultSingleImportPass supportedFunctions src st
    = ((w, Value v),
       mkStore (defaultImportRegex_lastIndex st)
               (namedImportsRegex_lastIndex st) 0).
Proof.
  unfold defaultSingleImportPass.
  edestruct replace_returns as (w & v & ->); [|eauto].
  intros t cs. apply defaultSingleImportCallback_returns.
Qed.

(** With the library name in it, a text goes through the three
    passes and comes back in an object whose [map] is [null]. *)
Lemma transform_rewrites (src id : str) (st : store) :
  includes src (lit "lodash") = true →
  ∃ w text,
    transform supportedFunctions src id st
    = ((w, Value (Some (mkResult text None))), store0).
Proof.
  intros Hin. unfold transform, bindJS. rewrite Hin.
  destruct (defaultImportPass_returns src st) as (w1 & s1 & ->).
  destruct (namedImportsPass_returns s1 (mkStore 0
              (namedImportsRegex_lastIndex st)
              (defaultSingleImportRegex_lastIndex st))) as (w2 & s2 & ->).
  cbn [defaultImportRegex_lastIndex namedImportsRegex_lastIndex
       defaultSingleImportRegex_lastIndex].
  destruct (defaultSingleImportPass_returns s2 (mkStore 0 0
              (defaultSingleImportRegex_lastIndex st))) as (w3 & s3 & ->).
  exists (w1 ++ w2 ++ w3 ++ []), s3. reflexivity.
Qed.

Lemma transform_skips (src id : str) (st : store) :
  includes src (lit "lodash") = false →
  transform supportedFunctions src id st = (([], Value None), st).
Proof. intros Hin. unfold transform. rewrite Hin. reflexivity. Qed.

End Totality.

(** * The store does not reach the result *)

Section Purity.

Variable supportedFunctions : list str.

Lemma replace_lastIndex (r : pattern) (li : nat) (s : str) (f : callback) :
  fst (replace r li s f) = fst (replace r 0 s f).
Proof. unfold replace. destruct (exec_all _ _ _ _) as [[ms lf]|]; reflexivity. Qed.

Lemma bindJS_fst {A B} (m : JS A) (f : A -> JS B) (g : A -> W B)
    (st : store) :
  (∀ a st', fst (f a st') = g a) →
  fst (bindJS m f st) = bind (fst (m st)) g.
Proof.
  intros H. unfold bindJS, bind.
  destruct (m st) as [[w [a|e|]] st1]; simpl; try reflexivity.
  specialize (H a st1). destruct (f a st1) as [[w' o'] st2].
  simpl in H. rewrite <- H. reflexivity.
Qed.

(** The text that comes out of the three passes, with the regular
    expression objects fresh. *)
Lemma transform_fst (src id : str) (st : store) :
  fst (transform supportedFunctions src id st)
  = if includes src (lit "lodash") then
      let* src1 := fst (defaultImportPass supportedFunctions src store0) in
      let* src2 := fst (namedImportsPass supportedFunctions src1 store0) in
      let* src3 :=
        fst (defaultSingleImportPass supportedFunctions src2 store0) in
      ret (Some (mkResult src3 None))
    else ret None.
Proof.
  assert (∀ s st', fst (defaultImportPass supportedFunctions s st')
                   = fst (defaultImportPass supportedFunctions s store0))
    as H1.
  { intros s st'. unfold defaultImportPass.
    pose proof (replace_lastIndex defaultImportRegex
                  (defaultImportRegex_lastIndex st') s
                  (fun m cs => defaultImportCallback supportedFunctions s m
                                 (cap 1 cs))) as E.
    simpl defaultImportRegex_lastIndex.
    destruct (replace _ (defaultImportRegex_lastIndex st') _ _);
      destruct (replace _ 0 _ _). simpl in *. exact E. }
  assert (∀ s st', fst (namedImportsPass supportedFunctions s st')
                   = fst (namedImportsPass supportedFunctions s store0))
    as H2.
  { intros s st'. unfold namedImportsPass.
    pose proof (replace_lastIndex namedImportsRegex
                  (namedImportsRegex_lastIndex st') s
                  (fun m cs => namedImportsCallback supportedFunctions m
                                 (cap 1 cs))) as E.
    simpl namedImportsRegex_lastIndex.
    destruct (replace _ (namedImportsRegex_lastIndex st') _ _);
      destruct (replace _ 0 _ _). simpl in *. exact E. }
  assert (∀ s st', fst (defaultSingleImportPass supportedFunctions s st')
                   = fst (defaultSingleImportPass supportedFunctions s store0))
    as H3.
  { intros s st'. unfold defaultSingleImportPass.
    pose proof (replace_lastIndex defaultSingleImportRegex
                  (defaultSingleImportRegex_lastIndex st') s
                  (fun m cs => defaultSingleImportCallback supportedFunctions
                                 m (cap 1 cs) (cap 2 cs))) as E.
    simpl defaultSingleImportRegex_lastIndex.
    destruct (replace _ (defaultSingleImportRegex_lastIndex st') _ _);
      destruct (replace _ 0 _ _). simpl in *. exact E. }
  unfold transform. destruct (includes src (lit "lodash")); [|reflexivity].
  rewrite (bindJS_fst _ _
    (fun src1 =>
       let* src2 := fst (namedImportsPass supportedFunctions src1 store0) in
       let* src3 :=
         fst (defaultSingleImportPass supportedFunctions src2 store0) in
       ret (Some (mkResult src3 None)))).
  { rewrite H1. reflexivity. }
  intros src1 st1.
  rewrite (bindJS_fst _ _
    (fun src2 =>
       let* src3 :=
         fst (defaultSingleImportPass supportedFunctions src2 store0) in
       ret (Some (mkResult src3 None)))).
  { rewrite H2. reflexivity. }
  intros src2 st2.
  rewrite (bindJS_fst _ _ (fun src3 => ret (Some (mkResult src3 None)))).
  { rewrite H3. reflexivity. }
  reflexivity.
Qed.

End Purity.

(** C9.  The result of the transform and the warnings it writes depend
    on the text and on the supported functions only: not on the file
    identifier, and not on what earlier calls left in the regular
    expression objects. *)
Theorem transform_pure
    (supportedFunctions : list str) (src id id' : str) (st st' : store) :
  fst (transform supportedFunctions src id st)
  = fst (transform supportedFunctions src id' st').
Proof. rewrite !transform_fst. reflexivity. Qed.

(** C10.  The tokens of a named list are trimmed and not empty when
    they reach the parser, which therefore returns on each of them;
    the transform never throws and returns on every text. *)
Theorem transform_never_throws :
  (∀ raw t : str,
      t ∈ namedImportNames raw →
      (∃ c tl, t = c :: tl ∧ is_space c = false)
      ∧ ∃ ni, parseNamedImport t = ret ni)
  ∧ (∀ (supportedFunctions : list str) (src id : str) (st : store),
        returns (fst (transform supportedFunctions src id st))
        ∧ ∀ msg,
            result (fst (transform supportedFunctions src id st))
            ≠ Thrown msg).
Proof.
  split.
  - intros raw t Ht.
    destruct (namedImportNames_tokens raw t Ht) as (c & tl & -> & Hc).
    split; [eauto | apply parse_returns, Hc].
  - intros fns src id st.
    assert (returns (fst (transform fns src id st))) as (w & v & E).
    { destruct (includes src (lit "lodash")) eqn:Hin.
      - destruct (transform_rewrites fns src id st Hin) as (w & text & ->).
        eexists _, _. reflexivity.
      - rewrite transform_skips by exact Hin. eexists _, _. reflexivity. }
    rewrite E. split; [eexists _, _; reflexivity | discriminate].
Qed.

(** * What the patterns of the plugin match *)

Section PatternShapes.

Lemma reads_trans (w1 w2 : str) (a b c : mstate) :
  reads w1 a b → reads w2 b c → reads (w1 ++ w2) a c.
Proof.
  intros (E1 & P1 & L1) (E2 & P2 & L2). unfold reads.
  rewrite E1, E2, P2, P1, L2, L1, length_app, last_app, <- app_assoc.
  repeat split; [lia|]. destruct (last w2); reflexivity.
Qed.

Lemma reads_nil (st : mstate) : reads [] st st.
Proof. unfold reads. simpl. repeat split. lia. Qed.

Lemma read_reads (w : str) (st : mstate) :
  before w st → reads w st (read w st) ∧ caps (read w st) = caps st.
Proof.
  intros [tl E]. rewrite (read_before w tl) by exact E.
  unfold reads. simpl. auto.
Qed.

Lemma capture_reads (i : nat) (w : str) (st st1 : mstate) :
  reads w st st1 →
  reads w st (capture i st st1)
  ∧ caps (capture i st st1) = <[i := Some w]> (caps st1).
Proof.
  intros (E & P & L). unfold reads, capture. simpl.
  repeat split; try assumption.
  rewrite E, P. replace (pos st + length w - pos st) with (length w) by lia.
  rewrite take_app_length. reflexivity.
Qed.

Lemma accepts_text (w : str) :
  ∀ st st', accepts (text w) st st' → reads w st st' ∧ caps st' = caps st.
Proof.
  induction w as [|c w IH]; intros st st' H; simpl in H.
  - subst st'. split; [apply reads_nil | reflexivity].
  - destruct H as (mid & [Hb ->] & H). apply IH in H as [Hr Hc].
    apply read_reads in Hb as [Hr1 Hc1].
    split; [apply (reads_trans [c] w _ _ _ Hr1 Hr) | congruence].
Qed.

Lemma accepts_chr (c : char) (st st' : mstate) :
  accepts (Chr c) st st' → reads [c] st st' ∧ caps st' = caps st.
Proof. intros [Hb ->]. apply read_reads, Hb. Qed.

Lemma accepts_class (p : char -> bool) (st st' : mstate) :
  accepts (Class p) st st' →
  ∃ x, p x = true ∧ reads [x] st st' ∧ caps st' = caps st.
Proof. intros (x & Hp & Hb & ->). exists x. split; [exact Hp|]. apply read_reads, Hb. Qed.

Lemma accepts_plus (p : char -> bool) (st st' : mstate) :
  accepts (Plus p) st st' →
  ∃ w, w ≠ [] ∧ Forall (fun c => p c = true) w
       ∧ reads w st st' ∧ caps st' = caps st.
Proof.
  intros (w & Hne & Hw & Hb & ->). exists w.
  split; [exact Hne|]. split; [exact Hw|]. apply read_reads, Hb.
Qed.

Lemma accepts_star (p : char -> bool) (st st' : mstate) :
  accepts (Star p) st st' →
  ∃ w, Forall (fun c => p c = true) w ∧ reads w st st' ∧ caps st' = caps st.
Proof.
  intros (w & Hw & Hb & ->). exists w.
  split; [exact Hw|]. apply read_reads, Hb.
Qed.

Lemma accepts_group_plus (i : nat) (p : char -> bool) (st st' : mstate) :
  accepts (Group i (Plus p)) st st' →
  ∃ w, w ≠ [] ∧ Forall (fun c => p c = true) w
       ∧ reads w st st' ∧ caps st' = <[i := Some w]> (caps st).
Proof.
  intros (st1 & H & ->). apply accepts_plus in H as (w & Hne & Hw & Hr & Hc).
  exists w. split; [exact Hne|]. split; [exact Hw|].
  rewrite <- Hc. apply capture_reads, Hr.
Qed.

Lemma accepts_opt_group_text (i : nat) (t : str) (st st' : mstate) :
  accepts (Opt (Group i (text t))) st st' →
  ∃ w, (w = [] ∨ w = t) ∧ reads w st st'
       ∧ (caps st' = caps st ∨ caps st' = <[i := Some t]> (caps st)).
Proof.
  intros [(st1 & H & ->) | ->].
  - apply accepts_text in H as [Hr Hc]. exists t.
    split; [auto|]. rewrite <- Hc.
    destruct (capture_reads i t st st1 Hr) as [Hr' Hc']. auto.
  - exists []. split; [auto|]. split; [apply reads_nil | auto].
Qed.

(** The text of a match is what the matcher read. *)
Lemma is_match_text (r : pattern) (s : str) (m : found) (w : str)
    (st' : mstate) :
  reads w (start_state r s (m_start m)) st' →
  pos st' = m_end m →
  m_text m = take (m_end m - m_start m) (drop (m_start m) s) →
  m_text m = w.
Proof.
  intros (E & P & _) He ->. simpl in E, P. rewrite E, <- He, P.
  replace (m_start m + length w - m_start m) with (length w) by lia.
  apply take_app_length.
Qed.

Lemma exec_all_matches (r : pattern) (s : str) (ms : list found)
    (lf : nat) (m : found) :
  exec_all (enough s) r s 0 = Some (ms, lf) → m ∈ ms → is_match r s m.
Proof.
  intros E Hm. apply exec_all_sound in E as [Hms _].
  rewrite Forall_forall in Hms. apply Hms, Hm.
Qed.

End PatternShapes.

Section PluginPatterns.

Lemma accepts_cat_cons (r : regex) (rs : list regex) (st st' : mstate) :
  accepts (cat (r :: rs)) st st' →
  ∃ mid, accepts r st mid ∧ accepts (cat rs) mid st'.
Proof. intros H. exact H. Qed.

Lemma accepts_cat_nil (st st' : mstate) : accepts (cat []) st st' → st' = st.
Proof. intros H. exact H. Qed.

Lemma defaultImportRegex_accepts (st0 st' : mstate) :
  accepts (body defaultImportRegex) st0 st' →
  caps st0 = replicate 2 None →
  ∃ name w,
    reads w st0 st' ∧ default_import_text name w ∧ word_run name
    ∧ cap 1 (caps st') = name.
Proof.
  intros Ha Hc0. unfold defaultImportRegex in Ha. cbn [body] in Ha.
  apply accepts_cat_cons in Ha as (m1 & H1 & Ha).
  apply accepts_cat_cons in Ha as (m2 & H2 & Ha).
  apply accepts_cat_cons in Ha as (m3 & H3 & Ha).
  apply accepts_cat_cons in Ha as (m4 & H4 & Ha).
  apply accepts_cat_cons in Ha as (m5 & H5 & Ha).
  apply accepts_cat_cons in Ha as (m6 & H6 & Ha).
  apply accepts_cat_cons in Ha as (m7 & H7 & Ha).
  apply accepts_cat_cons in Ha as (m8 & H8 & Ha).
  apply accepts_cat_cons in Ha as (m9 & H9 & Ha).
  apply accepts_cat_nil in Ha. subst st'.
  apply accepts_text in H1 as [R1 C1].
  apply accepts_plus in H2 as (ws1 & N2 & F2 & R2 & C2).
  apply accepts_group_plus in H3 as (name & N3 & F3 & R3 & C3).
  apply accepts_plus in H4 as (ws2 & N4 & F4 & R4 & C4).
  apply accepts_text in H5 as [R5 C5].
  apply accepts_plus in H6 as (ws3 & N6 & F6 & R6 & C6).
  apply accepts_class in H7 as (q1 & Q7 & R7 & C7).
  apply accepts_text in H8 as [R8 C8].
  apply accepts_class in H9 as (q2 & Q9 & R9 & C9).
  pose proof (reads_trans _ _ _ _ _ R8 R9) as R.
  pose proof (reads_trans _ _ _ _ _ R7 R) as R'. clear R. rename R' into R.
  pose proof (reads_trans _ _ _ _ _ R6 R) as R'. clear R. rename R' into R.
  pose proof (reads_trans _ _ _ _ _ R5 R) as R'. clear R. rename R' into R.
  pose proof (reads_trans _ _ _ _ _ R4 R) as R'. clear R. rename R' into R.
  pose proof (reads_trans _ _ _ _ _ R3 R) as R'. clear R. rename R' into R.
  pose proof (reads_trans _ _ _ _ _ R2 R) as R'. clear R. rename R' into R.
  pose proof (reads_trans _ _ _ _ _ R1 R) as R'. clear R. rename R' into R.
  exists name. eexists. split; [exact R|]. split; [|split].
  - exists ws1, ws2, ws3, q1, q2. repeat split; assumption.
  - split; assumption.
  - unfold cap. rewrite C9, C8, C7, C6, C5, C4, C3, C2, C1, Hc0. reflexivity.
Qed.

Lemma namedImportsRegex_accepts (st0 st' : mstate) :
  accepts (body namedImportsRegex) st0 st' →
  caps st0 = replicate 2 None →
  ∃ raw w,
    reads w st0 st' ∧ named_list_text raw w ∧ raw ≠ []
    ∧ Forall (fun c => is_named_list_char c = true) raw
    ∧ cap 1 (caps st') = raw.
Proof.
  intros Ha Hc0. unfold namedImportsRegex in Ha. cbn [body] in Ha.
  apply accepts_cat_cons in Ha as (m1 & H1 & Ha).
  apply accepts_cat_cons in Ha as (m2 & H2 & Ha).
  apply accepts_cat_cons in Ha as (m3 & H3 & Ha).
  apply accepts_cat_cons in Ha as (m4 & H4 & Ha).
  apply accepts_cat_cons in Ha as (m5 & H5 & Ha).
  apply accepts_cat_cons in Ha as (m6 & H6 & Ha).
  apply accepts_cat_cons in Ha as (m7 & H7 & Ha).
  apply accepts_cat_cons in Ha as (m8 & H8 & Ha).
  apply accepts_cat_cons in Ha as (m9 & H9 & Ha).
  apply accepts_cat_cons in Ha as (m10 & H10 & Ha).
  apply accepts_cat_cons in Ha as (m11 & H11 & Ha).
  apply accepts_cat_cons in Ha as (m12 & H12 & Ha).
  apply accepts_cat_cons in Ha as (m13 & H13 & Ha).
  apply accepts_cat_nil in Ha. subst st'.
  apply accepts_text in H1 as [R1 C1].
  apply accepts_plus in H2 as (ws1 & N2 & F2 & R2 & C2).
  apply accepts_chr in H3 as [R3 C3].
  apply accepts_star in H4 as (ws2 & F4 & R4 & C4).
  apply accepts_group_plus in H5 as (raw & N5 & F5 & R5 & C5).
  apply accepts_star in H6 as (ws3 & F6 & R6 & C6).
  apply accepts_chr in H7 as [R7 C7].
  apply accepts_plus in H8 as (ws4 & N8 & F8 & R8 & C8).
  apply accepts_text in H9 as [R9 C9].
  apply accepts_plus in H10 as (ws5 & N10 & F10 & R10 & C10).
  apply accepts_class in H11 as (q1 & Q11 & R11 & C11).
  apply accepts_text in H12 as [R12 C12].
  apply accepts_class in H13 as (q2 & Q13 & R13 & C13).
  pose proof (reads_trans _ _ _ _ _ R12 R13) as R.
  pose proof (reads_trans _ _ _ _ _ R11 R) as R'. clear R. rename R' into R.
  pose proof (reads_trans _ _ _ _ _ R10 R) as R'. clear R. rename R' into R.
  pose proof (reads_trans _ _ _ _ _ R9 R) as R'. clear R. rename R' into R.
  pose proof (reads_trans _ _ _ _ _ R8 R) as R'. clear R. rename R' into R.
  pose proof (reads_trans _ _ _ _ _ R7 R) as R'. clear R. rename R' into R.
  pose proof (reads_trans _ _ _ _ _ R6 R) as R'. clear R. rename R' into R.
  pose proof (reads_trans _ _ _ _ _ R5 R) as R'. clear R. rename R' into R.
  pose proof (reads_trans _ _ _ _ _ R4 R) as R'. clear R. rename R' into R.
  pose proof (reads_trans _ _ _ _ _ R3 R) as R'. clear R. rename R' into R.
  pose proof (reads_trans _ _ _ _ _ R2 R) as R'. clear R. rename R' into R.
  pose proof (reads_trans _ _ _ _ _ R1 R) as R'. clear R. rename R' into R.
  exists raw. eexists. split; [exact R|]. split; [|split; [|split]].
  - exists ws1, ws2, ws3, ws4, ws5, q1, q2. repeat split; assumption.
  - assumption.
  - assumption.
  - unfold cap.
    rewrite C13, C12, C11, C10, C9, C8, C7, C6, C5, C4, C3, C2, C1, Hc0.
    reflexivity.
Qed.

Lemma defaultSingleImportRegex_accepts (st0 st' : mstate) :
  accepts (body defaultSingleImportRegex) st0 st' →
  caps st0 = replicate 4 None →
  ∃ name symbol w,
    reads w st0 st' ∧ single_import_text name symbol w
    ∧ word_run name ∧ word_run symbol
    ∧ cap 1 (caps st') = name ∧ cap 2 (caps st') = symbol.
Proof.
  intros Ha Hc0. unfold defaultSingleImportRegex in Ha. cbn [body] in Ha.
  apply accepts_cat_cons in Ha as (m1 & H1 & Ha).
  apply accepts_cat_cons in Ha as (m2 & H2 & Ha).
  apply accepts_cat_cons in Ha as (m3 & H3 & Ha).
  apply accepts_cat_cons in Ha as (m4 & H4 & Ha).
  apply accepts_cat_cons in Ha as (m5 & H5 & Ha).
  apply accepts_cat_cons in Ha as (m6 & H6 & Ha).
  apply accepts_cat_cons in Ha as (m7 & H7 & Ha).
  apply accepts_cat_cons in Ha as (m8 & H8 & Ha).
  apply accepts_cat_cons in Ha as (m9 & H9 & Ha).
  apply accepts_cat_cons in Ha as (m10 & H10 & Ha).
  apply accepts_cat_cons in Ha as (m11 & H11 & Ha).
  apply accepts_cat_nil in Ha. subst st'.
  apply accepts_text in H1 as [R1 C1].
  apply accepts_plus in H2 as (ws1 & N2 & F2 & R2 & C2).
  apply accepts_group_plus in H3 as (name & N3 & F3 & R3 & C3).
  apply accepts_plus in H4 as (ws2 & N4 & F4 & R4 & C4).
  apply accepts_text in H5 as [R5 C5].
  apply accepts_plus in H6 as (ws3 & N6 & F6 & R6 & C6).
  apply accepts_class in H7 as (q1 & Q7 & R7 & C7).
  apply accepts_text in H8 as [R8 C8].
  apply accepts_group_plus in H9 as (symbol & N9 & F9 & R9 & C9).
  apply accepts_opt_group_text in H10 as (ext & E10 & R10 & C10).
  apply accepts_class in H11 as (q2 & Q11 & R11 & C11).
  pose proof (reads_trans _ _ _ _ _ R10 R11) as R.
  pose proof (reads_trans _ _ _ _ _ R9 R) as R'. clear R. rename R' into R.
  pose proof (reads_trans _ _ _ _ _ R8 R) as R'. clear R. rename R' into R.
  pose proof (reads_trans _ _ _ _ _ R7 R) as R'. clear R. rename R' into R.
  pose proof (reads_trans _ _ _ _ _ R6 R) as R'. clear R. rename R' into R.
  pose proof (reads_trans _ _ _ _ _ R5 R) as R'. clear R. rename R' into R.
  pose proof (reads_trans _ _ _ _ _ R4 R) as R'. clear R. rename R' into R.
  pose proof (reads_trans _ _ _ _ _ R3 R) as R'. clear R. rename R' into R.
  pose proof (reads_trans _ _ _ _ _ R2 R) as R'. clear R. rename R' into R.
  pose proof (reads_trans _ _ _ _ _ R1 R) as R'. clear R. rename R' into R.
  assert (caps m9 = [None; Some name; Some symbol; None]) as C.
  { rewrite C9, C8, C7, C6, C5, C4, C3, C2, C1, Hc0. reflexivity. }
  exists name, symbol. eexists.
  split; [exact R|]. split; [|split; [|split; [|split]]].
  - exists ws1, ws2, ws3, q1, ext, q2. repeat split; assumption.
  - split; assumption.
  - split; assumption.
  - unfold cap. rewrite C11. destruct C10 as [-> | ->]; rewrite C; reflexivity.
  - unfold cap. rewrite C11. destruct C10 as [-> | ->]; rewrite C; reflexivity.
Qed.

Lemma usageRegex_accepts (name : str) (st0 st' : mstate) :
  accepts (body (usageRegex name)) st0 st' →
  ∃ symbol, word_run symbol ∧ reads (name ++ lit "." ++ symbol) st0 st'.
Proof.
  intros Ha. unfold usageRegex in Ha. cbn [body] in Ha.
  apply accepts_cat_cons in Ha as (m1 & H1 & Ha).
  apply accepts_cat_cons in Ha as (m2 & H2 & Ha).
  apply accepts_cat_cons in Ha as (m3 & H3 & Ha).
  apply accepts_cat_cons in Ha as (m4 & H4 & Ha).
  apply accepts_cat_nil in Ha. subst st'.
  destruct H1 as [_ ->].
  apply accepts_text in H2 as [R2 C2].
  apply accepts_chr in H3 as [R3 C3].
  apply accepts_plus in H4 as (symbol & N4 & F4 & R4 & C4).
  pose proof (reads_trans _ _ _ _ _ R3 R4) as R.
  pose proof (reads_trans _ _ _ _ _ R2 R) as R'. clear R. rename R' into R.
  exists symbol. split; [split; assumption | exact R].
Qed.

Lemma defaultImportRegex_shape (s : str) (m : found) :
  is_match defaultImportRegex s m →
  ∃ name,
    cap 1 (m_caps m) = name ∧ word_run name
    ∧ default_import_text name (m_text m).
Proof.
  intros (st' & Ha & _ & He & Hc & Ht).
  destruct (defaultImportRegex_accepts _ _ Ha eq_refl)
    as (name & w & R & Hshape & Hn & C).
  exists name. rewrite <- Hc, (is_match_text _ _ _ _ _ R He Ht). auto.
Qed.

Lemma namedImportsRegex_shape (s : str) (m : found) :
  is_match namedImportsRegex s m →
  ∃ raw,
    cap 1 (m_caps m) = raw ∧ raw ≠ []
    ∧ Forall (fun c => is_named_list_char c = true) raw
    ∧ named_list_text raw (m_text m).
Proof.
  intros (st' & Ha & _ & He & Hc & Ht).
  destruct (namedImportsRegex_accepts _ _ Ha eq_refl)
    as (raw & w & R & Hshape & Hne & Hraw & C).
  exists raw. rewrite <- Hc, (is_match_text _ _ _ _ _ R He Ht). auto.
Qed.

Lemma defaultSingleImportRegex_shape (s : str) (m : found) :
  is_match defaultSingleImportRegex s m →
  ∃ name symbol,
    cap 1 (m_caps m) = name ∧ cap 2 (m_caps m) = symbol
    ∧ word_run name ∧ word_run symbol
    ∧ single_import_text name symbol (m_text m).
Proof.
  intros (st' & Ha & _ & He & Hc & Ht).
  destruct (defaultSingleImportRegex_accepts _ _ Ha eq_refl)
    as (name & symbol & w & R & Hshape & Hn & Hs & C1 & C2).
  exists name, symbol. rewrite <- Hc, (is_match_text _ _ _ _ _ R He Ht).
  repeat split; try assumption; try apply Hn; try apply Hs.
Qed.

Lemma usageRegex_shape (name s : str) (m : found) :
  is_match (usageRegex name) s m →
  ∃ symbol, word_run symbol ∧ m_text m = name ++ lit "." ++ symbol.
Proof.
  intros (st' & Ha & _ & He & Hc & Ht).
  destruct (usageRegex_accepts _ _ _ Ha) as (symbol & Hs & R).
  exists symbol. split; [exact Hs|].
  eapply is_match_text; [exact R | exact He | exact Ht].
Qed.

End PluginPatterns.

(** * The matcher finds what stands at the front *)

Section MatcherForward.

Lemma star_k_run (p : char -> bool) (k : cont) (w : str) :
  Forall (fun c => p c = true) w →
  ∀ n pv cs tl res,
    stops p tl →
    k (MState (n + length w) (from_option Some pv (last w)) tl cs) = Some res →
    star_k p k n pv cs (w ++ tl) = Some res.
Proof.
  induction 1 as [|c w Hc Hw IH]; intros n pv cs tl res Hstop Hk.
  - simpl in *. rewrite Nat.add_0_r in Hk.
    destruct tl as [|c tl]; simpl; [exact Hk|].
    simpl in Hstop. rewrite Hstop. exact Hk.
  - simpl. rewrite Hc. rewrite (IH (S n) (Some c) cs tl res); auto.
    rewrite <- last_step with (pv := pv).
    replace (S n + length w) with (n + length (c :: w)) by (simpl; lia).
    exact Hk.
Qed.

Lemma rmatch_text (w : str) (k : cont) :
  ∀ n pv tl cs,
    rmatch (text w) k (MState n pv (w ++ tl) cs)
    = k (MState (n + length w) (from_option Some pv (last w)) tl cs).
Proof.
  induction w as [|c w IH]; intros n pv tl cs; simpl.
  - rewrite Nat.add_0_r. reflexivity.
  - rewrite char_eqb_refl. unfold advance. simpl. rewrite IH.
    rewrite <- last_step with (pv := pv).
    replace (S n + length w) with (n + S (length w)) by lia. reflexivity.
Qed.

Lemma rmatch_plus_run (p : char -> bool) (k : cont) (w tl : str)
    (n : nat) (pv : option char) (cs : list (option str)) (res : mstate) :
  w ≠ [] → Forall (fun c => p c = true) w → stops p tl →
  k (MState (n + length w) (from_option Some pv (last w)) tl cs) = Some res →
  rmatch (Plus p) k (MState n pv (w ++ tl) cs) = Some res.
Proof.
  intros Hne Hw Hstop Hk. destruct w as [|c w]; [contradiction|].
  apply Forall_cons in Hw as [Hc Hw]. simpl. rewrite Hc.
  apply star_k_run; [exact Hw | exact Hstop |].
  rewrite <- last_step with (pv := pv).
  replace (S n + length w) with (n + length (c :: w)) by (simpl; lia).
  exact Hk.
Qed.

Lemma rmatch_star_run (p : char -> bool) (k : cont) (w tl : str)
    (n : nat) (pv : option char) (cs : list (option str)) (res : mstate) :
  Forall (fun c => p c = true) w → stops p tl →
  k (MState (n + length w) (from_option Some pv (last w)) tl cs) = Some res →
  rmatch (Star p) k (MState n pv (w ++ tl) cs) = Some res.
Proof. intros Hw Hstop Hk. simpl. apply star_k_run; assumption. Qed.

Lemma rmatch_class (p : char -> bool) (k : cont) (c : char) (tl : str)
    (n : nat) (pv : option char) (cs : list (option str)) :
  p c = true →
  rmatch (Class p) k (MState n pv (c :: tl) cs)
  = k (MState (S n) (Some c) tl cs).
Proof. intros Hc. simpl. rewrite Hc. reflexivity. Qed.

Lemma rmatch_chr (k : cont) (c : char) (tl : str)
    (n : nat) (pv : option char) (cs : list (option str)) :
  rmatch (Chr c) k (MState n pv (c :: tl) cs)
  = k (MState (S n) (Some c) tl cs).
Proof. simpl. rewrite char_eqb_refl. reflexivity. Qed.

Lemma rmatch_cat_cons (r : regex) (rs : list regex) (k : cont) (st : mstate) :
  rmatch (cat (r :: rs)) k st = rmatch r (rmatch (cat rs) k) st.
Proof. reflexivity. Qed.

Lemma rmatch_cat_nil (k : cont) (st : mstate) : rmatch (cat []) k st = k st.
Proof. reflexivity. Qed.

(** The capture of a group that a greedy run fills. *)
Lemma rmatch_group_plus_run (i : nat) (p : char -> bool) (k : cont)
    (w tl : str) (n : nat) (pv : option char) (cs : list (option str))
    (res : mstate) :
  w ≠ [] → Forall (fun c => p c = true) w → stops p tl →
  k (MState (n + length w) (from_option Some pv (last w)) tl
            (<[i := Some w]> cs)) = Some res →
  rmatch (Group i (Plus p)) k (MState n pv (w ++ tl) cs) = Some res.
Proof.
  intros Hne Hw Hstop Hk.
  change (rmatch (Group i (Plus p)) k (MState n pv (w ++ tl) cs))
    with (rmatch (Plus p)
            (fun st' => k (capture i (MState n pv (w ++ tl) cs) st'))
            (MState n pv (w ++ tl) cs)).
  apply rmatch_plus_run; try assumption.
  unfold capture. simpl.
  replace (n + length w - n) with (length w) by lia.
  rewrite take_app_length. exact Hk.
Qed.

End MatcherForward.

Section CanonicalStatements.

Lemma is_quote_cases (q : char) : is_quote q = true → q = 39%N ∨ q = 34%N.
Proof.
  unfold is_quote. intros H. apply orb_true_iff in H as [H|H];
    apply N.eqb_eq in H; auto.
Qed.

Lemma is_quote_not_space (q : char) : is_quote q = true → is_space q = false.
Proof. intros H. destruct (is_quote_cases q H) as [-> | ->]; reflexivity. Qed.

Lemma is_quote_not_word (q : char) : is_quote q = true → is_word q = false.
Proof. intros H. destruct (is_quote_cases q H) as [-> | ->]; reflexivity. Qed.

Lemma is_space_not_word (c : char) : is_space c = true → is_word c = false.
Proof.
  intros H. destruct (is_word c) eqn:E; [|reflexivity].
  apply is_word_not_space in E. congruence.
Qed.

Lemma stops_word_run (w tl : str) : word_run w → stops is_space (w ++ tl).
Proof.
  intros [Hne Hw]. destruct w as [|c w]; [contradiction|].
  apply Forall_cons in Hw as [Hc _]. simpl. apply is_word_not_space, Hc.
Qed.

Lemma stops_space_run (w tl : str) : space_run w → stops is_word (w ++ tl).
Proof.
  intros [Hne Hw]. destruct w as [|c w]; [contradiction|].
  apply Forall_cons in Hw as [Hc _]. simpl. apply is_space_not_word, Hc.
Qed.

Lemma rmatch_opt_taken (r : regex) (k : cont) (st res : mstate) :
  rmatch r k st = Some res → rmatch (Opt r) k st = Some res.
Proof. intros H. simpl. rewrite H. reflexivity. Qed.

Lemma rmatch_opt_skipped (i : nat) (c : char) (w : str) (k : cont)
    (x : char) (tl : str) (n : nat) (pv : option char)
    (cs : list (option str)) :
  x ≠ c →
  rmatch (Opt (Group i (text (c :: w)))) k (MState n pv (x :: tl) cs)
  = k (MState n pv (x :: tl) cs).
Proof. intros H. simpl. rewrite char_eqb_neq by exact H. reflexivity. Qed.

Lemma rmatch_group_text (i : nat) (w : str) (k : cont) (tl : str)
    (n : nat) (pv : option char) (cs : list (option str)) :
  rmatch (Group i (text w)) k (MState n pv (w ++ tl) cs)
  = k (MState (n + length w) (from_option Some pv (last w)) tl
              (<[i := Some w]> cs)).
Proof.
  change (rmatch (Group i (text w)) k (MState n pv (w ++ tl) cs))
    with (rmatch (text w)
            (fun st' => k (capture i (MState n pv (w ++ tl) cs) st'))
            (MState n pv (w ++ tl) cs)).
  rewrite rmatch_text. unfold capture. simpl.
  replace (n + length w - n) with (length w) by lia.
  rewrite take_app_length. reflexivity.
Qed.

(** An import of one function at the front of a text is what the
    third pattern matches there. *)
Lemma defaultSingleImportRegex_matches (name symbol stmt post : str)
    (n : nat) (pv : option char) :
  single_import_text name symbol stmt → word_run name → word_run symbol →
  ∃ m,
    match_at defaultSingleImportRegex n pv (stmt ++ post) = Some m
    ∧ m_start m = n ∧ m_end m = n + length stmt ∧ m_text m = stmt
    ∧ cap 1 (m_caps m) = name ∧ cap 2 (m_caps m) = symbol.
Proof.
  intros (ws1 & ws2 & ws3 & q1 & ext & q2 & -> & S1 & S2 & S3 & Hext & Q1 & Q2)
         Hn Hs.
  assert (∃ st',
            rmatch (body defaultSingleImportRegex) Some
              (MState n pv
                 (lit "import" ++ ws1 ++ name ++ ws2 ++ lit "from" ++ ws3
                  ++ q1 :: lit "lodash/" ++ symbol ++ ext ++ q2 :: post)
                 (replicate 4 None))
            = Some st'
            ∧ pos st'
              = n + length (lit "import" ++ ws1 ++ name ++ ws2 ++ lit "from"
                            ++ ws3 ++ [q1] ++ lit "lodash/" ++ symbol ++ ext
                            ++ [q2])
            ∧ cap 1 (caps st') = name ∧ cap 2 (caps st') = symbol)
    as (st' & Hm & Hp & C1 & C2).
  { unfold defaultSingleImportRegex. cbn [body].
    assert (∀ k res cs n' pv',
              k (MState (n' + length ext + 1) (Some q2) post
                   (if nonempty ext then <[3 := Some ext]> cs else cs))
              = Some res →
              rmatch (cat [Opt (Group 3 (text (lit ".js"))); Class is_quote]) k
                (MState n' pv' (ext ++ q2 :: post) cs) = Some res) as Htail.
    { intros k res cs n' pv' Hk. rewrite rmatch_cat_cons.
      destruct Hext as [-> | ->].
      - change ([] ++ q2 :: post) with (q2 :: post).
        change (lit ".js") with (46%N :: lit "js").
        rewrite rmatch_opt_skipped
          by (destruct (is_quote_cases q2 Q2) as [-> | ->]; discriminate).
        rewrite rmatch_cat_cons, rmatch_class, rmatch_cat_nil by exact Q2.
        simpl in Hk. rewrite Nat.add_0_r, Nat.add_1_r in Hk. exact Hk.
      - apply rmatch_opt_taken. rewrite rmatch_group_text.
        rewrite rmatch_cat_cons, rmatch_class, rmatch_cat_nil by exact Q2.
        rewrite <- Nat.add_1_r. exact Hk. }
    eexists. split; [|split; [|split]].
    - rewrite rmatch_cat_cons, rmatch_text.
      rewrite rmatch_cat_cons.
      apply rmatch_plus_run;
        [apply S1 | apply S1 | apply stops_word_run, Hn |].
      rewrite rmatch_cat_cons.
      apply rmatch_group_plus_run;
        [apply Hn | apply Hn | apply stops_space_run, S2 |].
      rewrite rmatch_cat_cons.
      apply rmatch_plus_run; [apply S2 | apply S2 | reflexivity |].
      rewrite rmatch_cat_cons, rmatch_text.
      rewrite rmatch_cat_cons.
      apply rmatch_plus_run;
        [apply S3 | apply S3 | simpl; apply is_quote_not_space, Q1 |].
      rewrite rmatch_cat_cons, rmatch_class by exact Q1.
      rewrite rmatch_cat_cons, rmatch_text.
      rewrite rmatch_cat_cons.
      apply rmatch_group_plus_run; [apply Hs | apply Hs | |].
      + destruct Hext as [-> | ->]; simpl;
          [apply is_quote_not_word, Q2 | reflexivity].
      + apply Htail. reflexivity.
    - simpl pos. rewrite !length_app. simpl. lia.
    - simpl caps. destruct (nonempty ext); reflexivity.
    - simpl caps. destruct (nonempty ext); reflexivity. }
  unfold match_at.
  replace ((lit "import" ++ ws1 ++ name ++ ws2 ++ lit "from" ++ ws3 ++ [q1]
            ++ lit "lodash/" ++ symbol ++ ext ++ [q2]) ++ post)
    with (lit "import" ++ ws1 ++ name ++ ws2 ++ lit "from" ++ ws3
          ++ q1 :: lit "lodash/" ++ symbol ++ ext ++ q2 :: post)
    by (rewrite <- !app_assoc; reflexivity).
  change (replicate (S (ngroups defaultSingleImportRegex)) None)
    with (replicate 4 (@None str)).
  rewrite Hm. eexists. split; [reflexivity|].
  cbn [m_start m_end m_text m_caps].
  split; [reflexivity|]. split; [exact Hp|]. split; [|split; assumption].
  rewrite Hp, Nat.add_sub'.
  set (stmt := lit "import" ++ ws1 ++ name ++ ws2 ++ lit "from" ++ ws3 ++ [q1]
               ++ lit "lodash/" ++ symbol ++ ext ++ [q2]).
  replace (lit "import" ++ ws1 ++ name ++ ws2 ++ lit "from" ++ ws3
           ++ q1 :: lit "lodash/" ++ symbol ++ ext ++ q2 :: post)
    with (stmt ++ post)
    by (unfold stmt; rewrite <- !app_assoc; reflexivity).
  apply take_app_length.
Qed.

End CanonicalStatements.

(** * Texts with one import *)

Section OneImport.

(** The three patterns of the passes begin with the word [import]:
    they match nowhere in a text that does not have it. *)
Lemma match_at_import (r : pattern) (rs : list regex) (n : nat)
    (pv : option char) (s : str) (m : found) :
  body r = cat (text (lit "import") :: rs) →
  match_at r n pv s = Some m →
  starts_with (lit "import") s = true.
Proof.
  intros Hr H. apply match_at_sound in H as (st' & Ha & _).
  rewrite Hr in Ha. apply accepts_cat_cons in Ha as (mid & Ha & _).
  apply accepts_text in Ha as [(E & _) _]. cbn [rest] in E. rewrite E.
  apply starts_with_app.
Qed.

Lemma search_none (r : pattern) (rs : list regex) (s : str) :
  body r = cat (text (lit "import") :: rs) →
  ∀ n pv, includes s (lit "import") = false → search r n pv s = None.
Proof.
  intros Hr. induction s as [|c s IH]; intros n pv Hin.
  - simpl. destruct (match_at r n pv []) eqn:E; [|reflexivity].
    apply (match_at_import r rs) in E; [discriminate | exact Hr].
  - change (includes (c :: s) (lit "import"))
      with (starts_with (lit "import") (c :: s) || includes s (lit "import"))
      in Hin.
    apply orb_false_iff in Hin as [H1 H2]. simpl.
    destruct (match_at r n pv (c :: s)) eqn:E.
    + apply (match_at_import r rs) in E; [congruence | exact Hr].
    + apply IH, H2.
Qed.

Lemma exec_all_none (r : pattern) (rs : list regex) (s : str) :
  body r = cat (text (lit "import") :: rs) →
  match_at r 0 None s = None →
  includes (drop 1 s) (lit "import") = false →
  exec_all (enough s) r s 0 = Some ([], 0).
Proof.
  intros Hr Hm Hin. unfold enough.
  assert (exec r s 0 = (None, 0)) as E.
  { unfold exec. simpl. rewrite drop_0.
    destruct s as [|c s]; simpl; rewrite Hm; [reflexivity|].
    simpl in Hin. rewrite (search_none r rs) by assumption. reflexivity. }
  simpl. rewrite E. reflexivity.
Qed.

Lemma exec_all_one (r : pattern) (rs : list regex) (s : str) (m : found) :
  body r = cat (text (lit "import") :: rs) →
  match_at r 0 None s = Some m →
  m_start m = 0 → 0 < m_end m → m_end m ≤ length s →
  includes (drop (m_end m) s) (lit "import") = false →
  exec_all (enough s) r s 0 = Some ([m], 0).
Proof.
  intros Hr Hm Hs He Hl Hin. unfold enough.
  assert (exec r s 0 = (Some m, m_end m)) as E1.
  { unfold exec. simpl. rewrite drop_0.
    destruct s as [|c s]; simpl; rewrite Hm; reflexivity. }
  assert (exec r s (m_end m) = (None, 0)) as E2.
  { unfold exec.
    replace (length s <? m_end m) with false
      by (symmetry; apply Nat.ltb_ge; exact Hl).
    rewrite (search_none r rs) by assumption. reflexivity. }
  change (exec_all (S (S (length s))) r s 0)
    with (match exec r s 0 with
          | (None, li') => Some ([], li')
          | (Some m, li') =>
              let li'' := if (m_end m =? m_start m) then S li' else li' in
              match exec_all (S (length s)) r s li'' with
              | Some (ms, lf) => Some (m :: ms, lf)
              | None => None
              end
          end).
  rewrite E1. cbn zeta.
  replace (m_end m =? m_start m) with false
    by (symmetry; apply Nat.eqb_neq; lia).
  simpl. rewrite E2. reflexivity.
Qed.

(** The word [w] does not reach across a character that is not a
    word character. *)
Lemma starts_with_sep (w A B : str) (c : char) :
  Forall (fun x => is_word x = true) w → is_word c = false →
  w ≠ [] →
  starts_with w (A ++ c :: B) = starts_with w A.
Proof.
  intros Hw Hc. revert A. induction Hw as [|x w Hx Hw IH]; intros A Hne.
  - contradiction.
  - destruct A as [|a A]; simpl.
    + rewrite char_eqb_neq; [reflexivity | congruence].
    + destruct w as [|y w]; [destruct A; reflexivity|].
      rewrite IH by discriminate. reflexivity.
Qed.

Lemma includes_sep (w A B : str) (c : char) :
  Forall (fun x => is_word x = true) w → is_word c = false → w ≠ [] →
  includes (A ++ c :: B) w = includes A w || includes B w.
Proof.
  intros Hw Hc Hne. induction A as [|a A IH].
  - change (includes ([] ++ c :: B) w)
      with (starts_with w ([] ++ c :: B) || includes B w).
    rewrite starts_with_sep by assumption.
    destruct w; [contradiction | reflexivity].
  - change (includes ((a :: A) ++ c :: B) w)
      with (starts_with w ((a :: A) ++ c :: B) || includes (A ++ c :: B) w).
    change (includes (a :: A) w)
      with (starts_with w (a :: A) || includes A w).
    rewrite starts_with_sep, IH by assumption. apply orb_assoc.
Qed.

Lemma includes_skip (w R B : str) :
  Forall (fun x => is_word x = true) w → w ≠ [] →
  Forall (fun c => is_word c = false) R →
  includes (R ++ B) w = includes B w.
Proof.
  intros Hw Hne HR. induction HR as [|c R Hc HR IH]; [reflexivity|].
  change (includes ((c :: R) ++ B) w) with (includes ([] ++ c :: R ++ B) w).
  rewrite includes_sep by assumption. rewrite IH.
  destruct w; [contradiction | reflexivity].
Qed.

Lemma includes_between (w A R B : str) :
  Forall (fun x => is_word x = true) w → w ≠ [] →
  R ≠ [] → Forall (fun c => is_word c = false) R →
  includes (A ++ R ++ B) w = includes A w || includes B w.
Proof.
  intros Hw Hne HR HF. destruct R as [|c R]; [contradiction|].
  apply Forall_cons in HF as [Hc HF].
  change (A ++ (c :: R) ++ B) with (A ++ c :: R ++ B).
  rewrite includes_sep, includes_skip by assumption. reflexivity.
Qed.

(** Two runs of a class that end where the class ends are the same
    run. *)
Lemma run_align (p : char -> bool) (w1 : str) :
  ∀ w2 r1 r2,
    Forall (fun c => p c = true) w1 → Forall (fun c => p c = true) w2 →
    stops p r1 → stops p r2 →
    w1 ++ r1 = w2 ++ r2 → w1 = w2 ∧ r1 = r2.
Proof.
  induction w1 as [|c w1 IH]; intros w2 r1 r2 H1 H2 S1 S2 E.
  - destruct w2 as [|c' w2]; [auto|]. simpl in E. subst r1.
    apply Forall_cons in H2 as [H2 _]. simpl in S1. congruence.
  - destruct w2 as [|c' w2].
    + simpl in E. subst r2. apply Forall_cons in H1 as [H1 _].
      simpl in S2. congruence.
    + injection E as -> E. apply Forall_cons in H1 as [_ H1].
      apply Forall_cons in H2 as [_ H2].
      destruct (IH w2 r1 r2 H1 H2 S1 S2 E) as [-> ->]. auto.
Qed.

End OneImport.

Section ImportFree.

Lemma import_word : Forall (fun x => is_word x = true) (lit "import").
Proof. repeat constructor. Qed.

Lemma import_between (A R B : str) :
  R ≠ [] → Forall (fun c => is_word c = false) R →
  includes (A ++ R ++ B) (lit "import")
  = includes A (lit "import") || includes B (lit "import").
Proof.
  intros. apply includes_between; [apply import_word | discriminate | ..];
    assumption.
Qed.

Lemma import_skip (R B : str) :
  Forall (fun c => is_word c = false) R →
  includes (R ++ B) (lit "import") = includes B (lit "import").
Proof.
  intros. apply includes_skip; [apply import_word | discriminate | assumption].
Qed.

Lemma space_run_nonword (ws : str) :
  Forall (fun c => is_space c = true) ws →
  Forall (fun c => is_word c = false) ws.
Proof. intros H. eapply Forall_impl; [exact H | exact is_space_not_word]. Qed.

Lemma quote_nonword (q : char) :
  is_quote q = true → Forall (fun c => is_word c = false) [q].
Proof. intros H. constructor; [apply is_quote_not_word, H | constructor]. Qed.

End ImportFree.

Section OtherPatterns.

(** The first pattern does not match an import of one function. *)
Lemma defaultImportRegex_not_single (name symbol stmt post : str)
    (n : nat) (pv : option char) :
  single_import_text name symbol stmt → word_run name →
  match_at defaultImportRegex n pv (stmt ++ post) = None.
Proof.
  intros (ws1 & ws2 & ws3 & q1 & ext & q2 & -> & S1 & S2 & S3 & Hext & Q1 & Q2)
         Hn.
  destruct (match_at _ _ _ _) as [m|] eqn:E; [exfalso | reflexivity].
  apply match_at_sound in E as (st' & Ha & _).
  apply defaultImportRegex_accepts in Ha
    as (name' & w & (Ew & _) & Hshape & Hn' & _); [|reflexivity].
  destruct Hshape
    as (ws1' & ws2' & ws3' & q1' & q2' & -> & S1' & S2' & S3' & Q1' & Q2').
  cbn [rest] in Ew. rewrite <- !app_assoc in Ew. apply app_inv_head in Ew.
  apply (run_align is_space) in Ew as [<- Ew];
    [| apply S1 | apply S1' | apply stops_word_run, Hn
     | apply stops_word_run, Hn'].
  apply (run_align is_word) in Ew as [<- Ew];
    [| apply Hn | apply Hn' | apply stops_space_run, S2
     | apply stops_space_run, S2'].
  apply (run_align is_space) in Ew as [<- Ew];
    [| apply S2 | apply S2' | reflexivity | reflexivity].
  apply app_inv_head in Ew.
  apply (run_align is_space) in Ew as [<- Ew];
    [| apply S3 | apply S3' | apply is_quote_not_space, Q1
     | apply is_quote_not_space, Q1'].
  injection Ew as _ <- _. discriminate Q2'.
Qed.

End OtherPatterns.

(** * What a pass does to a text *)

Section Passes.

Lemma ordered_mono (s : str) (ms : list found) (next next' : nat) :
  next' ≤ next → ordered s next ms → ordered s next' ms.
Proof.
  destruct ms as [|m ms]; simpl; [trivial|].
  intros Hle (H1 & H2). split; [lia | exact H2].
Qed.

Lemma exec_all_ordered (r : pattern) (s : str) (fuel : nat) :
  ∀ li ms lf, exec_all fuel r s li = Some (ms, lf) → ordered s li ms.
Proof.
  induction fuel as [|fuel IH]; intros li ms lf H; simpl in H;
    [discriminate|].
  destruct (exec r s li) as [[m|] li'] eqn:E.
  - destruct (exec_all fuel r s _) as [[ms' lf']|] eqn:E'; [|discriminate].
    injection H as <- <-. apply IH in E'.
    apply exec_sound in E as ((st' & _ & _ & _ & _ & Ht) & Hs & He & Hl & ->).
    simpl. repeat split; try assumption.
    eapply ordered_mono; [|exact E'].
    destruct (m_end m =? m_start m); lia.
  - injection H as <- <-. exact I.
Qed.

Lemma text_between (s : str) (next : nat) (m : found) :
  next ≤ m_start m → m_start m ≤ m_end m →
  m_text m = take (m_end m - m_start m) (drop (m_start m) s) →
  drop next s
  = take (m_start m - next) (drop next s) ++ m_text m ++ drop (m_end m) s.
Proof.
  intros H1 H2 ->.
  rewrite <- (take_drop (m_start m - next) (drop next s)) at 1.
  rewrite drop_drop. replace (next + (m_start m - next)) with (m_start m) by lia.
  rewrite <- (take_drop (m_end m - m_start m) (drop (m_start m) s)) at 1.
  rewrite drop_drop.
  replace (m_start m + (m_end m - m_start m)) with (m_end m) by lia.
  reflexivity.
Qed.

Lemma splice_weave (s : str) (f : callback) (ms : list found) :
  (∀ t cs, returns (f t cs)) →
  ∀ next,
    ordered s next ms →
    ∃ gaps reps,
      length gaps = S (length ms)
      ∧ drop next s = weave gaps (map m_text ms)
      ∧ Forall2 (fun m rep => result (f (m_text m) (m_caps m)) = Value rep)
                ms reps
      ∧ splice s next ms f
        = (concat (map (fun m => warnings (f (m_text m) (m_caps m))) ms),
           Value (weave gaps reps)).
Proof.
  intros Hf. induction ms as [|m ms IH]; intros next Hord.
  - exists [drop next s], []. repeat split. constructor.
  - destruct Hord as (H1 & H2 & H3 & Ht & Hord).
    destruct (IH _ Hord) as (gaps & reps & Hlen & Hs & Hreps & Hsp).
    destruct (Hf (m_text m) (m_caps m)) as (w & rep & E).
    exists (take (m_start m - next) (drop next s) :: gaps), (rep :: reps).
    split; [simpl; lia|]. split; [|split].
    + simpl. rewrite <- Hs. apply text_between; assumption.
    + constructor; [rewrite E; reflexivity | exact Hreps].
    + simpl splice. rewrite E.
      replace (next <=? m_start m) with true
        by (symmetry; apply Nat.leb_le, H1).
      unfold bind at 1. rewrite Hsp. simpl. rewrite app_nil_r, E. reflexivity.
Qed.

(** A [replace] with a callback that returns rewrites the matches
    and only them. *)
Lemma replace_rewrites (r : pattern) (li : nat) (s : str) (f : callback) :
  (∀ t cs, returns (f t cs)) →
  rewrites_matches r f s (fst (replace r li s f)).
Proof.
  intros Hf. unfold rewrites_matches, replace.
  destruct (exec_all_enough r s) as (ms & E & _). rewrite E.
  pose proof (exec_all_ordered _ _ _ _ _ _ E) as Hord.
  destruct (splice_weave s f ms Hf 0 Hord) as (gaps & reps & Hl & Hs & Hr & Hsp).
  exists ms, gaps, reps. repeat split; assumption.
Qed.

Lemma defaultImportPass_rewrites (supportedFunctions : list str)
    (src : str) (st : store) :
  rewrites_matches defaultImportRegex
    (fun m cs => defaultImportCallback supportedFunctions src m (cap 1 cs))
    src (fst (defaultImportPass supportedFunctions src st)).
Proof.
  unfold defaultImportPass.
  pose proof (replace_rewrites defaultImportRegex
                (defaultImportRegex_lastIndex st) src
                (fun m cs => defaultImportCallback supportedFunctions src m
                               (cap 1 cs))) as H.
  destruct (replace _ _ _ _). apply H.
  intros t cs. apply defaultImportCallback_returns.
Qed.

Lemma namedImportsPass_rewrites (supportedFunctions : list str)
    (src : str) (st : store) :
  rewrites_matches namedImportsRegex
    (fun m cs => namedImportsCallback supportedFunctions m (cap 1 cs))
    src (fst (namedImportsPass supportedFunctions src st)).
Proof.
  unfold namedImportsPass.
  pose proof (replace_rewrites namedImportsRegex
                (namedImportsRegex_lastIndex st) src
                (fun m cs => namedImportsCallback supportedFunctions m
                               (cap 1 cs))) as H.
  destruct (replace _ _ _ _). apply H.
  intros t cs. apply namedImportsCallback_returns.
Qed.

Lemma defaultSingleImportPass_rewrites (supportedFunctions : list str)
    (src : str) (st : store) :
  rewrites_matches defaultSingleImportRegex
    (fun m cs =>
       defaultSingleImportCallback supportedFunctions m (cap 1 cs) (cap 2 cs))
    src (fst (defaultSingleImportPass supportedFunctions src st)).
Proof.
  unfold defaultSingleImportPass.
  pose proof (replace_rewrites defaultSingleImportRegex
                (defaultSingleImportRegex_lastIndex st) src
                (fun m cs => defaultSingleImportCallback supportedFunctions m
                               (cap 1 cs) (cap 2 cs))) as H.
  destruct (replace _ _ _ _). apply H.
  intros t cs. apply defaultSingleImportCallback_returns.
Qed.

End Passes.

Section NamespaceStatements.

(** A namespace import at the front of a text is what the first
    pattern matches there. *)
Lemma defaultImportRegex_matches (name stmt post : str)
    (n : nat) (pv : option char) :
  default_import_text name stmt → word_run name →
  ∃ m,
    match_at defaultImportRegex n pv (stmt ++ post) = Some m
    ∧ m_start m = n ∧ m_end m = n + length stmt ∧ m_text m = stmt
    ∧ cap 1 (m_caps m) = name.
Proof.
  intros (ws1 & ws2 & ws3 & q1 & q2 & -> & S1 & S2 & S3 & Q1 & Q2) Hn.
  set (stmt := lit "import" ++ ws1 ++ name ++ ws2 ++ lit "from" ++ ws3
               ++ [q1] ++ lit "lodash" ++ [q2]).
  assert (stmt ++ post
          = lit "import" ++ ws1 ++ name ++ ws2 ++ lit "from" ++ ws3
            ++ q1 :: lit "lodash" ++ q2 :: post) as Etext.
  { unfold stmt. rewrite <- !app_assoc. reflexivity. }
  assert (∃ st',
            rmatch (body defaultImportRegex) Some
              (MState n pv (stmt ++ post) (replicate 2 None)) = Some st'
            ∧ pos st' = n + length stmt
            ∧ cap 1 (caps st') = name)
    as (st' & Hm & Hp & C1).
  { rewrite Etext. unfold defaultImportRegex. cbn [body].
    eexists. split; [|split].
    - rewrite rmatch_cat_cons, rmatch_text.
      rewrite rmatch_cat_cons.
      apply rmatch_plus_run;
        [apply S1 | apply S1 | apply stops_word_run, Hn |].
      rewrite rmatch_cat_cons.
      apply rmatch_group_plus_run;
        [apply Hn | apply Hn | apply stops_space_run, S2 |].
      rewrite rmatch_cat_cons.
      apply rmatch_plus_run; [apply S2 | apply S2 | reflexivity |].
      rewrite rmatch_cat_cons, rmatch_text.
      rewrite rmatch_cat_cons.
      apply rmatch_plus_run;
        [apply S3 | apply S3 | simpl; apply is_quote_not_space, Q1 |].
      rewrite rmatch_cat_cons, rmatch_class by exact Q1.
      rewrite rmatch_cat_cons, rmatch_text.
      rewrite rmatch_cat_cons, rmatch_class by exact Q2.
      rewrite rmatch_cat_nil. reflexivity.
    - cbn [pos]. unfold stmt. rewrite !length_app. simpl. lia.
    - reflexivity. }
  unfold match_at.
  change (replicate (S (ngroups defaultImportRegex)) None)
    with (replicate 2 (@None str)).
  rewrite Hm. eexists. split; [reflexivity|].
  cbn [m_start m_end m_text m_caps].
  split; [reflexivity|]. split; [exact Hp|]. split; [|exact C1].
  rewrite Hp, Nat.add_sub'. apply take_app_length.
Qed.

Lemma default_import_has_lodash (name stmt post : str) :
  default_import_text name stmt →
  includes (stmt ++ post) (lit "lodash") = true.
Proof.
  intros (ws1 & ws2 & ws3 & q1 & q2 & -> & _).
  apply includes_spec.
  exists (lit "import" ++ ws1 ++ name ++ ws2 ++ lit "from" ++ ws3 ++ [q1]),
         ([q2] ++ post).
  rewrite <- !app_assoc. reflexivity.
Qed.

(** The second pattern wants a brace after [import]: it does not
    match where a name stands there. *)
Lemma namedImportsRegex_not_name (ws1 name tl : str)
    (n : nat) (pv : option char) :
  space_run ws1 → word_run name →
  match_at namedImportsRegex n pv (lit "import" ++ ws1 ++ name ++ tl) = None.
Proof.
  intros S1 [Hne Hn].
  destruct (match_at _ _ _ _) as [m|] eqn:E; [exfalso | reflexivity].
  apply match_at_sound in E as (st' & Ha & _).
  apply namedImportsRegex_accepts in Ha
    as (raw & w & (Ew & _) & Hshape & _); [|reflexivity].
  destruct Hshape
    as (ws1' & ws2' & ws3' & ws4' & ws5' & q1' & q2' & -> & S1' & _).
  cbn [rest] in Ew. rewrite <- !app_assoc in Ew. apply app_inv_head in Ew.
  apply (run_align is_space) in Ew as [<- Ew];
    [| apply S1 | apply S1' | apply stops_word_run; split; assumption
     | reflexivity].
  destruct name as [|c name]; [contradiction|].
  apply Forall_cons in Hn as [Hc _]. injection Ew as -> _. discriminate Hc.
Qed.

(** The first and the third pattern want a name after [import]:
    they do not match where a brace stands there. *)
Lemma defaultImportRegex_not_brace (ws1 tl : str)
    (n : nat) (pv : option char) :
  space_run ws1 →
  match_at defaultImportRegex n pv (lit "import" ++ ws1 ++ 123%N :: tl) = None.
Proof.
  intros S1.
  destruct (match_at _ _ _ _) as [m|] eqn:E; [exfalso | reflexivity].
  apply match_at_sound in E as (st' & Ha & _).
  apply defaultImportRegex_accepts in Ha
    as (name' & w & (Ew & _) & Hshape & [Hne Hn'] & _); [|reflexivity].
  destruct Hshape as (ws1' & ws2' & ws3' & q1' & q2' & -> & S1' & _).
  cbn [rest] in Ew. rewrite <- !app_assoc in Ew. apply app_inv_head in Ew.
  apply (run_align is_space) in Ew as [<- Ew];
    [| apply S1 | apply S1' | reflexivity
     | apply stops_word_run; split; assumption].
  destruct name' as [|c name']; [contradiction|].
  apply Forall_cons in Hn' as [Hc _]. injection Ew as <- _. discriminate Hc.
Qed.

Lemma defaultSingleImportRegex_not_brace (ws1 tl : str)
    (n : nat) (pv : option char) :
  space_run ws1 →
  match_at defaultSingleImportRegex n pv
    (lit "import" ++ ws1 ++ 123%N :: tl) = None.
Proof.
  intros S1.
  destruct (match_at _ _ _ _) as [m|] eqn:E; [exfalso | reflexivity].
  apply match_at_sound in E as (st' & Ha & _).
  apply defaultSingleImportRegex_accepts in Ha
    as (name' & symbol' & w & (Ew & _) & Hshape & [Hne Hn'] & _);
    [|reflexivity].
  destruct Hshape as (ws1' & ws2' & ws3' & q1' & ext' & q2' & -> & S1' & _).
  cbn [rest] in Ew. rewrite <- !app_assoc in Ew. apply app_inv_head in Ew.
  apply (run_align is_space) in Ew as [<- Ew];
    [| apply S1 | apply S1' | reflexivity
     | apply stops_word_run; split; assumption].
  destruct name' as [|c name']; [contradiction|].
  apply Forall_cons in Hn' as [Hc _]. injection Ew as <- _. discriminate Hc.
Qed.

(** The third pattern does not match a namespace import. *)
Lemma defaultSingleImportRegex_not_default (name stmt post : str)
    (n : nat) (pv : option char) :
  default_import_text name stmt → word_run name →
  match_at defaultSingleImportRegex n pv (stmt ++ post) = None.
Proof.
  intros (ws1 & ws2 & ws3 & q1 & q2 & -> & S1 & S2 & S3 & Q1 & Q2) Hn.
  destruct (match_at _ _ _ _) as [m|] eqn:E; [exfalso | reflexivity].
  apply match_at_sound in E as (st' & Ha & _).
  apply defaultSingleImportRegex_accepts in Ha
    as (name' & symbol' & w & (Ew & _) & Hshape & Hn' & _); [|reflexivity].
  destruct Hshape
    as (ws1' & ws2' & ws3' & q1' & ext' & q2' & -> & S1' & S2' & S3' & _
        & Q1' & Q2').
  cbn [rest] in Ew. rewrite <- !app_assoc in Ew. apply app_inv_head in Ew.
  apply (run_align is_space) in Ew as [<- Ew];
    [| apply S1 | apply S1' | apply stops_word_run, Hn
     | apply stops_word_run, Hn'].
  apply (run_align is_word) in Ew as [<- Ew];
    [| apply Hn | apply Hn' | apply stops_space_run, S2
     | apply stops_space_run, S2'].
  apply (run_align is_space) in Ew as [<- Ew];
    [| apply S2 | apply S2' | reflexivity | reflexivity].
  apply app_inv_head in Ew.
  apply (run_align is_space) in Ew as [<- Ew];
    [| apply S3 | apply S3' | apply is_quote_not_space, Q1
     | apply is_quote_not_space, Q1'].
  injection Ew as _ -> _. discriminate Q2.
Qed.

End NamespaceStatements.

Section OneImportPasses.

Variable supportedFunctions : list str.

Lemma bind_assoc {A B C} (m : W A) (f : A -> W B) (g : B -> W C) :
  bind (bind m f) g = bind m (fun a => bind (f a) g).
Proof.
  destruct m as [w [a| |]]; simpl; try reflexivity.
  destruct (f a) as [w' [b| |]]; simpl; try reflexivity.
  destruct (g b) as [w'' o]. rewrite app_assoc. reflexivity.
Qed.

Lemma replace_none (r : pattern) (rs : list regex) (li : nat) (s : str)
    (f : callback) :
  body r = cat (text (lit "import") :: rs) →
  match_at r 0 None s = None →
  includes (drop 1 s) (lit "import") = false →
  fst (replace r li s f) = ret s.
Proof.
  intros Hr Hm Hin. unfold replace.
  rewrite (exec_all_none r rs) by assumption. reflexivity.
Qed.

Lemma replace_one (r : pattern) (rs : list regex) (li : nat)
    (stmt post : str) (f : callback) (m : found) :
  body r = cat (text (lit "import") :: rs) →
  match_at r 0 None (stmt ++ post) = Some m →
  m_start m = 0 → m_end m = length stmt → m_text m = stmt → stmt ≠ [] →
  includes post (lit "import") = false →
  fst (replace r li (stmt ++ post) f)
  = bind (f stmt (m_caps m)) (fun rep => ret (rep ++ post)).
Proof.
  intros Hr Hm Hs He Ht Hne Hin. unfold replace.
  rewrite (exec_all_one r rs _ m); try assumption.
  - cbn [fst splice]. rewrite Hs, He, Ht. cbn [Nat.leb].
    rewrite drop_app_length. unfold bind, ret.
    destruct (f stmt (m_caps m)) as [w [rep| |]]; reflexivity.
  - rewrite He. destruct stmt; [contradiction | simpl; lia].
  - rewrite He, length_app. lia.
  - rewrite He, drop_app_length. exact Hin.
Qed.

Lemma defaultImportPass_fst (src : str) (st : store) :
  fst (defaultImportPass supportedFunctions src st)
  = fst (replace defaultImportRegex (defaultImportRegex_lastIndex st) src
           (fun m cs =>
              defaultImportCallback supportedFunctions src m (cap 1 cs))).
Proof. unfold defaultImportPass. destruct (replace _ _ _ _). reflexivity. Qed.

Lemma namedImportsPass_fst (src : str) (st : store) :
  fst (namedImportsPass supportedFunctions src st)
  = fst (replace namedImportsRegex (namedImportsRegex_lastIndex st) src
           (fun m cs => namedImportsCallback supportedFunctions m (cap 1 cs))).
Proof. unfold namedImportsPass. destruct (replace _ _ _ _). reflexivity. Qed.

Lemma defaultSingleImportPass_fst (src : str) (st : store) :
  fst (defaultSingleImportPass supportedFunctions src st)
  = fst (replace defaultSingleImportRegex
           (defaultSingleImportRegex_lastIndex st) src
           (fun m cs =>
              defaultSingleImportCallback supportedFunctions m
                (cap 1 cs) (cap 2 cs))).
Proof.
  unfold defaultSingleImportPass. destruct (replace _ _ _ _). reflexivity.
Qed.

Lemma single_import_has_lodash (name symbol stmt post : str) :
  single_import_text name symbol stmt →
  includes (stmt ++ post) (lit "lodash") = true.
Proof.
  intros (ws1 & ws2 & ws3 & q1 & ext & q2 & -> & _).
  apply includes_spec.
  exists (lit "import" ++ ws1 ++ name ++ ws2 ++ lit "from" ++ ws3 ++ [q1]),
         ([47%N] ++ symbol ++ ext ++ [q2] ++ post).
  rewrite <- !app_assoc. reflexivity.
Qed.

End OneImportPasses.

Section Usages.

Lemma is_word_not_dot (c : char) : is_word c = true → c ≠ 46%N.
Proof. intros H ->. discriminate H. Qed.

Lemma used_symbol (name symbol : str) :
  Forall (fun c => is_word c = true) name →
  Forall (fun c => is_word c = true) symbol →
  default [] (split (name ++ lit "." ++ symbol) (lit ".") !! 1) = symbol.
Proof.
  intros Hn Hs. unfold split. change (lit ".") with [46%N].
  rewrite split_from_segment
    by (eapply Forall_impl; [exact Hn | exact is_word_not_dot]).
  rewrite split_from_last
    by (eapply Forall_impl; [exact Hs | exact is_word_not_dot]).
  reflexivity.
Qed.

(** What the scan for usages returns. *)
Lemma match_all_usages (src name : str) (usages : list str) :
  match_all src (usageRegex name) = ret (Some usages) →
  usages ≠ []
  ∧ Forall (fun u => ∃ symbol,
                word_run symbol ∧ u = name ++ lit "." ++ symbol) usages.
Proof.
  unfold match_all.
  destruct (exec_all_enough (usageRegex name) src) as (ms & -> & Hms).
  destruct ms as [|m ms]; [discriminate|].
  intros [= <-]. split; [discriminate|].
  change (m_text m :: map m_text ms) with (map m_text (m :: ms)).
  rewrite Forall_map. eapply Forall_impl; [exact Hms|].
  intros m' Hm'. apply (usageRegex_shape name src), Hm'.
Qed.

Lemma usedFunctions_spec (name : str) (usages : list str) :
  Forall (fun c => is_word c = true) name →
  Forall (fun u => ∃ symbol,
              word_run symbol ∧ u = name ++ lit "." ++ symbol) usages →
  ∀ symbol,
    symbol ∈ usedFunctions usages ↔ name ++ lit "." ++ symbol ∈ usages.
Proof.
  intros Hn Hu symbol. unfold usedFunctions.
  rewrite !list_elem_of_In, in_map_iff. rewrite Forall_forall in Hu.
  split.
  - intros (u & E & Hin). apply list_elem_of_In in Hin as Hin'.
    destruct (Hu u Hin') as (sym & [_ Hs] & ->).
    rewrite used_symbol in E by assumption. subst sym. exact Hin.
  - intros Hin. exists (name ++ lit "." ++ symbol). split; [|exact Hin].
    apply list_elem_of_In in Hin.
    destruct (Hu _ Hin) as (sym & [_ Hs] & E).
    apply app_inv_head in E. apply app_inv_head in E. subst sym.
    apply used_symbol; assumption.
Qed.

Lemma filter_nil {A} (f : A -> bool) (l : list A) :
  (∀ x, x ∈ l → f x = false) → List.filter f l = [].
Proof.
  induction l as [|x l IH]; intros H; simpl; [reflexivity|].
  rewrite H by constructor. apply IH. intros y Hy. apply H. constructor. exact Hy.
Qed.

Lemma nonempty_true {A} (l : list A) : l ≠ [] → nonempty l = true.
Proof. destruct l; [contradiction | reflexivity]. Qed.

End Usages.

Section RewrittenNamespace.

(** The second pattern does not match the namespace import that the
    first pass writes: no token of a list begins with a star. *)
Lemma namedImportsRegex_not_star (tl : str) (n : nat) (pv : option char) :
  match_at namedImportsRegex n pv (lit "import { * as " ++ tl) = None.
Proof.
  destruct (match_at _ _ _ _) as [m|] eqn:E; [exfalso | reflexivity].
  apply match_at_sound in E as (st' & Ha & _).
  apply namedImportsRegex_accepts in Ha
    as (raw & w & (Ew & _) & Hshape & Hne & Hraw & _); [|reflexivity].
  destruct Hshape
    as (ws1' & ws2' & ws3' & ws4' & ws5' & q1' & q2' & -> & S1' & S2' & S3'
        & _).
  cbn [rest] in Ew. rewrite <- !app_assoc in Ew.
  change (lit "import { * as " ++ tl)
    with (lit "import" ++ [32%N] ++ 123%N :: 32%N :: 42%N :: lit " as " ++ tl)
    in Ew.
  apply app_inv_head in Ew.
  apply (run_align is_space) in Ew as [<- Ew];
    [| repeat constructor | apply S1' | reflexivity | reflexivity].
  injection Ew as Ew.
  destruct ws2' as [|c ws2'].
  - destruct raw as [|c raw]; [contradiction|].
    injection Ew as <- Ew. apply Forall_cons in Hraw as [_ Hraw].
    destruct raw as [|c raw].
    + destruct ws3' as [|c ws3']; [discriminate Ew|].
      injection Ew as <- _. apply Forall_cons in S3' as [Hc _].
      discriminate Hc.
    + injection Ew as <- _. apply Forall_cons in Hraw as [Hc _].
      discriminate Hc.
  - injection Ew as <- Ew. apply Forall_cons in S2' as [_ S2'].
    destruct ws2' as [|c ws2'].
    + destruct raw as [|c raw]; [contradiction|].
      injection Ew as <- _. apply Forall_cons in Hraw as [Hc _].
      discriminate Hc.
    + injection Ew as <- _. apply Forall_cons in S2' as [Hc _].
      discriminate Hc.
Qed.

End RewrittenNamespace.

Section NamespacePasses.

Variable supportedFunctions : list str.

Lemma bind_value {A B} (w : list str) (a : A) (f : A -> W B) (r : B) :
  f a = ret r → bind (w, Value a) f = (w, Value r).
Proof. intros E. unfold bind. rewrite E. simpl. rewrite app_nil_r. reflexivity. Qed.

Lemma defaultImportCallback_unused (src m name : str) :
  match_all src (usageRegex name) = ret None →
  defaultImportCallback supportedFunctions src m name = ret m.
Proof. intros H. unfold defaultImportCallback. rewrite H. reflexivity. Qed.

Lemma defaultImportCallback_supported (src m name : str)
    (usages : list str) :
  word_run name →
  match_all src (usageRegex name) = ret (Some usages) →
  (∀ symbol,
      name ++ lit "." ++ symbol ∈ usages →
      isSupportedFunction supportedFunctions symbol = true) →
  defaultImportCallback supportedFunctions src m name
  = ret (lit "import { * as " ++ name ++ lit " } from 'es-toolkit/compat'").
Proof.
  intros Hn Hscan Hsup.
  destruct (match_all_usages _ _ _ Hscan) as [_ Hu].
  unfold defaultImportCallback. rewrite Hscan, bind_ret.
  rewrite filter_nil; [reflexivity|].
  intros symbol Hin. unfold isUnsupportedFunction. rewrite Hsup; [reflexivity|].
  apply (usedFunctions_spec name usages); [apply Hn | exact Hu | exact Hin].
Qed.

Lemma defaultImportCallback_unsupported (src m name : str)
    (usages : list str) :
  match_all src (usageRegex name) = ret (Some usages) →
  List.filter (isUnsupportedFunction supportedFunctions)
              (usedFunctions usages) ≠ [] →
  defaultImportCallback supportedFunctions src m name
  = ([lit "Unsupported lodash function"
      ++ (if 1 <? length
                    (List.filter (isUnsupportedFunction supportedFunctions)
                                 (usedFunctions usages))
          then lit "s" else [])
      ++ lit ": "
      ++ join (lit ", ")
           (List.filter (isUnsupportedFunction supportedFunctions)
                        (usedFunctions usages))],
     Value m).
Proof.
  intros Hscan Hne. unfold defaultImportCallback. rewrite Hscan, bind_ret.
  rewrite nonempty_true by exact Hne. reflexivity.
Qed.

(** The callback of the first pass gives the import back or gives
    the namespace import. *)
Lemma defaultImportCallback_cases (src m name : str) :
  ∃ w rep,
    defaultImportCallback supportedFunctions src m name = (w, Value rep)
    ∧ (rep = m
       ∨ rep = lit "import { * as " ++ name
               ++ lit " } from 'es-toolkit/compat'").
Proof.
  unfold defaultImportCallback.
  destruct (match_all_returns src (usageRegex name)) as [[usages|] ->];
    rewrite bind_ret.
  - destruct (nonempty _); eexists _, _; split; try reflexivity; auto.
  - eexists _, _. split; [reflexivity | auto].
Qed.

End NamespacePasses.

(** * Single-function imports *)

Section SingleCallback.

Variable supportedFunctions : list str.

Lemma defaultSingleImportCallback_unsupported (m name symbol : str) :
  isSupportedFunction supportedFunctions symbol = false →
  defaultSingleImportCallback supportedFunctions m name symbol
  = ([lit "Unsupported lodash function: " ++ symbol], Value m).
Proof.
  intros H. unfold defaultSingleImportCallback, isUnsupportedFunction.
  rewrite H. reflexivity.
Qed.

Lemma defaultSingleImportCallback_same (m symbol : str) :
  isSupportedFunction supportedFunctions symbol = true →
  defaultSingleImportCallback supportedFunctions m symbol symbol
  = ret (lit "import { " ++ symbol ++ lit " } from 'es-toolkit/compat'").
Proof.
  intros H. unfold defaultSingleImportCallback, isUnsupportedFunction.
  rewrite H, str_eqb_refl. reflexivity.
Qed.

Lemma defaultSingleImportCallback_renamed (m name symbol : str) :
  isSupportedFunction supportedFunctions symbol = true →
  name ≠ symbol →
  defaultSingleImportCallback supportedFunctions m name symbol
  = ret (lit "import { " ++ symbol ++ lit " as " ++ name
         ++ lit " } from 'es-toolkit/compat'").
Proof.
  intros H Hne. unfold defaultSingleImportCallback, isUnsupportedFunction.
  rewrite H, str_eqb_neq by congruence. reflexivity.
Qed.

End SingleCallback.

(** * Named-list imports *)

Section TokenLists.

Lemma filter_sublist {A} (f : A -> bool) (l : list A) :
  List.filter f l `sublist_of` l.
Proof.
  induction l as [|x l IH]; simpl; [constructor|].
  destruct (f x); constructor; exact IH.
Qed.

Lemma filter_all {A} (f : A -> bool) (l : list A) :
  (∀ x, x ∈ l → f x = true) → List.filter f l = l.
Proof.
  induction l as [|x l IH]; intros H; simpl; [reflexivity|].
  rewrite H by constructor. f_equal. apply IH.
  intros y Hy. apply H. constructor. exact Hy.
Qed.

Lemma mapW_Forall2 {A B} (f : A -> W B) (l : list A) :
  ∀ ys, mapW f l = ret ys →
        Forall2 (fun x y => result (f x) = Value y) l ys.
Proof.
  induction l as [|x l IH]; intros ys; simpl.
  - intros [= <-]. constructor.
  - destruct (f x) as [w [y| |]] eqn:E; simpl; try discriminate.
    destruct (mapW f l) as [w' [ys'| |]]; simpl; try discriminate.
    intros [= Hw <-]. apply app_eq_nil in Hw as [-> Hw].
    rewrite app_nil_r in Hw. subst w'.
    constructor; [rewrite E; reflexivity | apply IH; reflexivity].
Qed.

Lemma split_from_cur (sep : str) (s : str) :
  ∀ k cur,
    split_from sep k cur s
    = match split_from sep k [] s with
      | x :: l => (cur ++ x) :: l
      | [] => []
      end.
Proof.
  induction s as [|c s IH]; intros k cur.
  - simpl. rewrite app_nil_r. reflexivity.
  - destruct k as [|k]; [|simpl; apply IH].
    rewrite !split_from_cons. destruct (starts_with sep (c :: s)).
    + rewrite app_nil_r. reflexivity.
    + rewrite (IH 0 (cur ++ [c])), (IH 0 ([] ++ [c])).
      destruct (split_from sep 0 [] s); [reflexivity|].
      rewrite <- app_assoc. reflexivity.
Qed.

Lemma is_word_not_comma (c : char) : is_word c = true → c ≠ 44%N.
Proof. intros H ->. discriminate H. Qed.





Lemma word_no_as (t : str) :
  Forall (fun c => is_word c = true) t → ¬ substring (lit " as ") t.
Proof.
  intros H (pre & post & ->). apply Forall_app in H as [_ H].
  rewrite sep_as in H. apply Forall_cons in H as [H _]. discriminate H.
Qed.



End TokenLists.

Section SymbolLists.

Variable supportedFunctions : list str.

Lemma trim_start_skip (a b : str) :
  Forall (fun c => is_space c = true) a → stops is_space b →
  trim_start (a ++ b) = b.
Proof.
  intros Ha Hb. induction Ha as [|c a Hc Ha IH]; simpl.
  - destruct b as [|c b]; [reflexivity|]. simpl in *. rewrite Hb. reflexivity.
  - rewrite Hc. exact IH.
Qed.


Lemma is_space_not_comma (c : char) : is_space c = true → c ≠ 44%N.
Proof. intros H ->. discriminate H. Qed.






Lemma nonempty_map {A B} (f : A -> B) (l : list A) :
  nonempty (map f l) = nonempty l.
Proof. destruct l; reflexivity. Qed.


End SymbolLists.

Section NamedListStatements.

Lemma is_word_list_char (c : char) :
  is_word c = true → is_named_list_char c = true.
Proof. intros H. unfold is_named_list_char. rewrite H. reflexivity. Qed.

Lemma is_space_list_char (c : char) :
  is_space c = true → is_named_list_char c = true.
Proof.
  intros H. unfold is_named_list_char. rewrite H.
  rewrite !orb_true_r. reflexivity.
Qed.





End NamedListStatements.

Section NamedListPasses.

Variable supportedFunctions : list str.

Lemma import_skip_r (A R : str) :
  Forall (fun c => is_word c = false) R →
  includes (A ++ R) (lit "import") = includes A (lit "import").
Proof.
  intros HR. destruct R as [|c R]; [rewrite app_nil_r; reflexivity|].
  rewrite <- (app_nil_r (c :: R)), import_between by (discriminate || exact HR).
  apply orb_false_r.
Qed.

Lemma import_between_skip (A R1 R2 B : str) :
  Forall (fun c => is_word c = false) R1 →
  R2 ≠ [] → Forall (fun c => is_word c = false) R2 →
  includes (A ++ R1 ++ R2 ++ B) (lit "import")
  = includes A (lit "import") || includes B (lit "import").
Proof.
  intros H1 Hne H2. rewrite (app_assoc R1 R2 B).
  apply import_between.
  - destruct R1, R2; try discriminate. contradiction.
  - apply Forall_app. auto.
Qed.

Lemma includes_join (symbols : list str) :
  Forall (fun t => includes t (lit "import") = false) symbols →
  includes (join (lit ", ") symbols) (lit "import") = false.
Proof.
  induction 1 as [|t ts Ht Hts IH]; [reflexivity|].
  destruct ts as [|t' ts]; [exact Ht|].
  change (join (lit ", ") (t :: t' :: ts))
    with (t ++ lit ", " ++ join (lit ", ") (t' :: ts)).
  rewrite import_between by (try discriminate; repeat constructor).
  rewrite Ht, IH. reflexivity.
Qed.

Lemma Forall_filter_keep {A} (P : A -> Prop) (f : A -> bool) (l : list A) :
  Forall P l → Forall P (List.filter f l).
Proof.
  rewrite !Forall_forall. intros H x Hx.
  apply list_elem_of_In, filter_In in Hx as [Hx _].
  apply H, list_elem_of_In, Hx.
Qed.

Lemma named_list_free (raw stmt post : str) :
  named_list_text raw stmt →
  includes raw (lit "import") = false →
  includes post (lit "import") = false →
  includes (drop 1 (stmt ++ post)) (lit "import") = false.
Proof.
  intros (ws1 & ws2 & ws3 & ws4 & ws5 & q1 & q2 & -> & S1 & S2 & S3 & S4 & S5
          & Q1 & Q2) Hr Hp.
  rewrite <- !app_assoc.
  change (drop 1 (lit "import" ++ ws1 ++ lit "{" ++ ws2 ++ raw ++ ws3
                  ++ lit "}" ++ ws4 ++ lit "from" ++ ws5 ++ [q1]
                  ++ lit "lodash" ++ [q2] ++ post))
    with (lit "mport" ++ ws1 ++ lit "{" ++ ws2 ++ raw ++ ws3
          ++ lit "}" ++ ws4 ++ lit "from" ++ ws5 ++ [q1]
          ++ lit "lodash" ++ [q2] ++ post).
  rewrite import_between by (try apply space_run_nonword; apply S1).
  rewrite import_skip by (repeat constructor).
  rewrite import_skip by (apply space_run_nonword, S2).
  rewrite import_between_skip
    by (try discriminate; try (apply space_run_nonword, S3);
        repeat constructor).
  rewrite import_skip by (apply space_run_nonword, S4).
  rewrite import_between by (try apply space_run_nonword; apply S5).
  rewrite import_skip by (apply quote_nonword, Q1).
  rewrite import_between by (try discriminate; apply quote_nonword, Q2).
  rewrite Hr, Hp. reflexivity.
Qed.

Lemma named_list_has_lodash (raw stmt post : str) :
  named_list_text raw stmt →
  includes (stmt ++ post) (lit "lodash") = true.
Proof.
  intros (ws1 & ws2 & ws3 & ws4 & ws5 & q1 & q2 & -> & _).
  apply includes_spec.
  exists (lit "import" ++ ws1 ++ lit "{" ++ ws2 ++ raw ++ ws3 ++ lit "}"
          ++ ws4 ++ lit "from" ++ ws5 ++ [q1]),
         ([q2] ++ post).
  rewrite <- !app_assoc. reflexivity.
Qed.

(** The import of the supported symbols that the second pass
    writes. *)
Lemma compat_import_free (list post : str) :
  includes list (lit "import") = false →
  includes post (lit "import") = false →
  includes (drop 1 ((lit "import { " ++ list
                     ++ lit " } from 'es-toolkit/compat'") ++ post))
           (lit "import") = false.
Proof.
  intros Hl Hp. rewrite <- !app_assoc.
  change (drop 1 (lit "import { " ++ list
                  ++ lit " } from 'es-toolkit/compat'" ++ post))
    with (lit "mport" ++ lit " { " ++ list ++ lit " } " ++ lit "from"
          ++ lit " '" ++ lit "es" ++ lit "-" ++ lit "toolkit" ++ lit "/"
          ++ lit "compat" ++ lit "'" ++ post).
  rewrite !import_between by (try discriminate; repeat constructor).
  rewrite Hl, Hp. reflexivity.
Qed.

Lemma search_cons (r : pattern) (n : nat) (pv : option char) (c : char)
    (s : str) :
  match_at r n pv (c :: s) = None →
  search r n pv (c :: s) = search r (S n) (Some c) s.
Proof. intros H. simpl. rewrite H. reflexivity. Qed.

(** The search goes through a piece without [import] that ends at a
    character that is not a word character. *)
Lemma search_skip (r : pattern) (rs : list regex) (A : str) (c : char)
    (B : str) :
  body r = cat (text (lit "import") :: rs) →
  is_word c = false →
  ∀ n pv,
    includes A (lit "import") = false →
    search r n pv (A ++ c :: B) = search r (n + length A + 1) (Some c) B.
Proof.
  intros Hr Hc. induction A as [|a A IH]; intros n pv Hin.
  - simpl app. rewrite search_cons.
    + simpl. rewrite Nat.add_0_r, Nat.add_1_r. reflexivity.
    + destruct (match_at r n pv (c :: B)) eqn:E; [|reflexivity].
      apply (match_at_import r rs) in E; [|exact Hr].
      apply starts_with_spec in E as [tl E].
      assert (Some c = Some 105%N) as [= ->]
        by (apply (f_equal head) in E; exact E).
      discriminate Hc.
  - change (includes (a :: A) (lit "import"))
      with (starts_with (lit "import") (a :: A) || includes A (lit "import"))
      in Hin.
    apply orb_false_iff in Hin as [H1 H2].
    change ((a :: A) ++ c :: B) with (a :: A ++ c :: B).
    rewrite search_cons.
    + rewrite IH by exact H2. f_equal. simpl. lia.
    + destruct (match_at r n pv (a :: A ++ c :: B)) eqn:E; [|reflexivity].
      apply (match_at_import r rs) in E; [|exact Hr].
      change (a :: A ++ c :: B) with ((a :: A) ++ c :: B) in E.
      rewrite starts_with_sep in E
        by (apply import_word || exact Hc || discriminate).
      congruence.
Qed.

Lemma replace_search_none (r : pattern) (li : nat) (s : str) (f : callback) :
  search r 0 None s = None → fst (replace r li s f) = ret s.
Proof.
  intros H. unfold replace, enough.
  assert (exec r s 0 = (None, 0)) as E.
  { unfold exec. simpl. rewrite drop_0, H. reflexivity. }
  simpl. rewrite E. reflexivity.
Qed.

(** The two imports that the second pass writes for a list with
    supported and unsupported symbols: the third pattern matches
    nowhere in them. *)
Lemma split_import_untouched (sup unsup post : str) :
  includes sup (lit "import") = false →
  includes unsup (lit "import") = false →
  includes post (lit "import") = false →
  search defaultSingleImportRegex 0 None
    ((lit "import { " ++ sup
      ++ lit " } from 'es-toolkit/compat';import { "
      ++ unsup ++ lit " } from 'lodash'") ++ post) = None.
Proof.
  intros Hs Hu Hp.
  replace ((lit "import { " ++ sup
            ++ lit " } from 'es-toolkit/compat';import { "
            ++ unsup ++ lit " } from 'lodash'") ++ post)
    with (105%N :: (lit "mport { " ++ sup ++ lit " } from 'es-toolkit/compat'")
          ++ 59%N :: 105%N :: lit "mport { " ++ unsup
          ++ lit " } from 'lodash'" ++ post)
    by (rewrite <- !app_assoc; reflexivity).
  rewrite search_cons.
  2:{ refine (defaultSingleImportRegex_not_brace [32%N]
                ((lit " " ++ sup ++ lit " } from 'es-toolkit/compat'")
                 ++ 59%N :: 105%N :: lit "mport { " ++ unsup
                 ++ lit " } from 'lodash'" ++ post) _ _ _).
      split; [discriminate | repeat constructor]. }
  erewrite search_skip; [| reflexivity | reflexivity |].
  2:{ pose proof (compat_import_free sup [] Hs eq_refl) as H.
      rewrite app_nil_r in H. exact H. }
  rewrite search_cons.
  2:{ refine (defaultSingleImportRegex_not_brace [32%N]
                (lit " " ++ unsup ++ lit " } from 'lodash'" ++ post) _ _ _).
      split; [discriminate | repeat constructor]. }
  eapply search_none; [reflexivity|].
  change (lit "mport { " ++ unsup ++ lit " } from 'lodash'" ++ post)
    with (lit "mport" ++ lit " { " ++ unsup ++ lit " } " ++ lit "from"
          ++ lit " '" ++ lit "lodash" ++ lit "'" ++ post).
  rewrite !import_between by (try discriminate; repeat constructor).
  rewrite Hu, Hp. reflexivity.
Qed.


End NamedListPasses.


(** * The theorems at the scenarios of the specification *)

Lemma parseNamedImport_spec_witness :
  parseNamedImport (lit "isEqual as lodashIsEqual")
  = ret (mkNamedImport (lit "isEqual") (lit "lodashIsEqual")).
Proof.
  destruct (parseNamedImport_spec (lit "isEqual as lodashIsEqual"))
    as (lhs & others & E & _ & H).
  vm_compute in E. injection E as <- <-. apply H. discriminate.
Defined.

Lemma transform_never_throws_witness :
  ((∃ c tl, lit "every" = c :: tl ∧ is_space c = false)
   ∧ ∃ ni, parseNamedImport (lit "every") = ret ni)
  ∧ returns (fst (transform [lit "isEqual"]
                    (lit "import { isEqual, every } from 'lodash';")
                    (lit "a.ts") store0)).
Proof.
  destruct transform_never_throws as [Htok Hret]. split.
  - apply (Htok (lit "isEqual, every ")).
    apply list_elem_of_In. vm_compute. right. left. reflexivity.
  - apply Hret.
Defined.


(** * Further properties of the transform *)

(** ** Texts that no pattern matches *)

Section Unmatched.

Variable supportedFunctions : list str.

Lemma substring_trans (p t s : str) :
  substring p t → substring t s → substring p s.
Proof.
  intros (a & b & ->) (c & d & ->). exists (c ++ a), (b ++ d).
  rewrite <- !app_assoc. reflexivity.
Qed.

Lemma is_match_substring (r : pattern) (s : str) (m : found) :
  is_match r s m → substring (m_text m) s.
Proof.
  intros (st' & _ & _ & _ & _ & ->).
  exists (take (m_start m) s),
         (drop (m_end m - m_start m) (drop (m_start m) s)).
  rewrite take_drop, take_drop. reflexivity.
Qed.

Lemma replace_no_match (r : pattern) (li : nat) (s : str) (f : callback) :
  (∀ m, ¬ is_match r s m) → fst (replace r li s f) = ret s.
Proof.
  intros H. unfold replace.
  destruct (exec_all_enough r s) as (ms & -> & Hms).
  destruct ms as [|m ms]; [reflexivity|].
  exfalso. apply (H m). apply Forall_cons in Hms as [Hm _]. exact Hm.
Qed.

Lemma transform_no_match (src id : str) (st : store) :
  substring (lit "lodash") src →
  (∀ m, ¬ is_match defaultImportRegex src m) →
  (∀ m, ¬ is_match namedImportsRegex src m) →
  (∀ m, ¬ is_match defaultSingleImportRegex src m) →
  fst (transform supportedFunctions src id st)
  = ret (Some (mkResult src None)).
Proof.
  intros Hl H1 H2 H3. apply includes_spec in Hl.
  rewrite transform_fst, Hl.
  rewrite defaultImportPass_fst, replace_no_match, bind_ret by exact H1.
  rewrite namedImportsPass_fst, replace_no_match, bind_ret by exact H2.
  rewrite defaultSingleImportPass_fst, replace_no_match, bind_ret by exact H3.
  reflexivity.
Qed.

(** What every match of one of the three patterns holds. *)
Lemma default_import_parts (name t : str) :
  default_import_text name t →
  substring (lit "import") t
  ∧ ∃ q, is_quote q = true ∧ substring (lit "lodash" ++ [q]) t.
Proof.
  intros (ws1 & ws2 & ws3 & q1 & q2 & -> & _ & _ & _ & _ & Q2). split.
  - exists [], (ws1 ++ name ++ ws2 ++ lit "from" ++ ws3 ++ [q1]
                ++ lit "lodash" ++ [q2]). reflexivity.
  - exists q2. split; [exact Q2|].
    exists (lit "import" ++ ws1 ++ name ++ ws2 ++ lit "from" ++ ws3 ++ [q1]),
           [].
    rewrite app_nil_r, <- !app_assoc. reflexivity.
Qed.

Lemma named_list_parts (raw t : str) :
  named_list_text raw t →
  substring (lit "import") t
  ∧ ∃ q, is_quote q = true ∧ substring (lit "lodash" ++ [q]) t.
Proof.
  intros (ws1 & ws2 & ws3 & ws4 & ws5 & q1 & q2 & -> & _ & _ & _ & _ & _
          & _ & Q2).
  split.
  - exists [], (ws1 ++ lit "{" ++ ws2 ++ raw ++ ws3 ++ lit "}" ++ ws4
                ++ lit "from" ++ ws5 ++ [q1] ++ lit "lodash" ++ [q2]).
    reflexivity.
  - exists q2. split; [exact Q2|].
    exists (lit "import" ++ ws1 ++ lit "{" ++ ws2 ++ raw ++ ws3 ++ lit "}"
            ++ ws4 ++ lit "from" ++ ws5 ++ [q1]), [].
    rewrite app_nil_r, <- !app_assoc. reflexivity.
Qed.

Lemma single_import_parts (name symbol t : str) :
  single_import_text name symbol t →
  substring (lit "import") t ∧ substring (lit "lodash/") t.
Proof.
  intros (ws1 & ws2 & ws3 & q1 & ext & q2 & -> & _). split.
  - exists [], (ws1 ++ name ++ ws2 ++ lit "from" ++ ws3 ++ [q1]
                ++ lit "lodash/" ++ symbol ++ ext ++ [q2]). reflexivity.
  - exists (lit "import" ++ ws1 ++ name ++ ws2 ++ lit "from" ++ ws3 ++ [q1]),
           (symbol ++ ext ++ [q2]).
    rewrite <- !app_assoc. reflexivity.
Qed.

End Unmatched.

(** X1.  A text that holds [lodash] but nowhere the word [import]
    (one that loads the library with [require], say) comes back as it
    is, in an object whose [map] is [null], and nothing is warned. *)
Theorem transform_without_import
    (supportedFunctions : list str) (src id : str) (st : store) :
  substring (lit "lodash") src →
  ¬ substring (lit "import") src →
  fst (transform supportedFunctions src id st)
  = ret (Some (mkResult src None)).
Proof.
  intros Hl Hi. apply transform_no_match; [exact Hl | ..]; intros m Hm;
    apply Hi; apply (substring_trans _ (m_text m));
    try (apply (is_match_substring _ _ _ Hm)).
  - apply defaultImportRegex_shape in Hm as (name & _ & _ & Ht).
    apply (default_import_parts _ _ Ht).
  - apply namedImportsRegex_shape in Hm as (raw & _ & _ & _ & Ht).
    apply (named_list_parts _ _ Ht).
  - apply defaultSingleImportRegex_shape in Hm
      as (name & symbol & _ & _ & _ & _ & Ht).
    apply (single_import_parts _ _ _ Ht).
Qed.

(** X2.  The patterns ask for the module name [lodash] closed by a
    quote character, or for [lodash/]: a text in which [lodash] is
    never followed by a quote character or by a slash (imports from
    [lodash-es] or [lodash.debounce], say) comes back as it is, and
    nothing is warned. *)
Theorem transform_other_modules
    (supportedFunctions : list str) (src id : str) (st : store) :
  substring (lit "lodash") src →
  (∀ q, is_quote q = true → ¬ substring (lit "lodash" ++ [q]) src) →
  ¬ substring (lit "lodash/") src →
  fst (transform supportedFunctions src id st)
  = ret (Some (mkResult src None)).
Proof.
  intros Hl Hq Hs. apply transform_no_match; [exact Hl | ..]; intros m Hm;
    pose proof (is_match_substring _ _ _ Hm) as Hsub.
  - apply defaultImportRegex_shape in Hm as (name & _ & _ & Ht).
    destruct (default_import_parts _ _ Ht) as (_ & q & Q & Hin).
    apply (Hq q Q), (substring_trans _ _ _ Hin Hsub).
  - apply namedImportsRegex_shape in Hm as (raw & _ & _ & _ & Ht).
    destruct (named_list_parts _ _ Ht) as (_ & q & Q & Hin).
    apply (Hq q Q), (substring_trans _ _ _ Hin Hsub).
  - apply defaultSingleImportRegex_shape in Hm
      as (name & symbol & _ & _ & _ & _ & Ht).
    destruct (single_import_parts _ _ _ Ht) as [_ Hin].
    apply Hs, (substring_trans _ _ _ Hin Hsub).
Qed.

(** ** The parser on what the renderer writes *)

Lemma parse_render (ni : NamedImport) :
  word_run (actualName ni) → word_run (customName ni) →
  parseNamedImport (renderNamedImport ni) = ret ni.
Proof.
  destruct ni as [a c]. cbn [actualName customName]. intros Ha Hc.
  unfold renderNamedImport. cbn [actualName customName].
  destruct (str_eqb a c) eqn:E.
  - apply str_eqb_eq in E as <-.
    apply parse_plain; [apply Ha | apply word_no_as, Ha].
  - apply parse_rename; assumption.
Qed.

Lemma mapW_parse_render (nis : list NamedImport) :
  Forall (fun ni => word_run (actualName ni) ∧ word_run (customName ni))
         nis →
  mapW parseNamedImport (map renderNamedImport nis) = ret nis.
Proof.
  induction 1 as [|ni nis [Ha Hc] _ IH]; [reflexivity|].
  cbn [map mapW]. rewrite parse_render by assumption.
  rewrite bind_ret, IH, bind_ret. reflexivity.
Qed.

(** X4.  Only the first two parts of a token count: after
    [X as Y] a further [ as ] and everything behind it is dropped
    without an error. *)
Theorem parseNamedImport_drops_rest (X Y rest : str) :
  word_run X → word_run Y →
  parseNamedImport (X ++ lit " as " ++ Y ++ lit " as " ++ rest)
  = ret (mkNamedImport X Y).
Proof.
  intros [HX1 HX2] [HY1 HY2].
  rewrite (parseNamedImport_parts _ X (Y :: split rest (lit " as "))).
  - destruct X; [contradiction|]. destruct Y; [contradiction|]. reflexivity.
  - unfold split. rewrite sep_as.
    rewrite split_from_segment by (apply word_run_no_blank, HX2).
    rewrite split_from_segment by (apply word_run_no_blank, HY2).
    reflexivity.
Qed.

(** ** The shared regular expressions after a call *)

(** X5.  A call that goes through the three passes leaves each of
    the three shared regular expressions with [lastIndex] 0, whatever
    it was before; a call on a text without [lodash] does not touch
    them. *)
Theorem transform_lastIndex
    (supportedFunctions : list str) (src id : str) (st : store) :
  snd (transform supportedFunctions src id st)
  = if includes src (lit "lodash") then store0 else st.
Proof.
  destruct (includes src (lit "lodash")) eqn:E.
  - destruct (transform_rewrites supportedFunctions src id st E)
      as (w & text & ->). reflexivity.
  - rewrite transform_skips by exact E. reflexivity.
Qed.

(** ** The two groups of a named-list import *)

(** ** The usages of a namespace import *)

(** X7.  Each usage that the scan finds for the identifier [name]
    is [name.symbol] with [symbol] an identifier, and the list of used
    functions holds exactly these symbols, one for each usage and in
    the order of the usages: the fallback to the empty string is never
    taken, and a function used twice is listed twice. *)
Theorem usedFunctions_usages (src name : str) (usages : list str) :
  Forall (fun c => is_word c = true) name →
  match_all src (usageRegex name) = ret (Some usages) →
  usages ≠ []
  ∧ Forall word_run (usedFunctions usages)
  ∧ usages = map (fun symbol => name ++ lit "." ++ symbol)
                 (usedFunctions usages).
Proof.
  intros Hn Hm. apply match_all_usages in Hm as [Hne Hu].
  split; [exact Hne|]. clear Hne.
  induction Hu as [|u usages (symbol & Hs & ->) _ [IH1 IH2]];
    [split; [constructor | reflexivity]|].
  unfold usedFunctions in *. cbn [map].
  rewrite used_symbol by (exact Hn || apply Hs).
  split; [constructor; assumption|]. f_equal. exact IH2.
Qed.

(** ** What is written to the console *)

Section Warnings.

Variable supportedFunctions : list str.

(** A warning as [warnUnsupportedFunction] writes it for a list of
    names that is not empty and holds unsupported names only. *)
Local Abbreviation unsupported_warning :=
  (fun w : str =>
     ∃ names : list str,
       names ≠ []
       ∧ Forall (fun n => isSupportedFunction supportedFunctions n = false)
                names
       ∧ w = lit "Unsupported lodash function"
             ++ (if 1 <? length names then lit "s" else [])
             ++ lit ": " ++ join (lit ", ") names).

Lemma bind_warnings {A B} (P : str -> Prop) (m : W A) (k : A -> W B) :
  Forall P (warnings m) → (∀ a, Forall P (warnings (k a))) →
  Forall P (warnings (bind m k)).
Proof.
  intros Hm Hk. destruct m as [w [a| |]]; simpl in *; try exact Hm.
  specialize (Hk a). destruct (k a) as [w' o]. simpl in *.
  apply Forall_app. split; assumption.
Qed.

Lemma splice_warnings (P : str -> Prop) (s : str) (f : callback)
    (ms : list found) :
  (∀ t cs, Forall P (warnings (f t cs))) →
  ∀ next, Forall P (warnings (splice s next ms f)).
Proof.
  intros Hf. induction ms as [|m ms IH]; intros next; [constructor|].
  cbn [splice]. apply bind_warnings; [apply Hf|]. intros rep.
  destruct (next <=? m_start m); [|apply IH].
  apply bind_warnings; [apply IH | constructor].
Qed.

Lemma replace_warnings (P : str -> Prop) (r : pattern) (li : nat) (s : str)
    (f : callback) :
  (∀ t cs, Forall P (warnings (f t cs))) →
  Forall P (warnings (fst (replace r li s f))).
Proof.
  intros Hf. unfold replace.
  destruct (exec_all _ _ _ _) as [[ms lf]|]; [|constructor].
  apply splice_warnings, Hf.
Qed.

Lemma filter_unsupported (names : list str) :
  Forall (fun n => isSupportedFunction supportedFunctions n = false)
         (List.filter (isUnsupportedFunction supportedFunctions) names).
Proof.
  induction names as [|n names IH]; [constructor|]. simpl.
  unfold isUnsupportedFunction at 1.
  destruct (isSupportedFunction supportedFunctions n) eqn:E; simpl;
    [exact IH | constructor; assumption].
Qed.

Lemma filter_unsupported_names (parsed : list NamedImport) :
  Forall (fun n => isSupportedFunction supportedFunctions n = false)
         (map actualName
            (List.filter
               (fun ni =>
                  isUnsupportedFunction supportedFunctions (actualName ni))
               parsed)).
Proof.
  induction parsed as [|ni parsed IH]; [constructor|]. simpl.
  unfold isUnsupportedFunction at 1.
  destruct (isSupportedFunction supportedFunctions (actualName ni)) eqn:E;
    simpl; [exact IH | constructor; assumption].
Qed.

Lemma nonempty_cases {A} (l : list A) : nonempty l = true → l ≠ [].
Proof. destruct l; [discriminate | discriminate]. Qed.

Lemma defaultImportCallback_warnings (src m name : str) :
  Forall unsupported_warning
    (warnings (defaultImportCallback supportedFunctions src m name)).
Proof.
  unfold defaultImportCallback.
  destruct (match_all_returns src (usageRegex name)) as [o ->].
  rewrite bind_ret. destruct o as [usages|]; [|constructor].
  destruct (nonempty _) eqn:E; [|constructor].
  repeat constructor. eexists. split; [apply nonempty_cases, E|].
  split; [apply filter_unsupported | reflexivity].
Qed.

Lemma namedImportsCallback_warnings (m raw : str) :
  Forall unsupported_warning
    (warnings (namedImportsCallback supportedFunctions m raw)).
Proof.
  unfold namedImportsCallback.
  destruct (namedImportNames_parse raw) as [parsed ->].
  rewrite bind_ret. destruct (nonempty _) eqn:E; [|constructor].
  assert (Forall unsupported_warning
            (warnings (warnUnsupportedFunction
               (map actualName
                  (List.filter
                     (fun ni =>
                        isUnsupportedFunction supportedFunctions
                          (actualName ni))
                     parsed))))) as Hw.
  { repeat constructor. eexists. split; [|split; [|reflexivity]].
    - apply nonempty_cases. rewrite nonempty_map. exact E.
    - apply filter_unsupported_names. }
  apply bind_warnings; [exact Hw|]. intros _.
  destruct (negb _); constructor.
Qed.

Lemma defaultSingleImportCallback_warnings (m custom actual : str) :
  Forall unsupported_warning
    (warnings
       (defaultSingleImportCallback supportedFunctions m custom actual)).
Proof.
  unfold defaultSingleImportCallback, isUnsupportedFunction.
  destruct (isSupportedFunction supportedFunctions actual) eqn:E; simpl.
  - destruct (str_eqb actual custom); constructor.
  - repeat constructor. exists [actual].
    split; [discriminate|]. split; [repeat constructor; exact E|].
    reflexivity.
Qed.

End Warnings.

(** X8.  Everything a call writes to the console is a warning of one
    form: [Unsupported lodash function], an [s] when more than one
    name follows, a colon, and a list of names joined with [", "]; the
    list is never empty and holds only names that are not supported. *)
Theorem transform_warnings
    (supportedFunctions : list str) (src id : str) (st : store) :
  Forall
    (fun w : str =>
       ∃ names : list str,
         names ≠ []
         ∧ Forall (fun n => isSupportedFunction supportedFunctions n = false)
                  names
         ∧ w = lit "Unsupported lodash function"
               ++ (if 1 <? length names then lit "s" else [])
               ++ lit ": " ++ join (lit ", ") names)
    (warnings (fst (transform supportedFunctions src id st))).
Proof.
  rewrite transform_fst.
  destruct (includes src (lit "lodash")); [|constructor].
  apply bind_warnings.
  { rewrite defaultImportPass_fst. apply replace_warnings.
    intros t cs. apply defaultImportCallback_warnings. }
  intros src1. apply bind_warnings.
  { rewrite namedImportsPass_fst. apply replace_warnings.
    intros t cs. apply namedImportsCallback_warnings. }
  intros src2. apply bind_warnings.
  { rewrite defaultSingleImportPass_fst. apply replace_warnings.
    intros t cs. apply defaultSingleImportCallback_warnings. }
  intros src3. constructor.
Qed.

(** ** Named-list imports with any list *)

Section NamedListsAnyList.

Variable supportedFunctions : list str.

Lemma stops_app (p : char -> bool) (w tl : str) :
  w ≠ [] → stops p w → stops p (w ++ tl).
Proof. destruct w; [contradiction | intros _ H; exact H]. Qed.

(** The second pattern on an import whose list starts with a
    character that is not white space: the group takes the list and
    the white space after it. *)
Lemma namedImportsRegex_matches_raw (raw stmt post : str)
    (n : nat) (pv : option char) :
  raw ≠ [] → Forall (fun c => is_named_list_char c = true) raw →
  stops is_space raw →
  named_list_text raw stmt →
  ∃ m ws,
    match_at namedImportsRegex n pv (stmt ++ post) = Some m
    ∧ m_start m = n ∧ m_end m = n + length stmt ∧ m_text m = stmt
    ∧ cap 1 (m_caps m) = raw ++ ws
    ∧ spaces ws.
Proof.
  intros Hne Hraw Hstop
    (ws1 & ws2 & ws3 & ws4 & ws5 & q1 & q2 & -> & S1 & S2 & S3 & S4 & S5
     & Q1 & Q2).
  set (stmt := lit "import" ++ ws1 ++ lit "{" ++ ws2 ++ raw ++ ws3 ++ lit "}"
               ++ ws4 ++ lit "from" ++ ws5 ++ [q1] ++ lit "lodash" ++ [q2]).
  assert (stmt ++ post
          = lit "import" ++ ws1 ++ 123%N :: ws2 ++ (raw ++ ws3)
            ++ 125%N :: ws4 ++ lit "from" ++ ws5
            ++ q1 :: lit "lodash" ++ q2 :: post) as Etext.
  { unfold stmt. rewrite <- !app_assoc. reflexivity. }
  assert (Forall (fun c => is_named_list_char c = true) (raw ++ ws3)) as HJ.
  { apply Forall_app. split; [exact Hraw|].
    eapply Forall_impl; [exact S3 | exact is_space_list_char]. }
  assert (raw ++ ws3 ≠ []) as HJne.
  { intros E. apply app_eq_nil in E as [E _]. apply Hne, E. }
  assert (∃ st',
            rmatch (body namedImportsRegex) Some
              (MState n pv (stmt ++ post) (replicate 2 None)) = Some st'
            ∧ pos st' = n + length stmt
            ∧ cap 1 (caps st') = raw ++ ws3)
    as (st' & Hm & Hp & C1).
  { rewrite Etext. unfold namedImportsRegex. cbn [body].
    eexists. split; [|split].
    - rewrite rmatch_cat_cons, rmatch_text.
      rewrite rmatch_cat_cons.
      apply rmatch_plus_run; [apply S1 | apply S1 | reflexivity |].
      rewrite rmatch_cat_cons, rmatch_chr.
      rewrite rmatch_cat_cons.
      apply rmatch_star_run;
        [exact S2
         | rewrite <- app_assoc; apply stops_app; assumption |].
      rewrite rmatch_cat_cons.
      apply rmatch_group_plus_run; [exact HJne | exact HJ | reflexivity |].
      rewrite rmatch_cat_cons.
      apply (rmatch_star_run is_space _ []);
        [constructor | reflexivity |].
      rewrite rmatch_cat_cons. cbn [app]. rewrite rmatch_chr.
      rewrite rmatch_cat_cons.
      apply rmatch_plus_run; [apply S4 | apply S4 | reflexivity |].
      rewrite rmatch_cat_cons, rmatch_text.
      rewrite rmatch_cat_cons.
      apply rmatch_plus_run;
        [apply S5 | apply S5 | simpl; apply is_quote_not_space, Q1 |].
      rewrite rmatch_cat_cons, rmatch_class by exact Q1.
      rewrite rmatch_cat_cons, rmatch_text.
      rewrite rmatch_cat_cons, rmatch_class by exact Q2.
      rewrite rmatch_cat_nil. reflexivity.
    - cbn [pos]. unfold stmt. rewrite !length_app. simpl. lia.
    - reflexivity. }
  unfold match_at.
  change (replicate (S (ngroups namedImportsRegex)) None)
    with (replicate 2 (@None str)).
  rewrite Hm. eexists. exists ws3. split; [reflexivity|].
  cbn [m_start m_end m_text m_caps].
  split; [reflexivity|]. split; [exact Hp|]. split; [|split; assumption].
  rewrite Hp, Nat.add_sub'. apply take_app_length.
Qed.

End NamedListsAnyList.

Section Tokens.

(** A token as it stands in a list: not empty, without a comma, with
    no white space at either end. *)
Local Abbreviation token :=
  (fun t : str =>
     t ≠ [] ∧ Forall (fun c => c ≠ 44%N) t
     ∧ stops is_space t ∧ stops is_space (reverse t)).

Lemma trim_token_spaces (t ws : str) :
  token t → Forall (fun c => is_space c = true) ws → trim (t ++ ws) = t.
Proof.
  intros (Hne & _ & Hhd & Hlast) Hws. unfold trim.
  destruct t as [|c tl]; [contradiction|].
  change ((c :: tl) ++ ws) with (c :: tl ++ ws).
  rewrite trim_start_id by exact Hhd.
  change (c :: tl ++ ws) with ((c :: tl) ++ ws).
  unfold trim_end. rewrite reverse_app.
  rewrite trim_start_skip;
    [apply reverse_involutive | apply Forall_reverse, Hws | exact Hlast].
Qed.

Lemma trim_token (t : str) : token t → trim t = t.
Proof.
  intros Ht. rewrite <- (app_nil_r t) at 1.
  apply trim_token_spaces; [exact Ht | constructor].
Qed.

Lemma namedImportNames_token_last (t ws : str) :
  token t → Forall (fun c => is_space c = true) ws →
  namedImportNames (t ++ ws) = [t].
Proof.
  intros Ht Hws. unfold namedImportNames, split.
  change (lit ",") with [44%N]. rewrite split_from_last.
  - simpl. rewrite trim_token_spaces by assumption.
    destruct Ht as [Hne _]. destruct t; [contradiction | reflexivity].
  - apply Forall_app. split; [apply Ht|].
    eapply Forall_impl; [exact Hws | exact is_space_not_comma].
Qed.

Lemma namedImportNames_token_cons (t rest : str) :
  token t →
  namedImportNames (t ++ lit ", " ++ rest) = t :: namedImportNames rest.
Proof.
  intros Ht. unfold namedImportNames, split.
  change (t ++ lit ", " ++ rest) with (t ++ [44%N] ++ 32%N :: rest).
  change (lit ",") with [44%N].
  rewrite split_from_segment by apply Ht.
  rewrite split_from_cons, starts_with_head_neq by discriminate.
  rewrite split_from_cur.
  destruct (split_from_head [44%N] 0 [] rest) as (x & l & E).
  repeat match goal with
         | |- context [split_from ?a 0 [] rest] =>
             replace (split_from a 0 [] rest) with (([] ++ x) :: l)
               by (symmetry; exact E)
         end.
  simpl map. rewrite trim_token by exact Ht.
  change (trim (32%N :: x)) with (trim x).
  destruct Ht as [Hne _]. destruct t; [contradiction | reflexivity].
Qed.

(** The tokens of a list written with [", "] between its tokens and
    white space after them are these tokens. *)
Lemma namedImportNames_tokens_join (ts : list str) (ws : str) :
  ts ≠ [] → Forall token ts →
  Forall (fun c => is_space c = true) ws →
  namedImportNames (join (lit ", ") ts ++ ws) = ts.
Proof.
  intros Hne Hs Hws. induction Hs as [|t ts Ht Hts IH]; [contradiction|].
  destruct ts as [|t' ts].
  - apply namedImportNames_token_last; assumption.
  - change (join (lit ", ") (t :: t' :: ts))
      with (t ++ lit ", " ++ join (lit ", ") (t' :: ts)).
    rewrite <- !app_assoc, namedImportNames_token_cons by exact Ht.
    rewrite IH by discriminate. reflexivity.
Qed.

(** What the renderer writes is a token, made of characters of the
    list class, when the two names are identifiers. *)
Lemma render_cases (ni : NamedImport) :
  renderNamedImport ni = actualName ni
  ∨ renderNamedImport ni
    = actualName ni ++ lit " as " ++ customName ni.
Proof.
  unfold renderNamedImport. destruct (str_eqb _ _); [left | right];
    reflexivity.
Qed.

Lemma word_run_token (t : str) : word_run t → token t.
Proof.
  intros [Hne Ht]. split; [exact Hne|]. split; [|split].
  - eapply Forall_impl; [exact Ht | exact is_word_not_comma].
  - destruct t as [|c t]; [contradiction|].
    apply Forall_cons in Ht as [Hc _]. apply is_word_not_space, Hc.
  - destruct (exists_last Hne) as (init & l & ->).
    rewrite reverse_app. apply Forall_app in Ht as [_ Hl].
    apply Forall_cons in Hl as [Hl _]. apply is_word_not_space, Hl.
Qed.

Lemma render_token (ni : NamedImport) :
  word_run (actualName ni) → word_run (customName ni) →
  token (renderNamedImport ni).
Proof.
  intros Ha Hc. destruct (render_cases ni) as [-> | ->];
    [apply word_run_token, Ha|].
  destruct (word_run_token _ Ha) as (A1 & A2 & A3 & _).
  destruct (word_run_token _ Hc) as (C1 & C2 & _ & C4).
  split; [|split; [|split]].
  - intros E. apply app_eq_nil in E as [E _]. apply A1, E.
  - apply Forall_app. split; [exact A2|].
    apply Forall_app. split; [repeat constructor; discriminate | exact C2].
  - apply stops_app; assumption.
  - rewrite !reverse_app, <- app_assoc. apply stops_app; [|exact C4].
    intros E. apply C1. rewrite <- (reverse_involutive (customName ni)), E.
    reflexivity.
Qed.

Lemma render_list_chars (ni : NamedImport) :
  word_run (actualName ni) → word_run (customName ni) →
  Forall (fun c => is_named_list_char c = true) (renderNamedImport ni).
Proof.
  intros [_ Ha] [_ Hc].
  assert (∀ w, Forall (fun c => is_word c = true) w →
               Forall (fun c => is_named_list_char c = true) w) as Hw.
  { intros w H. eapply Forall_impl; [exact H | exact is_word_list_char]. }
  destruct (render_cases ni) as [-> | ->]; [apply Hw, Ha|].
  apply Forall_app. split; [apply Hw, Ha|].
  apply Forall_app. split; [repeat constructor | apply Hw, Hc].
Qed.

Lemma render_free (ni : NamedImport) :
  includes (actualName ni) (lit "import") = false →
  includes (customName ni) (lit "import") = false →
  includes (renderNamedImport ni) (lit "import") = false.
Proof.
  intros Ha Hc. destruct (render_cases ni) as [-> | ->]; [exact Ha|].
  change (lit " as ") with (lit " " ++ lit "as" ++ lit " ").
  rewrite <- !app_assoc.
  rewrite !import_between by (try discriminate; repeat constructor).
  rewrite Ha, Hc. reflexivity.
Qed.

End Tokens.

Section NamedListBranches.

Variable supportedFunctions : list str.

(** The three ways the callback of the second pass ends, by the two
    groups of the parsed tokens. *)
Lemma namedImportsCallback_parsed (m raw : str) (parsed : list NamedImport) :
  mapW parseNamedImport (namedImportNames raw) = ret parsed →
  let currentSupportedFunctions :=
    List.filter (fun ni => isSupportedFunction supportedFunctions (actualName ni))
                parsed in
  let unsupportedFunctions :=
    List.filter
      (fun ni => isUnsupportedFunction supportedFunctions (actualName ni))
      parsed in
  namedImportsCallback supportedFunctions m raw
  = if nonempty unsupportedFunctions then
      ([lit "Unsupported lodash function"
        ++ (if 1 <? length unsupportedFunctions then lit "s" else [])
        ++ lit ": " ++ join (lit ", ") (map actualName unsupportedFunctions)],
       Value (if nonempty currentSupportedFunctions then
                lit "import { " ++ renderNamedImports currentSupportedFunctions
                ++ lit " } from 'es-toolkit/compat';import { "
                ++ renderNamedImports unsupportedFunctions
                ++ lit " } from 'lodash'"
              else m))
    else
      ret (lit "import { " ++ renderNamedImports currentSupportedFunctions
           ++ lit " } from 'es-toolkit/compat'").
Proof.
  intros Hp sup unsup. unfold namedImportsCallback.
  rewrite Hp, bind_ret. fold sup. fold unsup.
  destruct (nonempty unsup); [|reflexivity].
  unfold warnUnsupportedFunction. rewrite length_map.
  destruct (nonempty sup); reflexivity.
Qed.

(** The whole transformation of a text that starts with a named-list
    import which the second pattern matches as a whole, and that has
    no other [import]. *)
Lemma named_list_transform_match (raw stmt post id : str) (st : store)
    (m : found) (parsed : list NamedImport) :
  named_list_text raw stmt →
  includes raw (lit "import") = false →
  includes post (lit "import") = false →
  match_at namedImportsRegex 0 None (stmt ++ post) = Some m →
  m_start m = 0 → m_end m = length stmt → m_text m = stmt →
  mapW parseNamedImport (namedImportNames (cap 1 (m_caps m))) = ret parsed →
  let currentSupportedFunctions :=
    List.filter (fun ni => isSupportedFunction supportedFunctions (actualName ni))
                parsed in
  let unsupportedFunctions :=
    List.filter
      (fun ni => isUnsupportedFunction supportedFunctions (actualName ni))
      parsed in
  includes (renderNamedImports currentSupportedFunctions) (lit "import")
  = false →
  includes (renderNamedImports unsupportedFunctions) (lit "import") = false →
  fst (transform supportedFunctions (stmt ++ post) id st)
  = if nonempty unsupportedFunctions then
      ([lit "Unsupported lodash function"
        ++ (if 1 <? length unsupportedFunctions then lit "s" else [])
        ++ lit ": " ++ join (lit ", ") (map actualName unsupportedFunctions)],
       Value (Some (mkResult
         ((if nonempty currentSupportedFunctions then
             lit "import { " ++ renderNamedImports currentSupportedFunctions
             ++ lit " } from 'es-toolkit/compat';import { "
             ++ renderNamedImports unsupportedFunctions
             ++ lit " } from 'lodash'"
           else stmt) ++ post) None)))
    else
      ret (Some (mkResult
        ((lit "import { " ++ renderNamedImports currentSupportedFunctions
          ++ lit " } from 'es-toolkit/compat'") ++ post) None)).
Proof.
  intros Ht Hraw Ip Hm M1 M2 M3 Hp sup unsup Hsup Hunsup.
  pose proof (named_list_free _ _ _ Ht Hraw Ip) as Hfree.
  rewrite transform_fst, (named_list_has_lodash raw) by exact Ht.
  rewrite defaultImportPass_fst.
  erewrite replace_none;
    [| reflexivity
     | destruct Ht as (ws1 & ws2 & ws3 & ws4 & ws5 & q1 & q2 & -> & S1 & _);
       rewrite <- !app_assoc; apply defaultImportRegex_not_brace; assumption
     | exact Hfree].
  rewrite bind_ret, namedImportsPass_fst.
  erewrite replace_one;
    [| reflexivity | exact Hm | exact M1 | exact M2 | exact M3 | | exact Ip];
    [|destruct Ht as (ws1 & ws2 & ws3 & ws4 & ws5 & q1 & q2 & -> & _);
      discriminate].
  pose proof (namedImportsCallback_parsed stmt _ parsed Hp) as Hcb.
  cbv zeta in Hcb. fold sup unsup in Hcb.
  rewrite Hcb. clear Hcb.
  destruct (nonempty unsup).
  - destruct (nonempty sup);
      rewrite (bind_value _ _ (fun rep => ret (rep ++ post)) _ eq_refl);
      apply bind_value; cbv beta; rewrite defaultSingleImportPass_fst.
    + rewrite replace_search_none
        by (apply split_import_untouched; assumption).
      rewrite bind_ret. reflexivity.
    + erewrite replace_none;
        [| reflexivity
         | destruct Ht as (ws1 & ws2 & ws3 & ws4 & ws5 & q1 & q2 & -> & S1 & _);
           rewrite <- !app_assoc;
           apply defaultSingleImportRegex_not_brace; assumption
         | exact Hfree].
      rewrite bind_ret. reflexivity.
  - rewrite !bind_ret, defaultSingleImportPass_fst.
    erewrite replace_none;
      [| reflexivity
       | rewrite <- !app_assoc;
         refine (defaultSingleImportRegex_not_brace [32%N]
                   (lit " " ++ renderNamedImports sup
                    ++ lit " } from 'es-toolkit/compat'" ++ post) _ _ _);
         split; [discriminate | repeat constructor]
       | apply compat_import_free; assumption].
    rewrite bind_ret. reflexivity.
Qed.

End NamedListBranches.

Section RenamedLists.

Variable supportedFunctions : list str.

Lemma join_chars (P : char -> Prop) (ts : list str) :
  P 44%N → P 32%N → Forall (Forall P) ts → Forall P (join (lit ", ") ts).
Proof.
  intros Hc Hs. induction 1 as [|t ts Ht Hts IH]; [constructor|].
  destruct ts as [|t' ts]; [exact Ht|].
  change (join (lit ", ") (t :: t' :: ts))
    with (t ++ lit ", " ++ join (lit ", ") (t' :: ts)).
  apply Forall_app. split; [exact Ht|].
  apply Forall_app. split; [repeat constructor; assumption | exact IH].
Qed.

Lemma join_head (t : str) (ts : list str) :
  ∃ tl, join (lit ", ") (t :: ts) = t ++ tl.
Proof.
  destruct ts as [|t' ts].
  - exists []. symmetry. apply app_nil_r.
  - eexists. reflexivity.
Qed.

(** The list that the renderer writes for named imports of
    identifiers: how the second pattern and the tokenizer see it. *)
Lemma render_list_shape (nis : list NamedImport) :
  nis ≠ [] →
  Forall (fun ni => word_run (actualName ni) ∧ word_run (customName ni))
         nis →
  renderNamedImports nis ≠ []
  ∧ Forall (fun c => is_named_list_char c = true) (renderNamedImports nis)
  ∧ stops is_space (renderNamedImports nis)
  ∧ ∀ ws, Forall (fun c => is_space c = true) ws →
          namedImportNames (renderNamedImports nis ++ ws)
          = map renderNamedImport nis.
Proof.
  intros Hne Hnis. unfold renderNamedImports.
  assert (Forall (fun t : str =>
                    t ≠ [] ∧ Forall (fun c => c ≠ 44%N) t
                    ∧ stops is_space t ∧ stops is_space (reverse t))
                 (map renderNamedImport nis)) as Htok.
  { apply Forall_map. eapply Forall_impl; [exact Hnis|].
    intros ni [Ha Hc]. apply render_token; assumption. }
  destruct nis as [|ni nis]; [contradiction|]. cbn [map] in *.
  destruct (join_head (renderNamedImport ni) (map renderNamedImport nis))
    as [tl E].
  apply Forall_cons in Htok as Htok'. destruct Htok' as [(T1 & _ & T3 & _) _].
  split; [|split; [|split]].
  - rewrite E. intros E'. apply app_eq_nil in E' as [E' _]. apply T1, E'.
  - apply (join_chars (fun c => is_named_list_char c = true));
      [reflexivity | reflexivity |].
    change (renderNamedImport ni :: map renderNamedImport nis)
      with (map renderNamedImport (ni :: nis)).
    apply Forall_map. eapply Forall_impl; [exact Hnis|].
    intros x [Ha Hc]. apply render_list_chars; assumption.
  - rewrite E. apply stops_app; assumption.
  - intros ws Hws. apply namedImportNames_tokens_join;
      [discriminate | exact Htok | exact Hws].
Qed.

Lemma render_group_free (f : NamedImport -> bool) (nis : list NamedImport) :
  Forall (fun ni => ¬ substring (lit "import") (actualName ni)
                    ∧ ¬ substring (lit "import") (customName ni)) nis →
  includes (renderNamedImports (List.filter f nis)) (lit "import") = false.
Proof.
  intros H. unfold renderNamedImports. apply includes_join, Forall_map.
  apply Forall_filter_keep. eapply Forall_impl; [exact H|].
  intros ni [Ha Hc]. apply render_free; apply includes_false; assumption.
Qed.

(** The whole transformation of a text that starts with a named-list
    import as the renderer writes it, and that has no other
    [import]. *)
Lemma rendered_list_transform (nis : list NamedImport)
    (stmt post id : str) (st : store) :
  nis ≠ [] →
  Forall (fun ni => word_run (actualName ni) ∧ word_run (customName ni))
         nis →
  Forall (fun ni => ¬ substring (lit "import") (actualName ni)
                    ∧ ¬ substring (lit "import") (customName ni)) nis →
  named_list_text (renderNamedImports nis) stmt →
  ¬ substring (lit "import") post →
  let currentSupportedFunctions :=
    List.filter (fun ni => isSupportedFunction supportedFunctions (actualName ni))
                nis in
  let unsupportedFunctions :=
    List.filter
      (fun ni => isUnsupportedFunction supportedFunctions (actualName ni))
      nis in
  fst (transform supportedFunctions (stmt ++ post) id st)
  = if nonempty unsupportedFunctions then
      ([lit "Unsupported lodash function"
        ++ (if 1 <? length unsupportedFunctions then lit "s" else [])
        ++ lit ": " ++ join (lit ", ") (map actualName unsupportedFunctions)],
       Value (Some (mkResult
         ((if nonempty currentSupportedFunctions then
             lit "import { " ++ renderNamedImports currentSupportedFunctions
             ++ lit " } from 'es-toolkit/compat';import { "
             ++ renderNamedImports unsupportedFunctions
             ++ lit " } from 'lodash'"
           else stmt) ++ post) None)))
    else
      ret (Some (mkResult
        ((lit "import { " ++ renderNamedImports currentSupportedFunctions
          ++ lit " } from 'es-toolkit/compat'") ++ post) None)).
Proof.
  intros Hne Hnis Hfree Ht Ip sup unsup. apply includes_false in Ip.
  destruct (render_list_shape nis Hne Hnis) as (R1 & R2 & R3 & R4).
  destruct (namedImportsRegex_matches_raw _ stmt post 0 None R1 R2 R3 Ht)
    as (m & ws & Hm & M1 & M2 & M3 & C1 & Hws).
  apply (named_list_transform_match supportedFunctions
           (renderNamedImports nis) stmt post id st m nis);
    try assumption.
  - rewrite <- (filter_all (fun _ => true) nis) by reflexivity.
    apply render_group_free, Hfree.
  - rewrite C1, R4 by exact Hws. apply mapW_parse_render, Hnis.
  - apply render_group_free, Hfree.
  - apply render_group_free, Hfree.
Qed.

End RenamedLists.

Section BlankLists.

Variable supportedFunctions : list str.

(** A list of white space and commas only. *)
Local Abbreviation blank :=
  (fun c : char => is_space c = true ∨ c = 44%N).

Lemma trim_spaces (s : str) :
  Forall (fun c => is_space c = true) s → trim s = [].
Proof.
  intros H. unfold trim.
  rewrite <- (app_nil_r s), trim_start_skip by (exact H || exact I).
  reflexivity.
Qed.

Lemma split_blank (raw : str) :
  Forall blank raw →
  ∀ cur, Forall (fun c => is_space c = true) cur →
         Forall (Forall (fun c => is_space c = true))
                (split_from [44%N] 0 cur raw).
Proof.
  induction 1 as [|c raw Hc Hraw IH]; intros cur Hcur;
    [repeat constructor; exact Hcur|].
  rewrite split_from_cons. cbn [starts_with].
  destruct (char_eqb 44%N c) eqn:E; cbn [andb].
  - constructor; [exact Hcur|]. apply IH. constructor.
  - apply IH. apply Forall_app. split; [exact Hcur|].
    destruct Hc as [Hc | ->]; [repeat constructor; exact Hc|].
    discriminate E.
Qed.

Lemma namedImportNames_blank (raw : str) :
  Forall blank raw → namedImportNames raw = [].
Proof.
  intros H. unfold namedImportNames, split. change (lit ",") with [44%N].
  pose proof (split_blank raw H [] (Forall_nil_2 _)) as Hs.
  induction Hs as [|x l Hx _ IH]; [reflexivity|].
  cbn [map List.filter]. rewrite trim_spaces by exact Hx. exact IH.
Qed.

Lemma namedImportsCallback_blank (m raw : str) :
  Forall blank raw →
  namedImportsCallback supportedFunctions m raw
  = ret (lit "import {  } from 'es-toolkit/compat'").
Proof.
  intros H.
  rewrite (namedImportsCallback_parsed supportedFunctions m raw [])
    by (rewrite namedImportNames_blank by exact H; reflexivity).
  reflexivity.
Qed.

Lemma blank_nonword (raw : str) :
  Forall blank raw → Forall (fun c => is_word c = false) raw.
Proof.
  intros H. eapply Forall_impl; [exact H|].
  intros c [Hc | ->]; [apply is_space_not_word, Hc | reflexivity].
Qed.

Lemma blank_list_chars (raw : str) :
  Forall blank raw → Forall (fun c => is_named_list_char c = true) raw.
Proof.
  intros H. eapply Forall_impl; [exact H|].
  intros c [Hc | ->]; [apply is_space_list_char, Hc | reflexivity].
Qed.

Lemma blank_split (raw : str) :
  Forall blank raw →
  ∃ sp r, raw = sp ++ r ∧ Forall (fun c => is_space c = true) sp
          ∧ (r = [] ∨ ∃ r', r = 44%N :: r').
Proof.
  induction 1 as [|c raw Hc Hraw (sp & r & -> & Hsp & Hr)].
  - exists [], []. split; [reflexivity|]. split; [constructor | left].
    reflexivity.
  - destruct Hc as [Hc | ->].
    + exists (c :: sp), r. split; [reflexivity|].
      split; [constructor; assumption | exact Hr].
    + exists [], (44%N :: sp ++ r). split; [reflexivity|].
      split; [constructor | right; eexists; reflexivity].
Qed.

(** A greedy run gives its last character back when what follows
    the pattern cannot start after the whole run. *)
Lemma star_k_give_back (p : char -> bool) (k : cont) (w : str) (c : char)
    (tl : str) (cs : list (option str)) (res : mstate) :
  Forall (fun x => p x = true) w → p c = true → stops p tl →
  ∀ n pv,
    k (MState (S (n + length w)) (Some c) tl cs) = None →
    k (MState (n + length w) (from_option Some pv (last w)) (c :: tl) cs)
    = Some res →
    star_k p k n pv cs (w ++ c :: tl) = Some res.
Proof.
  intros Hw Hc Hstop. induction Hw as [|x w Hx Hw IH]; intros n pv Hnone Hk.
  - cbn [app length] in *. rewrite Nat.add_0_r in *. cbn [star_k].
    rewrite Hc.
    assert (star_k p k (S n) (Some c) cs tl = None) as ->.
    { destruct tl as [|y tl]; [exact Hnone|]. cbn [star_k].
      simpl in Hstop. rewrite Hstop. exact Hnone. }
    exact Hk.
  - cbn [app star_k]. rewrite Hx.
    rewrite (IH (S n) (Some x)); [reflexivity | |].
    + cbn [length] in Hnone. rewrite Nat.add_succ_r in Hnone. exact Hnone.
    + cbn [length] in Hk. rewrite Nat.add_succ_r in Hk.
      rewrite last_step in Hk. exact Hk.
Qed.

Lemma rmatch_group_plus_fail (i : nat) (p : char -> bool) (k : cont)
    (x : char) (tl : str) (n : nat) (pv : option char)
    (cs : list (option str)) :
  p x = false →
  rmatch (Group i (Plus p)) k (MState n pv (x :: tl) cs) = None.
Proof. intros H. simpl. rewrite H. reflexivity. Qed.

(** The second pattern on an import whose braces hold white space
    only: the group takes the last white space character. *)
Lemma namedImportsRegex_matches_spaces (raw stmt post : str)
    (n : nat) (pv : option char) :
  raw ≠ [] → Forall (fun c => is_space c = true) raw →
  named_list_text raw stmt →
  ∃ m,
    match_at namedImportsRegex n pv (stmt ++ post) = Some m
    ∧ m_start m = n ∧ m_end m = n + length stmt ∧ m_text m = stmt
    ∧ Forall (fun c => is_space c = true) (cap 1 (m_caps m)).
Proof.
  intros Hne Hraw
    (ws1 & ws2 & ws3 & ws4 & ws5 & q1 & q2 & -> & S1 & S2 & S3 & S4 & S5
     & Q1 & Q2).
  assert (ws2 ++ raw ++ ws3 ≠ []) as Hin.
  { intros E. apply app_eq_nil in E as [_ E].
    apply app_eq_nil in E as [E _]. apply Hne, E. }
  assert (Forall (fun c => is_space c = true) (ws2 ++ raw ++ ws3)) as Hsp.
  { apply Forall_app. split; [exact S2|]. apply Forall_app. split; assumption. }
  destruct (exists_last Hin) as (init & c & Ein). rewrite Ein in Hsp.
  apply Forall_app in Hsp as [Hinit Hc]. apply Forall_cons in Hc as [Hc _].
  set (stmt := lit "import" ++ ws1 ++ lit "{" ++ ws2 ++ raw ++ ws3 ++ lit "}"
               ++ ws4 ++ lit "from" ++ ws5 ++ [q1] ++ lit "lodash" ++ [q2]).
  assert (stmt ++ post
          = lit "import" ++ ws1 ++ 123%N :: init ++ c
            :: ([] ++ 125%N :: ws4 ++ lit "from" ++ ws5
                ++ q1 :: lit "lodash" ++ q2 :: post)) as Etext.
  { unfold stmt. rewrite <- !app_assoc.
    rewrite (app_assoc ws2 raw), (app_assoc (ws2 ++ raw) ws3).
    rewrite <- (app_assoc ws2 raw ws3), Ein, <- !app_assoc. reflexivity. }
  assert (length stmt
          = 6 + length ws1 + 1 + length init + 1 + 1 + length ws4 + 4
            + length ws5 + 1 + 6 + 1) as Elen.
  { unfold stmt. rewrite !length_app.
    assert (length ws2 + (length raw + length ws3) = length init + 1) as E.
    { rewrite <- !length_app, Ein, length_app. reflexivity. }
    simpl. lia. }
  assert (∃ st',
            rmatch (body namedImportsRegex) Some
              (MState n pv (stmt ++ post) (replicate 2 None)) = Some st'
            ∧ pos st' = n + length stmt
            ∧ cap 1 (caps st') = [c])
    as (st' & Hm & Hp & C1).
  { rewrite Etext. unfold namedImportsRegex. cbn [body].
    eexists. split; [|split].
    - rewrite rmatch_cat_cons, rmatch_text.
      rewrite rmatch_cat_cons.
      apply rmatch_plus_run; [apply S1 | apply S1 | reflexivity |].
      rewrite rmatch_cat_cons, rmatch_chr.
      rewrite rmatch_cat_cons. cbn [rmatch pos prev caps rest].
      apply star_k_give_back; [exact Hinit | exact Hc | reflexivity | |].
      + cbn [app]. rewrite rmatch_cat_cons.
        apply rmatch_group_plus_fail. reflexivity.
      + rewrite rmatch_cat_cons.
        apply (rmatch_group_plus_run 1 is_named_list_char _ [c]);
          [discriminate
           | repeat constructor; apply is_space_list_char, Hc
           | reflexivity |].
        rewrite rmatch_cat_cons.
        apply (rmatch_star_run is_space _ []);
          [constructor | reflexivity |].
        rewrite rmatch_cat_cons. cbn [app]. rewrite rmatch_chr.
        rewrite rmatch_cat_cons.
        apply rmatch_plus_run; [apply S4 | apply S4 | reflexivity |].
        rewrite rmatch_cat_cons, rmatch_text.
        rewrite rmatch_cat_cons.
        apply rmatch_plus_run;
          [apply S5 | apply S5 | simpl; apply is_quote_not_space, Q1 |].
        rewrite rmatch_cat_cons, rmatch_class by exact Q1.
        rewrite rmatch_cat_cons, rmatch_text.
        rewrite rmatch_cat_cons, rmatch_class by exact Q2.
        rewrite rmatch_cat_nil. reflexivity.
    - cbn [pos]. rewrite Elen. simpl. lia.
    - reflexivity. }
  unfold match_at.
  change (replicate (S (ngroups namedImportsRegex)) None)
    with (replicate 2 (@None str)).
  rewrite Hm. eexists. split; [reflexivity|].
  cbn [m_start m_end m_text m_caps].
  split; [reflexivity|]. split; [exact Hp|].
  split; [|rewrite C1; repeat constructor; exact Hc].
  rewrite Hp, Nat.add_sub'. apply take_app_length.
Qed.

End BlankLists.

Section BlankListPasses.

Variable supportedFunctions : list str.

(** The whole transformation of a text that starts with a named-list
    import whose list holds white space and commas only, and that has
    no other [import]. *)
Lemma blank_list_transform (raw stmt post id : str) (st : store) :
  raw ≠ [] → Forall (fun c => is_space c = true ∨ c = 44%N) raw →
  named_list_text raw stmt →
  ¬ substring (lit "import") post →
  fst (transform supportedFunctions (stmt ++ post) id st)
  = ret (Some (mkResult
           (lit "import {  } from 'es-toolkit/compat'" ++ post) None)).
Proof.
  intros Hne Hraw Ht Ip. apply includes_false in Ip.
  assert (includes raw (lit "import") = false) as Hfree.
  { change raw with ([] ++ raw).
    rewrite import_skip_r by (apply blank_nonword, Hraw). reflexivity. }
  assert (∃ m,
            match_at namedImportsRegex 0 None (stmt ++ post) = Some m
            ∧ m_start m = 0 ∧ m_end m = length stmt ∧ m_text m = stmt
            ∧ Forall (fun c => is_space c = true ∨ c = 44%N)
                     (cap 1 (m_caps m)))
    as (m & Hm & M1 & M2 & M3 & Hcap).
  { destruct (blank_split raw Hraw) as (sp & r & E & Hsp & [-> | [r' ->]]).
    - rewrite app_nil_r in E. subst sp.
      destruct (namedImportsRegex_matches_spaces raw stmt post 0 None
                  Hne Hsp Ht) as (m & Hm & M1 & M2 & M3 & Hcap).
      exists m. repeat (split; [assumption|]).
      eapply Forall_impl; [exact Hcap|]. intros c Hc. left. exact Hc.
    - subst raw. apply Forall_app in Hraw as [_ Hr].
      assert (named_list_text (44%N :: r') stmt) as Ht'.
      { destruct Ht as (ws1 & ws2 & ws3 & ws4 & ws5 & q1 & q2 & -> & S1 & S2
                        & S3 & S4 & S5 & Q1 & Q2).
        exists ws1, (ws2 ++ sp), ws3, ws4, ws5, q1, q2.
        split; [rewrite <- !app_assoc; reflexivity|].
        repeat (split; [assumption|]).
        split; [apply Forall_app; split; assumption|].
        repeat (split; [assumption|]). assumption. }
      destruct (namedImportsRegex_matches_raw (44%N :: r') stmt post 0 None)
        as (m & ws & Hm & M1 & M2 & M3 & C1 & Hws);
        [discriminate | apply blank_list_chars, Hr | reflexivity | exact Ht'|].
      exists m. repeat (split; [assumption|]).
      rewrite C1. apply Forall_app. split; [exact Hr|].
      eapply Forall_impl; [exact Hws|]. intros c Hc. left. exact Hc. }
  assert (mapW parseNamedImport (namedImportNames (cap 1 (m_caps m)))
          = ret []) as Hp
    by (rewrite namedImportNames_blank by exact Hcap; reflexivity).
  exact (named_list_transform_match supportedFunctions raw stmt post id st
           m [] Ht Hfree Ip Hm M1 M2 M3 Hp eq_refl eq_refl).
Qed.

End BlankListPasses.

Section TokenInvariants.

Lemma split_segments (raw : str) :
  ∀ cur,
    Forall (fun c => c ≠ 44%N) cur →
    Forall (fun x => Forall (fun c => c ≠ 44%N) x ∧ substring x (cur ++ raw))
           (split_from [44%N] 0 cur raw).
Proof.
  induction raw as [|c raw IH]; intros cur Hcur.
  - repeat constructor; [exact Hcur|]. exists [], [].
    rewrite !app_nil_r. reflexivity.
  - rewrite split_from_cons. cbn [starts_with].
    destruct (char_eqb 44%N c) eqn:E; cbn [andb].
    + constructor.
      * split; [exact Hcur|]. exists [], (c :: raw). reflexivity.
      * eapply Forall_impl; [apply (IH []); constructor|].
        intros x [Hx (a & b & Hsub)]. split; [exact Hx|].
        exists (cur ++ c :: a), b. cbn [app] in Hsub. rewrite Hsub.
        rewrite <- app_assoc. reflexivity.
    + assert (Forall (fun c => c ≠ 44%N) (cur ++ [c])) as Hcur'.
      { apply Forall_app. split; [exact Hcur|]. repeat constructor.
        intros ->. discriminate E. }
      eapply Forall_impl; [apply (IH _ Hcur')|].
      intros x [Hx Hsub]. split; [exact Hx|].
      rewrite <- app_assoc in Hsub. exact Hsub.
Qed.

Lemma trim_substring (x : str) : substring (trim x) x.
Proof.
  unfold trim. destruct (trim_start_suffix x) as [pre E].
  destruct (trim_end_prefix (trim_start x)) as [post E'].
  exists pre, post. rewrite <- E', <- E. reflexivity.
Qed.

Lemma trim_end_last (y : str) : stops is_space (reverse (trim_end y)).
Proof.
  unfold trim_end. rewrite reverse_involutive.
  destruct (trim_start (reverse y)) as [|c tl] eqn:E; [exact I|].
  apply (trim_start_head _ _ _ E).
Qed.

Lemma substring_Forall (P : char -> Prop) (p s : str) :
  substring p s → Forall P s → Forall P p.
Proof.
  intros (a & b & ->) H. apply Forall_app in H as [_ H].
  apply Forall_app in H as [H _]. exact H.
Qed.

(** What the tokenizer hands to the parser. *)
Lemma namedImportNames_token (raw t : str) :
  t ∈ namedImportNames raw →
  t ≠ [] ∧ Forall (fun c => c ≠ 44%N) t
  ∧ stops is_space t ∧ stops is_space (reverse t)
  ∧ substring t raw.
Proof.
  unfold namedImportNames, split. change (lit ",") with [44%N].
  intros Hin. apply list_elem_of_In, filter_In in Hin as [Hin Hne].
  apply in_map_iff in Hin as (x & <- & Hx).
  pose proof (split_segments raw [] (Forall_nil_2 _)) as Hseg.
  rewrite Forall_forall in Hseg.
  destruct (Hseg x (proj2 (list_elem_of_In _ _) Hx)) as [Hcomma Hsub].
  split; [destruct (trim x); [discriminate | discriminate]|].
  split; [apply (substring_Forall _ _ x (trim_substring x) Hcomma)|].
  split; [|split].
  - destruct (trim x) as [|c tl] eqn:E; [exact I|]. apply (trim_head _ _ _ E).
  - apply trim_end_last.
  - apply (substring_trans _ x); [apply trim_substring | exact Hsub].
Qed.

End TokenInvariants.

(** ** Statements on named-list imports *)

(** X3.  Parsing undoes rendering: a named import whose two names
    are identifiers is rendered to a token that the parser reads back
    as the same named import, renamed or not. *)
Theorem parse_render_roundtrip (ni : NamedImport) :
  word_run (actualName ni) → word_run (customName ni) →
  parseNamedImport (renderNamedImport ni) = ret ni.
Proof. apply parse_render. Qed.

(** X9.  The two other ways the callback of the second pass ends,
    for every import the pass finds in a text.  When there are tokens
    and none is supported, the import is given back as it is, with one
    warning that names every token.  When no token is unsupported,
    nothing is warned and the import becomes one import of all the
    tokens from [es-toolkit/compat]. *)
Theorem named_list_kept_or_moved :
  ∀ (supportedFunctions : list str) (src : str) (ms : list found)
    (lf : nat) (m : found),
    exec_all (enough src) namedImportsRegex src 0 = Some (ms, lf) →
    m ∈ ms →
    ∃ raw parsed,
      named_list_text raw (m_text m) ∧ cap 1 (m_caps m) = raw
      ∧ mapW parseNamedImport (namedImportNames raw) = ret parsed
      ∧ (parsed ≠ [] →
         Forall (fun ni =>
                   isSupportedFunction supportedFunctions (actualName ni)
                   = false) parsed →
         namedImportsCallback supportedFunctions (m_text m) raw
         = ([lit "Unsupported lodash function"
             ++ (if 1 <? length parsed then lit "s" else [])
             ++ lit ": " ++ join (lit ", ") (map actualName parsed)],
            Value (m_text m)))
      ∧ (Forall (fun ni =>
                   isSupportedFunction supportedFunctions (actualName ni)
                   = true) parsed →
         namedImportsCallback supportedFunctions (m_text m) raw
         = ret (lit "import { " ++ renderNamedImports parsed
                ++ lit " } from 'es-toolkit/compat'")).
Proof.
  intros fns src ms lf m Hex Hm.
  apply (exec_all_matches _ _ _ _ _ Hex) in Hm.
  apply namedImportsRegex_shape in Hm as (raw & C1 & _ & _ & Ht).
  destruct (namedImportNames_parse raw) as [parsed Hp].
  exists raw, parsed.
  split; [exact Ht|]. split; [exact C1|]. split; [exact Hp|].
  pose proof (namedImportsCallback_parsed fns (m_text m) raw parsed Hp) as Hcb.
  cbv zeta in Hcb. split.
  - intros Hne Hall. rewrite Hcb.
    rewrite (filter_all (fun ni => isUnsupportedFunction fns (actualName ni)))
      by (intros ni Hni; rewrite Forall_forall in Hall;
          unfold isUnsupportedFunction; rewrite (Hall ni Hni); reflexivity).
    rewrite (filter_nil (fun ni => isSupportedFunction fns (actualName ni)))
      by (intros ni Hni; rewrite Forall_forall in Hall; apply Hall, Hni).
    rewrite (nonempty_true parsed) by exact Hne. reflexivity.
  - intros Hall. rewrite Hcb.
    rewrite (filter_nil (fun ni => isUnsupportedFunction fns (actualName ni)))
      by (intros ni Hni; rewrite Forall_forall in Hall;
          unfold isUnsupportedFunction; rewrite (Hall ni Hni); reflexivity).
    rewrite (filter_all (fun ni => isSupportedFunction fns (actualName ni)))
      by (intros ni Hni; rewrite Forall_forall in Hall; apply Hall, Hni).
    reflexivity.
Qed.

(** X10.  A named-list import with renamed symbols, at the front of
    a text with no other [import]: what decides the group of a symbol
    is the name it has in the library, not the local name, and each
    symbol keeps its [ as ] clause in the import it goes to.  The
    result is the kept import with a warning when no symbol is
    supported, the two imports with a warning when both groups are not
    empty, and one import from [es-toolkit/compat] without a warning
    when every symbol is supported. *)
Theorem renamed_list_transform
    (supportedFunctions : list str) (nis : list NamedImport)
    (stmt post id : str) (st : store) :
  nis ≠ [] →
  Forall (fun ni => word_run (actualName ni) ∧ word_run (customName ni))
         nis →
  Forall (fun ni => ¬ substring (lit "import") (actualName ni)
                    ∧ ¬ substring (lit "import") (customName ni)) nis →
  named_list_text (renderNamedImports nis) stmt →
  ¬ substring (lit "import") post →
  let currentSupportedFunctions :=
    List.filter (fun ni => isSupportedFunction supportedFunctions (actualName ni))
                nis in
  let unsupportedFunctions :=
    List.filter
      (fun ni => isUnsupportedFunction supportedFunctions (actualName ni))
      nis in
  fst (transform supportedFunctions (stmt ++ post) id st)
  = if nonempty unsupportedFunctions then
      ([lit "Unsupported lodash function"
        ++ (if 1 <? length unsupportedFunctions then lit "s" else [])
        ++ lit ": " ++ join (lit ", ") (map actualName unsupportedFunctions)],
       Value (Some (mkResult
         ((if nonempty currentSupportedFunctions then
             lit "import { " ++ renderNamedImports currentSupportedFunctions
             ++ lit " } from 'es-toolkit/compat';import { "
             ++ renderNamedImports unsupportedFunctions
             ++ lit " } from 'lodash'"
           else stmt) ++ post) None)))
    else
      ret (Some (mkResult
        ((lit "import { " ++ renderNamedImports currentSupportedFunctions
          ++ lit " } from 'es-toolkit/compat'") ++ post) None)).
Proof. apply rendered_list_transform. Qed.

(** X11.  A list that holds white space and commas only has no
    tokens: the callback of the second pass warns nothing and writes
    an import of nothing from [es-toolkit/compat], and so does the
    transform for such an import at the front of a text with no other
    [import]. *)
Theorem blank_list_moved :
  (∀ (supportedFunctions : list str) (m raw : str),
      Forall (fun c => is_space c = true ∨ c = 44%N) raw →
      namedImportNames raw = []
      ∧ namedImportsCallback supportedFunctions m raw
        = ret (lit "import {  } from 'es-toolkit/compat'"))
  ∧ (∀ (supportedFunctions : list str) (raw stmt post id : str)
        (st : store),
        raw ≠ [] → Forall (fun c => is_space c = true ∨ c = 44%N) raw →
        named_list_text raw stmt →
        ¬ substring (lit "import") post →
        fst (transform supportedFunctions (stmt ++ post) id st)
        = ret (Some (mkResult
                 (lit "import {  } from 'es-toolkit/compat'" ++ post) None))).
Proof.
  split.
  - intros fns m raw H.
    split; [apply namedImportNames_blank | apply namedImportsCallback_blank];
      exact H.
  - intros fns raw stmt post id st. apply blank_list_transform.
Qed.

(** X12.  Every token that the tokenizer of the second pass hands to
    the parser is not empty, holds no comma, has no white space at
    either end (trimming it again changes nothing) and is a piece of
    the list as it was written. *)
Theorem namedImportNames_invariants (raw t : str) :
  t ∈ namedImportNames raw →
  t ≠ [] ∧ Forall (fun c => c ≠ 44%N) t ∧ trim t = t ∧ substring t raw.
Proof.
  intros Hin. apply namedImportNames_token in Hin as (H1 & H2 & H3 & H4 & H5).
  split; [exact H1|]. split; [exact H2|]. split; [|exact H5].
  apply trim_token. repeat split; assumption.
Qed.

(** X13.  Tokenizing and parsing undo the rendering of a list: the
    list that the renderer writes for named imports of identifiers,
    joined with [", "], is read back as the same named imports in the
    same order. *)
Theorem parse_render_list (nis : list NamedImport) :
  Forall (fun ni => word_run (actualName ni) ∧ word_run (customName ni))
         nis →
  mapW parseNamedImport (namedImportNames (renderNamedImports nis))
  = ret nis.
Proof.
  intros Hnis. destruct nis as [|ni nis]; [reflexivity|].
  destruct (render_list_shape (ni :: nis)) as (_ & _ & _ & R4);
    [discriminate | exact Hnis|].
  specialize (R4 [] (Forall_nil_2 _)). rewrite app_nil_r in R4.
  rewrite R4. apply mapW_parse_render, Hnis.
Qed.

(** ** Imports that no pattern takes *)

Section OtherImportForms.

Variable supportedFunctions : list str.

(** After [import] and white space the first and the third pattern
    want a word character and the second wants a brace. *)
Lemma other_form_no_match (ws more : str) (c : char)
    (n : nat) (pv : option char) :
  Forall (fun x => is_space x = true) ws →
  is_space c = false → is_word c = false → c ≠ 123%N →
  match_at defaultImportRegex n pv (lit "import" ++ ws ++ c :: more) = None
  ∧ match_at namedImportsRegex n pv (lit "import" ++ ws ++ c :: more) = None
  ∧ match_at defaultSingleImportRegex n pv (lit "import" ++ ws ++ c :: more)
    = None.
Proof.
  intros Hws Hsp Hw Hb. split; [|split].
  - destruct (match_at _ _ _ _) as [m|] eqn:E; [exfalso | reflexivity].
    apply match_at_sound in E as (st' & Ha & _).
    apply defaultImportRegex_accepts in Ha
      as (name' & w & (Ew & _) & Hshape & [Hne Hn'] & _); [|reflexivity].
    destruct Hshape as (ws1' & ws2' & ws3' & q1' & q2' & -> & S1' & _).
    cbn [rest] in Ew. rewrite <- !app_assoc in Ew. apply app_inv_head in Ew.
    apply (run_align is_space) in Ew as [<- Ew];
      [| exact Hws | apply S1' | exact Hsp
       | apply stops_word_run; split; assumption].
    destruct name' as [|x name']; [contradiction|].
    apply Forall_cons in Hn' as [Hx _]. injection Ew as -> _.
    rewrite Hx in Hw. discriminate Hw.
  - destruct (match_at _ _ _ _) as [m|] eqn:E; [exfalso | reflexivity].
    apply match_at_sound in E as (st' & Ha & _).
    apply namedImportsRegex_accepts in Ha
      as (raw & w & (Ew & _) & Hshape & _); [|reflexivity].
    destruct Hshape
      as (ws1' & ws2' & ws3' & ws4' & ws5' & q1' & q2' & -> & S1' & _).
    cbn [rest] in Ew. rewrite <- !app_assoc in Ew. apply app_inv_head in Ew.
    apply (run_align is_space) in Ew as [<- Ew];
      [| exact Hws | apply S1' | exact Hsp | reflexivity].
    injection Ew as -> _. apply Hb. reflexivity.
  - destruct (match_at _ _ _ _) as [m|] eqn:E; [exfalso | reflexivity].
    apply match_at_sound in E as (st' & Ha & _).
    apply defaultSingleImportRegex_accepts in Ha
      as (name' & symbol' & w & (Ew & _) & Hshape & [Hne Hn'] & _);
      [|reflexivity].
    destruct Hshape as (ws1' & ws2' & ws3' & q1' & ext' & q2' & -> & S1' & _).
    cbn [rest] in Ew. rewrite <- !app_assoc in Ew. apply app_inv_head in Ew.
    apply (run_align is_space) in Ew as [<- Ew];
      [| exact Hws | apply S1' | exact Hsp
       | apply stops_word_run; split; assumption].
    destruct name' as [|x name']; [contradiction|].
    apply Forall_cons in Hn' as [Hx _]. injection Ew as -> _.
    rewrite Hx in Hw. discriminate Hw.
Qed.

Lemma other_form_free (ws more : str) (c : char) :
  Forall (fun x => is_space x = true) ws → is_word c = false →
  includes more (lit "import") = false →
  includes (drop 1 (lit "import" ++ ws ++ c :: more)) (lit "import") = false.
Proof.
  intros Hws Hw Hrest.
  change (drop 1 (lit "import" ++ ws ++ c :: more))
    with (lit "mport" ++ ws ++ c :: more).
  rewrite app_assoc, includes_sep
    by (apply import_word || exact Hw || discriminate).
  rewrite import_skip_r by (apply space_run_nonword, Hws).
  rewrite Hrest. reflexivity.
Qed.

Lemma transform_one_unmatched (src id : str) (st : store) :
  includes src (lit "lodash") = true →
  match_at defaultImportRegex 0 None src = None →
  match_at namedImportsRegex 0 None src = None →
  match_at defaultSingleImportRegex 0 None src = None →
  includes (drop 1 src) (lit "import") = false →
  fst (transform supportedFunctions src id st)
  = ret (Some (mkResult src None)).
Proof.
  intros Hl H1 H2 H3 Hfree. rewrite transform_fst, Hl.
  rewrite defaultImportPass_fst.
  erewrite replace_none; [| reflexivity | exact H1 | exact Hfree].
  rewrite bind_ret, namedImportsPass_fst.
  erewrite replace_none; [| reflexivity | exact H2 | exact Hfree].
  rewrite bind_ret, defaultSingleImportPass_fst.
  erewrite replace_none; [| reflexivity | exact H3 | exact Hfree].
  rewrite bind_ret. reflexivity.
Qed.

(** An import of a path below [lodash/] that goes on after its first
    segment: neither the first nor the third pattern matches it. *)
Lemma deep_path_no_match (ws1 name ws2 ws3 seg more : str) (q1 d : char)
    (n : nat) (pv : option char) :
  space_run ws1 → word_run name → space_run ws2 → space_run ws3 →
  is_quote q1 = true → Forall (fun x => is_word x = true) seg →
  is_word d = false → is_quote d = false → d ≠ 46%N →
  match_at defaultImportRegex n pv
    (lit "import" ++ ws1 ++ name ++ ws2 ++ lit "from" ++ ws3 ++ [q1]
     ++ lit "lodash/" ++ seg ++ d :: more) = None
  ∧ match_at defaultSingleImportRegex n pv
      (lit "import" ++ ws1 ++ name ++ ws2 ++ lit "from" ++ ws3 ++ [q1]
       ++ lit "lodash/" ++ seg ++ d :: more) = None.
Proof.
  intros S1 Hn S2 S3 Q1 Hseg Hd Hdq Hdot. split.
  - destruct (match_at _ _ _ _) as [m|] eqn:E; [exfalso | reflexivity].
    apply match_at_sound in E as (st' & Ha & _).
    apply defaultImportRegex_accepts in Ha
      as (name' & w & (Ew & _) & Hshape & Hn' & _); [|reflexivity].
    destruct Hshape
      as (ws1' & ws2' & ws3' & q1' & q2' & -> & S1' & S2' & S3' & Q1' & Q2').
    cbn [rest] in Ew. rewrite <- !app_assoc in Ew. apply app_inv_head in Ew.
    apply (run_align is_space) in Ew as [<- Ew];
      [| apply S1 | apply S1' | apply stops_word_run, Hn
       | apply stops_word_run, Hn'].
    apply (run_align is_word) in Ew as [<- Ew];
      [| apply Hn | apply Hn' | apply stops_space_run, S2
       | apply stops_space_run, S2'].
    apply (run_align is_space) in Ew as [<- Ew];
      [| apply S2 | apply S2' | reflexivity | reflexivity].
    apply app_inv_head in Ew.
    apply (run_align is_space) in Ew as [<- Ew];
      [| apply S3 | apply S3' | apply is_quote_not_space, Q1
       | apply is_quote_not_space, Q1'].
    injection Ew as _ <- _. discriminate Q2'.
  - destruct (match_at _ _ _ _) as [m|] eqn:E; [exfalso | reflexivity].
    apply match_at_sound in E as (st' & Ha & _).
    apply defaultSingleImportRegex_accepts in Ha
      as (name' & symbol' & w & (Ew & _) & Hshape & Hn' & Hs' & _);
      [|reflexivity].
    destruct Hshape
      as (ws1' & ws2' & ws3' & q1' & ext' & q2' & -> & S1' & S2' & S3' & Hext
          & Q1' & Q2').
    cbn [rest] in Ew. rewrite <- !app_assoc in Ew. apply app_inv_head in Ew.
    apply (run_align is_space) in Ew as [<- Ew];
      [| apply S1 | apply S1' | apply stops_word_run, Hn
       | apply stops_word_run, Hn'].
    apply (run_align is_word) in Ew as [<- Ew];
      [| apply Hn | apply Hn' | apply stops_space_run, S2
       | apply stops_space_run, S2'].
    apply (run_align is_space) in Ew as [<- Ew];
      [| apply S2 | apply S2' | reflexivity | reflexivity].
    apply app_inv_head in Ew.
    apply (run_align is_space) in Ew as [<- Ew];
      [| apply S3 | apply S3' | apply is_quote_not_space, Q1
       | apply is_quote_not_space, Q1'].
    pose proof (f_equal head Ew) as Hq. cbn [app head] in Hq.
    injection Hq as <-.
    change (([q1] ++ lit "lodash/") ++ seg ++ d :: more
            = ([q1] ++ lit "lodash/") ++ symbol' ++ ext' ++ [q2'] ++ rest st')
      in Ew.
    apply app_inv_head in Ew as H. clear Ew.
    destruct Hext as [-> | ->].
    + apply (run_align is_word) in H as [<- Ew];
        [| exact Hseg | apply Hs' | exact Hd | apply is_quote_not_word, Q2'].
      injection Ew as ->. rewrite Q2' in Hdq. discriminate Hdq.
    + apply (run_align is_word) in H as [<- Ew];
        [| exact Hseg | apply Hs' | exact Hd | reflexivity].
      injection Ew as -> _. apply Hdot. reflexivity.
Qed.

Lemma deep_path_free (ws1 name ws2 ws3 seg more : str) (q1 d : char) :
  space_run ws1 → space_run ws2 → space_run ws3 →
  is_quote q1 = true → is_word d = false →
  includes name (lit "import") = false →
  includes seg (lit "import") = false →
  includes more (lit "import") = false →
  includes
    (drop 1 (lit "import" ++ ws1 ++ name ++ ws2 ++ lit "from" ++ ws3 ++ [q1]
             ++ lit "lodash/" ++ seg ++ d :: more)) (lit "import") = false.
Proof.
  intros S1 S2 S3 Q1 Hd Hn Hs Hr.
  change (drop 1 (lit "import" ++ ws1 ++ name ++ ws2 ++ lit "from" ++ ws3
                  ++ [q1] ++ lit "lodash/" ++ seg ++ d :: more))
    with (lit "mport" ++ ws1 ++ name ++ ws2 ++ lit "from" ++ ws3
          ++ [q1] ++ lit "lodash" ++ [47%N] ++ seg ++ [d] ++ more).
  rewrite import_between by (try apply space_run_nonword; apply S1).
  rewrite import_between by (try apply space_run_nonword; apply S2).
  rewrite import_between by (try apply space_run_nonword; apply S3).
  rewrite import_skip by (apply quote_nonword, Q1).
  rewrite import_between by (try discriminate; repeat constructor).
  rewrite import_between
    by (try discriminate; repeat constructor; exact Hd).
  rewrite Hn, Hs, Hr. reflexivity.
Qed.

End OtherImportForms.

(** X14.  A statement that begins with [import] but goes on, after
    optional white space, with a character that is neither a word
    character nor an opening brace (a namespace import [import * as],
    an import for side effects, a dynamic import) is taken by none of
    the three patterns: the text comes back as it is and nothing is
    warned. *)
Theorem transform_other_import_forms
    (supportedFunctions : list str) (ws more : str) (c : char)
    (id : str) (st : store) :
  Forall (fun x => is_space x = true) ws →
  is_space c = false → is_word c = false → c ≠ 123%N →
  substring (lit "lodash") more →
  ¬ substring (lit "import") more →
  fst (transform supportedFunctions (lit "import" ++ ws ++ c :: more) id st)
  = ret (Some (mkResult (lit "import" ++ ws ++ c :: more) None)).
Proof.
  intros Hws Hsp Hw Hb Hl Hi. apply includes_false in Hi.
  destruct (other_form_no_match ws more c 0 None Hws Hsp Hw Hb)
    as (H1 & H2 & H3).
  apply transform_one_unmatched; try assumption.
  - apply includes_spec. destruct Hl as (a & b & ->).
    exists (lit "import" ++ ws ++ c :: a), b.
    rewrite <- !app_assoc. reflexivity.
  - apply other_form_free; assumption.
Qed.

(** X15.  An import of a path below [lodash/] is rewritten only when
    the path is one segment: when the first segment is followed by a
    character that is not a word character, not a quote character and
    not a dot (a second slash, as in [lodash/fp/get]), the text comes
    back as it is and nothing is warned. *)
Theorem transform_deep_path
    (supportedFunctions : list str)
    (ws1 name ws2 ws3 seg more : str) (q1 d : char) (id : str) (st : store) :
  space_run ws1 → word_run name → space_run ws2 → space_run ws3 →
  is_quote q1 = true → Forall (fun x => is_word x = true) seg →
  is_word d = false → is_quote d = false → d ≠ 46%N →
  ¬ substring (lit "import") name → ¬ substring (lit "import") seg →
  ¬ substring (lit "import") more →
  fst (transform supportedFunctions
         (lit "import" ++ ws1 ++ name ++ ws2 ++ lit "from" ++ ws3 ++ [q1]
          ++ lit "lodash/" ++ seg ++ d :: more) id st)
  = ret (Some (mkResult
           (lit "import" ++ ws1 ++ name ++ ws2 ++ lit "from" ++ ws3 ++ [q1]
            ++ lit "lodash/" ++ seg ++ d :: more) None)).
Proof.
  intros S1 Hn S2 S3 Q1 Hseg Hd Hdq Hdot In Is Ir.
  apply includes_false in In, Is, Ir.
  destruct (deep_path_no_match ws1 name ws2 ws3 seg more q1 d 0 None
              S1 Hn S2 S3 Q1 Hseg Hd Hdq Hdot) as [H1 H3].
  apply transform_one_unmatched; try assumption.
  - apply includes_spec.
    exists (lit "import" ++ ws1 ++ name ++ ws2 ++ lit "from" ++ ws3 ++ [q1]),
           (lit "/" ++ seg ++ d :: more).
    rewrite <- !app_assoc. reflexivity.
  - apply namedImportsRegex_not_name; assumption.
  - apply deep_path_free; assumption.
Qed.

(** * The further properties at concrete texts *)

Lemma transform_without_import_witness :
  fst (transform [lit "isEqual"] (lit "const _ = require('lodash');")
         (lit "a.js") store0)
  = ret (Some (mkResult (lit "const _ = require('lodash');") None)).
Proof.
  apply transform_without_import.
  - apply includes_spec. vm_compute. reflexivity.
  - apply includes_false. vm_compute. reflexivity.
Defined.

Lemma transform_other_modules_witness :
  fst (transform [lit "debounce"]
         (lit "import { debounce } from 'lodash-es';") (lit "a.js") store0)
  = ret (Some (mkResult (lit "import { debounce } from 'lodash-es';") None)).
Proof.
  apply transform_other_modules.
  - apply includes_spec. vm_compute. reflexivity.
  - intros q Hq. apply includes_false.
    destruct (is_quote_cases q Hq) as [-> | ->]; vm_compute; reflexivity.
  - apply includes_false. vm_compute. reflexivity.
Defined.

Lemma parse_render_roundtrip_witness :
  parseNamedImport
    (renderNamedImport (mkNamedImport (lit "isEqual") (lit "eq")))
  = ret (mkNamedImport (lit "isEqual") (lit "eq")).
Proof.
  apply parse_render_roundtrip; split; try discriminate; repeat constructor.
Defined.

Lemma parseNamedImport_drops_rest_witness :
  parseNamedImport (lit "a" ++ lit " as " ++ lit "b" ++ lit " as " ++ lit "c")
  = ret (mkNamedImport (lit "a") (lit "b")).
Proof.
  apply parseNamedImport_drops_rest; split; try discriminate;
    repeat constructor.
Defined.

Lemma usedFunctions_usages_witness :
  [lit "_.isEqual"; lit "_.isEqual"] ≠ []
  ∧ Forall word_run (usedFunctions [lit "_.isEqual"; lit "_.isEqual"])
  ∧ [lit "_.isEqual"; lit "_.isEqual"]
    = map (fun symbol => lit "_" ++ lit "." ++ symbol)
          (usedFunctions [lit "_.isEqual"; lit "_.isEqual"]).
Proof.
  apply (usedFunctions_usages
           (lit "import _ from 'lodash'; _.isEqual(1, 1); _.isEqual(2, 2);")).
  - repeat constructor.
  - vm_compute. reflexivity.
Defined.

Lemma named_list_kept_or_moved_witness :
  ∃ raw,
    named_list_text raw (lit "import { every, some } from 'lodash'")
    ∧ namedImportsCallback [lit "isEqual"]
        (lit "import { every, some } from 'lodash'") raw
      = ([lit "Unsupported lodash functions: every, some"],
         Value (lit "import { every, some } from 'lodash'")).
Proof.
  pose (m := Found 0 36 (lit "import { every, some } from 'lodash'")
               [None; Some (lit "every, some ")]).
  destruct (named_list_kept_or_moved [lit "isEqual"]
              (lit "import { every, some } from 'lodash';") [m] 0 m)
    as (raw & parsed & Ht & C1 & Hp & Hkept & _).
  - vm_compute. reflexivity.
  - constructor.
  - vm_compute in C1. subst raw. vm_compute in Hp. injection Hp as <-.
    eexists. split; [exact Ht|].
    apply Hkept; [discriminate | repeat constructor].
Defined.

Lemma renamed_list_transform_witness :
  fst (transform [lit "isEqual"]
         (lit "import { isEqual as eq, every } from 'lodash'" ++ lit ";")
         (lit "a.js") store0)
  = ([lit "Unsupported lodash function: every"],
     Value (Some (mkResult
       (lit "import { isEqual as eq } from 'es-toolkit/compat';import { every } from 'lodash'"
        ++ lit ";") None))).
Proof.
  apply (renamed_list_transform [lit "isEqual"]
           [mkNamedImport (lit "isEqual") (lit "eq");
            mkNamedImport (lit "every") (lit "every")]).
  - discriminate.
  - repeat constructor; discriminate.
  - repeat constructor; apply includes_false; vm_compute; reflexivity.
  - exists [32%N], [32%N], [32%N], [32%N], [32%N], 39%N, 39%N.
    split; [reflexivity|].
    repeat split; try discriminate; repeat constructor.
  - apply includes_false. vm_compute. reflexivity.
Defined.

Lemma blank_list_moved_witness :
  fst (transform [lit "isEqual"] (lit "import { } from 'lodash'" ++ lit ";")
         (lit "a.js") store0)
  = ret (Some (mkResult
           (lit "import {  } from 'es-toolkit/compat'" ++ lit ";") None)).
Proof.
  apply (proj2 blank_list_moved [lit "isEqual"] [32%N]).
  - discriminate.
  - repeat constructor.
  - exists [32%N], [], [], [32%N], [32%N], 39%N, 39%N.
    split; [reflexivity|].
    repeat split; try discriminate; repeat constructor.
  - apply includes_false. vm_compute. reflexivity.
Defined.

Lemma namedImportNames_invariants_witness :
  lit "b as c" ≠ [] ∧ Forall (fun c => c ≠ 44%N) (lit "b as c")
  ∧ trim (lit "b as c") = lit "b as c"
  ∧ substring (lit "b as c") (lit " a , b as c,, ").
Proof.
  apply namedImportNames_invariants.
  apply list_elem_of_In. vm_compute. right. left. reflexivity.
Defined.

Lemma parse_render_list_witness :
  mapW parseNamedImport
    (namedImportNames
       (renderNamedImports
          [mkNamedImport (lit "isEqual") (lit "eq");
           mkNamedImport (lit "every") (lit "every")]))
  = ret [mkNamedImport (lit "isEqual") (lit "eq");
         mkNamedImport (lit "every") (lit "every")].
Proof.
  apply parse_render_list. repeat constructor; discriminate.
Defined.

Lemma transform_other_import_forms_witness :
  fst (transform [lit "isEqual"]
         (lit "import" ++ [32%N] ++ 42%N :: lit " as _ from 'lodash';")
         (lit "a.js") store0)
  = ret (Some (mkResult
           (lit "import" ++ [32%N] ++ 42%N :: lit " as _ from 'lodash';")
           None)).
Proof.
  apply transform_other_import_forms.
  - repeat constructor.
  - reflexivity.
  - reflexivity.
  - discriminate.
  - apply includes_spec. vm_compute. reflexivity.
  - apply includes_false. vm_compute. reflexivity.
Defined.

Lemma transform_deep_path_witness :
  fst (transform [lit "get"]
         (lit "import" ++ lit " " ++ lit "get" ++ lit " " ++ lit "from"
          ++ lit " " ++ [39%N] ++ lit "lodash/" ++ lit "fp"
          ++ 47%N :: lit "get';")
         (lit "a.js") store0)
  = ret (Some (mkResult
           (lit "import" ++ lit " " ++ lit "get" ++ lit " " ++ lit "from"
            ++ lit " " ++ [39%N] ++ lit "lodash/" ++ lit "fp"
            ++ 47%N :: lit "get';") None)).
Proof.
  apply transform_deep_path;
    try (split; [discriminate | repeat constructor]);
    try (apply includes_false; vm_compute; reflexivity);
    try reflexivity; try discriminate; repeat constructor.
Defined.

(** * An import among other text *)

(** ** The matching loop around one statement *)

Section Contexts.

Lemma last_take_S (T : str) (li : nat) (c : char) (tl : str) :
  drop li T = c :: tl →
  last (take (S li) T) = Some c ∧ drop (S li) T = tl.
Proof.
  intros E.
  assert (T !! li = Some c) as Hc.
  { pose proof (lookup_drop T li 0) as H.
    rewrite E, Nat.add_0_r in H. symmetry. exact H. }
  split.
  - rewrite (take_S_r _ _ _ Hc), last_snoc. reflexivity.
  - replace (S li) with (li + 1) by lia.
    rewrite <- drop_drop, E. reflexivity.
Qed.

Variable r : pattern.
Variable T : str.
Variable a : nat.

(** No match that starts before index [a] goes beyond it. *)
Hypothesis no_straddle :
  ∀ p pv m,
    p < a → match_at r p pv (drop p T) = Some m → m_end m ≤ a.

Hypothesis a_in : a ≤ length T.

Lemma search_before (k : nat) :
  ∀ li,
    a = li + k →
    (∃ m, search r li (last (take li T)) (drop li T) = Some m
          ∧ m_start m < a ∧ m_end m ≤ a ∧ m_start m ≤ m_end m)
    ∨ search r li (last (take li T)) (drop li T)
      = search r a (last (take a T)) (drop a T).
Proof.
  induction k as [|k IH]; intros li Hk.
  - right. replace li with a by lia. reflexivity.
  - destruct (drop li T) as [|c tl] eqn:E.
    { apply (f_equal length) in E. rewrite length_drop in E. simpl in E. lia. }
    destruct (last_take_S _ _ _ _ E) as [Hl Hd].
    cbn [search].
    destruct (match_at r li (last (take li T)) (c :: tl)) as [m|] eqn:Em.
    + left. exists m. split; [reflexivity|].
      rewrite <- E in Em.
      pose proof (no_straddle li _ m ltac:(lia) Em) as He.
      apply match_at_sound in Em as (_ & _ & Hs & _ & _ & _ & Hle & _).
      lia.
    + rewrite <- Hl, <- Hd. apply IH. lia.
Qed.

Lemma exec_before (li : nat) :
  li ≤ a →
  (∃ m, exec r T li = (Some m, m_end m)
        ∧ m_start m < a ∧ m_end m ≤ a ∧ m_start m ≤ m_end m)
  ∨ exec r T li = exec r T a.
Proof.
  intros Hli. unfold exec.
  replace (length T <? li) with false by (symmetry; apply Nat.ltb_ge; lia).
  replace (length T <? a) with false by (symmetry; apply Nat.ltb_ge; lia).
  destruct (search_before (a - li) li ltac:(lia))
    as [(m & -> & H) | ->]; [left; eauto | right; reflexivity].
Qed.

(** The loop first collects matches that end at or before [a],
    then goes on as if it were started at [a]. *)
Lemma exec_all_front (fuel : nat) :
  ∀ li ms lf,
    li ≤ a →
    exec_all fuel r T li = Some (ms, lf) →
    ∃ ms1 rest_ms fuel',
      ms = ms1 ++ rest_ms
      ∧ Forall (fun m => m_end m ≤ a) ms1
      ∧ exec_all fuel' r T a = Some (rest_ms, lf).
Proof.
  induction fuel as [|fuel IH]; intros li ms lf Hli H; [discriminate|].
  destruct (exec_before li Hli) as [(m & E & H1 & H2 & H3) | E].
  - cbn [exec_all] in H. rewrite E in H.
    destruct (exec_all fuel r T _) as [[ms' lf']|] eqn:E'; [|discriminate].
    injection H as <- <-.
    apply IH in E' as (ms1 & rest_ms & fuel' & -> & Hms1 & Hrest).
    + exists (m :: ms1), rest_ms, fuel'. split; [reflexivity|].
      split; [constructor; assumption | exact Hrest].
    + destruct (m_end m =? m_start m) eqn:Ee; [|exact H2].
      apply Nat.eqb_eq in Ee. lia.
  - exists [], ms, (S fuel). split; [reflexivity|]. split; [constructor|].
    cbn [exec_all] in *. rewrite <- E. exact H.
Qed.

End Contexts.

Section SpliceAround.

Variable f : callback.

Lemma bind_ext {A B} (m : W A) (k k' : A -> W B) :
  (∀ x, k x = k' x) → bind m k = bind m k'.
Proof.
  intros H. destruct m as [w [x| |]]; simpl; [rewrite H|..]; reflexivity.
Qed.

Lemma take_between (T : str) (next a b : nat) :
  next ≤ a → a ≤ b →
  take (b - next) (drop next T)
  = take (a - next) (drop next T) ++ take (b - a) (drop a T).
Proof.
  intros H1 H2.
  replace (b - next) with ((a - next) + (b - a)) by lia.
  rewrite <- take_take_drop, drop_drop.
  replace (next + (a - next)) with a by lia. reflexivity.
Qed.

(** Starting the weaving later leaves a piece of text in front. *)
Lemma splice_shift (T : str) (ms : list found) (next a : nat) :
  next ≤ a → ordered T a ms →
  splice T next ms f
  = let* y := splice T a ms f in ret (take (a - next) (drop next T) ++ y).
Proof.
  intros Hle Hord. destruct ms as [|m ms].
  - cbn [splice]. rewrite bind_ret.
    rewrite <- (take_drop (a - next) (drop next T)) at 1.
    rewrite drop_drop. replace (next + (a - next)) with a by lia.
    reflexivity.
  - destruct Hord as (H1 & H2 & _). cbn [splice].
    rewrite bind_assoc. apply bind_ext. intros rep.
    replace (next <=? m_start m) with true
      by (symmetry; apply Nat.leb_le; lia).
    replace (a <=? m_start m) with true by (symmetry; apply Nat.leb_le, H1).
    rewrite bind_assoc. apply bind_ext. intros tail.
    rewrite bind_ret, (take_between T next a (m_start m)) by lia.
    rewrite <- app_assoc. reflexivity.
Qed.

(** The matches of a text that end in its front part [A] are woven
    over [A] alone; the weaving of the others starts where [A]
    ends. *)
Lemma splice_front (A T' : str) (ms1 rest_ms : list found) :
  ∀ next,
    ordered (A ++ T') next ms1 →
    Forall (fun m => m_end m ≤ length A) ms1 →
    next ≤ length A →
    ordered (A ++ T') (length A) rest_ms →
    splice (A ++ T') next (ms1 ++ rest_ms) f
    = let* x := splice A next ms1 f in
      let* y := splice (A ++ T') (length A) rest_ms f in
      ret (x ++ y).
Proof.
  induction ms1 as [|m ms1 IH]; intros next Hord Hends Hnext Hrest.
  - cbn [app splice]. rewrite bind_ret.
    rewrite (splice_shift _ _ next (length A)) by assumption.
    apply bind_ext. intros y.
    rewrite drop_app_le, take_app_le, take_ge
      by (rewrite ?length_drop; lia).
    reflexivity.
  - destruct Hord as (H1 & H2 & H3 & Ht & Hord).
    apply Forall_cons in Hends as [He Hends].
    cbn [app splice]. rewrite bind_assoc. apply bind_ext. intros rep.
    replace (next <=? m_start m) with true by (symmetry; apply Nat.leb_le, H1).
    rewrite (IH _ Hord Hends He Hrest), !bind_assoc.
    apply bind_ext. intros x. rewrite bind_assoc, bind_ret.
    apply bind_ext. intros y.
    rewrite drop_app_le, take_app_le by (rewrite ?length_drop; lia).
    rewrite <- !app_assoc. reflexivity.
Qed.

End SpliceAround.

Section ReplaceAround.

Variable r : pattern.
Variable f : callback.
Variables A S B : str.

Hypothesis no_straddle :
  ∀ p pv m,
    p < length A →
    match_at r p pv (drop p (A ++ S ++ B)) = Some m → m_end m ≤ length A.

Lemma ordered_app_l (T : str) (ms1 ms2 : list found) :
  ∀ next, ordered T next (ms1 ++ ms2) → ordered T next ms1.
Proof.
  induction ms1 as [|m ms1 IH]; intros next H; [exact I|].
  destruct H as (H1 & H2 & H3 & H4 & H5).
  cbn [ordered]. repeat split; try assumption. apply IH, H5.
Qed.

Lemma search_found (n : nat) (pv : option char) (s : str) (m : found) :
  match_at r n pv s = Some m → search r n pv s = Some m.
Proof. intros H. destruct s; simpl; rewrite H; reflexivity. Qed.

Lemma front_matches :
  ∃ ms1 rest_ms fuel',
    exec_all (enough (A ++ S ++ B)) r (A ++ S ++ B) 0
    = Some (ms1 ++ rest_ms, 0)
    ∧ Forall (fun m => m_end m ≤ length A) ms1
    ∧ ordered (A ++ S ++ B) 0 ms1
    ∧ exec_all fuel' r (A ++ S ++ B) (length A) = Some (rest_ms, 0).
Proof.
  destruct (exec_all_enough r (A ++ S ++ B)) as (ms & E & _).
  destruct (exec_all_front r (A ++ S ++ B) (length A) no_straddle
              ltac:(rewrite length_app; lia) _ 0 ms 0 ltac:(lia) E)
    as (ms1 & rest_ms & fuel' & -> & Hms1 & Hrest).
  exists ms1, rest_ms, fuel'. repeat split; try assumption.
  apply exec_all_ordered in E. apply (ordered_app_l _ _ _ _ E).
Qed.

(** The statement [S] is matched where it stands: the result of the
    replacement is the front part with its matches replaced, what the
    callback gives for [S], and the rest with its matches replaced. *)
Lemma replace_handled (li : nat) (m0 : found) :
  S ≠ [] →
  match_at r (length A) (last A) (S ++ B) = Some m0 →
  m_end m0 = length A + length S →
  ∃ ms1 ms2,
    exec_all (enough (A ++ S ++ B)) r (A ++ S ++ B) 0
    = Some (ms1 ++ m0 :: ms2, 0)
    ∧ Forall (fun m => m_end m ≤ length A) ms1
    ∧ ordered (A ++ S ++ B) (length A + length S) ms2
    ∧ fst (replace r li (A ++ S ++ B) f)
      = let* x := splice A 0 ms1 f in
        let* rep := f S (m_caps m0) in
        let* y := splice (A ++ S ++ B) (length A + length S) ms2 f in
        ret (x ++ rep ++ y).
Proof.
  intros Hne Hm He.
  destruct front_matches as (ms1 & rest_ms & fuel' & E & Hms1 & Hord1 & Hrest).
  pose proof (match_at_sound _ _ _ _ _ Hm) as (_ & _ & Hs & _ & _ & Ht & _).
  assert (m_text m0 = S) as Htext.
  { rewrite Ht, He, Nat.add_sub', take_app_length. reflexivity. }
  assert (exec r (A ++ S ++ B) (length A) = (Some m0, m_end m0)) as Ex.
  { unfold exec.
    replace (length (A ++ S ++ B) <? length A) with false
      by (symmetry; apply Nat.ltb_ge; rewrite length_app; lia).
    rewrite take_app_length, drop_app_length, (search_found _ _ _ _ Hm).
    reflexivity. }
  destruct fuel' as [|fuel']; [discriminate|].
  pose proof (exec_all_ordered _ _ _ _ _ _ Hrest) as Hord.
  cbn [exec_all] in Hrest. rewrite Ex in Hrest.
  destruct (exec_all fuel' r _ _) as [[ms2 lf]|] eqn:E2; [|discriminate].
  injection Hrest as <- ->.
  assert ((m_end m0 =? m_start m0) = false) as Hne'.
  { apply Nat.eqb_neq. destruct S; [contradiction|]. simpl in He. lia. }
  rewrite Hne' in E2.
  exists ms1, ms2. split; [exact E|]. split; [exact Hms1|].
  split; [rewrite <- He; apply (exec_all_ordered _ _ _ _ _ _ E2)|].
  unfold replace. rewrite E. cbn [fst].
  rewrite (splice_front f A (S ++ B) ms1 (m0 :: ms2) 0 Hord1 Hms1)
    by (lia || exact Hord).
  apply bind_ext. intros x. cbn [splice].
  rewrite Htext, bind_assoc. apply bind_ext. intros rep.
  replace (length A <=? m_start m0) with true
    by (symmetry; apply Nat.leb_le; lia).
  rewrite bind_assoc, He. apply bind_ext. intros y.
  rewrite bind_ret, Hs, Nat.sub_diag. reflexivity.
Qed.

(** The pattern finds nothing in [S]: the result is the front part
    with its matches replaced, [S] as it is, and the rest with its
    matches replaced. *)
Lemma replace_opaque (li : nat) :
  search r (length A) (last A) (S ++ B)
  = search r (length A + length S) (last (A ++ S)) B →
  ∃ ms1 ms2,
    exec_all (enough (A ++ S ++ B)) r (A ++ S ++ B) 0 = Some (ms1 ++ ms2, 0)
    ∧ Forall (fun m => m_end m ≤ length A) ms1
    ∧ ordered (A ++ S ++ B) (length A + length S) ms2
    ∧ fst (replace r li (A ++ S ++ B) f)
      = let* x := splice A 0 ms1 f in
        let* y := splice (A ++ S ++ B) (length A + length S) ms2 f in
        ret (x ++ S ++ y).
Proof.
  intros Hthrough.
  destruct front_matches as (ms1 & ms2 & fuel' & E & Hms1 & Hord1 & Hrest).
  assert (exec r (A ++ S ++ B) (length A)
          = exec r (A ++ S ++ B) (length A + length S)) as Ex.
  { unfold exec.
    replace (length (A ++ S ++ B) <? length A) with false
      by (symmetry; apply Nat.ltb_ge; rewrite length_app; lia).
    replace (length (A ++ S ++ B) <? length A + length S) with false
      by (symmetry; apply Nat.ltb_ge; rewrite !length_app; lia).
    rewrite take_app_length, drop_app_length, Hthrough.
    rewrite (app_assoc A S B), <- length_app.
    rewrite take_app_length, drop_app_length. reflexivity. }
  destruct fuel' as [|fuel']; [discriminate|].
  assert (exec_all (Datatypes.S fuel') r (A ++ S ++ B) (length A + length S)
          = Some (ms2, 0)) as Hrest'.
  { cbn [exec_all] in *. rewrite <- Ex. exact Hrest. }
  pose proof (exec_all_ordered _ _ _ _ _ _ Hrest') as Hord.
  exists ms1, ms2. split; [exact E|]. split; [exact Hms1|].
  split; [exact Hord|].
  unfold replace. rewrite E. cbn [fst].
  rewrite (splice_front f A (S ++ B) ms1 ms2 0 Hord1 Hms1)
    by (lia || (eapply ordered_mono; [|exact Hord]; lia)).
  apply bind_ext. intros x.
  rewrite (splice_shift f _ _ (length A) (length A + length S))
    by (lia || exact Hord).
  rewrite bind_assoc. apply bind_ext. intros y.
  rewrite bind_ret, drop_app_length, Nat.add_sub', take_app_length.
  reflexivity.
Qed.

End ReplaceAround.

(** ** No match runs into a statement from the text before it *)

Section Straddle.

(** Where a text [A'] ends against a component [c] of a longer
    text: behind it, or inside it. *)
Lemma cut (c tl A' Z : str) :
  c ++ tl = A' ++ Z →
  (∃ A'', A' = c ++ A'' ∧ tl = A'' ++ Z)
  ∨ (∃ d, d ≠ [] ∧ c = A' ++ d ∧ Z = d ++ tl).
Proof.
  intros H. apply app_eq_inv in H as [(k & E1 & E2) | (k & E1 & E2)].
  - destruct k as [|x k].
    + left. exists []. rewrite app_nil_r in *. auto.
    + right. exists (x :: k). split; [discriminate | auto].
  - left. exists k. auto.
Qed.

(** A statement begins with the letter [i]: it does not begin inside
    a component that has no [i]. *)
Lemma head_clash (P : char -> Prop) (c e d tl Z z : str) :
  c = e ++ d → d ≠ [] → Z = d ++ tl → Z = lit "import" ++ z →
  Forall P c → ¬ P 105%N → False.
Proof.
  intros -> Hd -> HZ HP Hn. destruct d as [|x d]; [contradiction|].
  apply Forall_app in HP as [_ HP]. apply Forall_cons in HP as [Hx _].
  assert (Some x = Some 105%N) as [= ->]
    by (apply (f_equal head) in HZ; exact HZ).
  contradiction.
Qed.

Lemma import_tail (e d : str) :
  lit "import" = e ++ d → e ≠ [] → ∃ e', lit "mport" = e' ++ d.
Proof.
  intros H He. destruct e as [|y e]; [contradiction|]. exists e.
  apply (f_equal (drop 1)) in H. exact H.
Qed.

End Straddle.

Section StraddleShapes.

(** What stands behind [import] and white space at the head of a
    statement is not [from], white space and a quote character. *)
Local Abbreviation not_from_clause :=
  (fun Xs : str =>
     ∀ W q tl, space_run W → is_quote q = true →
               Xs ≠ lit "from" ++ W ++ q :: tl).

Ltac not_i := let H := fresh in intros H; vm_compute in H; congruence.

Lemma single_shape_no_straddle (name' symbol' w A' Z tl ws1 Xs : str) :
  single_import_text name' symbol' w → word_run name' → word_run symbol' →
  A' ≠ [] → length A' < length w →
  w ++ tl = A' ++ Z →
  Z = lit "import" ++ ws1 ++ Xs → space_run ws1 → stops is_space Xs →
  not_from_clause Xs →
  False.
Proof.
  intros (ws1' & ws2' & ws3' & q1' & ext' & q2' & -> & S1 & S2 & S3 & Hext
          & Q1 & Q2) Hn Hs Hne Hlen H HZ Sws HXs HN.
  rewrite <- !app_assoc in H.
  apply cut in H as [(A1 & -> & H) | (d & Hd & Hc & Hz)].
  2:{ destruct (import_tail _ _ Hc Hne) as [e' He'].
      apply (head_clash (fun x => x ≠ 105%N) _ _ _ _ _ _ He' Hd Hz HZ);
        [repeat constructor; discriminate | not_i]. }
  apply cut in H as [(A2 & -> & H) | (d & Hd & Hc & Hz)].
  2:{ apply (head_clash (fun x => is_space x = true) _ _ _ _ _ _ Hc Hd Hz HZ);
        [apply S1 | not_i]. }
  apply cut in H as [(A3 & -> & H) | (d & Hd & Hc & Hz)].
  2:{ destruct Hn as [_ Hn]. rewrite Hc in Hn.
      apply Forall_app in Hn as [_ Hn]. rewrite HZ in Hz.
      apply (run_align is_word) in Hz as [_ Hz];
        [| apply import_word | exact Hn
         | apply stops_space_run, Sws | apply stops_space_run, S2].
      apply (run_align is_space) in Hz as [_ Hz];
        [| apply Sws | apply S2 | exact HXs | reflexivity].
      apply (HN ws3' q1' _ S3 Q1 Hz). }
  apply cut in H as [(A4 & -> & H) | (d & Hd & Hc & Hz)].
  2:{ apply (head_clash (fun x => is_space x = true) _ _ _ _ _ _ Hc Hd Hz HZ);
        [apply S2 | not_i]. }
  apply cut in H as [(A5 & -> & H) | (d & Hd & Hc & Hz)].
  2:{ apply (head_clash (fun x => x ≠ 105%N) _ _ _ _ _ _ Hc Hd Hz HZ);
        [repeat constructor; discriminate | not_i]. }
  apply cut in H as [(A6 & -> & H) | (d & Hd & Hc & Hz)].
  2:{ apply (head_clash (fun x => is_space x = true) _ _ _ _ _ _ Hc Hd Hz HZ);
        [apply S3 | not_i]. }
  apply cut in H as [(A7 & -> & H) | (d & Hd & Hc & Hz)].
  2:{ apply (head_clash (fun x => is_quote x = true) _ _ _ _ _ _ Hc Hd Hz HZ);
        [repeat constructor; exact Q1 | not_i]. }
  apply cut in H as [(A8 & -> & H) | (d & Hd & Hc & Hz)].
  2:{ apply (head_clash (fun x => x ≠ 105%N) _ _ _ _ _ _ Hc Hd Hz HZ);
        [repeat constructor; discriminate | not_i]. }
  apply cut in H as [(A9 & -> & H) | (d & Hd & Hc & Hz)].
  2:{ destruct Hs as [_ Hs]. rewrite Hc in Hs.
      apply Forall_app in Hs as [_ Hs]. rewrite HZ in Hz.
      apply (run_align is_word) in Hz as [_ Hz];
        [| apply import_word | exact Hs | apply stops_space_run, Sws
         | destruct Hext as [-> | ->];
           [apply is_quote_not_word, Q2 | reflexivity]].
      destruct Sws as [Hws Sws]. destruct ws1 as [|s ws1]; [contradiction|].
      apply Forall_cons in Sws as [Hsp _].
      destruct Hext as [-> | ->].
      - assert (Some s = Some q2') as [= ->]
          by (apply (f_equal head) in Hz; exact Hz).
        rewrite (is_quote_not_space _ Q2) in Hsp. discriminate.
      - assert (Some s = Some 46%N) as [= ->]
          by (apply (f_equal head) in Hz; exact Hz).
        discriminate Hsp. }
  apply cut in H as [(A10 & -> & H) | (d & Hd & Hc & Hz)].
  2:{ apply (head_clash (fun x => x ≠ 105%N) _ _ _ _ _ _ Hc Hd Hz HZ);
        [destruct Hext as [-> | ->]; repeat constructor; discriminate
         | not_i]. }
  apply cut in H as [(A11 & -> & H) | (d & Hd & Hc & Hz)].
  2:{ apply (head_clash (fun x => is_quote x = true) _ _ _ _ _ _ Hc Hd Hz HZ);
        [repeat constructor; exact Q2 | not_i]. }
  rewrite !length_app in Hlen. lia.
Qed.

Lemma default_shape_no_straddle (name' w A' Z tl ws1 Xs : str) :
  default_import_text name' w → word_run name' →
  A' ≠ [] → length A' < length w →
  w ++ tl = A' ++ Z →
  Z = lit "import" ++ ws1 ++ Xs → space_run ws1 → stops is_space Xs →
  not_from_clause Xs →
  False.
Proof.
  intros (ws1' & ws2' & ws3' & q1' & q2' & -> & S1 & S2 & S3 & Q1 & Q2)
         Hn Hne Hlen H HZ Sws HXs HN.
  rewrite <- !app_assoc in H.
  apply cut in H as [(A1 & -> & H) | (d & Hd & Hc & Hz)].
  2:{ destruct (import_tail _ _ Hc Hne) as [e' He'].
      apply (head_clash (fun x => x ≠ 105%N) _ _ _ _ _ _ He' Hd Hz HZ);
        [repeat constructor; discriminate | not_i]. }
  apply cut in H as [(A2 & -> & H) | (d & Hd & Hc & Hz)].
  2:{ apply (head_clash (fun x => is_space x = true) _ _ _ _ _ _ Hc Hd Hz HZ);
        [apply S1 | not_i]. }
  apply cut in H as [(A3 & -> & H) | (d & Hd & Hc & Hz)].
  2:{ destruct Hn as [_ Hn]. rewrite Hc in Hn.
      apply Forall_app in Hn as [_ Hn]. rewrite HZ in Hz.
      apply (run_align is_word) in Hz as [_ Hz];
        [| apply import_word | exact Hn
         | apply stops_space_run, Sws | apply stops_space_run, S2].
      apply (run_align is_space) in Hz as [_ Hz];
        [| apply Sws | apply S2 | exact HXs | reflexivity].
      apply (HN ws3' q1' _ S3 Q1 Hz). }
  apply cut in H as [(A4 & -> & H) | (d & Hd & Hc & Hz)].
  2:{ apply (head_clash (fun x => is_space x = true) _ _ _ _ _ _ Hc Hd Hz HZ);
        [apply S2 | not_i]. }
  apply cut in H as [(A5 & -> & H) | (d & Hd & Hc & Hz)].
  2:{ apply (head_clash (fun x => x ≠ 105%N) _ _ _ _ _ _ Hc Hd Hz HZ);
        [repeat constructor; discriminate | not_i]. }
  apply cut in H as [(A6 & -> & H) | (d & Hd & Hc & Hz)].
  2:{ apply (head_clash (fun x => is_space x = true) _ _ _ _ _ _ Hc Hd Hz HZ);
        [apply S3 | not_i]. }
  apply cut in H as [(A7 & -> & H) | (d & Hd & Hc & Hz)].
  2:{ apply (head_clash (fun x => is_quote x = true) _ _ _ _ _ _ Hc Hd Hz HZ);
        [repeat constructor; exact Q1 | not_i]. }
  apply cut in H as [(A8 & -> & H) | (d & Hd & Hc & Hz)].
  2:{ apply (head_clash (fun x => x ≠ 105%N) _ _ _ _ _ _ Hc Hd Hz HZ);
        [repeat constructor; discriminate | not_i]. }
  apply cut in H as [(A9 & -> & H) | (d & Hd & Hc & Hz)].
  2:{ apply (head_clash (fun x => is_quote x = true) _ _ _ _ _ _ Hc Hd Hz HZ);
        [repeat constructor; exact Q2 | not_i]. }
  rewrite !length_app in Hlen. lia.
Qed.

(** For the second pattern: the head of the statement is a run of
    characters of the list class that ends at a character which is
    neither of the class nor a closing brace. *)
Lemma named_shape_no_straddle (raw' w A' Z tl z Lz tlz : str) (x : char) :
  named_list_text raw' w →
  Forall (fun c => is_named_list_char c = true) raw' →
  A' ≠ [] → length A' < length w →
  w ++ tl = A' ++ Z →
  Z = lit "import" ++ z →
  Z = Lz ++ x :: tlz →
  Forall (fun c => is_named_list_char c = true) Lz →
  is_named_list_char x = false → x ≠ 125%N →
  False.
Proof.
  intros (ws1' & ws2' & ws3' & ws4' & ws5' & q1' & q2' & -> & S1 & S2 & S3
          & S4 & S5 & Q1 & Q2) Hraw Hne Hlen H HZ HL HLz Hx Hx'.
  rewrite <- !app_assoc in H.
  apply cut in H as [(A1 & -> & H) | (d & Hd & Hc & Hz)].
  2:{ destruct (import_tail _ _ Hc Hne) as [e' He'].
      apply (head_clash (fun x => x ≠ 105%N) _ _ _ _ _ _ He' Hd Hz HZ);
        [repeat constructor; discriminate | not_i]. }
  apply cut in H as [(A2 & -> & H) | (d & Hd & Hc & Hz)].
  2:{ apply (head_clash (fun x => is_space x = true) _ _ _ _ _ _ Hc Hd Hz HZ);
        [apply S1 | not_i]. }
  apply cut in H as [(A3 & -> & H) | (d & Hd & Hc & Hz)].
  2:{ apply (head_clash (fun x => x ≠ 105%N) _ _ _ _ _ _ Hc Hd Hz HZ);
        [repeat constructor; discriminate | not_i]. }
  apply cut in H as [(A4 & -> & H) | (d & Hd & Hc & Hz)].
  2:{ apply (head_clash (fun x => is_space x = true) _ _ _ _ _ _ Hc Hd Hz HZ);
        [apply S2 | not_i]. }
  apply cut in H as [(A5 & -> & H) | (d & Hd & Hc & Hz)].
  2:{ rewrite Hc in Hraw. apply Forall_app in Hraw as [_ Hraw].
      rewrite HL, app_assoc in Hz.
      apply (run_align is_named_list_char) in Hz as [_ Hz];
        [| exact HLz
         | apply Forall_app; split;
           [exact Hraw
            | eapply Forall_impl; [exact S3 | exact is_space_list_char]]
         | exact Hx | reflexivity].
      apply Hx'. assert (Some x = Some 125%N) as [= ->]
        by (apply (f_equal head) in Hz; exact Hz).
      reflexivity. }
  apply cut in H as [(A6 & -> & H) | (d & Hd & Hc & Hz)].
  2:{ apply (head_clash (fun x => is_space x = true) _ _ _ _ _ _ Hc Hd Hz HZ);
        [apply S3 | not_i]. }
  apply cut in H as [(A7 & -> & H) | (d & Hd & Hc & Hz)].
  2:{ apply (head_clash (fun x => x ≠ 105%N) _ _ _ _ _ _ Hc Hd Hz HZ);
        [repeat constructor; discriminate | not_i]. }
  apply cut in H as [(A8 & -> & H) | (d & Hd & Hc & Hz)].
  2:{ apply (head_clash (fun x => is_space x = true) _ _ _ _ _ _ Hc Hd Hz HZ);
        [apply S4 | not_i]. }
  apply cut in H as [(A9 & -> & H) | (d & Hd & Hc & Hz)].
  2:{ apply (head_clash (fun x => x ≠ 105%N) _ _ _ _ _ _ Hc Hd Hz HZ);
        [repeat constructor; discriminate | not_i]. }
  apply cut in H as [(A10 & -> & H) | (d & Hd & Hc & Hz)].
  2:{ apply (head_clash (fun x => is_space x = true) _ _ _ _ _ _ Hc Hd Hz HZ);
        [apply S5 | not_i]. }
  apply cut in H as [(A11 & -> & H) | (d & Hd & Hc & Hz)].
  2:{ apply (head_clash (fun x => is_quote x = true) _ _ _ _ _ _ Hc Hd Hz HZ);
        [repeat constructor; exact Q1 | not_i]. }
  apply cut in H as [(A12 & -> & H) | (d & Hd & Hc & Hz)].
  2:{ apply (head_clash (fun x => x ≠ 105%N) _ _ _ _ _ _ Hc Hd Hz HZ);
        [repeat constructor; discriminate | not_i]. }
  apply cut in H as [(A13 & -> & H) | (d & Hd & Hc & Hz)].
  2:{ apply (head_clash (fun x => is_quote x = true) _ _ _ _ _ _ Hc Hd Hz HZ);
        [repeat constructor; exact Q2 | not_i]. }
  rewrite !length_app in Hlen. lia.
Qed.

End StraddleShapes.

Section NoStraddle.

Lemma straddle_setup (r : pattern) (A Z : str) (p : nat) (pv : option char)
    (m : found) :
  p < length A →
  match_at r p pv (drop p (A ++ Z)) = Some m →
  length A < m_end m →
  ∃ st',
    accepts (body r)
      (MState p pv (drop p A ++ Z) (replicate (Datatypes.S (ngroups r)) None))
      st'
    ∧ drop p A ≠ []
    ∧ ∀ w : str, pos st' = p + length w → length (drop p A) < length w.
Proof.
  intros Hp Hm He. rewrite drop_app_le in Hm by lia.
  apply match_at_sound in Hm as (st' & Ha & _ & Hpos & _).
  exists st'. split; [exact Ha|]. split.
  - intros E. apply (f_equal length) in E. rewrite length_drop in E.
    simpl in E. lia.
  - intros w Hw. rewrite length_drop. lia.
Qed.

Lemma brace_head_not_from (tl : str) (W : str) (q : char) (tl' : str) :
  123%N :: tl ≠ lit "from" ++ W ++ q :: tl'.
Proof. intros E. apply (f_equal head) in E. discriminate E. Qed.

Lemma name_head_not_from (name ws2 more W : str) (q : char) (tl' : str) :
  word_run name → space_run ws2 → space_run W → is_quote q = true →
  name ++ ws2 ++ lit "from" ++ more ≠ lit "from" ++ W ++ q :: tl'.
Proof.
  intros Hn S2 SW Q E.
  apply (run_align is_word) in E as [_ E];
    [| apply Hn | repeat constructor
     | apply stops_space_run, S2 | apply stops_space_run, SW].
  apply (run_align is_space) in E as [_ E];
    [| apply S2 | apply SW | reflexivity | apply is_quote_not_space, Q].
  assert (Some 102%N = Some q) as [= <-]
    by (apply (f_equal head) in E; exact E).
  discriminate Q.
Qed.

(** No match of one of the three patterns that starts in the text
    before a statement with a brace behind [import] goes into the
    statement. *)
Lemma brace_head_no_straddle (r : pattern) (A ws1 more : str) :
  r = defaultImportRegex ∨ r = namedImportsRegex
  ∨ r = defaultSingleImportRegex →
  space_run ws1 →
  ∀ p pv m,
    p < length A →
    match_at r p pv (drop p (A ++ lit "import" ++ ws1 ++ 123%N :: more))
    = Some m →
    m_end m ≤ length A.
Proof.
  intros Hr S1 p pv m Hp Hm.
  destruct (le_lt_dec (m_end m) (length A)) as [|He]; [assumption|exfalso].
  destruct (straddle_setup _ _ _ _ _ _ Hp Hm He) as (st' & Ha & Hne & Hlen).
  destruct Hr as [-> | [-> | ->]].
  - apply defaultImportRegex_accepts in Ha
      as (name' & w & (Ew & Epos & _) & Hshape & Hn' & _); [|reflexivity].
    cbn [rest pos] in Ew, Epos. symmetry in Ew.
    apply (default_shape_no_straddle _ _ _ _ _ _ _ Hshape Hn' Hne
             (Hlen _ Epos) Ew eq_refl S1); [reflexivity|].
    intros W q tl _ _. apply brace_head_not_from.
  - apply namedImportsRegex_accepts in Ha
      as (raw' & w & (Ew & Epos & _) & Hshape & _ & Hraw & _); [|reflexivity].
    cbn [rest pos] in Ew, Epos. symmetry in Ew.
    apply (named_shape_no_straddle _ _ _ _ _ (ws1 ++ 123%N :: more)
             (lit "import" ++ ws1) more 123%N Hshape Hraw Hne
             (Hlen _ Epos) Ew eq_refl);
      [rewrite <- app_assoc; reflexivity | | reflexivity | discriminate].
    apply Forall_app. split; [repeat constructor|].
    eapply Forall_impl; [apply S1 | exact is_space_list_char].
  - apply defaultSingleImportRegex_accepts in Ha
      as (name' & symbol' & w & (Ew & Epos & _) & Hshape & Hn' & Hs' & _);
      [|reflexivity].
    cbn [rest pos] in Ew, Epos. symmetry in Ew.
    apply (single_shape_no_straddle _ _ _ _ _ _ _ _ Hshape Hn' Hs' Hne
             (Hlen _ Epos) Ew eq_refl S1); [reflexivity|].
    intros W q tl _ _. apply brace_head_not_from.
Qed.

(** The same for a statement with a name, white space, [from],
    white space and a quote character behind [import]. *)
Lemma name_head_no_straddle (r : pattern) (A ws1 name ws2 ws3 more : str)
    (q : char) :
  r = defaultImportRegex ∨ r = namedImportsRegex
  ∨ r = defaultSingleImportRegex →
  space_run ws1 → word_run name → space_run ws2 → space_run ws3 →
  is_quote q = true →
  ∀ p pv m,
    p < length A →
    match_at r p pv
      (drop p (A ++ lit "import" ++ ws1 ++ name ++ ws2 ++ lit "from" ++ ws3
               ++ q :: more))
    = Some m →
    m_end m ≤ length A.
Proof.
  intros Hr S1 Hn S2 S3 Q p pv m Hp Hm.
  destruct (le_lt_dec (m_end m) (length A)) as [|He]; [assumption|exfalso].
  destruct (straddle_setup _ _ _ _ _ _ Hp Hm He) as (st' & Ha & Hne & Hlen).
  destruct Hr as [-> | [-> | ->]].
  - apply defaultImportRegex_accepts in Ha
      as (name' & w & (Ew & Epos & _) & Hshape & Hn' & _); [|reflexivity].
    cbn [rest pos] in Ew, Epos. symmetry in Ew.
    apply (default_shape_no_straddle _ _ _ _ _ _ _ Hshape Hn' Hne
             (Hlen _ Epos) Ew eq_refl S1); [apply stops_word_run, Hn|].
    intros W q' tl SW Q'. apply name_head_not_from; assumption.
  - apply namedImportsRegex_accepts in Ha
      as (raw' & w & (Ew & Epos & _) & Hshape & _ & Hraw & _); [|reflexivity].
    cbn [rest pos] in Ew, Epos. symmetry in Ew.
    apply (named_shape_no_straddle _ _ _ _ _
             (ws1 ++ name ++ ws2 ++ lit "from" ++ ws3 ++ q :: more)
             (lit "import" ++ ws1 ++ name ++ ws2 ++ lit "from" ++ ws3)
             more q Hshape Hraw Hne (Hlen _ Epos) Ew eq_refl);
      [rewrite <- !app_assoc; reflexivity | | | ].
    + repeat (apply Forall_app; split);
        try (repeat constructor);
        try (eapply Forall_impl;
             [apply S1 || apply S2 || apply S3 | exact is_space_list_char]).
      eapply Forall_impl; [apply Hn | exact is_word_list_char].
    + destruct (is_quote_cases q Q) as [-> | ->]; reflexivity.
    + intros ->. discriminate Q.
  - apply defaultSingleImportRegex_accepts in Ha
      as (name' & symbol' & w & (Ew & Epos & _) & Hshape & Hn' & Hs' & _);
      [|reflexivity].
    cbn [rest pos] in Ew, Epos. symmetry in Ew.
    apply (single_shape_no_straddle _ _ _ _ _ _ _ _ Hshape Hn' Hs' Hne
             (Hlen _ Epos) Ew eq_refl S1); [apply stops_word_run, Hn|].
    intros W q' tl SW Q'. apply name_head_not_from; assumption.
Qed.

End NoStraddle.

Section Heads.

Lemma head_no_straddle (r : pattern) (A Z : str) :
  r = defaultImportRegex ∨ r = namedImportsRegex
  ∨ r = defaultSingleImportRegex →
  import_head Z →
  ∀ p pv m,
    p < length A → match_at r p pv (drop p (A ++ Z)) = Some m →
    m_end m ≤ length A.
Proof.
  intros Hr [(ws1 & more & S1 & ->)
            | (ws1 & name & ws2 & ws3 & q & more & S1 & Hn & S2 & S3 & Q & ->)].
  - apply brace_head_no_straddle; assumption.
  - apply name_head_no_straddle; assumption.
Qed.

End Heads.

(** ** The text around a statement *)

Section CleanParts.

Lemma match_holds_import (r : pattern) (T : str) (m : found) :
  r = defaultImportRegex ∨ r = namedImportsRegex
  ∨ r = defaultSingleImportRegex →
  is_match r T m → substring (lit "import") (m_text m).
Proof.
  intros [-> | [-> | ->]] Hm.
  - apply defaultImportRegex_shape in Hm as (name & _ & _ & Ht).
    apply (default_import_parts _ _ Ht).
  - apply namedImportsRegex_shape in Hm as (raw & _ & _ & _ & Ht).
    apply (named_list_parts _ _ Ht).
  - apply defaultSingleImportRegex_shape in Hm
      as (name & symbol & _ & _ & _ & _ & Ht).
    apply (single_import_parts _ _ _ Ht).
Qed.

Lemma take_drop_substring (T : str) (s k : nat) :
  substring (take k (drop s T)) T.
Proof.
  exists (take s T), (drop k (drop s T)). rewrite take_drop, take_drop.
  reflexivity.
Qed.

(** No match lies in a front part that holds no [import]. *)
Lemma front_clean (r : pattern) (A T' : str) (ms1 : list found) :
  r = defaultImportRegex ∨ r = namedImportsRegex
  ∨ r = defaultSingleImportRegex →
  Forall (is_match r (A ++ T')) ms1 →
  Forall (fun m => m_end m ≤ length A) ms1 →
  ¬ substring (lit "import") A →
  ms1 = [].
Proof.
  intros Hr Hms Hends Hfree. destruct ms1 as [|m ms1]; [reflexivity|].
  exfalso. apply Forall_cons in Hms as [Hm _].
  apply Forall_cons in Hends as [He _].
  pose proof (match_holds_import r _ m Hr Hm) as Hin.
  destruct Hm as (_ & _ & _ & _ & _ & Ht).
  apply Hfree. apply (substring_trans _ (m_text m)); [exact Hin|].
  rewrite Ht. destruct (le_lt_dec (m_start m) (m_end m)) as [Hle | Hlt].
  - rewrite drop_app_le, take_app_le by (rewrite ?length_drop; lia).
    apply take_drop_substring.
  - replace (m_end m - m_start m) with 0 by lia. exists A, [].
    rewrite app_nil_r. reflexivity.
Qed.

(** No match lies in a rest that holds no [import]. *)
Lemma back_clean (r : pattern) (T : str) (e : nat) (ms2 : list found) :
  r = defaultImportRegex ∨ r = namedImportsRegex
  ∨ r = defaultSingleImportRegex →
  Forall (is_match r T) ms2 →
  ordered T e ms2 →
  ¬ substring (lit "import") (drop e T) →
  ms2 = [].
Proof.
  intros Hr Hms Hord Hfree. destruct ms2 as [|m ms2]; [reflexivity|].
  exfalso. apply Forall_cons in Hms as [Hm _].
  destruct Hord as (Hs & _).
  pose proof (match_holds_import r _ m Hr Hm) as Hin.
  destruct Hm as (_ & _ & _ & _ & _ & Ht).
  apply Hfree. apply (substring_trans _ (m_text m)); [exact Hin|].
  rewrite Ht. replace (m_start m) with (e + (m_start m - e)) by lia.
  rewrite <- drop_drop. apply take_drop_substring.
Qed.

End CleanParts.

Section PassForms.

Variable r : pattern.
Variable f : callback.

Hypothesis r_plugin :
  r = defaultImportRegex ∨ r = namedImportsRegex
  ∨ r = defaultSingleImportRegex.

Hypothesis f_returns : ∀ t cs, returns (f t cs).

Lemma around_form (A S0 B : str) (ms1 ms2 : list found) (mid : W str)
    (w : list str) (rep : str) (all : list found) :
  mid = (w, Value rep) →
  Forall (is_match r (A ++ S0 ++ B)) ms1 →
  Forall (is_match r (A ++ S0 ++ B)) ms2 →
  Forall (fun m => m_end m ≤ length A) ms1 →
  ordered (A ++ S0 ++ B) (length A + length S0) ms2 →
  ∃ wa a wb b,
    (let* x := splice A 0 ms1 f in
     let* rep := mid in
     let* y := splice (A ++ S0 ++ B) (length A + length S0) ms2 f in
     ret (x ++ rep ++ y))
    = (wa ++ w ++ wb, Value (a ++ rep ++ b))
    ∧ (¬ substring (lit "import") A → a = A ∧ wa = [])
    ∧ (¬ substring (lit "import") B → b = B ∧ wb = []).
Proof.
  intros -> Hm1 Hm2 Hends Hord.
  destruct (splice_returns A f ms1 f_returns 0) as (wa & a & Ea).
  destruct (splice_returns (A ++ S0 ++ B) f ms2 f_returns
              (length A + length S0)) as (wb & b & Eb).
  exists wa, a, wb, b. split; [|split].
  - rewrite Ea, Eb. simpl. rewrite app_nil_r. reflexivity.
  - intros Hfree.
    rewrite (front_clean r A (S0 ++ B) ms1 r_plugin Hm1 Hends Hfree) in Ea.
    cbn [splice] in Ea. injection Ea as <- <-. auto.
  - intros Hfree.
    assert (drop (length A + length S0) (A ++ S0 ++ B) = B) as Ed.
    { rewrite (app_assoc A S0 B), <- length_app. apply drop_app_length. }
    rewrite (back_clean r _ _ ms2 r_plugin Hm2 Hord) in Eb
      by (rewrite Ed; exact Hfree).
    cbn [splice] in Eb. rewrite Ed in Eb. injection Eb as <- <-. auto.
Qed.

(** A pass over a text that holds a statement it matches. *)
Lemma handled_pass_form (li : nat) (A S0 B : str) (m0 : found) :
  import_head (S0 ++ B) →
  S0 ≠ [] →
  match_at r (length A) (last A) (S0 ++ B) = Some m0 →
  m_end m0 = length A + length S0 →
  ∃ wa a wb b w rep,
    f S0 (m_caps m0) = (w, Value rep)
    ∧ fst (replace r li (A ++ S0 ++ B) f)
      = (wa ++ w ++ wb, Value (a ++ rep ++ b))
    ∧ (¬ substring (lit "import") A → a = A ∧ wa = [])
    ∧ (¬ substring (lit "import") B → b = B ∧ wb = []).
Proof.
  intros Hhead Hne Hm He.
  destruct (replace_handled r f A S0 B
              (head_no_straddle r A (S0 ++ B) r_plugin Hhead)
              li m0 Hne Hm He)
    as (ms1 & ms2 & E & Hends & Hord & ->).
  apply exec_all_sound in E as [Hms _].
  apply Forall_app in Hms as [Hm1 Hm2].
  apply Forall_cons in Hm2 as [_ Hm2].
  destruct (f_returns S0 (m_caps m0)) as (w & rep & Ef).
  destruct (around_form A S0 B ms1 ms2 (f S0 (m_caps m0)) w rep [] Ef
              Hm1 Hm2 Hends Hord) as (wa & a & wb & b & E & Ha & Hb).
  exists wa, a, wb, b, w, rep.
  split; [exact Ef|]. split; [exact E|]. split; assumption.
Qed.

End PassForms.

(** ** Where no match starts *)

Section Inside.

Variable r : pattern.

Hypothesis r_plugin :
  r = defaultImportRegex ∨ r = namedImportsRegex
  ∨ r = defaultSingleImportRegex.

(** What a pattern of the plugin matches begins with the head of an
    import. *)
Lemma match_head (n : nat) (pv : option char) (Z : str) (m : found) :
  match_at r n pv Z = Some m → import_head Z.
Proof.
  intros E. apply match_at_sound in E as (st' & Ha & _).
  destruct r_plugin as [-> | [-> | ->]].
  - apply defaultImportRegex_accepts in Ha
      as (name & w & (Ew & _) & Hshape & Hn & _); [|reflexivity].
    destruct Hshape as (ws1 & ws2 & ws3 & q1 & q2 & -> & S1 & S2 & S3 & Q1 & _).
    cbn [rest] in Ew. right. exists ws1, name, ws2, ws3, q1. eexists.
    repeat (split; [assumption|]). rewrite Ew, <- !app_assoc. reflexivity.
  - apply namedImportsRegex_accepts in Ha
      as (raw & w & (Ew & _) & Hshape & _); [|reflexivity].
    destruct Hshape as (ws1 & ws2 & ws3 & ws4 & ws5 & q1 & q2 & -> & S1 & _).
    cbn [rest] in Ew. left. exists ws1. eexists. split; [exact S1|].
    rewrite Ew, <- !app_assoc. reflexivity.
  - apply defaultSingleImportRegex_accepts in Ha
      as (name & symbol & w & (Ew & _) & Hshape & Hn & _); [|reflexivity].
    destruct Hshape
      as (ws1 & ws2 & ws3 & q1 & ext & q2 & -> & S1 & S2 & S3 & _ & Q1 & _).
    cbn [rest] in Ew. right. exists ws1, name, ws2, ws3, q1. eexists.
    repeat (split; [assumption|]). rewrite Ew, <- !app_assoc. reflexivity.
Qed.

Lemma fails_at_no_head (Z : str) : ¬ import_head Z → fails_at r Z.
Proof.
  intros H n pv. destruct (match_at r n pv Z) as [m|] eqn:E; [|reflexivity].
  exfalso. apply H. exact (match_head n pv Z m E).
Qed.

Lemma import_head_starts (Z : str) :
  import_head Z → starts_with (lit "import") Z = true.
Proof.
  intros [(ws1 & more & _ & ->)
         | (ws1 & name & ws2 & ws3 & q & more & _ & _ & _ & _ & _ & ->)];
    apply starts_with_app.
Qed.

Lemma fails_at_other (Z : str) :
  starts_with (lit "import") Z = false → fails_at r Z.
Proof.
  intros H. apply fails_at_no_head. intros Hh.
  apply import_head_starts in Hh. congruence.
Qed.

Lemma fails_at_char (c : char) (T : str) :
  is_word c = false → fails_at r (c :: T).
Proof.
  intros Hc. apply fails_at_other.
  destruct (starts_with (lit "import") (c :: T)) eqn:E; [|reflexivity].
  apply starts_with_spec in E as [tl E].
  assert (Some c = Some 105%N) as [= ->]
    by (apply (f_equal head) in E; exact E).
  discriminate Hc.
Qed.

(** The search goes through a part in which no match starts. *)
Lemma search_fails_within (W T : str) :
  fails_within r W T →
  ∀ n A,
    search r n (last A) (W ++ T)
    = search r (n + length W) (last (A ++ W)) T.
Proof.
  induction W as [|c W IH]; intros Hq n A.
  - rewrite app_nil_r, Nat.add_0_r. reflexivity.
  - cbn [app]. rewrite search_cons by (apply (Hq [] c W eq_refl)).
    replace (Some c) with (last (A ++ [c])) by apply last_snoc.
    rewrite IH.
    + rewrite <- app_assoc. cbn [app length]. f_equal. lia.
    + intros u x v ->. apply (Hq (c :: u) x v). reflexivity.
Qed.

Lemma fails_within_app (W1 W2 T : str) :
  fails_within r W1 (W2 ++ T) → fails_within r W2 T →
  fails_within r (W1 ++ W2) T.
Proof.
  intros H1 H2 u c v E.
  apply app_eq_inv in E as [(k & E1 & E2) | (k & E1 & E2)].
  - destruct k as [|x k]; cbn [app] in E2.
    + apply (H2 [] c v). symmetry. exact E2.
    + injection E2 as -> ->. rewrite <- app_assoc.
      apply (H1 u x k). exact E1.
  - apply (H2 k c v). exact E2.
Qed.

Lemma fails_within_nil (T : str) : fails_within r [] T.
Proof. intros u c v E. destruct u; discriminate E. Qed.

Lemma fails_within_nonword (R T : str) :
  Forall (fun c => is_word c = false) R → fails_within r R T.
Proof.
  intros HR u c v ->. apply Forall_app in HR as [_ HR].
  apply Forall_cons in HR as [Hc _]. apply fails_at_char, Hc.
Qed.

(** A part that is followed by a character that is not a word
    character: a match starts in it only where [import] stands in
    it. *)
Lemma fails_within_segment (W : str) (c : char) (T : str) :
  is_word c = false →
  (∀ u v, W = u ++ lit "import" ++ v →
          fails_at r (lit "import" ++ v ++ c :: T)) →
  fails_within r W (c :: T).
Proof.
  intros Hc H u x v ->.
  destruct (starts_with (lit "import") ((x :: v) ++ c :: T)) eqn:E.
  - rewrite starts_with_sep in E
      by (apply import_word || exact Hc || discriminate).
    apply starts_with_spec in E as [v' E].
    change (x :: v ++ c :: T) with ((x :: v) ++ c :: T).
    rewrite E, <- app_assoc. apply (H u v'). rewrite E. reflexivity.
  - apply fails_at_other. exact E.
Qed.

Lemma fails_within_free (W : str) (c : char) (T : str) :
  includes W (lit "import") = false → is_word c = false →
  fails_within r W (c :: T).
Proof.
  intros Hf Hc. apply fails_within_segment; [exact Hc|].
  intros u v ->. exfalso. apply includes_false in Hf. apply Hf.
  exists u, v. reflexivity.
Qed.

Lemma fails_within_free_run (W R T : str) :
  includes W (lit "import") = false →
  R ≠ [] → Forall (fun c => is_word c = false) R →
  fails_within r (W ++ R) T.
Proof.
  intros Hf Hne HR. apply fails_within_app.
  - destruct R as [|c R]; [contradiction|].
    apply Forall_cons in HR as [Hc _]. apply fails_within_free; assumption.
  - apply fails_within_nonword, HR.
Qed.

(** What stands behind [import] is white space. *)
Lemma no_head_nonspace (x : char) (T : str) :
  is_space x = false → ¬ import_head (lit "import" ++ x :: T).
Proof.
  intros Hx [(ws1 & more & [Hne S1] & E)
            | (ws1 & name & ws2 & ws3 & q & more & [Hne S1] & _ & _ & _ & _
               & E)];
    apply app_inv_head in E; destruct ws1 as [|s ws1]; try contradiction;
    apply Forall_cons in S1 as [Hs _]; injection E as -> _; congruence.
Qed.

(** [import], white space, [from], white space and a quote character
    is no head of an import: the name is missing. *)
Lemma no_head_from (ws2 ws3 : str) (q : char) (T : str) :
  space_run ws2 → space_run ws3 → is_quote q = true →
  ¬ import_head (lit "import" ++ ws2 ++ lit "from" ++ ws3 ++ q :: T).
Proof.
  intros S2 S3 Q
    [(ws1' & more & S1' & E)
    | (ws1' & name' & ws2' & ws3' & q' & more & S1' & Hn' & S2' & S3' & Q'
       & E)];
    apply app_inv_head in E.
  - apply (run_align is_space) in E as [_ E];
      [| apply S2 | apply S1' | reflexivity | reflexivity].
    apply (f_equal head) in E. discriminate E.
  - apply (run_align is_space) in E as [_ E];
      [| apply S2 | apply S1' | reflexivity | apply stops_word_run, Hn'].
    apply (run_align is_word) in E as [<- E];
      [| repeat constructor | apply Hn' | apply stops_space_run, S3
       | apply stops_space_run, S2'].
    apply (run_align is_space) in E as [_ E];
      [| apply S3 | apply S2' | apply is_quote_not_space, Q | reflexivity].
    apply (f_equal head) in E. injection E as ->. discriminate Q.
Qed.

(** [import] and a run of characters of a list up to the closing
    brace is no head of an import. *)
Lemma no_head_brace (Y T : str) :
  Forall (fun c => is_named_list_char c = true) Y →
  ¬ import_head (lit "import" ++ Y ++ 125%N :: T).
Proof.
  intros HY
    [(ws1' & more & S1' & E)
    | (ws1' & name' & ws2' & ws3' & q' & more & S1' & Hn' & S2' & S3' & Q'
       & E)];
    apply app_inv_head in E.
  - apply app_eq_inv in E as [(k & E1 & E2) | (k & E1 & E2)].
    + destruct k as [|x k]; cbn [app] in E2; [discriminate E2|].
      injection E2 as <- _. subst Y. apply Forall_app in HY as [_ HY].
      apply Forall_cons in HY as [Hs _]. discriminate Hs.
    + destruct k as [|x k]; cbn [app] in E2; [discriminate E2|].
      injection E2 as <- _. destruct S1' as [_ S1']. subst ws1'.
      apply Forall_app in S1' as [_ S1'].
      apply Forall_cons in S1' as [Hs _]. discriminate Hs.
  - assert (Forall (fun c => is_word c = true ∨ is_space c = true)
              (ws1' ++ name' ++ ws2' ++ lit "from" ++ ws3')) as HP.
    { repeat (apply Forall_app; split);
        try (eapply Forall_impl;
             [first [apply S1' | apply S2' | apply S3' | apply Hn']|];
             intros c Hc; cbv beta in Hc; auto);
        repeat constructor; left; reflexivity. }
    replace (ws1' ++ name' ++ ws2' ++ lit "from" ++ ws3' ++ q' :: more)
      with ((ws1' ++ name' ++ ws2' ++ lit "from" ++ ws3') ++ q' :: more)
      in E by (rewrite <- !app_assoc; reflexivity).
    apply app_eq_inv in E as [(k & E1 & E2) | (k & E1 & E2)].
    + destruct k as [|x k]; cbn [app] in E2.
      * injection E2 as -> _. discriminate Q'.
      * injection E2 as <- _. subst Y. apply Forall_app in HY as [_ HY].
        apply Forall_cons in HY as [Hs _].
        destruct (is_quote_cases _ Q') as [-> | ->]; discriminate Hs.
    + destruct k as [|x k]; cbn [app] in E2.
      * injection E2 as <- _. discriminate Q'.
      * injection E2 as <- _. rewrite E1 in HP.
        apply Forall_app in HP as [_ HP].
        apply Forall_cons in HP as [[Hs | Hs] _]; discriminate Hs.
Qed.

End Inside.

Section InsideStatements.

Variable r : pattern.

Hypothesis r_plugin :
  r = defaultImportRegex ∨ r = namedImportsRegex
  ∨ r = defaultSingleImportRegex.

Ltac reassoc :=
  repeat (progress (rewrite <- ?app_assoc; cbn [app])); reflexivity.

Lemma fails_within_head (S' T : str) :
  fails_at r (105%N :: S' ++ T) → fails_within r [105%N] (S' ++ T).
Proof.
  intros H u c v E. destruct u as [|x u].
  - injection E as <- <-. exact H.
  - destruct u; discriminate E.
Qed.

(** A name, and what stands behind [import] in it: no match starts
    in the name of an import. *)
Lemma fails_within_name (name ws2 ws3 : str) (q : char) (T : str) :
  word_run name → space_run ws2 → space_run ws3 → is_quote q = true →
  fails_within r name (ws2 ++ lit "from" ++ ws3 ++ q :: T).
Proof.
  intros [_ Hn] S2 S3 Q.
  destruct ws2 as [|s ws2'] eqn:E2; [destruct S2; contradiction|].
  rewrite <- E2 in S2. cbn [app].
  apply fails_within_segment; [exact r_plugin | |].
  { apply is_space_not_word. destruct S2 as [_ S2]. rewrite E2 in S2.
    apply Forall_cons in S2 as [Hs _]. exact Hs. }
  intros u v ->. apply fails_at_no_head; [exact r_plugin|].
  destruct v as [|x v].
  - cbn [app].
    change (s :: ws2' ++ lit "from" ++ ws3 ++ q :: T)
      with ((s :: ws2') ++ lit "from" ++ ws3 ++ q :: T).
    rewrite <- E2. apply no_head_from; assumption.
  - cbn [app]. apply no_head_nonspace.
    apply Forall_app in Hn as [_ Hn]. apply Forall_app in Hn as [_ Hn].
    apply Forall_cons in Hn as [Hx _]. apply is_word_not_space, Hx.
Qed.

(** A word behind which neither white space nor a word character
    stands: no match starts in it. *)
Lemma fails_within_word (w : str) (c : char) (T : str) :
  Forall (fun x => is_word x = true) w →
  is_word c = false → is_space c = false →
  fails_within r w (c :: T).
Proof.
  intros Hw Hc Hs. apply fails_within_segment; [exact r_plugin | exact Hc|].
  intros u v ->. apply fails_at_no_head; [exact r_plugin|].
  destruct v as [|x v]; cbn [app]; apply no_head_nonspace; [exact Hs|].
  apply Forall_app in Hw as [_ Hw]. apply Forall_app in Hw as [_ Hw].
  apply Forall_cons in Hw as [Hx _]. apply is_word_not_space, Hx.
Qed.

(** The characters of a list up to the closing brace: no match
    starts among them. *)
Lemma fails_within_list (Y T : str) :
  Forall (fun c => is_named_list_char c = true) Y →
  fails_within r Y (125%N :: T).
Proof.
  intros HY. apply fails_within_segment; [exact r_plugin | reflexivity|].
  intros u v ->. apply fails_at_no_head; [exact r_plugin|].
  apply no_head_brace.
  apply Forall_app in HY as [_ HY]. apply Forall_app in HY as [_ HY].
  exact HY.
Qed.

(** An import with a name, up to the opening quote character. *)
Lemma name_part_within (ws1 name ws2 ws3 : str) (q1 : char) (T : str) :
  space_run ws1 → word_run name → space_run ws2 → space_run ws3 →
  is_quote q1 = true →
  fails_at r (lit "import" ++ ws1 ++ name ++ ws2 ++ lit "from" ++ ws3
              ++ q1 :: T) →
  fails_within r
    (lit "import" ++ ws1 ++ name ++ ws2 ++ lit "from" ++ ws3 ++ [q1]) T.
Proof.
  intros S1 Hn S2 S3 Q1 Hm.
  replace (lit "import" ++ ws1 ++ name ++ ws2 ++ lit "from" ++ ws3 ++ [q1])
    with ([105%N] ++ (lit "mport" ++ ws1) ++ name
          ++ ws2 ++ (lit "from" ++ ws3) ++ [q1])
    by reassoc.
  apply fails_within_app.
  { apply fails_within_head. rewrite <- ?app_assoc. exact Hm. }
  apply fails_within_app.
  { apply fails_within_free_run;
      [exact r_plugin | reflexivity | apply S1
      | apply space_run_nonword, S1]. }
  apply fails_within_app.
  { rewrite <- ?app_assoc. apply fails_within_name; assumption. }
  apply fails_within_app.
  { apply fails_within_nonword; [exact r_plugin|].
    apply space_run_nonword, S2. }
  apply fails_within_app.
  { apply fails_within_free_run;
      [exact r_plugin | reflexivity | apply S3
      | apply space_run_nonword, S3]. }
  apply fails_within_nonword; [exact r_plugin|]. apply quote_nonword, Q1.
Qed.

(** An import with a brace, up to the closing brace. *)
Lemma brace_part_within (ws1 F Y T : str) :
  space_run ws1 →
  Forall (fun c => is_named_list_char c = true) Y →
  fails_within r F (Y ++ 125%N :: T) →
  fails_at r (lit "import" ++ ws1 ++ 123%N :: F ++ Y ++ 125%N :: T) →
  fails_within r (lit "import" ++ ws1 ++ 123%N :: F ++ Y ++ [125%N]) T.
Proof.
  intros S1 HY HF Hm.
  replace (lit "import" ++ ws1 ++ 123%N :: F ++ Y ++ [125%N])
    with ([105%N] ++ (lit "mport" ++ ws1) ++ [123%N] ++ F ++ Y ++ [125%N])
    by reassoc.
  apply fails_within_app.
  { apply fails_within_head. rewrite <- ?app_assoc. exact Hm. }
  apply fails_within_app.
  { apply fails_within_free_run;
      [exact r_plugin | reflexivity | apply S1
      | apply space_run_nonword, S1]. }
  apply fails_within_app.
  { apply fails_within_nonword; [exact r_plugin | repeat constructor]. }
  apply fails_within_app.
  { rewrite <- ?app_assoc. exact HF. }
  apply fails_within_app.
  { apply fails_within_list, HY. }
  apply fails_within_nonword; [exact r_plugin | repeat constructor].
Qed.

(** The library name and the closing quote character. *)
Lemma lodash_part_within (q2 : char) (T : str) :
  is_quote q2 = true → fails_within r (lit "lodash" ++ [q2]) T.
Proof.
  intros Q2. apply fails_within_free_run;
    [exact r_plugin | reflexivity | discriminate | apply quote_nonword, Q2].
Qed.

(** [from] and the library name behind a closing brace. *)
Lemma from_part_within (ws4 ws5 : str) (q1 q2 : char) (T : str) :
  space_run ws4 → space_run ws5 →
  is_quote q1 = true → is_quote q2 = true →
  fails_within r (ws4 ++ lit "from" ++ ws5 ++ [q1] ++ lit "lodash" ++ [q2]) T.
Proof.
  intros S4 S5 Q1 Q2.
  replace (ws4 ++ lit "from" ++ ws5 ++ [q1] ++ lit "lodash" ++ [q2])
    with (ws4 ++ (lit "from" ++ ws5) ++ [q1] ++ lit "lodash" ++ [q2])
    by reassoc.
  apply fails_within_app.
  { apply fails_within_nonword; [exact r_plugin|].
    apply space_run_nonword, S4. }
  apply fails_within_app.
  { apply fails_within_free_run;
      [exact r_plugin | reflexivity | apply S5
      | apply space_run_nonword, S5]. }
  apply fails_within_app.
  { apply fails_within_nonword; [exact r_plugin|]. apply quote_nonword, Q1. }
  apply lodash_part_within, Q2.
Qed.

(** The three statements of the specification. *)
Lemma default_stmt_within (name stmt T : str) :
  default_import_text name stmt → word_run name →
  fails_at r (stmt ++ T) → fails_within r stmt T.
Proof.
  intros (ws1 & ws2 & ws3 & q1 & q2 & -> & S1 & S2 & S3 & Q1 & Q2) Hn Hm.
  replace (lit "import" ++ ws1 ++ name ++ ws2 ++ lit "from" ++ ws3
           ++ [q1] ++ lit "lodash" ++ [q2])
    with ((lit "import" ++ ws1 ++ name ++ ws2 ++ lit "from" ++ ws3 ++ [q1])
          ++ lit "lodash" ++ [q2])
    by reassoc.
  apply fails_within_app; [|apply lodash_part_within, Q2].
  apply name_part_within; try assumption.
  rewrite <- ?app_assoc in Hm. exact Hm.
Qed.

Lemma single_stmt_within (name symbol stmt T : str) :
  single_import_text name symbol stmt → word_run name → word_run symbol →
  fails_at r (stmt ++ T) → fails_within r stmt T.
Proof.
  intros (ws1 & ws2 & ws3 & q1 & ext & q2 & -> & S1 & S2 & S3 & Hext & Q1
          & Q2) Hn [_ Hs] Hm.
  replace (lit "import" ++ ws1 ++ name ++ ws2 ++ lit "from" ++ ws3
           ++ [q1] ++ lit "lodash/" ++ symbol ++ ext ++ [q2])
    with ((lit "import" ++ ws1 ++ name ++ ws2 ++ lit "from" ++ ws3 ++ [q1])
          ++ (lit "lodash" ++ [47%N]) ++ symbol ++ ext ++ [q2])
    by reassoc.
  apply fails_within_app.
  { apply name_part_within; try assumption.
    rewrite <- ?app_assoc in Hm. rewrite <- ?app_assoc. exact Hm. }
  apply fails_within_app.
  { apply fails_within_free_run;
      [exact r_plugin | reflexivity | discriminate | repeat constructor]. }
  destruct Hext as [-> | ->].
  - apply fails_within_app.
    + cbn [app]. apply fails_within_word;
        [exact Hs | apply is_quote_not_word, Q2 | apply is_quote_not_space, Q2].
    + apply fails_within_nonword; [exact r_plugin|]. apply quote_nonword, Q2.
  - apply fails_within_app.
    + apply (fails_within_word symbol 46%N); [exact Hs | reflexivity..].
    + apply (fails_within_app r [46%N] (lit "js" ++ [q2])).
      * apply fails_within_nonword; [exact r_plugin | repeat constructor].
      * apply fails_within_free_run;
          [exact r_plugin | reflexivity | discriminate
          | apply quote_nonword, Q2].
Qed.

Lemma named_stmt_within (raw stmt T : str) :
  named_list_text raw stmt →
  Forall (fun c => is_named_list_char c = true) raw →
  fails_at r (stmt ++ T) → fails_within r stmt T.
Proof.
  intros (ws1 & ws2 & ws3 & ws4 & ws5 & q1 & q2 & -> & S1 & S2 & S3 & S4 & S5
          & Q1 & Q2) Hraw Hm.
  replace (lit "import" ++ ws1 ++ lit "{" ++ ws2 ++ raw ++ ws3 ++ lit "}"
           ++ ws4 ++ lit "from" ++ ws5 ++ [q1] ++ lit "lodash" ++ [q2])
    with ((lit "import" ++ ws1 ++ 123%N :: [] ++ (ws2 ++ raw ++ ws3)
           ++ [125%N])
          ++ ws4 ++ lit "from" ++ ws5 ++ [q1] ++ lit "lodash" ++ [q2])
    by reassoc.
  apply fails_within_app; [|apply from_part_within; assumption].
  apply brace_part_within.
  - exact S1.
  - repeat (apply Forall_app; split); try exact Hraw;
      (eapply Forall_impl; [eassumption | apply is_space_list_char]).
  - apply fails_within_nil.
  - rewrite <- ?app_assoc in Hm. rewrite <- ?app_assoc. exact Hm.
Qed.

(** The imports that the passes write. *)
Lemma compat_tail_within (T : str) :
  fails_within r (lit " from 'es-toolkit/compat'") T.
Proof.
  apply (fails_within_free_run r r_plugin (lit " from 'es-toolkit/compat")
           [39%N]);
    [reflexivity | discriminate | repeat constructor].
Qed.

Lemma compat_import_within (list T : str) :
  Forall (fun c => is_named_list_char c = true) list →
  fails_at r ((lit "import { " ++ list ++ lit " } from 'es-toolkit/compat'")
              ++ T) →
  fails_within r (lit "import { " ++ list ++ lit " } from 'es-toolkit/compat'")
    T.
Proof.
  intros Hl Hm.
  replace (lit "import { " ++ list ++ lit " } from 'es-toolkit/compat'")
    with ((lit "import" ++ [32%N] ++ 123%N :: [] ++ ([32%N] ++ list ++ [32%N])
           ++ [125%N])
          ++ lit " from 'es-toolkit/compat'")
    by reassoc.
  apply fails_within_app; [|apply compat_tail_within].
  apply brace_part_within.
  - split; [discriminate | repeat constructor].
  - repeat (apply Forall_app; split); try exact Hl; repeat constructor.
  - apply fails_within_nil.
  - rewrite <- ?app_assoc in Hm. rewrite <- ?app_assoc. exact Hm.
Qed.

Lemma namespace_rewrite_within (name T : str) :
  word_run name →
  fails_at r ((lit "import { * as " ++ name
               ++ lit " } from 'es-toolkit/compat'") ++ T) →
  fails_within r
    (lit "import { * as " ++ name ++ lit " } from 'es-toolkit/compat'") T.
Proof.
  intros [_ Hn] Hm.
  replace (lit "import { * as " ++ name ++ lit " } from 'es-toolkit/compat'")
    with ((lit "import" ++ [32%N] ++ 123%N :: (lit " * as" ++ [32%N])
           ++ (name ++ [32%N]) ++ [125%N])
          ++ lit " from 'es-toolkit/compat'")
    by reassoc.
  apply fails_within_app; [|apply compat_tail_within].
  apply brace_part_within.
  - split; [discriminate | repeat constructor].
  - apply Forall_app. split; [|repeat constructor].
    eapply Forall_impl; [exact Hn | apply is_word_list_char].
  - apply fails_within_free_run;
      [exact r_plugin | reflexivity | discriminate | repeat constructor].
  - rewrite <- ?app_assoc in Hm. rewrite <- ?app_assoc. exact Hm.
Qed.

End InsideStatements.

Section QuietForms.

Variable r : pattern.
Variable f : callback.

Hypothesis r_plugin :
  r = defaultImportRegex ∨ r = namedImportsRegex
  ∨ r = defaultSingleImportRegex.

Hypothesis f_returns : ∀ t cs, returns (f t cs).

(** A pass over a text that holds a part in which no match starts:
    the part stays, and what stands before it and behind it is
    rewritten for itself. *)
Lemma quiet_pass_form (li : nat) (A S0 B : str) :
  import_head (S0 ++ B) → fails_within r S0 B →
  ∃ wa a wb b,
    fst (replace r li (A ++ S0 ++ B) f) = (wa ++ wb, Value (a ++ S0 ++ b))
    ∧ (¬ substring (lit "import") A → a = A ∧ wa = [])
    ∧ (¬ substring (lit "import") B → b = B ∧ wb = []).
Proof.
  intros Hhead Hq.
  destruct (replace_opaque r f A S0 B
              (head_no_straddle r A (S0 ++ B) r_plugin Hhead) li
              (search_fails_within r S0 B Hq (length A) A))
    as (ms1 & ms2 & E & Hends & Hord & ->).
  apply exec_all_sound in E as [Hms _].
  apply Forall_app in Hms as [Hms1 Hms2].
  destruct (around_form r f r_plugin f_returns A S0 B ms1 ms2
              (ret S0) [] S0 [] eq_refl Hms1 Hms2 Hends Hord)
    as (wa & a & wb & b & E & Ha & Hb).
  exists wa, a, wb, b. split; [|split; assumption].
  change (wa ++ [] ++ wb) with (wa ++ wb) in E.
  rewrite <- E. apply bind_ext. intros x. rewrite bind_ret. reflexivity.
Qed.

End QuietForms.

(** ** The statements of the three shapes and what is written for them *)

Section StatementForms.

Lemma single_stmt_head (name symbol stmt B : str) :
  single_import_text name symbol stmt → word_run name →
  import_head (stmt ++ B).
Proof.
  intros (ws1 & ws2 & ws3 & q1 & ext & q2 & -> & S1 & S2 & S3 & _ & Q1 & _) Hn.
  right. exists ws1, name, ws2, ws3, q1. eexists.
  repeat (split; [assumption|]). rewrite <- !app_assoc. reflexivity.
Qed.

Lemma default_stmt_head (name stmt B : str) :
  default_import_text name stmt → word_run name →
  import_head (stmt ++ B).
Proof.
  intros (ws1 & ws2 & ws3 & q1 & q2 & -> & S1 & S2 & S3 & Q1 & _) Hn.
  right. exists ws1, name, ws2, ws3, q1. eexists.
  repeat (split; [assumption|]). rewrite <- !app_assoc. reflexivity.
Qed.

Lemma named_stmt_head (raw stmt B : str) :
  named_list_text raw stmt →
  import_head (stmt ++ B).
Proof.
  intros (ws1 & ws2 & ws3 & ws4 & ws5 & q1 & q2 & -> & S1 & _).
  left. exists ws1. eexists. split; [exact S1|].
  rewrite <- !app_assoc. reflexivity.
Qed.

(** The import that the first pass writes. *)
Lemma namespace_rewrite_head (name B : str) :
  import_head
    ((lit "import { * as " ++ name ++ lit " } from 'es-toolkit/compat'")
     ++ B).
Proof.
  left. exists [32%N]. eexists.
  split; [split; [discriminate | repeat constructor]|].
  rewrite <- !app_assoc. reflexivity.
Qed.

End StatementForms.

(** ** The transform of a text that holds an import *)

Section ImportsInText.

Variable supportedFunctions : list str.

Lemma includes_after (A Z p : str) :
  includes Z p = true → includes (A ++ Z) p = true.
Proof.
  rewrite !includes_spec. intros (a & b & ->). exists (A ++ a), b.
  rewrite <- app_assoc. reflexivity.
Qed.

(** The transform is its three passes, one after the other. *)
Lemma transform_of_passes (src src1 src2 src3 id : str) (w1 w2 w3 : list str)
    (st : store) :
  includes src (lit "lodash") = true →
  (∀ st', fst (defaultImportPass supportedFunctions src st')
          = (w1, Value src1)) →
  (∀ st', fst (namedImportsPass supportedFunctions src1 st')
          = (w2, Value src2)) →
  (∀ st', fst (defaultSingleImportPass supportedFunctions src2 st')
          = (w3, Value src3)) →
  fst (transform supportedFunctions src id st)
  = (w1 ++ w2 ++ w3, Value (Some (mkResult src3 None))).
Proof.
  intros Hl E1 E2 E3. rewrite transform_fst, Hl, E1. cbn [bind].
  rewrite E2. cbn [bind]. rewrite E3. cbn [bind ret].
  rewrite app_nil_r. reflexivity.
Qed.

Lemma defaultImportPass_fresh (src : str) (st : store) :
  fst (defaultImportPass supportedFunctions src st)
  = fst (replace defaultImportRegex 0 src
           (fun m cs =>
              defaultImportCallback supportedFunctions src m (cap 1 cs))).
Proof. rewrite defaultImportPass_fst. apply replace_lastIndex. Qed.

Lemma namedImportsPass_fresh (src : str) (st : store) :
  fst (namedImportsPass supportedFunctions src st)
  = fst (replace namedImportsRegex 0 src
           (fun m cs => namedImportsCallback supportedFunctions m (cap 1 cs))).
Proof. rewrite namedImportsPass_fst. apply replace_lastIndex. Qed.

Lemma defaultSingleImportPass_fresh (src : str) (st : store) :
  fst (defaultSingleImportPass supportedFunctions src st)
  = fst (replace defaultSingleImportRegex 0 src
           (fun m cs =>
              defaultSingleImportCallback supportedFunctions m
                (cap 1 cs) (cap 2 cs))).
Proof. rewrite defaultSingleImportPass_fst. apply replace_lastIndex. Qed.

(** *** An import of one function *)

(** The first pass leaves an import of one function alone, wherever
    the import stands. *)
Lemma single_import_first_pass (name symbol stmt pre post : str) :
  single_import_text name symbol stmt → word_run name → word_run symbol →
  ∃ wa a wb b,
    (∀ st, fst (defaultImportPass supportedFunctions (pre ++ stmt ++ post) st)
           = (wa ++ wb, Value (a ++ stmt ++ b)))
    ∧ (¬ substring (lit "import") pre → a = pre ∧ wa = [])
    ∧ (¬ substring (lit "import") post → b = post ∧ wb = []).
Proof.
  intros Ht Hn Hs.
  destruct (quiet_pass_form defaultImportRegex
              (fun m cs =>
                 defaultImportCallback supportedFunctions
                   (pre ++ stmt ++ post) m (cap 1 cs))
              (or_introl eq_refl)
              (fun t cs => defaultImportCallback_returns _ _ _ _)
              0 pre stmt post
              (single_stmt_head name symbol stmt post Ht Hn))
    as (wa & a & wb & b & E & Ha & Hb).
  { apply (single_stmt_within _ (or_introl eq_refl) name symbol);
      try assumption.
    intros n pv. apply (defaultImportRegex_not_single name symbol);
      assumption. }
  exists wa, a, wb, b. split; [|split; assumption].
  intros st. rewrite defaultImportPass_fresh. exact E.
Qed.

(** So does the second pass. *)
Lemma single_import_second_pass (name symbol stmt pre post : str) :
  single_import_text name symbol stmt → word_run name → word_run symbol →
  ∃ wa a wb b,
    (∀ st, fst (namedImportsPass supportedFunctions (pre ++ stmt ++ post) st)
           = (wa ++ wb, Value (a ++ stmt ++ b)))
    ∧ (¬ substring (lit "import") pre → a = pre ∧ wa = [])
    ∧ (¬ substring (lit "import") post → b = post ∧ wb = []).
Proof.
  intros Ht Hn Hs.
  destruct (quiet_pass_form namedImportsRegex
              (fun m cs =>
                 namedImportsCallback supportedFunctions m (cap 1 cs))
              (or_intror (or_introl eq_refl))
              (fun t cs => namedImportsCallback_returns _ _ _)
              0 pre stmt post
              (single_stmt_head name symbol stmt post Ht Hn))
    as (wa & a & wb & b & E & Ha & Hb).
  { apply (single_stmt_within _ (or_intror (or_introl eq_refl)) name symbol);
      try assumption.
    intros n pv.
    destruct Ht as (ws1 & ws2 & ws3 & q1 & ext & q2 & -> & S1 & _).
    rewrite <- !app_assoc. apply namedImportsRegex_not_name; assumption. }
  exists wa, a, wb, b. split; [|split; assumption].
  intros st. rewrite namedImportsPass_fresh. exact E.
Qed.

(** The third pass finds the import where it stands and puts what its
    callback gives in its place. *)
Lemma single_import_third_pass (name symbol stmt pre post : str) :
  single_import_text name symbol stmt → word_run name → word_run symbol →
  ∃ wa a wb b w rep,
    defaultSingleImportCallback supportedFunctions stmt name symbol
    = (w, Value rep)
    ∧ (∀ st,
         fst (defaultSingleImportPass supportedFunctions
                (pre ++ stmt ++ post) st)
         = (wa ++ w ++ wb, Value (a ++ rep ++ b)))
    ∧ (¬ substring (lit "import") pre → a = pre ∧ wa = [])
    ∧ (¬ substring (lit "import") post → b = post ∧ wb = []).
Proof.
  intros Ht Hn Hs.
  destruct (defaultSingleImportRegex_matches name symbol stmt post
              (length pre) (last pre) Ht Hn Hs)
    as (m & Hm & M1 & M2 & M3 & C1 & C2).
  destruct (handled_pass_form defaultSingleImportRegex
              (fun m cs =>
                 defaultSingleImportCallback supportedFunctions m
                   (cap 1 cs) (cap 2 cs))
              (or_intror (or_intror eq_refl))
              (fun t cs => defaultSingleImportCallback_returns _ _ _ _)
              0 pre stmt post m
              (single_stmt_head name symbol stmt post Ht Hn))
    as (wa & a & wb & b & w & rep & Ef & E & Ha & Hb);
    [| exact Hm | exact M2 |].
  { destruct Ht as (ws1 & ws2 & ws3 & q1 & ext & q2 & -> & _). discriminate. }
  cbv beta in Ef. rewrite C1, C2 in Ef.
  exists wa, a, wb, b, w, rep.
  split; [exact Ef|]. split; [|split; assumption].
  intros st. rewrite defaultSingleImportPass_fresh. exact E.
Qed.

(** The transform of a text that holds an import of one function,
    whatever stands before the import and behind it. *)
Lemma single_import_in_text (name symbol stmt pre post id : str)
    (st : store) :
  single_import_text name symbol stmt → word_run name → word_run symbol →
  ∃ pre1 post1 pre2 post2 pre3 post3 wa1 wb1 wa2 wb2 wa3 wb3 w rep,
    defaultSingleImportCallback supportedFunctions stmt name symbol
    = (w, Value rep)
    ∧ (∀ st', fst (defaultImportPass supportedFunctions
                     (pre ++ stmt ++ post) st')
              = (wa1 ++ wb1, Value (pre1 ++ stmt ++ post1)))
    ∧ (∀ st', fst (namedImportsPass supportedFunctions
                     (pre1 ++ stmt ++ post1) st')
              = (wa2 ++ wb2, Value (pre2 ++ stmt ++ post2)))
    ∧ (∀ st', fst (defaultSingleImportPass supportedFunctions
                     (pre2 ++ stmt ++ post2) st')
              = (wa3 ++ w ++ wb3, Value (pre3 ++ rep ++ post3)))
    ∧ fst (transform supportedFunctions (pre ++ stmt ++ post) id st)
      = ((wa1 ++ wb1) ++ (wa2 ++ wb2) ++ (wa3 ++ w ++ wb3),
         Value (Some (mkResult (pre3 ++ rep ++ post3) None)))
    ∧ (¬ substring (lit "import") pre →
       pre1 = pre ∧ pre2 = pre ∧ pre3 = pre
       ∧ wa1 = [] ∧ wa2 = [] ∧ wa3 = [])
    ∧ (¬ substring (lit "import") post →
       post1 = post ∧ post2 = post ∧ post3 = post
       ∧ wb1 = [] ∧ wb2 = [] ∧ wb3 = []).
Proof.
  intros Ht Hn Hs.
  destruct (single_import_first_pass name symbol stmt pre post Ht Hn Hs)
    as (wa1 & pre1 & wb1 & post1 & E1 & Ha1 & Hb1).
  destruct (single_import_second_pass name symbol stmt pre1 post1 Ht Hn Hs)
    as (wa2 & pre2 & wb2 & post2 & E2 & Ha2 & Hb2).
  destruct (single_import_third_pass name symbol stmt pre2 post2 Ht Hn Hs)
    as (wa3 & pre3 & wb3 & post3 & w & rep & Ef & E3 & Ha3 & Hb3).
  exists pre1, post1, pre2, post2, pre3, post3, wa1, wb1, wa2, wb2, wa3, wb3,
         w, rep.
  split; [exact Ef|]. split; [exact E1|]. split; [exact E2|].
  split; [exact E3|]. split; [|split].
  - apply (transform_of_passes _ _ _ _ _ _ _ _ _
             (includes_after pre _ _
                (single_import_has_lodash name symbol stmt post Ht))
             E1 E2 E3).
  - intros Hp. destruct (Ha1 Hp) as [-> ->].
    destruct (Ha2 Hp) as [-> ->]. destruct (Ha3 Hp) as [-> ->]. auto 10.
  - intros Hp. destruct (Hb1 Hp) as [-> ->].
    destruct (Hb2 Hp) as [-> ->]. destruct (Hb3 Hp) as [-> ->]. auto 10.
Qed.

(** With no other import in the text, only the import changes. *)
Lemma single_import_alone (name symbol stmt pre post id : str) (st : store) :
  single_import_text name symbol stmt → word_run name → word_run symbol →
  ¬ substring (lit "import") pre → ¬ substring (lit "import") post →
  fst (transform supportedFunctions (pre ++ stmt ++ post) id st)
  = let* rep :=
      defaultSingleImportCallback supportedFunctions stmt name symbol in
    ret (Some (mkResult (pre ++ rep ++ post) None)).
Proof.
  intros Ht Hn Hs Hpre Hpost.
  destruct (single_import_in_text name symbol stmt pre post id st Ht Hn Hs)
    as (pre1 & post1 & pre2 & post2 & pre3 & post3 & wa1 & wb1 & wa2 & wb2
        & wa3 & wb3 & w & rep & -> & _ & _ & _ & -> & Ha & Hb).
  destruct (Ha Hpre) as (_ & _ & -> & -> & -> & ->).
  destruct (Hb Hpost) as (_ & _ & -> & -> & -> & ->).
  reflexivity.
Qed.

End ImportsInText.

Section NamespaceImportsInText.

Variable supportedFunctions : list str.

(** *** An import of the whole library *)

(** The first pass finds the import where it stands and puts what its
    callback gives in its place. *)
Lemma default_import_first_pass (name stmt pre post : str) :
  default_import_text name stmt → word_run name →
  ∃ wa a wb b w rep,
    defaultImportCallback supportedFunctions (pre ++ stmt ++ post) stmt name
    = (w, Value rep)
    ∧ (∀ st,
         fst (defaultImportPass supportedFunctions (pre ++ stmt ++ post) st)
         = (wa ++ w ++ wb, Value (a ++ rep ++ b)))
    ∧ (¬ substring (lit "import") pre → a = pre ∧ wa = [])
    ∧ (¬ substring (lit "import") post → b = post ∧ wb = []).
Proof.
  intros Ht Hn.
  destruct (defaultImportRegex_matches name stmt post
              (length pre) (last pre) Ht Hn)
    as (m & Hm & M1 & M2 & M3 & C1).
  destruct (handled_pass_form defaultImportRegex
              (fun m cs =>
                 defaultImportCallback supportedFunctions
                   (pre ++ stmt ++ post) m (cap 1 cs))
              (or_introl eq_refl)
              (fun t cs => defaultImportCallback_returns _ _ _ _)
              0 pre stmt post m
              (default_stmt_head name stmt post Ht Hn))
    as (wa & a & wb & b & w & rep & Ef & E & Ha & Hb);
    [| exact Hm | exact M2 |].
  { destruct Ht as (ws1 & ws2 & ws3 & q1 & q2 & -> & _). discriminate. }
  cbv beta in Ef. rewrite C1 in Ef.
  exists wa, a, wb, b, w, rep.
  split; [exact Ef|]. split; [|split; assumption].
  intros st. rewrite defaultImportPass_fresh. exact E.
Qed.

(** The second and the third pass leave alone what the first pass
    puts in the place of the import. *)
Lemma default_import_second_pass (name stmt rep pre post : str) :
  default_import_text name stmt → word_run name →
  rep = stmt
  ∨ rep = lit "import { * as " ++ name ++ lit " } from 'es-toolkit/compat'" →
  ∃ wa a wb b,
    (∀ st, fst (namedImportsPass supportedFunctions (pre ++ rep ++ post) st)
           = (wa ++ wb, Value (a ++ rep ++ b)))
    ∧ (¬ substring (lit "import") pre → a = pre ∧ wa = [])
    ∧ (¬ substring (lit "import") post → b = post ∧ wb = []).
Proof.
  intros Ht Hn Hrep.
  assert (∃ wa a wb b,
            fst (replace namedImportsRegex 0 (pre ++ rep ++ post)
                   (fun m cs =>
                      namedImportsCallback supportedFunctions m (cap 1 cs)))
            = (wa ++ wb, Value (a ++ rep ++ b))
            ∧ (¬ substring (lit "import") pre → a = pre ∧ wa = [])
            ∧ (¬ substring (lit "import") post → b = post ∧ wb = []))
    as (wa & a & wb & b & E & Ha & Hb).
  { apply (quiet_pass_form namedImportsRegex _
             (or_intror (or_introl eq_refl))
             (fun t cs => namedImportsCallback_returns _ _ _)).
    - destruct Hrep as [-> | ->];
        [apply (default_stmt_head name); assumption
        | apply namespace_rewrite_head].
    - destruct Hrep as [-> | ->].
      + apply (default_stmt_within _ (or_intror (or_introl eq_refl)) name);
          try assumption.
        intros n pv.
        destruct Ht as (ws1 & ws2 & ws3 & q1 & q2 & -> & S1 & _).
        rewrite <- !app_assoc. apply namedImportsRegex_not_name; assumption.
      + apply (namespace_rewrite_within _ (or_intror (or_introl eq_refl)));
          [exact Hn|].
        intros n pv. rewrite <- !app_assoc.
        apply namedImportsRegex_not_star. }
  exists wa, a, wb, b. split; [|split; assumption].
  intros st. rewrite namedImportsPass_fresh. exact E.
Qed.

Lemma default_import_third_pass (name stmt rep pre post : str) :
  default_import_text name stmt → word_run name →
  rep = stmt
  ∨ rep = lit "import { * as " ++ name ++ lit " } from 'es-toolkit/compat'" →
  ∃ wa a wb b,
    (∀ st,
       fst (defaultSingleImportPass supportedFunctions (pre ++ rep ++ post) st)
       = (wa ++ wb, Value (a ++ rep ++ b)))
    ∧ (¬ substring (lit "import") pre → a = pre ∧ wa = [])
    ∧ (¬ substring (lit "import") post → b = post ∧ wb = []).
Proof.
  intros Ht Hn Hrep.
  assert (∃ wa a wb b,
            fst (replace defaultSingleImportRegex 0 (pre ++ rep ++ post)
                   (fun m cs =>
                      defaultSingleImportCallback supportedFunctions m
                        (cap 1 cs) (cap 2 cs)))
            = (wa ++ wb, Value (a ++ rep ++ b))
            ∧ (¬ substring (lit "import") pre → a = pre ∧ wa = [])
            ∧ (¬ substring (lit "import") post → b = post ∧ wb = []))
    as (wa & a & wb & b & E & Ha & Hb).
  { apply (quiet_pass_form defaultSingleImportRegex _
             (or_intror (or_intror eq_refl))
             (fun t cs => defaultSingleImportCallback_returns _ _ _ _)).
    - destruct Hrep as [-> | ->];
        [apply (default_stmt_head name); assumption
        | apply namespace_rewrite_head].
    - destruct Hrep as [-> | ->].
      + apply (default_stmt_within _ (or_intror (or_intror eq_refl)) name);
          try assumption.
        intros n pv.
        apply (defaultSingleImportRegex_not_default name); assumption.
      + apply (namespace_rewrite_within _ (or_intror (or_intror eq_refl)));
          [exact Hn|].
        intros n pv. rewrite <- !app_assoc.
        apply (defaultSingleImportRegex_not_brace [32%N]).
        split; [discriminate | repeat constructor]. }
  exists wa, a, wb, b. split; [|split; assumption].
  intros st. rewrite defaultSingleImportPass_fresh. exact E.
Qed.

(** The transform of a text that holds an import of the whole
    library, whatever stands before the import and behind it. *)
Lemma default_import_in_text (name stmt pre post id : str) (st : store) :
  default_import_text name stmt → word_run name →
  ∃ pre1 post1 pre2 post2 pre3 post3 wa1 wb1 wa2 wb2 wa3 wb3 w rep,
    defaultImportCallback supportedFunctions (pre ++ stmt ++ post) stmt name
    = (w, Value rep)
    ∧ (∀ st', fst (defaultImportPass supportedFunctions
                     (pre ++ stmt ++ post) st')
              = (wa1 ++ w ++ wb1, Value (pre1 ++ rep ++ post1)))
    ∧ (∀ st', fst (namedImportsPass supportedFunctions
                     (pre1 ++ rep ++ post1) st')
              = (wa2 ++ wb2, Value (pre2 ++ rep ++ post2)))
    ∧ (∀ st', fst (defaultSingleImportPass supportedFunctions
                     (pre2 ++ rep ++ post2) st')
              = (wa3 ++ wb3, Value (pre3 ++ rep ++ post3)))
    ∧ fst (transform supportedFunctions (pre ++ stmt ++ post) id st)
      = ((wa1 ++ w ++ wb1) ++ (wa2 ++ wb2) ++ (wa3 ++ wb3),
         Value (Some (mkResult (pre3 ++ rep ++ post3) None)))
    ∧ (¬ substring (lit "import") pre →
       pre1 = pre ∧ pre2 = pre ∧ pre3 = pre
       ∧ wa1 = [] ∧ wa2 = [] ∧ wa3 = [])
    ∧ (¬ substring (lit "import") post →
       post1 = post ∧ post2 = post ∧ post3 = post
       ∧ wb1 = [] ∧ wb2 = [] ∧ wb3 = []).
Proof.
  intros Ht Hn.
  destruct (default_import_first_pass name stmt pre post Ht Hn)
    as (wa1 & pre1 & wb1 & post1 & w & rep & Ef & E1 & Ha1 & Hb1).
  assert (rep = stmt
          ∨ rep = lit "import { * as " ++ name
                  ++ lit " } from 'es-toolkit/compat'") as Hrep.
  { destruct (defaultImportCallback_cases supportedFunctions
                (pre ++ stmt ++ post) stmt name) as (w' & rep' & E' & Hrep).
    rewrite Ef in E'. injection E' as _ <-. exact Hrep. }
  destruct (default_import_second_pass name stmt rep pre1 post1 Ht Hn Hrep)
    as (wa2 & pre2 & wb2 & post2 & E2 & Ha2 & Hb2).
  destruct (default_import_third_pass name stmt rep pre2 post2 Ht Hn Hrep)
    as (wa3 & pre3 & wb3 & post3 & E3 & Ha3 & Hb3).
  exists pre1, post1, pre2, post2, pre3, post3, wa1, wb1, wa2, wb2, wa3, wb3,
         w, rep.
  split; [exact Ef|]. split; [exact E1|]. split; [exact E2|].
  split; [exact E3|]. split; [|split].
  - apply (transform_of_passes _ _ _ _ _ _ _ _ _ _
             (includes_after pre _ _
                (default_import_has_lodash name stmt post Ht))
             E1 E2 E3).
  - intros Hp. destruct (Ha1 Hp) as [-> ->].
    destruct (Ha2 Hp) as [-> ->]. destruct (Ha3 Hp) as [-> ->]. auto 10.
  - intros Hp. destruct (Hb1 Hp) as [-> ->].
    destruct (Hb2 Hp) as [-> ->]. destruct (Hb3 Hp) as [-> ->]. auto 10.
Qed.

(** With no other import in the text, only the import changes. *)
Lemma default_import_alone (name stmt pre post id : str) (st : store) :
  default_import_text name stmt → word_run name →
  ¬ substring (lit "import") pre → ¬ substring (lit "import") post →
  fst (transform supportedFunctions (pre ++ stmt ++ post) id st)
  = let* rep :=
      defaultImportCallback supportedFunctions (pre ++ stmt ++ post) stmt
        name in
    ret (Some (mkResult (pre ++ rep ++ post) None)).
Proof.
  intros Ht Hn Hpre Hpost.
  destruct (default_import_in_text name stmt pre post id st Ht Hn)
    as (pre1 & post1 & pre2 & post2 & pre3 & post3 & wa1 & wb1 & wa2 & wb2
        & wa3 & wb3 & w & rep & -> & _ & _ & _ & -> & Ha & Hb).
  destruct (Ha Hpre) as (_ & _ & -> & -> & -> & ->).
  destruct (Hb Hpost) as (_ & _ & -> & -> & -> & ->).
  cbn [bind ret app]. rewrite !app_nil_r. reflexivity.
Qed.

End NamespaceImportsInText.

(** ** Lists with white space around them *)

Section ListPadding.

Lemma trim_start_pad (a b : str) :
  Forall (fun c => is_space c = true) a → trim_start (a ++ b) = trim_start b.
Proof.
  induction 1 as [|c a Hc _ IH]; [reflexivity|]. simpl. rewrite Hc. exact IH.
Qed.

Lemma trim_end_pad (x ws : str) :
  Forall (fun c => is_space c = true) ws → trim_end (x ++ ws) = trim_end x.
Proof.
  intros H. unfold trim_end. rewrite reverse_app, trim_start_pad; [reflexivity|].
  apply Forall_reverse, H.
Qed.

Lemma trim_pad_r (x ws : str) :
  Forall (fun c => is_space c = true) ws → trim (x ++ ws) = trim x.
Proof.
  intros H. unfold trim. induction x as [|c x IH].
  - cbn [app]. rewrite <- (app_nil_r ws), trim_start_pad by exact H.
    reflexivity.
  - cbn [app trim_start]. destruct (is_space c); [exact IH|].
    apply (trim_end_pad (c :: x)), H.
Qed.

Lemma trim_pad_l (ws x : str) :
  Forall (fun c => is_space c = true) ws → trim (ws ++ x) = trim x.
Proof. intros H. unfold trim. rewrite trim_start_pad by exact H. reflexivity. Qed.

Lemma space_not_comma (c : char) : is_space c = true → c ≠ 44%N.
Proof. intros H ->. discriminate H. Qed.

Lemma split_pad_r (raw ws : str) :
  Forall (fun c => is_space c = true) ws →
  ∀ cur,
    map trim (split_from [44%N] 0 cur (raw ++ ws))
    = map trim (split_from [44%N] 0 cur raw).
Proof.
  intros Hws. induction raw as [|c raw IH]; intros cur.
  - cbn [app]. rewrite split_from_last
      by (eapply Forall_impl; [exact Hws | apply space_not_comma]).
    cbn [split_from map]. rewrite trim_pad_r by exact Hws. reflexivity.
  - cbn [app]. rewrite !split_from_cons.
    destruct (N.eq_dec c 44%N) as [-> | Hc].
    + change (starts_with [44%N] (44%N :: raw ++ ws)) with true.
      change (starts_with [44%N] (44%N :: raw)) with true.
      cbn [map length pred]. f_equal. apply IH.
    + rewrite !starts_with_head_neq by exact Hc. apply IH.
Qed.

Lemma namedImportNames_pad_r (raw ws : str) :
  Forall (fun c => is_space c = true) ws →
  namedImportNames (raw ++ ws) = namedImportNames raw.
Proof.
  intros H. unfold namedImportNames, split. change (lit ",") with [44%N].
  rewrite split_pad_r by exact H. reflexivity.
Qed.

Lemma split_from_spaces (ws raw : str) :
  Forall (fun c => is_space c = true) ws →
  ∀ cur,
    split_from [44%N] 0 cur (ws ++ raw) = split_from [44%N] 0 (cur ++ ws) raw.
Proof.
  induction 1 as [|c ws Hc _ IH]; intros cur.
  - rewrite app_nil_r. reflexivity.
  - cbn [app]. rewrite split_from_cons.
    rewrite starts_with_head_neq by (apply space_not_comma, Hc).
    rewrite IH, <- app_assoc. reflexivity.
Qed.

Lemma namedImportNames_pad_l (ws raw : str) :
  Forall (fun c => is_space c = true) ws →
  namedImportNames (ws ++ raw) = namedImportNames raw.
Proof.
  intros H. unfold namedImportNames, split. change (lit ",") with [44%N].
  rewrite split_from_spaces by exact H. cbn [app].
  rewrite split_from_cur.
  destruct (split_from_head [44%N] 0 [] raw) as (x & l & ->).
  cbn [app map]. rewrite trim_pad_l by exact H. reflexivity.
Qed.

(** The white space at the head of a list. *)
Lemma leading_spaces (raw : str) :
  ∃ sp raw', raw = sp ++ raw' ∧ spaces sp ∧ stops is_space raw'.
Proof.
  induction raw as [|c raw (sp & raw' & -> & Hsp & Hst)].
  - exists [], []. repeat split. constructor.
  - destruct (is_space c) eqn:E.
    + exists (c :: sp), raw'. repeat split; [|exact Hst].
      constructor; assumption.
    + exists [], (c :: sp ++ raw'). repeat split; [constructor | exact E].
Qed.

Lemma named_list_text_strip (sp raw stmt : str) :
  spaces sp → named_list_text (sp ++ raw) stmt → named_list_text raw stmt.
Proof.
  intros Hsp (ws1 & ws2 & ws3 & ws4 & ws5 & q1 & q2 & -> & S1 & S2 & S3 & S4
              & S5 & Q1 & Q2).
  exists ws1, (ws2 ++ sp), ws3, ws4, ws5, q1, q2.
  split; [rewrite <- !app_assoc; reflexivity|].
  split; [exact S1|]. split; [apply Forall_app; split; assumption|].
  auto 10.
Qed.

End ListPadding.

(** ** The names of a token lie in the token *)

Section TokenNames.

Lemma substring_cons (p s : str) (c : char) :
  substring p s → substring p (c :: s).
Proof. intros (a & b & ->). exists (c :: a), b. reflexivity. Qed.

Lemma prefix_substring (x tl : str) : substring x (x ++ tl).
Proof. exists [], tl. reflexivity. Qed.

(** The first segment of a split starts with what was read so far
    and goes on in the text; the other segments lie in the text. *)
Lemma split_from_parts (sep s : str) :
  ∀ k cur,
    ∃ x l,
      split_from sep k cur s = (cur ++ x) :: l
      ∧ substring x s
      ∧ (k = 0 → ∃ tl, s = x ++ tl)
      ∧ Forall (fun p => substring p s) l.
Proof.
  induction s as [|c s IH]; intros k cur.
  - exists [], []. cbn [split_from]. rewrite app_nil_r.
    split; [reflexivity|]. split; [exists [], []; reflexivity|].
    split; [exists []; reflexivity | constructor].
  - destruct k as [|k].
    + rewrite split_from_cons. destruct (starts_with sep (c :: s)).
      * destruct (IH (pred (length sep)) []) as (x & l & -> & Hx & _ & Hl).
        exists [], (x :: l). rewrite app_nil_r.
        split; [reflexivity|]. split; [exists [], (c :: s); reflexivity|].
        split; [exists (c :: s); reflexivity|].
        constructor; [apply substring_cons, Hx|].
        eapply Forall_impl; [exact Hl | intros p; apply substring_cons].
      * destruct (IH 0 (cur ++ [c])) as (x & l & -> & Hx & Htl & Hl).
        destruct (Htl eq_refl) as [tl ->].
        exists (c :: x), l. rewrite <- app_assoc.
        split; [reflexivity|].
        split; [apply (prefix_substring (c :: x))|].
        split; [exists tl; reflexivity|].
        eapply Forall_impl; [exact Hl | intros p; apply substring_cons].
    + cbn [split_from]. destruct (IH k cur) as (x & l & -> & Hx & _ & Hl).
      exists x, l. split; [reflexivity|].
      split; [apply substring_cons, Hx|]. split; [discriminate|].
      eapply Forall_impl; [exact Hl | intros p; apply substring_cons].
Qed.

(** The two names that the parser reads lie in the token. *)
Lemma parse_names (t : str) (ni : NamedImport) :
  result (parseNamedImport t) = Value ni →
  substring (actualName ni) t ∧ substring (customName ni) t.
Proof.
  unfold parseNamedImport, split.
  destruct (split_from_parts (lit " as ") t 0 [])
    as (x & l & -> & Hx & _ & Hl).
  cbn [app lookup list_lookup].
  change ((x :: l) !! 0) with (Some x).
  change ((x :: l) !! 1) with (l !! 0).
  destruct x as [|c x]; cbn [truthy negb snd]; [intros [=]|].
  intros [= <-]. cbn [actualName customName default from_option].
  split; [exact Hx|].
  destruct l as [|y l]; [exact Hx|].
  change ((y :: l) !! 0) with (Some y).
  destruct y as [|d y]; cbn [truthy from_option]; [exact Hx|].
  apply Forall_cons in Hl as [Hy _]. exact Hy.
Qed.

(** The names of the tokens of a list are written with characters of
    the list, and so is what the renderer writes for them. *)
Lemma parsed_names_chars (raw : str) (parsed : list NamedImport) :
  Forall (fun c => is_named_list_char c = true) raw →
  mapW parseNamedImport (namedImportNames raw) = ret parsed →
  Forall (fun ni =>
            Forall (fun c => is_named_list_char c = true) (actualName ni)
            ∧ Forall (fun c => is_named_list_char c = true) (customName ni))
         parsed.
Proof.
  intros Hraw Hp. apply mapW_Forall2 in Hp.
  assert (Forall (fun t => substring t raw) (namedImportNames raw)) as Hts.
  { apply Forall_forall. intros t Ht.
    apply namedImportNames_token in Ht as (_ & _ & _ & _ & Hs). exact Hs. }
  revert Hts. induction Hp as [|t ni ts nis Hni _ IH]; [constructor|].
  intros Hts. apply Forall_cons in Hts as [Ht Hts].
  constructor; [|apply IH, Hts].
  destruct (parse_names t ni Hni) as [Ha Hc].
  split; (eapply substring_Forall; [|exact Hraw]);
    eapply substring_trans; eassumption.
Qed.

Lemma render_group_chars (raw : str) (parsed : list NamedImport)
    (f : NamedImport -> bool) :
  Forall (fun c => is_named_list_char c = true) raw →
  mapW parseNamedImport (namedImportNames raw) = ret parsed →
  Forall (fun c => is_named_list_char c = true)
         (renderNamedImports (List.filter f parsed)).
Proof.
  intros Hraw Hp. pose proof (parsed_names_chars raw parsed Hraw Hp) as H.
  unfold renderNamedImports.
  apply (join_chars (fun c => is_named_list_char c = true));
    [reflexivity | reflexivity|].
  apply Forall_map, Forall_filter_keep.
  eapply Forall_impl; [exact H|]. intros ni [Ha Hc]. cbv beta.
  destruct (render_cases ni) as [-> | ->]; [exact Ha|].
  apply Forall_app. split; [exact Ha|].
  apply Forall_app. split; [repeat constructor | exact Hc].
Qed.

End TokenNames.

(** ** The transform of a text that holds a named-list import *)

Section NamedListsInText.

Variable supportedFunctions : list str.

(** The callback of the second pass reads the list by its tokens
    only. *)
Lemma namedImportsCallback_names (m raw raw' : str) :
  namedImportNames raw = namedImportNames raw' →
  namedImportsCallback supportedFunctions m raw
  = namedImportsCallback supportedFunctions m raw'.
Proof. unfold namedImportsCallback. intros ->. reflexivity. Qed.

(** A named-list import with a token in its list is what the second
    pattern matches where the import stands; the group holds the list
    with white space around it. *)
Lemma named_list_found (raw stmt post : str) (n : nat) (pv : option char) :
  named_list_text raw stmt →
  Forall (fun c => is_named_list_char c = true) raw →
  namedImportNames raw ≠ [] →
  ∃ m,
    match_at namedImportsRegex n pv (stmt ++ post) = Some m
    ∧ m_end m = n + length stmt
    ∧ namedImportNames (cap 1 (m_caps m)) = namedImportNames raw.
Proof.
  intros Ht Hraw Hne.
  destruct (leading_spaces raw) as (sp & raw' & -> & Hsp & Hst).
  apply Forall_app in Hraw as [_ Hraw'].
  assert (raw' ≠ []) as Hne'.
  { intros ->. apply Hne. apply namedImportNames_blank.
    rewrite app_nil_r. eapply Forall_impl; [exact Hsp|]. intros c Hc. left.
    exact Hc. }
  destruct (namedImportsRegex_matches_raw raw' stmt post n pv Hne' Hraw' Hst
              (named_list_text_strip sp raw' stmt Hsp Ht))
    as (m & ws & Hm & _ & He & _ & Hc & Hws).
  exists m. split; [exact Hm|]. split; [exact He|].
  rewrite Hc, namedImportNames_pad_r, namedImportNames_pad_l by assumption.
  reflexivity.
Qed.

(** The import that the second pass writes for the names it leaves
    with the library is a named-list import again. *)
Lemma lodash_rewrite_text (list : str) :
  named_list_text list (lit "import { " ++ list ++ lit " } from 'lodash'").
Proof.
  exists [32%N], [32%N], [32%N], [32%N], [32%N], 39%N, 39%N.
  split; [reflexivity|].
  assert (space_run [32%N]) as H
    by (split; [discriminate | repeat constructor]).
  repeat (split; [first [exact H | exact (proj2 H) | reflexivity]|]).
  reflexivity.
Qed.

(** The first pass leaves a named-list import alone, wherever the
    import stands. *)
Lemma named_list_first_pass (raw stmt pre post : str) :
  named_list_text raw stmt →
  Forall (fun c => is_named_list_char c = true) raw →
  ∃ wa a wb b,
    (∀ st, fst (defaultImportPass supportedFunctions (pre ++ stmt ++ post) st)
           = (wa ++ wb, Value (a ++ stmt ++ b)))
    ∧ (¬ substring (lit "import") pre → a = pre ∧ wa = [])
    ∧ (¬ substring (lit "import") post → b = post ∧ wb = []).
Proof.
  intros Ht Hraw.
  destruct (quiet_pass_form defaultImportRegex
              (fun m cs =>
                 defaultImportCallback supportedFunctions
                   (pre ++ stmt ++ post) m (cap 1 cs))
              (or_introl eq_refl)
              (fun t cs => defaultImportCallback_returns _ _ _ _)
              0 pre stmt post
              (named_stmt_head raw stmt post Ht))
    as (wa & a & wb & b & E & Ha & Hb).
  { apply (named_stmt_within _ (or_introl eq_refl) raw); try assumption.
    intros n pv.
    destruct Ht as (ws1 & ws2 & ws3 & ws4 & ws5 & q1 & q2 & -> & S1 & _).
    rewrite <- !app_assoc. apply defaultImportRegex_not_brace, S1. }
  exists wa, a, wb, b. split; [|split; assumption].
  intros st. rewrite defaultImportPass_fresh. exact E.
Qed.

(** The second pass finds the import where it stands and puts what
    its callback gives for the list in its place. *)
Lemma named_list_second_pass (raw stmt pre post : str) :
  named_list_text raw stmt →
  Forall (fun c => is_named_list_char c = true) raw →
  namedImportNames raw ≠ [] →
  ∃ wa a wb b w rep,
    namedImportsCallback supportedFunctions stmt raw = (w, Value rep)
    ∧ (∀ st,
         fst (namedImportsPass supportedFunctions (pre ++ stmt ++ post) st)
         = (wa ++ w ++ wb, Value (a ++ rep ++ b)))
    ∧ (¬ substring (lit "import") pre → a = pre ∧ wa = [])
    ∧ (¬ substring (lit "import") post → b = post ∧ wb = []).
Proof.
  intros Ht Hraw Hne.
  destruct (named_list_found raw stmt post (length pre) (last pre)
              Ht Hraw Hne) as (m & Hm & He & Hnames).
  destruct (handled_pass_form namedImportsRegex
              (fun m cs =>
                 namedImportsCallback supportedFunctions m (cap 1 cs))
              (or_intror (or_introl eq_refl))
              (fun t cs => namedImportsCallback_returns _ _ _)
              0 pre stmt post m
              (named_stmt_head raw stmt post Ht))
    as (wa & a & wb & b & w & rep & Ef & E & Ha & Hb);
    [| exact Hm | exact He |].
  { destruct Ht as (ws1 & ws2 & ws3 & ws4 & ws5 & q1 & q2 & -> & _).
    discriminate. }
  cbv beta in Ef.
  rewrite (namedImportsCallback_names _ _ raw Hnames) in Ef.
  exists wa, a, wb, b, w, rep.
  split; [exact Ef|]. split; [|split; assumption].
  intros st. rewrite namedImportsPass_fresh. exact E.
Qed.

(** The third pass leaves alone the two imports that the second pass
    writes for a list with names of both kinds. *)
Lemma split_imports_third_pass (sup unsup pre post : str) :
  Forall (fun c => is_named_list_char c = true) sup →
  Forall (fun c => is_named_list_char c = true) unsup →
  ∃ wa a wb b,
    (∀ st,
       fst (defaultSingleImportPass supportedFunctions
              (pre ++ (lit "import { " ++ sup
                       ++ lit " } from 'es-toolkit/compat';import { "
                       ++ unsup ++ lit " } from 'lodash'") ++ post) st)
       = (wa ++ wb,
          Value (a ++ (lit "import { " ++ sup
                       ++ lit " } from 'es-toolkit/compat';import { "
                       ++ unsup ++ lit " } from 'lodash'") ++ b)))
    ∧ (¬ substring (lit "import") pre → a = pre ∧ wa = [])
    ∧ (¬ substring (lit "import") post → b = post ∧ wb = []).
Proof.
  intros Hs Hu.
  assert (lit "import { " ++ sup
          ++ lit " } from 'es-toolkit/compat';import { "
          ++ unsup ++ lit " } from 'lodash'"
          = (lit "import { " ++ sup ++ lit " } from 'es-toolkit/compat'")
            ++ [59%N] ++ (lit "import { " ++ unsup ++ lit " } from 'lodash'"))
    as -> by (rewrite <- !app_assoc; reflexivity).
  assert (∀ tl n pv,
            match_at defaultSingleImportRegex n pv (lit "import { " ++ tl)
            = None) as Hbrace.
  { intros tl n pv.
    apply (defaultSingleImportRegex_not_brace [32%N] (32%N :: tl)).
    split; [discriminate | repeat constructor]. }
  destruct (quiet_pass_form defaultSingleImportRegex
              (fun m cs =>
                 defaultSingleImportCallback supportedFunctions m
                   (cap 1 cs) (cap 2 cs))
              (or_intror (or_intror eq_refl))
              (fun t cs => defaultSingleImportCallback_returns _ _ _ _)
              0 pre
              ((lit "import { " ++ sup ++ lit " } from 'es-toolkit/compat'")
               ++ [59%N]
               ++ (lit "import { " ++ unsup ++ lit " } from 'lodash'"))
              post)
    as (wa & a & wb & b & E & Ha & Hb).
  - left. exists [32%N]. eexists.
    split; [split; [discriminate | repeat constructor]|].
    rewrite <- !app_assoc. reflexivity.
  - apply fails_within_app.
    { apply (compat_import_within _ (or_intror (or_intror eq_refl)));
        [exact Hs|].
      intros n pv. rewrite <- !app_assoc. apply Hbrace. }
    apply fails_within_app.
    { apply fails_within_nonword;
        [exact (or_intror (or_intror eq_refl)) | repeat constructor]. }
    apply (named_stmt_within _ (or_intror (or_intror eq_refl)) unsup);
      [apply lodash_rewrite_text | exact Hu|].
    intros n pv. rewrite <- !app_assoc. apply Hbrace.
  - exists wa, a, wb, b. split; [|split; assumption].
    intros st. rewrite defaultSingleImportPass_fresh. exact E.
Qed.

End NamedListsInText.

Section SplitListsInText.

Variable supportedFunctions : list str.

(** The transform of a text that holds a named-list import with
    supported and unsupported names in its list, whatever stands
    before the import and behind it. *)
Lemma named_list_split_in_text (raw stmt pre post id : str) (st : store)
    (parsed : list NamedImport) :
  named_list_text raw stmt →
  Forall (fun c => is_named_list_char c = true) raw →
  mapW parseNamedImport (namedImportNames raw) = ret parsed →
  let currentSupportedFunctions :=
    List.filter
      (fun ni => isSupportedFunction supportedFunctions (actualName ni))
      parsed in
  let unsupportedFunctions :=
    List.filter
      (fun ni => isUnsupportedFunction supportedFunctions (actualName ni))
      parsed in
  currentSupportedFunctions ≠ [] → unsupportedFunctions ≠ [] →
  ∃ pre1 post1 pre2 post2 pre3 post3 wa1 wb1 wa2 wb2 wa3 wb3 w rep,
    w = [lit "Unsupported lodash function"
         ++ (if 1 <? length unsupportedFunctions then lit "s" else [])
         ++ lit ": " ++ join (lit ", ") (map actualName unsupportedFunctions)]
    ∧ rep = lit "import { " ++ renderNamedImports currentSupportedFunctions
            ++ lit " } from 'es-toolkit/compat';import { "
            ++ renderNamedImports unsupportedFunctions
            ++ lit " } from 'lodash'"
    ∧ namedImportsCallback supportedFunctions stmt raw = (w, Value rep)
    ∧ (∀ st', fst (defaultImportPass supportedFunctions
                     (pre ++ stmt ++ post) st')
              = (wa1 ++ wb1, Value (pre1 ++ stmt ++ post1)))
    ∧ (∀ st', fst (namedImportsPass supportedFunctions
                     (pre1 ++ stmt ++ post1) st')
              = (wa2 ++ w ++ wb2, Value (pre2 ++ rep ++ post2)))
    ∧ (∀ st', fst (defaultSingleImportPass supportedFunctions
                     (pre2 ++ rep ++ post2) st')
              = (wa3 ++ wb3, Value (pre3 ++ rep ++ post3)))
    ∧ fst (transform supportedFunctions (pre ++ stmt ++ post) id st)
      = ((wa1 ++ wb1) ++ (wa2 ++ w ++ wb2) ++ (wa3 ++ wb3),
         Value (Some (mkResult (pre3 ++ rep ++ post3) None)))
    ∧ (¬ substring (lit "import") pre →
       pre1 = pre ∧ pre2 = pre ∧ pre3 = pre
       ∧ wa1 = [] ∧ wa2 = [] ∧ wa3 = [])
    ∧ (¬ substring (lit "import") post →
       post1 = post ∧ post2 = post ∧ post3 = post
       ∧ wb1 = [] ∧ wb2 = [] ∧ wb3 = []).
Proof.
  intros Ht Hraw Hp sup unsup Hsup Hunsup.
  assert (namedImportNames raw ≠ []) as Hne.
  { intros E. rewrite E in Hp. injection Hp as <-. apply Hsup. reflexivity. }
  pose proof (namedImportsCallback_parsed supportedFunctions stmt raw parsed
                Hp) as Hcb.
  cbv zeta in Hcb. fold sup unsup in Hcb.
  rewrite (nonempty_true unsup), (nonempty_true sup) in Hcb by assumption.
  destruct (named_list_first_pass supportedFunctions raw stmt pre post
              Ht Hraw)
    as (wa1 & pre1 & wb1 & post1 & E1 & Ha1 & Hb1).
  destruct (named_list_second_pass supportedFunctions raw stmt pre1 post1
              Ht Hraw Hne)
    as (wa2 & pre2 & wb2 & post2 & w & rep & Ef & E2 & Ha2 & Hb2).
  rewrite Hcb in Ef. injection Ef as <- <-.
  destruct (split_imports_third_pass supportedFunctions
              (renderNamedImports sup) (renderNamedImports unsup) pre2 post2)
    as (wa3 & pre3 & wb3 & post3 & E3 & Ha3 & Hb3).
  { apply (render_group_chars raw); assumption. }
  { apply (render_group_chars raw); assumption. }
  eexists pre1, post1, pre2, post2, pre3, post3, wa1, wb1, wa2, wb2, wa3, wb3,
          _, _.
  split; [reflexivity|]. split; [reflexivity|]. split; [exact Hcb|].
  split; [exact E1|]. split; [exact E2|]. split; [exact E3|].
  split; [|split].
  - apply (transform_of_passes _ _ _ _ _ _ _ _ _ _
             (includes_after pre _ _ (named_list_has_lodash raw stmt post Ht))
             E1 E2 E3).
  - intros Hpre. destruct (Ha1 Hpre) as [-> ->].
    destruct (Ha2 Hpre) as [-> ->]. destruct (Ha3 Hpre) as [-> ->]. auto 10.
  - intros Hpost. destruct (Hb1 Hpost) as [-> ->].
    destruct (Hb2 Hpost) as [-> ->]. destruct (Hb3 Hpost) as [-> ->]. auto 10.
Qed.

End SplitListsInText.

(** * The three shapes of import, wherever they stand in a text *)

(** C4.  An import [import <name> from 'lodash/<symbol>'] (with [.js]
    after the symbol or without) that stands anywhere in a text,
    whatever comes before it and behind it, other imports too: the
    first two passes leave the import as it is and the third pass
    finds it where it stands and puts in its place what its callback
    gives for it.  The callback warns and gives the statement back
    when the symbol is not supported; otherwise it gives an import of
    the symbol from [es-toolkit/compat], renamed with [as] exactly when
    the name differs from the symbol.  The text that the transform
    returns holds that in the place of the import; what stands before
    the import and behind it is changed, and warned about, only where
    it holds imports of its own.  Whatever the third pass matches in a
    text is such an import, and the pass rewrites the matches of its
    pattern by the callback and nothing else.  The import of the
    scenario becomes [import { isEqual as lodashIsEqual } from
    'es-toolkit/compat']. *)
Theorem single_import_rewrite :
  (∀ (supportedFunctions : list str) (src : str) (ms : list found)
      (lf : nat) (m : found),
      exec_all (enough src) defaultSingleImportRegex src 0 = Some (ms, lf) →
      m ∈ ms →
      ∃ name symbol,
        single_import_text name symbol (m_text m)
        ∧ word_run name ∧ word_run symbol
        ∧ cap 1 (m_caps m) = name ∧ cap 2 (m_caps m) = symbol
        ∧ (isSupportedFunction supportedFunctions symbol = false →
           defaultSingleImportCallback supportedFunctions (m_text m)
             name symbol
           = ([lit "Unsupported lodash function: " ++ symbol],
              Value (m_text m)))
        ∧ (isSupportedFunction supportedFunctions symbol = true →
           name = symbol →
           defaultSingleImportCallback supportedFunctions (m_text m)
             name symbol
           = ret (lit "import { " ++ symbol
                  ++ lit " } from 'es-toolkit/compat'"))
        ∧ (isSupportedFunction supportedFunctions symbol = true →
           name ≠ symbol →
           defaultSingleImportCallback supportedFunctions (m_text m)
             name symbol
           = ret (lit "import { " ++ symbol ++ lit " as " ++ name
                  ++ lit " } from 'es-toolkit/compat'")))
  ∧ (∀ (supportedFunctions : list str) (src : str) (st : store),
        rewrites_matches defaultSingleImportRegex
          (fun m cs =>
             defaultSingleImportCallback supportedFunctions m
               (cap 1 cs) (cap 2 cs))
          src (fst (defaultSingleImportPass supportedFunctions src st)))
  ∧ (∀ (supportedFunctions : list str) (name symbol stmt pre post id : str)
        (st : store),
        single_import_text name symbol stmt →
        word_run name → word_run symbol →
        ∃ pre1 post1 pre2 post2 pre3 post3 wa1 wb1 wa2 wb2 wa3 wb3 w rep,
          (isSupportedFunction supportedFunctions symbol = false →
           w = [lit "Unsupported lodash function: " ++ symbol] ∧ rep = stmt)
          ∧ (isSupportedFunction supportedFunctions symbol = true →
             name = symbol →
             w = []
             ∧ rep = lit "import { " ++ symbol
                     ++ lit " } from 'es-toolkit/compat'")
          ∧ (isSupportedFunction supportedFunctions symbol = true →
             name ≠ symbol →
             w = []
             ∧ rep = lit "import { " ++ symbol ++ lit " as " ++ name
                     ++ lit " } from 'es-toolkit/compat'")
          ∧ (∀ st', fst (defaultImportPass supportedFunctions
                           (pre ++ stmt ++ post) st')
                    = (wa1 ++ wb1, Value (pre1 ++ stmt ++ post1)))
          ∧ (∀ st', fst (namedImportsPass supportedFunctions
                           (pre1 ++ stmt ++ post1) st')
                    = (wa2 ++ wb2, Value (pre2 ++ stmt ++ post2)))
          ∧ (∀ st', fst (defaultSingleImportPass supportedFunctions
                           (pre2 ++ stmt ++ post2) st')
                    = (wa3 ++ w ++ wb3, Value (pre3 ++ rep ++ post3)))
          ∧ fst (transform supportedFunctions (pre ++ stmt ++ post) id st)
            = ((wa1 ++ wb1) ++ (wa2 ++ wb2) ++ (wa3 ++ w ++ wb3),
               Value (Some (mkResult (pre3 ++ rep ++ post3) None)))
          ∧ (¬ substring (lit "import") pre →
             pre1 = pre ∧ pre2 = pre ∧ pre3 = pre
             ∧ wa1 = [] ∧ wa2 = [] ∧ wa3 = [])
          ∧ (¬ substring (lit "import") post →
             post1 = post ∧ post2 = post ∧ post3 = post
             ∧ wb1 = [] ∧ wb2 = [] ∧ wb3 = []))
  ∧ (∀ (supportedFunctions : list str) (name symbol stmt pre post id : str)
        (st : store),
        single_import_text name symbol stmt →
        word_run name → word_run symbol →
        ¬ substring (lit "import") pre →
        ¬ substring (lit "import") post →
        (isSupportedFunction supportedFunctions symbol = false →
         fst (transform supportedFunctions (pre ++ stmt ++ post) id st)
         = ([lit "Unsupported lodash function: " ++ symbol],
            Value (Some (mkResult (pre ++ stmt ++ post) None))))
        ∧ (isSupportedFunction supportedFunctions symbol = true →
           name = symbol →
           fst (transform supportedFunctions (pre ++ stmt ++ post) id st)
           = ret (Some (mkResult
                    (pre ++ (lit "import { " ++ symbol
                             ++ lit " } from 'es-toolkit/compat'") ++ post)
                    None)))
        ∧ (isSupportedFunction supportedFunctions symbol = true →
           name ≠ symbol →
           fst (transform supportedFunctions (pre ++ stmt ++ post) id st)
           = ret (Some (mkResult
                    (pre ++ (lit "import { " ++ symbol ++ lit " as " ++ name
                             ++ lit " } from 'es-toolkit/compat'") ++ post)
                    None))))
  ∧ (∀ (id : str) (st : store),
        fst (transform [lit "isEqual"]
               (lit "import lodashIsEqual from 'lodash/isEqual';") id st)
        = ret (Some (mkResult
                 (lit "import { isEqual as lodashIsEqual } from 'es-toolkit/compat';")
                 None))
        ∧ fst (transform [lit "isEqual"]
                 (lit "import isEqual from 'lodash/isEqual.js';") id st)
          = ret (Some (mkResult
                   (lit "import { isEqual } from 'es-toolkit/compat';") None))
        ∧ fst (transform [lit "isEqual"]
                 (lit "import every from 'lodash/every';") id st)
          = ([lit "Unsupported lodash function: every"],
             Value (Some (mkResult
                      (lit "import every from 'lodash/every';") None))))
  ∧ (∀ (id : str) (st : store),
        fst (transform [lit "isEqual"]
               (lit "import a from 'x'; import isEqual from 'lodash/isEqual'; isEqual(1, 1);")
               id st)
        = ret (Some (mkResult
                 (lit "import a from 'x'; import { isEqual } from 'es-toolkit/compat'; isEqual(1, 1);")
                 None))
        ∧ fst (transform [lit "isEqual"]
                 (lit "import lodashIsEqual from 'lodash/isEqual';import every from 'lodash/every';")
                 id st)
          = ([lit "Unsupported lodash function: every"],
             Value (Some (mkResult
                      (lit "import { isEqual as lodashIsEqual } from 'es-toolkit/compat';import every from 'lodash/every';")
                      None)))).
Proof.
  split; [|split; [exact defaultSingleImportPass_rewrites|split; [|split;
    [|split]]]].
  - intros fns src ms lf m Hex Hm.
    apply (exec_all_matches _ _ _ _ _ Hex) in Hm.
    apply defaultSingleImportRegex_shape in Hm
      as (name & symbol & C1 & C2 & Hn & Hs & Ht).
    exists name, symbol.
    split; [exact Ht|]. split; [exact Hn|]. split; [exact Hs|].
    split; [exact C1|]. split; [exact C2|]. split; [|split].
    + apply defaultSingleImportCallback_unsupported.
    + intros Hsup ->. apply defaultSingleImportCallback_same, Hsup.
    + apply defaultSingleImportCallback_renamed.
  - intros fns name symbol stmt pre post id st Ht Hn Hs.
    destruct (single_import_in_text fns name symbol stmt pre post id st
                Ht Hn Hs)
      as (pre1 & post1 & pre2 & post2 & pre3 & post3 & wa1 & wb1 & wa2 & wb2
          & wa3 & wb3 & w & rep & Ef & E1 & E2 & E3 & Et & Hpre & Hpost).
    exists pre1, post1, pre2, post2, pre3, post3, wa1, wb1, wa2, wb2, wa3,
           wb3, w, rep.
    split; [|split; [|split]]; [| | |auto 10].
    + intros H. rewrite defaultSingleImportCallback_unsupported in Ef
        by exact H.
      injection Ef as <- <-. split; reflexivity.
    + intros H ->. rewrite defaultSingleImportCallback_same in Ef by exact H.
      injection Ef as <- <-. split; reflexivity.
    + intros H Hne. rewrite defaultSingleImportCallback_renamed in Ef
        by assumption.
      injection Ef as <- <-. split; reflexivity.
  - intros fns name symbol stmt pre post id st Ht Hn Hs Hpre Hpost.
    rewrite (single_import_alone fns name symbol) by assumption.
    split; [|split].
    + intros H. rewrite defaultSingleImportCallback_unsupported by exact H.
      reflexivity.
    + intros H ->. rewrite defaultSingleImportCallback_same by exact H.
      reflexivity.
    + intros H Hne.
      rewrite defaultSingleImportCallback_renamed by assumption.
      reflexivity.
  - intros id st. rewrite !transform_fst. repeat split; vm_compute; reflexivity.
  - intros id st. rewrite !transform_fst. split; vm_compute; reflexivity.
Qed.

(** C5.  An import [import <name> from 'lodash'] that stands anywhere
    in a text, whatever comes before it and behind it, other imports
    too: the first pass finds it where it stands and puts in its place
    what its callback gives for it, and the other two passes leave
    that as it is.  When the scan of the text for the usages
    [<name>.<symbol>] finds none, the callback gives the import back
    and writes nothing; when some symbol found is not supported, the
    callback writes one warning that lists the unsupported symbols
    found, and gives the import back.  In both cases the text that the
    transform returns holds the import where it was; what stands
    before the import and behind it is changed, and warned about, only
    where it holds imports of its own.  Whatever the first pass
    matches in a text is such an import, and the pass rewrites the
    matches of its pattern by the callback and nothing else.  The text
    of the scenario comes out as it went in, with one warning that
    names [unknownFn]. *)
Theorem default_import_kept :
  (∀ (supportedFunctions : list str) (src : str) (ms : list found)
      (lf : nat) (m : found),
      exec_all (enough src) defaultImportRegex src 0 = Some (ms, lf) →
      m ∈ ms →
      ∃ name,
        default_import_text name (m_text m) ∧ word_run name
        ∧ cap 1 (m_caps m) = name
        ∧ (match_all src (usageRegex name) = ret None →
           defaultImportCallback supportedFunctions src (m_text m) name
           = ret (m_text m))
        ∧ (∀ usages,
              match_all src (usageRegex name) = ret (Some usages) →
              let unsupportedFunctions :=
                List.filter (isUnsupportedFunction supportedFunctions)
                            (usedFunctions usages) in
              (∀ symbol,
                  symbol ∈ unsupportedFunctions
                  ↔ name ++ lit "." ++ symbol ∈ usages
                    ∧ isSupportedFunction supportedFunctions symbol = false)
              ∧ (unsupportedFunctions ≠ [] →
                 defaultImportCallback supportedFunctions src (m_text m) name
                 = ([lit "Unsupported lodash function"
                     ++ (if 1 <? length unsupportedFunctions
                         then lit "s" else [])
                     ++ lit ": " ++ join (lit ", ") unsupportedFunctions],
                    Value (m_text m)))))
  ∧ (∀ (supportedFunctions : list str) (src : str) (st : store),
        rewrites_matches defaultImportRegex
          (fun m cs =>
             defaultImportCallback supportedFunctions src m (cap 1 cs))
          src (fst (defaultImportPass supportedFunctions src st)))
  ∧ (∀ (supportedFunctions : list str) (name stmt pre post id : str)
        (st : store),
        default_import_text name stmt → word_run name →
        ∃ pre1 post1 pre2 post2 pre3 post3 wa1 wb1 wa2 wb2 wa3 wb3 w rep,
          (match_all (pre ++ stmt ++ post) (usageRegex name) = ret None →
           w = [] ∧ rep = stmt)
          ∧ (∀ usages,
                match_all (pre ++ stmt ++ post) (usageRegex name)
                = ret (Some usages) →
                let unsupportedFunctions :=
                  List.filter (isUnsupportedFunction supportedFunctions)
                              (usedFunctions usages) in
                unsupportedFunctions ≠ [] →
                w = [lit "Unsupported lodash function"
                     ++ (if 1 <? length unsupportedFunctions
                         then lit "s" else [])
                     ++ lit ": " ++ join (lit ", ") unsupportedFunctions]
                ∧ rep = stmt)
          ∧ (∀ st', fst (defaultImportPass supportedFunctions
                           (pre ++ stmt ++ post) st')
                    = (wa1 ++ w ++ wb1, Value (pre1 ++ rep ++ post1)))
          ∧ (∀ st', fst (namedImportsPass supportedFunctions
                           (pre1 ++ rep ++ post1) st')
                    = (wa2 ++ wb2, Value (pre2 ++ rep ++ post2)))
          ∧ (∀ st', fst (defaultSingleImportPass supportedFunctions
                           (pre2 ++ rep ++ post2) st')
                    = (wa3 ++ wb3, Value (pre3 ++ rep ++ post3)))
          ∧ fst (transform supportedFunctions (pre ++ stmt ++ post) id st)
            = ((wa1 ++ w ++ wb1) ++ (wa2 ++ wb2) ++ (wa3 ++ wb3),
               Value (Some (mkResult (pre3 ++ rep ++ post3) None)))
          ∧ (¬ substring (lit "import") pre →
             pre1 = pre ∧ pre2 = pre ∧ pre3 = pre
             ∧ wa1 = [] ∧ wa2 = [] ∧ wa3 = [])
          ∧ (¬ substring (lit "import") post →
             post1 = post ∧ post2 = post ∧ post3 = post
             ∧ wb1 = [] ∧ wb2 = [] ∧ wb3 = []))
  ∧ (∀ (supportedFunctions : list str) (name stmt pre post id : str)
        (st : store),
        default_import_text name stmt → word_run name →
        ¬ substring (lit "import") pre →
        ¬ substring (lit "import") post →
        (match_all (pre ++ stmt ++ post) (usageRegex name) = ret None →
         fst (transform supportedFunctions (pre ++ stmt ++ post) id st)
         = ret (Some (mkResult (pre ++ stmt ++ post) None)))
        ∧ (∀ usages,
              match_all (pre ++ stmt ++ post) (usageRegex name)
              = ret (Some usages) →
              let unsupportedFunctions :=
                List.filter (isUnsupportedFunction supportedFunctions)
                            (usedFunctions usages) in
              unsupportedFunctions ≠ [] →
              fst (transform supportedFunctions (pre ++ stmt ++ post) id st)
              = ([lit "Unsupported lodash function"
                  ++ (if 1 <? length unsupportedFunctions
                      then lit "s" else [])
                  ++ lit ": " ++ join (lit ", ") unsupportedFunctions],
                 Value (Some (mkResult (pre ++ stmt ++ post) None)))))
  ∧ (∀ (id : str) (st : store),
        fst (transform [lit "isEqual"]
               (lit "import _ from 'lodash'; _.unknownFn();") id st)
        = ([lit "Unsupported lodash function: unknownFn"],
           Value (Some (mkResult
                    (lit "import _ from 'lodash'; _.unknownFn();") None))))
  ∧ (∀ (id : str) (st : store),
        fst (transform [lit "isEqual"]
               (lit "import a from 'x'; import _ from 'lodash'; _.unknownFn(); _.isEqual(1, 1);")
               id st)
        = ([lit "Unsupported lodash function: unknownFn"],
           Value (Some (mkResult
                    (lit "import a from 'x'; import _ from 'lodash'; _.unknownFn(); _.isEqual(1, 1);")
                    None)))
        ∧ fst (transform [lit "isEqual"]
                 (lit "import a from 'x'; import _ from 'lodash'; a();") id st)
          = ret (Some (mkResult
                   (lit "import a from 'x'; import _ from 'lodash'; a();")
                   None))).
Proof.
  split; [|split; [exact defaultImportPass_rewrites|split; [|split;
    [|split]]]].
  - intros fns src ms lf m Hex Hm.
    apply (exec_all_matches _ _ _ _ _ Hex) in Hm.
    apply defaultImportRegex_shape in Hm as (name & C1 & Hn & Ht).
    exists name.
    split; [exact Ht|]. split; [exact Hn|]. split; [exact C1|]. split.
    { apply defaultImportCallback_unused. }
    intros usages Hscan unsupportedFunctions.
    destruct (match_all_usages _ _ _ Hscan) as [_ Hu].
    pose proof (usedFunctions_spec name usages (proj2 Hn) Hu) as Hused.
    split.
    + intros symbol. unfold unsupportedFunctions, isUnsupportedFunction.
      rewrite list_elem_of_In, filter_In, <- list_elem_of_In, Hused.
      rewrite negb_true_iff. reflexivity.
    + intros Hne.
      apply (defaultImportCallback_unsupported fns src _ name usages);
        assumption.
  - intros fns name stmt pre post id st Ht Hn.
    destruct (default_import_in_text fns name stmt pre post id st Ht Hn)
      as (pre1 & post1 & pre2 & post2 & pre3 & post3 & wa1 & wb1 & wa2 & wb2
          & wa3 & wb3 & w & rep & Ef & E1 & E2 & E3 & Et & Hpre & Hpost).
    exists pre1, post1, pre2, post2, pre3, post3, wa1, wb1, wa2, wb2, wa3,
           wb3, w, rep.
    split; [|split]; [| |auto 10].
    + intros Hscan. rewrite defaultImportCallback_unused in Ef by exact Hscan.
      injection Ef as <- <-. split; reflexivity.
    + intros usages Hscan unsupportedFunctions Hne.
      rewrite (defaultImportCallback_unsupported fns _ _ name usages) in Ef
        by assumption.
      injection Ef as <- <-. split; reflexivity.
  - intros fns name stmt pre post id st Ht Hn Hpre Hpost.
    rewrite (default_import_alone fns name) by assumption. split.
    + intros Hscan. rewrite defaultImportCallback_unused by exact Hscan.
      reflexivity.
    + intros usages Hscan unsupportedFunctions Hne.
      rewrite (defaultImportCallback_unsupported fns _ _ name usages)
        by assumption.
      reflexivity.
  - intros id st. rewrite transform_fst. vm_compute. reflexivity.
  - intros id st. rewrite !transform_fst. split; vm_compute; reflexivity.
Qed.

(** C1.  An import [import <name> from 'lodash'] that stands anywhere
    in a text, whatever comes before it and behind it: when the scan of
    the text for the usages [<name>.<symbol>] finds at least one usage
    and every symbol found is supported, the first pass puts [import {
    * as <name> } from 'es-toolkit/compat'] in the place of the import,
    the other two passes leave that as it is, and the transform
    returns the text with it.  What is written has the star between
    braces: it is not the namespace import [import * as <name> from
    'es-toolkit/compat'] of the specification.  The text of the
    scenario, [import _ from 'lodash'; _.isEqual(1,1);] with [isEqual]
    supported, comes out as [import { * as _ } from
    'es-toolkit/compat'; _.isEqual(1,1);]: the line of the usage is as
    it was, and the import is not the namespace import. *)
Theorem default_import_rewrite :
  (∀ (supportedFunctions : list str) (src : str) (ms : list found)
      (lf : nat) (m : found) (usages : list str),
      exec_all (enough src) defaultImportRegex src 0 = Some (ms, lf) →
      m ∈ ms →
      match_all src (usageRegex (cap 1 (m_caps m))) = ret (Some usages) →
      (∀ symbol,
          cap 1 (m_caps m) ++ lit "." ++ symbol ∈ usages →
          isSupportedFunction supportedFunctions symbol = true) →
      ∃ name,
        default_import_text name (m_text m) ∧ word_run name
        ∧ cap 1 (m_caps m) = name
        ∧ usages ≠ []
        ∧ defaultImportCallback supportedFunctions src (m_text m) name
          = ret (lit "import { * as " ++ name
                 ++ lit " } from 'es-toolkit/compat'"))
  ∧ (∀ (supportedFunctions : list str) (src : str) (st : store),
        rewrites_matches defaultImportRegex
          (fun m cs =>
             defaultImportCallback supportedFunctions src m (cap 1 cs))
          src (fst (defaultImportPass supportedFunctions src st)))
  ∧ (∀ (supportedFunctions : list str) (name stmt pre post id : str)
        (st : store) (usages : list str),
        default_import_text name stmt → word_run name →
        match_all (pre ++ stmt ++ post) (usageRegex name)
        = ret (Some usages) →
        (∀ symbol,
            name ++ lit "." ++ symbol ∈ usages →
            isSupportedFunction supportedFunctions symbol = true) →
        ∃ pre1 post1 pre2 post2 pre3 post3 wa1 wb1 wa2 wb2 wa3 wb3 rep,
          rep = lit "import { * as " ++ name
                ++ lit " } from 'es-toolkit/compat'"
          ∧ rep ≠ namespace_import name
          ∧ (∀ st', fst (defaultImportPass supportedFunctions
                           (pre ++ stmt ++ post) st')
                    = (wa1 ++ wb1, Value (pre1 ++ rep ++ post1)))
          ∧ (∀ st', fst (namedImportsPass supportedFunctions
                           (pre1 ++ rep ++ post1) st')
                    = (wa2 ++ wb2, Value (pre2 ++ rep ++ post2)))
          ∧ (∀ st', fst (defaultSingleImportPass supportedFunctions
                           (pre2 ++ rep ++ post2) st')
                    = (wa3 ++ wb3, Value (pre3 ++ rep ++ post3)))
          ∧ fst (transform supportedFunctions (pre ++ stmt ++ post) id st)
            = ((wa1 ++ wb1) ++ (wa2 ++ wb2) ++ (wa3 ++ wb3),
               Value (Some (mkResult (pre3 ++ rep ++ post3) None)))
          ∧ (¬ substring (lit "import") pre →
             pre1 = pre ∧ pre2 = pre ∧ pre3 = pre
             ∧ wa1 = [] ∧ wa2 = [] ∧ wa3 = [])
          ∧ (¬ substring (lit "import") post →
             post1 = post ∧ post2 = post ∧ post3 = post
             ∧ wb1 = [] ∧ wb2 = [] ∧ wb3 = []))
  ∧ (∀ (supportedFunctions : list str) (name stmt pre post id : str)
        (st : store) (usages : list str),
        default_import_text name stmt → word_run name →
        ¬ substring (lit "import") pre →
        ¬ substring (lit "import") post →
        match_all (pre ++ stmt ++ post) (usageRegex name) = ret (Some usages) →
        (∀ symbol,
            name ++ lit "." ++ symbol ∈ usages →
            isSupportedFunction supportedFunctions symbol = true) →
        fst (transform supportedFunctions (pre ++ stmt ++ post) id st)
        = ret (Some (mkResult
                 (pre ++ (lit "import { * as " ++ name
                          ++ lit " } from 'es-toolkit/compat'") ++ post)
                 None)))
  ∧ (∀ (id : str) (st : store),
        fst (transform [lit "isEqual"]
               (lit "import _ from 'lodash'; _.isEqual(1,1);") id st)
        = ret (Some (mkResult
                 (lit "import { * as _ } from 'es-toolkit/compat'; _.isEqual(1,1);")
                 None)))
  ∧ (∀ name : str,
        lit "import { * as " ++ name ++ lit " } from 'es-toolkit/compat'"
        ≠ namespace_import name)
  ∧ (∀ (id : str) (st : store),
        fst (transform [lit "isEqual"]
               (lit "import _ from 'lodash'; _.isEqual(1,1);") id st)
        ≠ ret (Some (mkResult
                 (namespace_import (lit "_") ++ lit "; _.isEqual(1,1);")
                 None))).
Proof.
  assert (∀ name : str,
            lit "import { * as " ++ name ++ lit " } from 'es-toolkit/compat'"
            ≠ namespace_import name) as Hdiff.
  { intros name H. apply (f_equal (fun s => s !! 7)) in H.
    vm_compute in H. discriminate H. }
  split; [|split; [exact defaultImportPass_rewrites|split; [|split;
    [|split; [|split; [exact Hdiff|]]]]]].
  - intros fns src ms lf m usages Hex Hm Hscan Hsup.
    apply (exec_all_matches _ _ _ _ _ Hex) in Hm.
    apply defaultImportRegex_shape in Hm as (name & C1 & Hn & Ht).
    rewrite C1 in *. exists name.
    destruct (match_all_usages _ _ _ Hscan) as [Hne Hu].
    split; [exact Ht|]. split; [exact Hn|]. split; [reflexivity|].
    split; [exact Hne|].
    apply (defaultImportCallback_supported fns src _ name usages); assumption.
  - intros fns name stmt pre post id st usages Ht Hn Hscan Hsup.
    destruct (default_import_in_text fns name stmt pre post id st Ht Hn)
      as (pre1 & post1 & pre2 & post2 & pre3 & post3 & wa1 & wb1 & wa2 & wb2
          & wa3 & wb3 & w & rep & Ef & E1 & E2 & E3 & Et & Hpre & Hpost).
    rewrite (defaultImportCallback_supported fns _ _ name usages) in Ef
      by assumption.
    injection Ef as <- <-.
    eexists pre1, post1, pre2, post2, pre3, post3, wa1, wb1, wa2, wb2, wa3,
            wb3, _.
    split; [reflexivity|]. split; [apply Hdiff|]. auto 10.
  - intros fns name stmt pre post id st usages Ht Hn Hpre Hpost Hscan Hsup.
    rewrite (default_import_alone fns name) by assumption.
    rewrite (defaultImportCallback_supported fns _ _ name usages)
      by assumption.
    reflexivity.
  - intros id st. rewrite transform_fst. vm_compute. reflexivity.
  - intros id st. rewrite transform_fst. vm_compute. discriminate.
Qed.

Section ThreePasses.

Variable supportedFunctions : list str.

Lemma rewrites_matches_value (r : pattern) (f : callback) (s : str)
    (res : W str) :
  rewrites_matches r f s res → ∃ w s', res = (w, Value s').
Proof. intros (ms & gaps & reps & _ & _ & _ & _ & ->). eauto. Qed.

(** The text that the transform returns is the text after the three
    passes: each pass takes the text of the pass before it and
    replaces the matches of its pattern by what its callback gives. *)
Lemma transform_three_passes (src id : str) (st : store) :
  includes src (lit "lodash") = true →
  ∃ src1 src2 src3 w1 w2 w3,
    rewrites_matches defaultImportRegex
      (fun m cs => defaultImportCallback supportedFunctions src m (cap 1 cs))
      src (w1, Value src1)
    ∧ rewrites_matches namedImportsRegex
        (fun m cs => namedImportsCallback supportedFunctions m (cap 1 cs))
        src1 (w2, Value src2)
    ∧ rewrites_matches defaultSingleImportRegex
        (fun m cs =>
           defaultSingleImportCallback supportedFunctions m
             (cap 1 cs) (cap 2 cs))
        src2 (w3, Value src3)
    ∧ fst (transform supportedFunctions src id st)
      = (w1 ++ w2 ++ w3, Value (Some (mkResult src3 None))).
Proof.
  intros Hin.
  pose proof (defaultImportPass_rewrites supportedFunctions src store0) as R1.
  destruct (rewrites_matches_value _ _ _ _ R1) as (w1 & src1 & E1).
  pose proof (namedImportsPass_rewrites supportedFunctions src1 store0) as R2.
  destruct (rewrites_matches_value _ _ _ _ R2) as (w2 & src2 & E2).
  pose proof (defaultSingleImportPass_rewrites supportedFunctions src2 store0)
    as R3.
  destruct (rewrites_matches_value _ _ _ _ R3) as (w3 & src3 & E3).
  exists src1, src2, src3, w1, w2, w3.
  split; [rewrite <- E1; exact R1|]. split; [rewrite <- E2; exact R2|].
  split; [rewrite <- E3; exact R3|].
  apply (transform_of_passes supportedFunctions src src1 src2);
    [exact Hin | | |]; intros st'.
  - rewrite <- E1, !defaultImportPass_fresh. reflexivity.
  - rewrite <- E2, !namedImportsPass_fresh. reflexivity.
  - rewrite <- E3, !defaultSingleImportPass_fresh. reflexivity.
Qed.

End ThreePasses.

(** C3.  The transform returns [undefined] exactly when the text does
    not have the library name in it, and then it writes no warning;
    when the text has the library name in it, the transform returns an
    object with the rewritten text and a [null] source map.  The
    rewritten text is the text after the three passes, each of which
    replaces the matches of its pattern in the text of the pass
    before it by what its callback gives, and changes nothing else;
    the warnings are those of the three passes. *)
Theorem transform_unchanged_signal
    (supportedFunctions : list str) (src id : str) (st : store) :
  (result (fst (transform supportedFunctions src id st)) = Value None
   ↔ ¬ substring (lit "lodash") src)
  ∧ (¬ substring (lit "lodash") src →
     warnings (fst (transform supportedFunctions src id st)) = [])
  ∧ (substring (lit "lodash") src →
     ∃ src1 src2 src3 w1 w2 w3,
       rewrites_matches defaultImportRegex
         (fun m cs =>
            defaultImportCallback supportedFunctions src m (cap 1 cs))
         src (w1, Value src1)
       ∧ rewrites_matches namedImportsRegex
           (fun m cs => namedImportsCallback supportedFunctions m (cap 1 cs))
           src1 (w2, Value src2)
       ∧ rewrites_matches defaultSingleImportRegex
           (fun m cs =>
              defaultSingleImportCallback supportedFunctions m
                (cap 1 cs) (cap 2 cs))
           src2 (w3, Value src3)
       ∧ fst (transform supportedFunctions src id st)
         = (w1 ++ w2 ++ w3, Value (Some (mkResult src3 None)))).
Proof.
  rewrite <- includes_false, <- includes_spec.
  destruct (includes src (lit "lodash")) eqn:Hin.
  - destruct (transform_three_passes supportedFunctions src id st Hin)
      as (src1 & src2 & src3 & w1 & w2 & w3 & R1 & R2 & R3 & E).
    split; [|split].
    + rewrite E. simpl. split; intros H; discriminate H.
    + intros H. discriminate H.
    + intros _. exists src1, src2, src3, w1, w2, w3. auto.
  - rewrite transform_skips by exact Hin. simpl. repeat split; easy.
Qed.

Section Clauses.

(** The renderer writes the clause of a name. *)
Lemma render_clause (ni : NamedImport) :
  renderNamedImport ni = import_clause ni.
Proof.
  unfold renderNamedImport, import_clause.
  destruct (decide (customName ni = actualName ni)) as [E | E].
  - rewrite E, str_eqb_refl. reflexivity.
  - rewrite str_eqb_neq by congruence. reflexivity.
Qed.

Lemma render_clauses (nis : list NamedImport) :
  renderNamedImports nis = join (lit ", ") (map import_clause nis).
Proof.
  unfold renderNamedImports. f_equal. apply map_ext, render_clause.
Qed.

End Clauses.

(** C2.  An import [import { <raw> } from 'lodash'] that stands
    anywhere in a text, whatever comes before it and behind it, other
    imports too, with any list of names, renamed or not, and any white
    space in it: when the parsed tokens of the list fall into a
    supported group and an unsupported group that are both not empty,
    the first pass leaves the import as it is, the second pass finds
    it where it stands, writes one warning that names the unsupported
    symbols, and puts two imports in its place on one line, with [;]
    and nothing else between them: the supported group from
    [es-toolkit/compat], then the unsupported group from [lodash], each
    name written alone or, when it is renamed, as [<symbol> as
    <Name>]; the third pass leaves the two imports as they are.  The
    text that the transform returns holds the two imports in the place
    of the import; what stands before the import and behind it is
    changed, and warned about, only where it holds imports of its own.
    Whatever the second pass matches in a text is such an import, and
    the pass rewrites the matches of its pattern by the callback and
    nothing else.  In the scenario the import becomes [import { isEqual
    } from 'es-toolkit/compat';import { every } from 'lodash'], and the
    semicolon that follows the import in the text stays where it
    is. *)
Theorem named_list_split :
  (∀ (supportedFunctions : list str) (src : str) (ms : list found)
      (lf : nat) (m : found),
      exec_all (enough src) namedImportsRegex src 0 = Some (ms, lf) →
      m ∈ ms →
      ∃ raw parsed,
        named_list_text raw (m_text m) ∧ cap 1 (m_caps m) = raw
        ∧ mapW parseNamedImport (namedImportNames raw) = ret parsed
        ∧ let currentSupportedFunctions :=
            List.filter
              (fun ni => isSupportedFunction supportedFunctions (actualName ni))
              parsed in
          let unsupportedFunctions :=
            List.filter
              (fun ni => isUnsupportedFunction supportedFunctions (actualName ni))
              parsed in
          currentSupportedFunctions ≠ [] → unsupportedFunctions ≠ [] →
          namedImportsCallback supportedFunctions (m_text m) raw
          = ([lit "Unsupported lodash function"
              ++ (if 1 <? length unsupportedFunctions then lit "s" else [])
              ++ lit ": "
              ++ join (lit ", ") (map actualName unsupportedFunctions)],
             Value (lit "import { "
                    ++ renderNamedImports currentSupportedFunctions
                    ++ lit " } from 'es-toolkit/compat';import { "
                    ++ renderNamedImports unsupportedFunctions
                    ++ lit " } from 'lodash'")))
  ∧ (∀ (supportedFunctions : list str) (src : str) (st : store),
        rewrites_matches namedImportsRegex
          (fun m cs => namedImportsCallback supportedFunctions m (cap 1 cs))
          src (fst (namedImportsPass supportedFunctions src st)))
  ∧ (∀ (supportedFunctions : list str) (raw stmt pre post id : str)
        (st : store) (parsed : list NamedImport),
        named_list_text raw stmt →
        Forall (fun c => is_named_list_char c = true) raw →
        mapW parseNamedImport (namedImportNames raw) = ret parsed →
        let currentSupportedFunctions :=
          List.filter
            (fun ni => isSupportedFunction supportedFunctions (actualName ni))
            parsed in
        let unsupportedFunctions :=
          List.filter
            (fun ni =>
               isUnsupportedFunction supportedFunctions (actualName ni))
            parsed in
        currentSupportedFunctions ≠ [] → unsupportedFunctions ≠ [] →
        ¬ substring (lit "import") pre →
        ¬ substring (lit "import") post →
        fst (transform supportedFunctions (pre ++ stmt ++ post) id st)
        = ([lit "Unsupported lodash function"
            ++ (if 1 <? length unsupportedFunctions then lit "s" else [])
            ++ lit ": "
            ++ join (lit ", ") (map actualName unsupportedFunctions)],
           Value (Some (mkResult
             (pre
              ++ (lit "import { "
                  ++ join (lit ", ")
                       (map import_clause currentSupportedFunctions)
                  ++ lit " } from 'es-toolkit/compat';import { "
                  ++ join (lit ", ") (map import_clause unsupportedFunctions)
                  ++ lit " } from 'lodash'")
              ++ post) None))))
  ∧ namedImportsCallback [lit "isEqual"]
      (lit "import { isEqual, every } from 'lodash'") (lit "isEqual, every ")
    = ([lit "Unsupported lodash function: every"],
       Value (lit "import { isEqual } from 'es-toolkit/compat';import { every } from 'lodash'"))
  ∧ (∀ (id : str) (st : store),
        fst (transform [lit "isEqual"]
               (lit "import { isEqual, every } from 'lodash';") id st)
        = ([lit "Unsupported lodash function: every"],
           Value (Some (mkResult
                    (lit "import { isEqual } from 'es-toolkit/compat';import { every } from 'lodash'"
                     ++ lit ";")
                    None))))
  ∧ (∀ nis : list NamedImport,
        renderNamedImports nis = join (lit ", ") (map import_clause nis))
  ∧ (∀ (supportedFunctions : list str) (raw stmt pre post id : str)
        (st : store) (parsed : list NamedImport),
        named_list_text raw stmt →
        Forall (fun c => is_named_list_char c = true) raw →
        mapW parseNamedImport (namedImportNames raw) = ret parsed →
        let currentSupportedFunctions :=
          List.filter
            (fun ni => isSupportedFunction supportedFunctions (actualName ni))
            parsed in
        let unsupportedFunctions :=
          List.filter
            (fun ni =>
               isUnsupportedFunction supportedFunctions (actualName ni))
            parsed in
        currentSupportedFunctions ≠ [] → unsupportedFunctions ≠ [] →
        ∃ pre1 post1 pre2 post2 pre3 post3 wa1 wb1 wa2 wb2 wa3 wb3 w rep,
          w = [lit "Unsupported lodash function"
               ++ (if 1 <? length unsupportedFunctions then lit "s" else [])
               ++ lit ": "
               ++ join (lit ", ") (map actualName unsupportedFunctions)]
          ∧ rep = lit "import { "
                  ++ join (lit ", ")
                       (map import_clause currentSupportedFunctions)
                  ++ lit " } from 'es-toolkit/compat';import { "
                  ++ join (lit ", ") (map import_clause unsupportedFunctions)
                  ++ lit " } from 'lodash'"
          ∧ (∀ st', fst (defaultImportPass supportedFunctions
                           (pre ++ stmt ++ post) st')
                    = (wa1 ++ wb1, Value (pre1 ++ stmt ++ post1)))
          ∧ (∀ st', fst (namedImportsPass supportedFunctions
                           (pre1 ++ stmt ++ post1) st')
                    = (wa2 ++ w ++ wb2, Value (pre2 ++ rep ++ post2)))
          ∧ (∀ st', fst (defaultSingleImportPass supportedFunctions
                           (pre2 ++ rep ++ post2) st')
                    = (wa3 ++ wb3, Value (pre3 ++ rep ++ post3)))
          ∧ fst (transform supportedFunctions (pre ++ stmt ++ post) id st)
            = ((wa1 ++ wb1) ++ (wa2 ++ w ++ wb2) ++ (wa3 ++ wb3),
               Value (Some (mkResult (pre3 ++ rep ++ post3) None)))
          ∧ (¬ substring (lit "import") pre →
             pre1 = pre ∧ pre2 = pre ∧ pre3 = pre
             ∧ wa1 = [] ∧ wa2 = [] ∧ wa3 = [])
          ∧ (¬ substring (lit "import") post →
             post1 = post ∧ post2 = post ∧ post3 = post
             ∧ wb1 = [] ∧ wb2 = [] ∧ wb3 = []))
  ∧ (∀ (id : str) (st : store),
        fst (transform [lit "isEqual"]
               (lit "import { isEqual as eq, every } from 'lodash';") id st)
        = ([lit "Unsupported lodash function: every"],
           Value (Some (mkResult
                    (lit "import { isEqual as eq } from 'es-toolkit/compat';import { every } from 'lodash';")
                    None)))
        ∧ fst (transform [lit "isEqual"]
                 (lit "import a from 'x'; import {every as all,  isEqual ,some} from 'lodash'; import b from 'y';")
                 id st)
          = ([lit "Unsupported lodash functions: every, some"],
             Value (Some (mkResult
                      (lit "import a from 'x'; import { isEqual } from 'es-toolkit/compat';import { every as all, some } from 'lodash'; import b from 'y';")
                      None)))).
Proof.
  split; [|split; [exact namedImportsPass_rewrites|split; [|split;
    [vm_compute; reflexivity|split; [|split; [exact render_clauses|split]]]]]].
  - intros fns src ms lf m Hex Hm.
    apply (exec_all_matches _ _ _ _ _ Hex) in Hm.
    apply namedImportsRegex_shape in Hm as (raw & C1 & _ & _ & Ht).
    destruct (namedImportNames_parse raw) as [parsed Hp].
    exists raw, parsed.
    split; [exact Ht|]. split; [exact C1|]. split; [exact Hp|].
    intros sup unsup Hsup Hunsup.
    unfold namedImportsCallback. rewrite Hp, bind_ret.
    fold sup. fold unsup.
    rewrite (nonempty_true unsup), (nonempty_true sup) by assumption.
    unfold warnUnsupportedFunction. rewrite length_map. reflexivity.
  - intros fns raw stmt pre post id st parsed Ht Hraw Hp sup unsup
      Hsup Hunsup Hpre Hpost.
    destruct (named_list_split_in_text fns raw stmt pre post id st parsed
                Ht Hraw Hp Hsup Hunsup)
      as (pre1 & post1 & pre2 & post2 & pre3 & post3 & wa1 & wb1 & wa2 & wb2
          & wa3 & wb3 & w & rep & Ew & Erep & _ & _ & _ & _ & Et & Ha & Hb).
    fold sup unsup in Ew, Erep. rewrite !render_clauses in Erep.
    destruct (Ha Hpre) as (_ & _ & -> & -> & -> & ->).
    destruct (Hb Hpost) as (_ & _ & -> & -> & -> & ->).
    rewrite Et, Ew, Erep. reflexivity.
  - intros id st. rewrite transform_fst. vm_compute. reflexivity.
  - intros fns raw stmt pre post id st parsed Ht Hraw Hp sup unsup
      Hsup Hunsup.
    destruct (named_list_split_in_text fns raw stmt pre post id st parsed
                Ht Hraw Hp Hsup Hunsup)
      as (pre1 & post1 & pre2 & post2 & pre3 & post3 & wa1 & wb1 & wa2 & wb2
          & wa3 & wb3 & w & rep & Ew & Erep & _ & H).
    fold sup unsup in Ew, Erep. rewrite !render_clauses in Erep.
    exists pre1, post1, pre2, post2, pre3, post3, wa1, wb1, wa2, wb2, wa3,
           wb3, w, rep.
    split; [exact Ew|]. split; [exact Erep|]. exact H.
  - intros id st. rewrite !transform_fst. split; vm_compute; reflexivity.
Qed.

(** * The three shapes of import at concrete texts *)

Ltac one_blank := split; [discriminate | repeat constructor].

Lemma transform_unchanged_signal_witness :
  fst (transform [lit "isEqual"] (lit "const x = 1;") (lit "a.ts") store0)
  = ([], Value None)
  ∧ ∃ src1 src2 w1 w2 w3,
      rewrites_matches defaultImportRegex
        (fun m cs =>
           defaultImportCallback [lit "isEqual"]
             (lit "import isEqual from 'lodash/isEqual';") m (cap 1 cs))
        (lit "import isEqual from 'lodash/isEqual';") (w1, Value src1)
      ∧ rewrites_matches namedImportsRegex
          (fun m cs => namedImportsCallback [lit "isEqual"] m (cap 1 cs))
          src1 (w2, Value src2)
      ∧ rewrites_matches defaultSingleImportRegex
          (fun m cs =>
             defaultSingleImportCallback [lit "isEqual"] m
               (cap 1 cs) (cap 2 cs))
          src2 (w3, Value (lit "import { isEqual } from 'es-toolkit/compat';"))
      ∧ fst (transform [lit "isEqual"]
               (lit "import isEqual from 'lodash/isEqual';") (lit "a.ts")
               store0)
        = (w1 ++ w2 ++ w3,
           Value (Some (mkResult
                    (lit "import { isEqual } from 'es-toolkit/compat';")
                    None))).
Proof.
  split.
  - destruct (transform_unchanged_signal [lit "isEqual"] (lit "const x = 1;")
                (lit "a.ts") store0) as (H1 & H2 & _).
    assert (¬ substring (lit "lodash") (lit "const x = 1;")) as Hn.
    { apply includes_false. vm_compute. reflexivity. }
    apply H1 in Hn as Hr. apply H2 in Hn as Hw.
    destruct (fst _) as [w o]. simpl in *. subst. reflexivity.
  - destruct (transform_unchanged_signal [lit "isEqual"]
                (lit "import isEqual from 'lodash/isEqual';") (lit "a.ts")
                store0) as (_ & _ & H3).
    destruct H3 as (src1 & src2 & src3 & w1 & w2 & w3 & R1 & R2 & R3 & E).
    { apply includes_spec. vm_compute. reflexivity. }
    assert (src3 = lit "import { isEqual } from 'es-toolkit/compat';") as ->.
    { assert (fst (transform [lit "isEqual"]
                     (lit "import isEqual from 'lodash/isEqual';")
                     (lit "a.ts") store0)
              = ret (Some (mkResult
                       (lit "import { isEqual } from 'es-toolkit/compat';")
                       None))) as Hv
        by (rewrite transform_fst; vm_compute; reflexivity).
      rewrite Hv in E. injection E as _ <-. reflexivity. }
    exists src1, src2, w1, w2, w3. auto.
Defined.

Lemma single_import_rewrite_witness :
  fst (transform [lit "isEqual"]
         (lit "const a = 1; "
          ++ lit "import lodashIsEqual from 'lodash/isEqual'"
          ++ lit "; lodashIsEqual(a, 1);")
         (lit "a.ts") store0)
  = ret (Some (mkResult
           (lit "const a = 1; "
            ++ lit "import { isEqual as lodashIsEqual } from 'es-toolkit/compat'"
            ++ lit "; lodashIsEqual(a, 1);")
           None)).
Proof.
  destruct (proj1 (proj2 (proj2 single_import_rewrite)) [lit "isEqual"]
              (lit "lodashIsEqual") (lit "isEqual")
              (lit "import lodashIsEqual from 'lodash/isEqual'")
              (lit "const a = 1; ") (lit "; lodashIsEqual(a, 1);")
              (lit "a.ts") store0)
    as (pre1 & post1 & pre2 & post2 & pre3 & post3 & wa1 & wb1 & wa2 & wb2
        & wa3 & wb3 & w & rep & _ & _ & Hren & _ & _ & _ & Et & Hpre & Hpost).
  - exists [32%N], [32%N], [32%N], 39%N, [], 39%N.
    split; [reflexivity|]. do 3 (split; [one_blank|]).
    split; [left; reflexivity|]. split; reflexivity.
  - one_blank.
  - one_blank.
  - destruct Hren as [-> ->]; [vm_compute; reflexivity | discriminate|].
    destruct Hpre as (_ & _ & -> & -> & -> & ->);
      [apply includes_false; vm_compute; reflexivity|].
    destruct Hpost as (_ & _ & -> & -> & -> & ->);
      [apply includes_false; vm_compute; reflexivity|].
    exact Et.
Defined.

Lemma default_import_kept_witness :
  fst (transform [lit "isEqual"]
         (lit "const a = 1; " ++ lit "import _ from 'lodash'"
          ++ lit "; _.unknownFn(a);")
         (lit "a.ts") store0)
  = ([lit "Unsupported lodash function: unknownFn"],
     Value (Some (mkResult
              (lit "const a = 1; " ++ lit "import _ from 'lodash'"
               ++ lit "; _.unknownFn(a);")
              None))).
Proof.
  destruct (proj1 (proj2 (proj2 default_import_kept)) [lit "isEqual"]
              (lit "_") (lit "import _ from 'lodash'")
              (lit "const a = 1; ") (lit "; _.unknownFn(a);")
              (lit "a.ts") store0)
    as (pre1 & post1 & pre2 & post2 & pre3 & post3 & wa1 & wb1 & wa2 & wb2
        & wa3 & wb3 & w & rep & _ & Hun & _ & _ & _ & Et & Hpre & Hpost).
  - exists [32%N], [32%N], [32%N], 39%N, 39%N.
    split; [reflexivity|]. do 3 (split; [one_blank|]).
    split; reflexivity.
  - one_blank.
  - destruct (Hun [lit "_.unknownFn"]) as [-> ->];
      [vm_compute; reflexivity | vm_compute; discriminate|].
    destruct Hpre as (_ & _ & -> & -> & -> & ->);
      [apply includes_false; vm_compute; reflexivity|].
    destruct Hpost as (_ & _ & -> & -> & -> & ->);
      [apply includes_false; vm_compute; reflexivity|].
    exact Et.
Defined.

Lemma default_import_rewrite_witness :
  fst (transform [lit "isEqual"]
         (lit "const a = 1; " ++ lit "import _ from 'lodash'"
          ++ lit "; _.isEqual(a, 1);")
         (lit "a.ts") store0)
  = ret (Some (mkResult
           (lit "const a = 1; "
            ++ lit "import { * as _ } from 'es-toolkit/compat'"
            ++ lit "; _.isEqual(a, 1);")
           None))
  ∧ lit "import { * as _ } from 'es-toolkit/compat'"
    ≠ namespace_import (lit "_").
Proof.
  destruct (proj1 (proj2 (proj2 default_import_rewrite)) [lit "isEqual"]
              (lit "_") (lit "import _ from 'lodash'")
              (lit "const a = 1; ") (lit "; _.isEqual(a, 1);")
              (lit "a.ts") store0 [lit "_.isEqual"])
    as (pre1 & post1 & pre2 & post2 & pre3 & post3 & wa1 & wb1 & wa2 & wb2
        & wa3 & wb3 & rep & -> & Hdiff & _ & _ & _ & Et & Hpre & Hpost).
  - exists [32%N], [32%N], [32%N], 39%N, 39%N.
    split; [reflexivity|]. do 3 (split; [one_blank|]).
    split; reflexivity.
  - one_blank.
  - vm_compute. reflexivity.
  - intros symbol Hin. apply list_elem_of_singleton in Hin.
    vm_compute in Hin. injection Hin as ->. vm_compute. reflexivity.
  - split; [|exact Hdiff].
    destruct Hpre as (_ & _ & -> & -> & -> & ->);
      [apply includes_false; vm_compute; reflexivity|].
    destruct Hpost as (_ & _ & -> & -> & -> & ->);
      [apply includes_false; vm_compute; reflexivity|].
    exact Et.
Defined.

Lemma named_list_split_witness :
  fst (transform [lit "isEqual"]
         (lit "const a = 1; "
          ++ lit "import { isEqual as eq, every } from 'lodash'"
          ++ lit "; eq(a, 1);")
         (lit "a.ts") store0)
  = ([lit "Unsupported lodash function: every"],
     Value (Some (mkResult
              (lit "const a = 1; "
               ++ lit "import { isEqual as eq } from 'es-toolkit/compat';import { every } from 'lodash'"
               ++ lit "; eq(a, 1);")
              None))).
Proof.
  pose proof (proj1 (proj2 (proj2 (proj2 (proj2 (proj2
                (proj2 named_list_split)))))) [lit "isEqual"]
                (lit "isEqual as eq, every")
                (lit "import { isEqual as eq, every } from 'lodash'")
                (lit "const a = 1; ") (lit "; eq(a, 1);")
                (lit "a.ts") store0
                [mkNamedImport (lit "isEqual") (lit "eq");
                 mkNamedImport (lit "every") (lit "every")]) as H.
  cbv zeta in H.
  destruct H
    as (pre1 & post1 & pre2 & post2 & pre3 & post3 & wa1 & wb1 & wa2 & wb2
        & wa3 & wb3 & w & rep & -> & -> & _ & _ & _ & Et & Hpre & Hpost).
  - exists [32%N], [32%N], [32%N], [32%N], [32%N], 39%N, 39%N.
    split; [reflexivity|]. split; [one_blank|].
    do 2 (split; [repeat constructor|]). do 2 (split; [one_blank|]).
    split; reflexivity.
  - repeat constructor.
  - vm_compute. reflexivity.
  - vm_compute. discriminate.
  - vm_compute. discriminate.
  - destruct Hpre as (_ & _ & -> & -> & -> & ->);
      [apply includes_false; vm_compute; reflexivity|].
    destruct Hpost as (_ & _ & -> & -> & -> & ->);
      [apply includes_false; vm_compute; reflexivity|].
    exact Et.
Defined.

(** * The two groups of a named-list import *)

Section Groups.

Variable supportedFunctions : list str.

Lemma groups_partition (parsed : list NamedImport) :
  List.filter (fun ni => isSupportedFunction supportedFunctions (actualName ni))
              parsed
  ++ List.filter
       (fun ni => isUnsupportedFunction supportedFunctions (actualName ni))
       parsed
  ≡ₚ parsed
  ∧ Forall (fun ni =>
              isSupportedFunction supportedFunctions (actualName ni) = true)
           (List.filter
              (fun ni => isSupportedFunction supportedFunctions (actualName ni))
              parsed)
  ∧ Forall (fun ni =>
              isSupportedFunction supportedFunctions (actualName ni) = false)
           (List.filter
              (fun ni =>
                 isUnsupportedFunction supportedFunctions (actualName ni))
              parsed).
Proof.
  unfold isUnsupportedFunction.
  induction parsed as [|ni parsed (IH1 & IH2 & IH3)];
    [repeat split; constructor|].
  simpl.
  destruct (isSupportedFunction supportedFunctions (actualName ni)) eqn:E;
    simpl.
  - split; [constructor; exact IH1|]. split; [constructor|]; assumption.
  - split; [|split; [|constructor]; assumption].
    rewrite <- Permutation_middle. constructor. exact IH1.
Qed.

End Groups.

(** X6.  What the callback of the second pass writes for a list, by
    its parsed tokens: the tokens fall into a supported group and an
    unsupported group, each in the order of the list, that share the
    tokens between them (put one after the other they are a
    rearrangement of the parsed tokens, so no name is lost and none
    is written twice).  With no unsupported token the callback gives
    one import of all names from [es-toolkit/compat]; with unsupported
    tokens only it warns and gives the statement back; with both it
    warns and gives the import of the supported group from
    [es-toolkit/compat] and the import of the unsupported group from
    [lodash].  Every name that is written is written as its clause. *)
Theorem named_list_groups
    (supportedFunctions : list str) (m raw : str)
    (parsed : list NamedImport) :
  mapW parseNamedImport (namedImportNames raw) = ret parsed →
  ∃ supported unsupported,
    supported ++ unsupported ≡ₚ parsed
    ∧ supported `sublist_of` parsed ∧ unsupported `sublist_of` parsed
    ∧ Forall (fun ni =>
                isSupportedFunction supportedFunctions (actualName ni) = true)
             supported
    ∧ Forall (fun ni =>
                isSupportedFunction supportedFunctions (actualName ni) = false)
             unsupported
    ∧ (unsupported = [] →
       namedImportsCallback supportedFunctions m raw
       = ret (lit "import { "
              ++ join (lit ", ") (map import_clause supported)
              ++ lit " } from 'es-toolkit/compat'"))
    ∧ (unsupported ≠ [] → supported = [] →
       namedImportsCallback supportedFunctions m raw
       = ([lit "Unsupported lodash function"
           ++ (if 1 <? length unsupported then lit "s" else [])
           ++ lit ": " ++ join (lit ", ") (map actualName unsupported)],
          Value m))
    ∧ (unsupported ≠ [] → supported ≠ [] →
       namedImportsCallback supportedFunctions m raw
       = ([lit "Unsupported lodash function"
           ++ (if 1 <? length unsupported then lit "s" else [])
           ++ lit ": " ++ join (lit ", ") (map actualName unsupported)],
          Value (lit "import { "
                 ++ join (lit ", ") (map import_clause supported)
                 ++ lit " } from 'es-toolkit/compat';import { "
                 ++ join (lit ", ") (map import_clause unsupported)
                 ++ lit " } from 'lodash'"))).
Proof.
  intros Hp.
  pose proof (namedImportsCallback_parsed supportedFunctions m raw parsed Hp)
    as Hcb.
  cbv zeta in Hcb. rewrite !render_clauses in Hcb.
  destruct (groups_partition supportedFunctions parsed) as (H1 & H2 & H3).
  eexists _, _. split; [exact H1|].
  split; [apply filter_sublist|]. split; [apply filter_sublist|].
  split; [exact H2|]. split; [exact H3|]. rewrite Hcb. split; [|split].
  - intros ->. reflexivity.
  - intros Hu ->. rewrite (nonempty_true _ Hu). reflexivity.
  - intros Hu Hs. rewrite (nonempty_true _ Hu), (nonempty_true _ Hs).
    reflexivity.
Qed.

Lemma named_list_groups_witness :
  ∃ supported unsupported,
    supported ++ unsupported
    ≡ₚ [mkNamedImport (lit "every") (lit "all");
        mkNamedImport (lit "isEqual") (lit "isEqual")]
    ∧ Forall (fun ni => isSupportedFunction [lit "isEqual"] (actualName ni)
                        = true) supported
    ∧ Forall (fun ni => isSupportedFunction [lit "isEqual"] (actualName ni)
                        = false) unsupported
    ∧ (unsupported ≠ [] → supported ≠ [] →
       namedImportsCallback [lit "isEqual"]
         (lit "import { every as all, isEqual } from 'lodash'")
         (lit "every as all, isEqual ")
       = ([lit "Unsupported lodash function"
           ++ (if 1 <? length unsupported then lit "s" else [])
           ++ lit ": " ++ join (lit ", ") (map actualName unsupported)],
          Value (lit "import { "
                 ++ join (lit ", ") (map import_clause supported)
                 ++ lit " } from 'es-toolkit/compat';import { "
                 ++ join (lit ", ") (map import_clause unsupported)
                 ++ lit " } from 'lodash'"))).
Proof.
  destruct (named_list_groups [lit "isEqual"]
              (lit "import { every as all, isEqual } from 'lodash'")
              (lit "every as all, isEqual ")
              [mkNamedImport (lit "every") (lit "all");
               mkNamedImport (lit "isEqual") (lit "isEqual")])
    as (sup & unsup & H1 & _ & _ & H2 & H3 & _ & _ & H4).
  - vm_compute. reflexivity.
  - exists sup, unsup. auto.
Defined.
